(** * DeepCasm: the eZ80 ADL-mode assembler and linker

    A shallow embedding of the assembler ([ez80asm.c], [ez80instr.c],
    [ez80dir.c]) and of the linker ([ld.c]), followed by the properties the
    design document states about them.

    Conventions of the embedding.
    - [int24] and [uint24] are the 24-bit [int] and [unsigned] of the target
      (objformat.h: "On eZ80 ADL mode: char=8bit, int=24bit, long=24bit");
      values live in [Z] and every C operation on them is wrapped explicitly.
      Plain [int] counters (errors, line numbers, table sizes) stay far below
      the wrap and are kept unwrapped.
    - A C string is a [string] without an interior NUL; a [char] buffer that
      may hold NUL bytes (the text of a string token) is a [string] that its
      readers cut with [c_str], as the C loops [for (p = s; *p; p++)] do.
    - A function of [AsmState *] is a function from states to states, or a
      computation in the monad [M] when it can run out of fuel (the
      recursive-descent expression parser, nested [include]).
    - Diagnostics are written to a log of messages ([diag]) in place of
      stderr; a message is logged by its format string. *)

From Stdlib Require Import ZArith List String Ascii Bool Lia DecimalString.
Import ListNotations.
Open Scope string_scope.
Open Scope list_scope.
Open Scope Z_scope.

(** ** objformat.h: integer types and the constants of the object format *)

Definition uint8 (z : Z) : Z := z mod 256.
Definition uint24 (z : Z) : Z := z mod 16777216.
Definition int24 (z : Z) : Z := (z + 8388608) mod 16777216 - 8388608.

Definition OBJ_MAGIC_0 : Z := 0x45.
Definition OBJ_MAGIC_1 : Z := 0x5A.
Definition OBJ_MAGIC_2 : Z := 0x38.
Definition OBJ_MAGIC_3 : Z := 0x4F.
Definition OBJ_VERSION : Z := 3.

Definition SECT_CODE : Z := 1.
Definition SECT_DATA : Z := 2.
Definition SECT_BSS : Z := 3.

Definition SYM_LOCAL : Z := 0.
Definition SYM_EXPORT : Z := 1.
Definition SYM_EXTERN : Z := 2.

Definition RELOC_ADDR24 : Z := 1.

Definition sizeof_ObjHeader : Z := 27.
Definition sizeof_ObjSymbol : Z := 10.
Definition sizeof_ObjReloc : Z := 8.
Definition sizeof_ObjExtern : Z := 6.

(** [WRITE24(arr, val)]: three bytes, least significant first. *)
Definition WRITE24 (val : Z) : list Z :=
  [Z.land val 0xFF; Z.land (Z.shiftr val 8) 0xFF; Z.land (Z.shiftr val 16) 0xFF].

(** [READ24(arr)] on three bytes. *)
Definition READ24 (b0 b1 b2 : Z) : Z :=
  Z.lor (Z.lor b0 (Z.shiftl b1 8)) (Z.shiftl b2 16).

(** ** Characters and C strings *)

Definition chr (c : ascii) : Z := Z.of_N (N_of_ascii c).
Definition NUL : ascii := ascii_of_N 0.
Definition DQUOTE : ascii := ascii_of_N 34.

Definition isdigit (c : ascii) : bool := (48 <=? chr c) && (chr c <=? 57).
Definition isupper (c : ascii) : bool := (65 <=? chr c) && (chr c <=? 90).
Definition islower (c : ascii) : bool := (97 <=? chr c) && (chr c <=? 122).
Definition isalpha (c : ascii) : bool := isupper c || islower c.
Definition isalnum (c : ascii) : bool := isalpha c || isdigit c.
Definition isxdigit (c : ascii) : bool :=
  isdigit c || ((65 <=? chr c) && (chr c <=? 70)) || ((97 <=? chr c) && (chr c <=? 102)).
Definition tolower (c : ascii) : ascii :=
  if isupper c then ascii_of_N (N_of_ascii c + 32) else c.

(** [*p] and [p + 1] on a NUL-terminated string. A pointer advanced past the
    terminator stays on it. *)
Definition deref (p : string) : ascii :=
  match p with String c _ => c | EmptyString => NUL end.
Definition next (p : string) : string :=
  match p with String _ r => r | EmptyString => EmptyString end.

(** The C string held in a buffer: the characters before the first NUL. *)
Fixpoint c_str (s : string) : string :=
  match s with
  | EmptyString => EmptyString
  | String c r => if Ascii.eqb c NUL then EmptyString else String c (c_str r)
  end.

Fixpoint str_take (n : nat) (s : string) : string :=
  match n, s with
  | S n', String c r => String c (str_take n' r)
  | _, _ => EmptyString
  end.

Fixpoint str_map (f : ascii -> ascii) (s : string) : string :=
  match s with
  | EmptyString => EmptyString
  | String c r => String (f c) (str_map f r)
  end.

Definition strlen (s : string) : Z := Z.of_nat (String.length (c_str s)).

(** [strcmp] on unsigned characters, as a comparison. *)
Fixpoint strcmp (a b : string) : comparison :=
  match a, b with
  | EmptyString, EmptyString => Eq
  | EmptyString, String _ _ => Lt
  | String _ _, EmptyString => Gt
  | String x a', String y b' =>
      match chr x ?= chr y with
      | Eq => strcmp a' b'
      | c => c
      end
  end.

Definition streq (a b : string) : bool :=
  match strcmp (c_str a) (c_str b) with Eq => true | _ => false end.

(** [str_copy(dest, src, maxlen)]: at most [maxlen - 1] characters. *)
Definition str_copy (src : string) (maxlen : Z) : string :=
  str_take (Z.to_nat (maxlen - 1)) (c_str src).

(** The longest prefix of at most [n] characters that satisfy [p], and the
    rest. *)
Fixpoint span (p : ascii -> bool) (n : nat) (s : string) : string * string :=
  match n, s with
  | S n', String c r =>
      if p c then let '(t, s') := span p n' r in (String c t, s') else (EmptyString, s)
  | _, _ => (EmptyString, s)
  end.

Fixpoint skip_while (p : ascii -> bool) (s : string) : string :=
  match s with
  | String c r => if p c then skip_while p r else s
  | EmptyString => s
  end.

(** Binary search of a table sorted by [strcmp], as [simple_lookup],
    [instr_lookup], [parse_register] and [parse_condition] run it. *)
Fixpoint bsearch {A : Type} (fuel : nat) (key : A -> string) (tbl : list A)
    (lower : string) (lo hi : Z) : option (Z * A) :=
  match fuel with
  | O => None
  | S f =>
      if lo <=? hi then
        let mid := (lo + hi) / 2 in
        match nth_error tbl (Z.to_nat mid) with
        | None => None
        | Some e =>
            match strcmp lower (key e) with
            | Eq => Some (mid, e)
            | Lt => bsearch f key tbl lower lo (mid - 1)
            | Gt => bsearch f key tbl lower (mid + 1) hi
            end
        end
      else None
  end.

Definition table_lookup {A : Type} (key : A -> string) (tbl : list A)
    (lower : string) : option (Z * A) :=
  bsearch (S (List.length tbl)) key tbl lower 0 (Z.of_nat (List.length tbl) - 1).

(** [l[i] = f(l[i])]; nothing is written past the end. *)
Fixpoint list_update {A : Type} (i : nat) (f : A -> A) (l : list A) : list A :=
  match l, i with
  | [], _ => []
  | x :: r, O => f x :: r
  | x :: r, S i' => x :: list_update i' f r
  end.

Module Asm.

(** ** ez80asm.h *)

Definition MAX_LINE_LEN : Z := 512.
Definition MAX_LABEL_LEN : Z := 64.
Definition MAX_STRING_LEN : Z := 256.
Definition MAX_SYMBOLS : Z := 4096.
Definition MAX_EXTERNS : Z := 128.
Definition SYM_HASH_SIZE : Z := 256.

(** [strtoul] saturates at [ULONG_MAX]; [long] has 24 bits on the target. *)
Definition ULONG_MAX : Z := 16777215.

Inductive TokType : Type :=
| TOK_EOF | TOK_EOL | TOK_LABEL | TOK_IDENT | TOK_NUMBER | TOK_STRING
| TOK_CHAR | TOK_COMMA | TOK_COLON | TOK_LPAREN | TOK_RPAREN | TOK_PLUS
| TOK_MINUS | TOK_STAR | TOK_SLASH | TOK_DOLLAR | TOK_HASH | TOK_DOT
| TOK_EQUALS | TOK_ERROR.

Definition TokType_eqb (a b : TokType) : bool :=
  match a, b with
  | TOK_EOF, TOK_EOF | TOK_EOL, TOK_EOL | TOK_LABEL, TOK_LABEL
  | TOK_IDENT, TOK_IDENT | TOK_NUMBER, TOK_NUMBER | TOK_STRING, TOK_STRING
  | TOK_CHAR, TOK_CHAR | TOK_COMMA, TOK_COMMA | TOK_COLON, TOK_COLON
  | TOK_LPAREN, TOK_LPAREN | TOK_RPAREN, TOK_RPAREN | TOK_PLUS, TOK_PLUS
  | TOK_MINUS, TOK_MINUS | TOK_STAR, TOK_STAR | TOK_SLASH, TOK_SLASH
  | TOK_DOLLAR, TOK_DOLLAR | TOK_HASH, TOK_HASH | TOK_DOT, TOK_DOT
  | TOK_EQUALS, TOK_EQUALS | TOK_ERROR, TOK_ERROR => true
  | _, _ => false
  end.

(** [Token]: the fields [line] and [column] are written and never read. *)
Record Token : Type := mkToken {
  tok_type : TokType;
  tok_text : string;
  tok_value : Z
}.

Inductive Reg : Type :=
| REG_NONE | REG_A | REG_B | REG_C | REG_D | REG_E | REG_H | REG_L
| REG_IXH | REG_IXL | REG_IYH | REG_IYL | REG_I | REG_R | REG_MB
| REG_AF | REG_BC | REG_DE | REG_HL | REG_SP | REG_IX | REG_IY | REG_AF_
| REG_IND_BC | REG_IND_DE | REG_IND_HL | REG_IND_SP | REG_IND_IX
| REG_IND_IY | REG_IND_C.

Definition Reg_code (r : Reg) : Z :=
  match r with
  | REG_NONE => 0 | REG_A => 1 | REG_B => 2 | REG_C => 3 | REG_D => 4
  | REG_E => 5 | REG_H => 6 | REG_L => 7 | REG_IXH => 8 | REG_IXL => 9
  | REG_IYH => 10 | REG_IYL => 11 | REG_I => 12 | REG_R => 13 | REG_MB => 14
  | REG_AF => 15 | REG_BC => 16 | REG_DE => 17 | REG_HL => 18 | REG_SP => 19
  | REG_IX => 20 | REG_IY => 21 | REG_AF_ => 22 | REG_IND_BC => 23
  | REG_IND_DE => 24 | REG_IND_HL => 25 | REG_IND_SP => 26 | REG_IND_IX => 27
  | REG_IND_IY => 28 | REG_IND_C => 29
  end.

Definition Reg_eqb (a b : Reg) : bool := Reg_code a =? Reg_code b.

Definition CC_NONE : Z := -1.
Definition CC_NZ : Z := 0.
Definition CC_Z : Z := 1.
Definition CC_NC : Z := 2.
Definition CC_C : Z := 3.
Definition CC_PO : Z := 4.
Definition CC_PE : Z := 5.
Definition CC_P : Z := 6.
Definition CC_M : Z := 7.

Inductive OpType : Type :=
| OP_NONE | OP_REG | OP_IMM | OP_ADDR | OP_IND_REG | OP_IX_OFF | OP_IY_OFF
| OP_COND | OP_BIT | OP_RST | OP_IM.

Definition OpType_eqb (a b : OpType) : bool :=
  match a, b with
  | OP_NONE, OP_NONE | OP_REG, OP_REG | OP_IMM, OP_IMM | OP_ADDR, OP_ADDR
  | OP_IND_REG, OP_IND_REG | OP_IX_OFF, OP_IX_OFF | OP_IY_OFF, OP_IY_OFF
  | OP_COND, OP_COND | OP_BIT, OP_BIT | OP_RST, OP_RST | OP_IM, OP_IM => true
  | _, _ => false
  end.

Record Operand : Type := mkOperand {
  op_type : OpType;
  op_reg : Reg;
  op_cc : Z;
  op_value : Z;
  op_symbol : string;
  op_has_symbol : bool
}.

(** [Symbol]: the hash chain ([hash_next], [sym_hash]) is kept as the bucket
    a symbol was chained into; a chain is walked from its most recent entry. *)
Record Symbol : Type := mkSymbol {
  sym_name : string;
  sym_value : Z;
  sym_section : Z;
  sym_flags : Z;
  sym_defined : bool;
  sym_pass1_value : Z;
  sym_bucket : Z
}.

Record Relocation : Type := mkRelocation {
  rel_offset : Z;
  rel_section : Z;
  rel_type : Z;
  rel_target_sect : Z;
  rel_ext_index : Z
}.

(** [AsmState]. The three scratch files are [None] while the [FILE *] is
    [NULL]; [symbols] and [externs] are the arrays up to [num_symbols] and
    [num_externs]. *)
Record AsmState : Type := {
  pass : Z;
  errors : Z;
  warnings : Z;
  diag : list string;
  line_num : Z;
  line_ptr : string;
  current_token : Token;
  peek_token : Token;
  code_tmp : option (list Z);
  data_tmp : option (list Z);
  reloc_tmp : option (list Relocation);
  code_size : Z;
  data_size : Z;
  bss_size : Z;
  num_relocs : Z;
  current_section : Z;
  pc : Z;
  code_pc : Z;
  data_pc : Z;
  bss_pc : Z;
  symbols : list Symbol;
  externs : list string;
  local_scope : Z
}.

Definition set_pass (v : Z) (st : AsmState) : AsmState :=
  Build_AsmState v (errors st) (warnings st) (diag st) (line_num st) (line_ptr
    st) (current_token st) (peek_token st) (code_tmp st) (data_tmp st)
    (reloc_tmp st) (code_size st) (data_size st) (bss_size st) (num_relocs st)
    (current_section st) (pc st) (code_pc st) (data_pc st) (bss_pc st)
    (symbols st) (externs st) (local_scope st).

Definition set_errors (v : Z) (st : AsmState) : AsmState :=
  Build_AsmState (pass st) v (warnings st) (diag st) (line_num st) (line_ptr
    st) (current_token st) (peek_token st) (code_tmp st) (data_tmp st)
    (reloc_tmp st) (code_size st) (data_size st) (bss_size st) (num_relocs st)
    (current_section st) (pc st) (code_pc st) (data_pc st) (bss_pc st)
    (symbols st) (externs st) (local_scope st).

Definition set_warnings (v : Z) (st : AsmState) : AsmState :=
  Build_AsmState (pass st) (errors st) v (diag st) (line_num st) (line_ptr st)
    (current_token st) (peek_token st) (code_tmp st) (data_tmp st) (reloc_tmp
    st) (code_size st) (data_size st) (bss_size st) (num_relocs st)
    (current_section st) (pc st) (code_pc st) (data_pc st) (bss_pc st)
    (symbols st) (externs st) (local_scope st).

Definition set_diag (v : list string) (st : AsmState) : AsmState :=
  Build_AsmState (pass st) (errors st) (warnings st) v (line_num st) (line_ptr
    st) (current_token st) (peek_token st) (code_tmp st) (data_tmp st)
    (reloc_tmp st) (code_size st) (data_size st) (bss_size st) (num_relocs st)
    (current_section st) (pc st) (code_pc st) (data_pc st) (bss_pc st)
    (symbols st) (externs st) (local_scope st).

Definition set_line_num (v : Z) (st : AsmState) : AsmState :=
  Build_AsmState (pass st) (errors st) (warnings st) (diag st) v (line_ptr st)
    (current_token st) (peek_token st) (code_tmp st) (data_tmp st) (reloc_tmp
    st) (code_size st) (data_size st) (bss_size st) (num_relocs st)
    (current_section st) (pc st) (code_pc st) (data_pc st) (bss_pc st)
    (symbols st) (externs st) (local_scope st).

Definition set_line_ptr (v : string) (st : AsmState) : AsmState :=
  Build_AsmState (pass st) (errors st) (warnings st) (diag st) (line_num st) v
    (current_token st) (peek_token st) (code_tmp st) (data_tmp st) (reloc_tmp
    st) (code_size st) (data_size st) (bss_size st) (num_relocs st)
    (current_section st) (pc st) (code_pc st) (data_pc st) (bss_pc st)
    (symbols st) (externs st) (local_scope st).

Definition set_current_token (v : Token) (st : AsmState) : AsmState :=
  Build_AsmState (pass st) (errors st) (warnings st) (diag st) (line_num st)
    (line_ptr st) v (peek_token st) (code_tmp st) (data_tmp st) (reloc_tmp st)
    (code_size st) (data_size st) (bss_size st) (num_relocs st)
    (current_section st) (pc st) (code_pc st) (data_pc st) (bss_pc st)
    (symbols st) (externs st) (local_scope st).

Definition set_peek_token (v : Token) (st : AsmState) : AsmState :=
  Build_AsmState (pass st) (errors st) (warnings st) (diag st) (line_num st)
    (line_ptr st) (current_token st) v (code_tmp st) (data_tmp st) (reloc_tmp
    st) (code_size st) (data_size st) (bss_size st) (num_relocs st)
    (current_section st) (pc st) (code_pc st) (data_pc st) (bss_pc st)
    (symbols st) (externs st) (local_scope st).

Definition set_code_tmp (v : option (list Z)) (st : AsmState) : AsmState :=
  Build_AsmState (pass st) (errors st) (warnings st) (diag st) (line_num st)
    (line_ptr st) (current_token st) (peek_token st) v (data_tmp st)
    (reloc_tmp st) (code_size st) (data_size st) (bss_size st) (num_relocs st)
    (current_section st) (pc st) (code_pc st) (data_pc st) (bss_pc st)
    (symbols st) (externs st) (local_scope st).

Definition set_data_tmp (v : option (list Z)) (st : AsmState) : AsmState :=
  Build_AsmState (pass st) (errors st) (warnings st) (diag st) (line_num st)
    (line_ptr st) (current_token st) (peek_token st) (code_tmp st) v
    (reloc_tmp st) (code_size st) (data_size st) (bss_size st) (num_relocs st)
    (current_section st) (pc st) (code_pc st) (data_pc st) (bss_pc st)
    (symbols st) (externs st) (local_scope st).

Definition set_reloc_tmp (v : option (list Relocation)) (st : AsmState) : AsmState :=
  Build_AsmState (pass st) (errors st) (warnings st) (diag st) (line_num st)
    (line_ptr st) (current_token st) (peek_token st) (code_tmp st) (data_tmp
    st) v (code_size st) (data_size st) (bss_size st) (num_relocs st)
    (current_section st) (pc st) (code_pc st) (data_pc st) (bss_pc st)
    (symbols st) (externs st) (local_scope st).

Definition set_code_size (v : Z) (st : AsmState) : AsmState :=
  Build_AsmState (pass st) (errors st) (warnings st) (diag st) (line_num st)
    (line_ptr st) (current_token st) (peek_token st) (code_tmp st) (data_tmp
    st) (reloc_tmp st) v (data_size st) (bss_size st) (num_relocs st)
    (current_section st) (pc st) (code_pc st) (data_pc st) (bss_pc st)
    (symbols st) (externs st) (local_scope st).

Definition set_data_size (v : Z) (st : AsmState) : AsmState :=
  Build_AsmState (pass st) (errors st) (warnings st) (diag st) (line_num st)
    (line_ptr st) (current_token st) (peek_token st) (code_tmp st) (data_tmp
    st) (reloc_tmp st) (code_size st) v (bss_size st) (num_relocs st)
    (current_section st) (pc st) (code_pc st) (data_pc st) (bss_pc st)
    (symbols st) (externs st) (local_scope st).

Definition set_bss_size (v : Z) (st : AsmState) : AsmState :=
  Build_AsmState (pass st) (errors st) (warnings st) (diag st) (line_num st)
    (line_ptr st) (current_token st) (peek_token st) (code_tmp st) (data_tmp
    st) (reloc_tmp st) (code_size st) (data_size st) v (num_relocs st)
    (current_section st) (pc st) (code_pc st) (data_pc st) (bss_pc st)
    (symbols st) (externs st) (local_scope st).

Definition set_num_relocs (v : Z) (st : AsmState) : AsmState :=
  Build_AsmState (pass st) (errors st) (warnings st) (diag st) (line_num st)
    (line_ptr st) (current_token st) (peek_token st) (code_tmp st) (data_tmp
    st) (reloc_tmp st) (code_size st) (data_size st) (bss_size st) v
    (current_section st) (pc st) (code_pc st) (data_pc st) (bss_pc st)
    (symbols st) (externs st) (local_scope st).

Definition set_current_section (v : Z) (st : AsmState) : AsmState :=
  Build_AsmState (pass st) (errors st) (warnings st) (diag st) (line_num st)
    (line_ptr st) (current_token st) (peek_token st) (code_tmp st) (data_tmp
    st) (reloc_tmp st) (code_size st) (data_size st) (bss_size st) (num_relocs
    st) v (pc st) (code_pc st) (data_pc st) (bss_pc st) (symbols st) (externs
    st) (local_scope st).

Definition set_pc (v : Z) (st : AsmState) : AsmState :=
  Build_AsmState (pass st) (errors st) (warnings st) (diag st) (line_num st)
    (line_ptr st) (current_token st) (peek_token st) (code_tmp st) (data_tmp
    st) (reloc_tmp st) (code_size st) (data_size st) (bss_size st) (num_relocs
    st) (current_section st) v (code_pc st) (data_pc st) (bss_pc st) (symbols
    st) (externs st) (local_scope st).

Definition set_code_pc (v : Z) (st : AsmState) : AsmState :=
  Build_AsmState (pass st) (errors st) (warnings st) (diag st) (line_num st)
    (line_ptr st) (current_token st) (peek_token st) (code_tmp st) (data_tmp
    st) (reloc_tmp st) (code_size st) (data_size st) (bss_size st) (num_relocs
    st) (current_section st) (pc st) v (data_pc st) (bss_pc st) (symbols st)
    (externs st) (local_scope st).

Definition set_data_pc (v : Z) (st : AsmState) : AsmState :=
  Build_AsmState (pass st) (errors st) (warnings st) (diag st) (line_num st)
    (line_ptr st) (current_token st) (peek_token st) (code_tmp st) (data_tmp
    st) (reloc_tmp st) (code_size st) (data_size st) (bss_size st) (num_relocs
    st) (current_section st) (pc st) (code_pc st) v (bss_pc st) (symbols st)
    (externs st) (local_scope st).

Definition set_bss_pc (v : Z) (st : AsmState) : AsmState :=
  Build_AsmState (pass st) (errors st) (warnings st) (diag st) (line_num st)
    (line_ptr st) (current_token st) (peek_token st) (code_tmp st) (data_tmp
    st) (reloc_tmp st) (code_size st) (data_size st) (bss_size st) (num_relocs
    st) (current_section st) (pc st) (code_pc st) (data_pc st) v (symbols st)
    (externs st) (local_scope st).

Definition set_symbols (v : list Symbol) (st : AsmState) : AsmState :=
  Build_AsmState (pass st) (errors st) (warnings st) (diag st) (line_num st)
    (line_ptr st) (current_token st) (peek_token st) (code_tmp st) (data_tmp
    st) (reloc_tmp st) (code_size st) (data_size st) (bss_size st) (num_relocs
    st) (current_section st) (pc st) (code_pc st) (data_pc st) (bss_pc st) v
    (externs st) (local_scope st).

Definition set_externs (v : list string) (st : AsmState) : AsmState :=
  Build_AsmState (pass st) (errors st) (warnings st) (diag st) (line_num st)
    (line_ptr st) (current_token st) (peek_token st) (code_tmp st) (data_tmp
    st) (reloc_tmp st) (code_size st) (data_size st) (bss_size st) (num_relocs
    st) (current_section st) (pc st) (code_pc st) (data_pc st) (bss_pc st)
    (symbols st) v (local_scope st).

Definition set_local_scope (v : Z) (st : AsmState) : AsmState :=
  Build_AsmState (pass st) (errors st) (warnings st) (diag st) (line_num st)
    (line_ptr st) (current_token st) (peek_token st) (code_tmp st) (data_tmp
    st) (reloc_tmp st) (code_size st) (data_size st) (bss_size st) (num_relocs
    st) (current_section st) (pc st) (code_pc st) (data_pc st) (bss_pc st)
    (symbols st) (externs st) v.

Definition set_sym_name (v : string) (s : Symbol) : Symbol :=
  mkSymbol v (sym_value s) (sym_section s) (sym_flags s) (sym_defined s)
    (sym_pass1_value s) (sym_bucket s).

Definition set_sym_value (v : Z) (s : Symbol) : Symbol :=
  mkSymbol (sym_name s) v (sym_section s) (sym_flags s) (sym_defined s)
    (sym_pass1_value s) (sym_bucket s).

Definition set_sym_section (v : Z) (s : Symbol) : Symbol :=
  mkSymbol (sym_name s) (sym_value s) v (sym_flags s) (sym_defined s)
    (sym_pass1_value s) (sym_bucket s).

Definition set_sym_flags (v : Z) (s : Symbol) : Symbol :=
  mkSymbol (sym_name s) (sym_value s) (sym_section s) v (sym_defined s)
    (sym_pass1_value s) (sym_bucket s).

Definition set_sym_defined (v : bool) (s : Symbol) : Symbol :=
  mkSymbol (sym_name s) (sym_value s) (sym_section s) (sym_flags s) v
    (sym_pass1_value s) (sym_bucket s).

Definition set_sym_pass1_value (v : Z) (s : Symbol) : Symbol :=
  mkSymbol (sym_name s) (sym_value s) (sym_section s) (sym_flags s)
    (sym_defined s) v (sym_bucket s).

Definition set_sym_bucket (v : Z) (s : Symbol) : Symbol :=
  mkSymbol (sym_name s) (sym_value s) (sym_section s) (sym_flags s)
    (sym_defined s) (sym_pass1_value s) v.

(** ** The state monad of the assembler *)

Definition M (A : Type) : Type := AsmState -> option (A * AsmState).

Definition ret {A : Type} (a : A) : M A := fun st => Some (a, st).

Definition bind {A B : Type} (m : M A) (k : A -> M B) : M B :=
  fun st => match m st with
            | Some (a, st') => k a st'
            | None => None
            end.

Definition gets {A : Type} (f : AsmState -> A) : M A := fun st => Some (f st, st).

Definition modify (f : AsmState -> AsmState) : M unit := fun st => Some (tt, f st).

(** Out of fuel. *)
Definition out_of_fuel {A : Type} : M A := fun _ => None.

Notation "x <- m ;; k" := (bind m (fun x => k))
  (at level 61, m at next level, right associativity).
Notation "m ;;; k" := (bind m (fun _ => k))
  (at level 61, right associativity).

(** ** ez80asm.c: utilities and diagnostics *)

Definition is_8bit (val : Z) : bool := (0 <=? val) && (val <=? 255).
Definition is_16bit (val : Z) : bool := (0 <=? val) && (val <=? 65535).
Definition is_24bit (val : Z) : bool := (0 <=? val) && (val <=? 0xFFFFFF).
Definition is_signed_8bit (val : Z) : bool := (-128 <=? val) && (val <=? 127).

(** [str_casecmp(s1, s2) == 0]. *)
Definition str_casecmp_eq (s1 s2 : string) : bool :=
  streq (str_map tolower (c_str s1)) (str_map tolower (c_str s2)).

(** [str_tolower(dest, src, maxlen)]. *)
Definition str_tolower (src : string) (maxlen : Z) : string :=
  str_map tolower (str_copy src maxlen).

Definition asm_error (msg : string) (st : AsmState) : AsmState :=
  set_errors (errors st + 1) (set_diag (diag st ++ [msg]) st).

Definition asm_warning (msg : string) (st : AsmState) : AsmState :=
  set_warnings (warnings st + 1) (set_diag (diag st ++ [msg]) st).

(** ** Lexer *)

Definition tok_init : Token := mkToken TOK_ERROR "" 0.

Definition lexer_init (line : string) (st : AsmState) : AsmState :=
  set_current_token (mkToken TOK_ERROR (tok_text (current_token st))
                       (tok_value (current_token st)))
    (set_line_ptr (c_str line) st).

Definition is_blank (c : ascii) : bool := Ascii.eqb c " " || (chr c =? 9).

Definition lexer_skip_whitespace (st : AsmState) : AsmState :=
  set_line_ptr (skip_while is_blank (line_ptr st)) st.

Definition is_ident_start (c : ascii) : bool :=
  isalpha c || Ascii.eqb c "_" || Ascii.eqb c "." || Ascii.eqb c "@".

Definition is_ident_char (c : ascii) : bool :=
  isalnum c || Ascii.eqb c "_" || Ascii.eqb c "." || Ascii.eqb c "@".

Definition digit_value (c : ascii) : Z :=
  if isdigit c then chr c - 48
  else if islower c then chr c - 97 + 10
  else chr c - 65 + 10.

(** [strtoul(text, NULL, base)] on a text of digits of the base. *)
Definition strtoul (text : string) (base : Z) : Z :=
  (fix go (s : string) (acc : Z) : Z :=
     match s with
     | EmptyString => acc
     | String c r => go r (Z.min ULONG_MAX (acc * base + digit_value c))
     end) text 0.

Definition is_h (c : ascii) : bool := Ascii.eqb c "h" || Ascii.eqb c "H".

(** The digit loop of a number: [(text, rest of line)]. *)
Fixpoint lex_number_digits (n : nat) (base : Z) (s : string) : string * string :=
  match n with
  | O => (EmptyString, s)
  | S n' =>
      match s with
      | EmptyString => (EmptyString, s)
      | String c r =>
          if ((base =? 16) && isxdigit c) || ((base =? 10) && isdigit c) then
            let '(t, s') := lex_number_digits n' base r in (String c t, s')
          else if is_h c then (EmptyString, r)
          else (EmptyString, s)
      end
  end.

Definition unescape_string (c : ascii) : ascii :=
  if Ascii.eqb c "n" then ascii_of_N 10
  else if Ascii.eqb c "r" then ascii_of_N 13
  else if Ascii.eqb c "t" then ascii_of_N 9
  else if Ascii.eqb c "0" then NUL
  else c.

(** The character loop of a string literal: [(text, rest of line)]; the
    text may hold NUL characters, from the escape [\0]. *)
Fixpoint lex_string_body (n : nat) (s : string) : string * string :=
  match n with
  | O => (EmptyString, s)
  | S n' =>
      match s with
      | EmptyString => (EmptyString, s)
      | String c r =>
          if Ascii.eqb c DQUOTE then (EmptyString, s)
          else if Ascii.eqb c "\" then
            match r with
            | String e r' =>
                let '(t, s') := lex_string_body n' r' in (String (unescape_string e) t, s')
            | EmptyString =>
                let '(t, s') := lex_string_body n' r in (String c t, s')
            end
          else let '(t, s') := lex_string_body n' r in (String c t, s')
      end
  end.

Definition single_char_token (c : ascii) : option TokType :=
  if Ascii.eqb c "," then Some TOK_COMMA
  else if Ascii.eqb c ":" then Some TOK_COLON
  else if Ascii.eqb c "(" then Some TOK_LPAREN
  else if Ascii.eqb c ")" then Some TOK_RPAREN
  else if Ascii.eqb c "+" then Some TOK_PLUS
  else if Ascii.eqb c "-" then Some TOK_MINUS
  else if Ascii.eqb c "*" then Some TOK_STAR
  else if Ascii.eqb c "/" then Some TOK_SLASH
  else if Ascii.eqb c "=" then Some TOK_EQUALS
  else None.

Definition one_char (c : ascii) : string := String c EmptyString.

Definition set_tok (ty : TokType) (text : string) (value : Z) (p : string)
    (st : AsmState) : AsmState :=
  set_current_token (mkToken ty text value) (set_line_ptr p st).

Definition lex_number (p : string) (st : AsmState) : AsmState :=
  let hex_prefix :=
    Ascii.eqb (deref p) "0"
    && (Ascii.eqb (deref (next p)) "x" || Ascii.eqb (deref (next p)) "X") in
  let base :=
    if hex_prefix then 16
    else
      let q := skip_while isxdigit p in
      if is_h (deref q) && negb (is_ident_char (deref (next q))) then 16 else 10 in
  let p1 := if hex_prefix then next (next p) else p in
  let '(text, p2) := lex_number_digits (Z.to_nat (MAX_LABEL_LEN - 1)) base p1 in
  set_tok TOK_NUMBER text (int24 (strtoul text base)) p2 st.

Definition lex_ident (p : string) (st : AsmState) : AsmState :=
  let '(t, p1) := span is_ident_char (Z.to_nat (MAX_LABEL_LEN - 1)) p in
  let af_quote :=
    (Nat.eqb (String.length t) 2) && Ascii.eqb (deref p1) "'"
    && (Ascii.eqb (deref t) "a" || Ascii.eqb (deref t) "A")
    && (Ascii.eqb (deref (next t)) "f" || Ascii.eqb (deref (next t)) "F") in
  let text := if af_quote then String.append t (one_char (deref p1)) else t in
  let p2 := if af_quote then next p1 else p1 in
  let p3 := skip_while is_blank p2 in
  if Ascii.eqb (deref p3) ":" then set_tok TOK_LABEL text 0 (next p3) st
  else set_tok TOK_IDENT text 0 p3 st.

Definition not_dquote (c : ascii) : bool := negb (Ascii.eqb c DQUOTE).

Definition lex_string (p : string) (st : AsmState) : AsmState :=
  let '(text, p1) := lex_string_body (Z.to_nat (MAX_STRING_LEN - 1)) (next p) in
  let truncated := negb (Ascii.eqb (deref p1) NUL) && not_dquote (deref p1) in
  let st1 := if truncated then asm_error "string too long (max %d characters)" st else st in
  let p2 := if truncated then skip_while not_dquote p1 else p1 in
  let p3 := if Ascii.eqb (deref p2) DQUOTE then next p2 else p2 in
  set_tok TOK_STRING text 0 p3 st1.

Definition unescape_char (c : ascii) : Z :=
  if Ascii.eqb c "n" then 10
  else if Ascii.eqb c "r" then 13
  else if Ascii.eqb c "t" then 9
  else if Ascii.eqb c "0" then 0
  else chr c.

Definition lex_char (p : string) (st : AsmState) : AsmState :=
  let p1 := next p in
  let escaped := Ascii.eqb (deref p1) "\" && negb (Ascii.eqb (deref (next p1)) NUL) in
  let value := if escaped then unescape_char (deref (next p1)) else chr (deref p1) in
  let p2 := if escaped then next (next p1) else next p1 in
  let p3 := if Ascii.eqb (deref p2) "'" then next p2 else p2 in
  set_tok TOK_CHAR (one_char (ascii_of_N (Z.to_N value))) value p3 st.

Definition is_eol (c : ascii) : bool :=
  Ascii.eqb c NUL || (chr c =? 10) || Ascii.eqb c ";" || Ascii.eqb c "#".

(** [lexer_next]: the token is left in [current_token]. *)
Definition lexer_next (st : AsmState) : AsmState :=
  let st0 := lexer_skip_whitespace st in
  let p := line_ptr st0 in
  let c := deref p in
  if is_eol c then set_tok TOK_EOL "" 0 p st0
  else
    match single_char_token c with
    | Some ty => set_tok ty (one_char c) 0 (next p) st0
    | None =>
        if isdigit c then lex_number p st0
        else if Ascii.eqb c "$" && isxdigit (deref (next p)) then
          let '(text, p1) := span isxdigit (Z.to_nat (MAX_LABEL_LEN - 1)) (next p) in
          set_tok TOK_NUMBER text (int24 (strtoul text 16)) p1 st0
        else if Ascii.eqb c "%"
                && (Ascii.eqb (deref (next p)) "0" || Ascii.eqb (deref (next p)) "1") then
          let '(text, p1) :=
            span (fun d => Ascii.eqb d "0" || Ascii.eqb d "1")
                 (Z.to_nat (MAX_LABEL_LEN - 1)) (next p) in
          set_tok TOK_NUMBER text (int24 (strtoul text 2)) p1 st0
        else if Ascii.eqb c "$" then set_tok TOK_DOLLAR (one_char c) 0 (next p) st0
        else if is_ident_start c then lex_ident p st0
        else if Ascii.eqb c DQUOTE then lex_string p st0
        else if Ascii.eqb c "'" then lex_char p st0
        else set_tok TOK_ERROR (one_char c) 0 (next p) st0
  end.

(** [lexer_peek]: the token is left in [peek_token]; the line pointer and the
    current token are restored, an error reported while lexing is not. *)
Definition lexer_peek (st : AsmState) : AsmState :=
  let st1 := lexer_next st in
  set_line_ptr (line_ptr st)
    (set_current_token (current_token st)
       (set_peek_token (current_token st1) st1)).

(** ** Register and condition names *)

Definition reg_table : list (string * Reg) :=
  [("a", REG_A); ("af", REG_AF); ("af'", REG_AF_); ("b", REG_B); ("bc", REG_BC);
   ("c", REG_C); ("d", REG_D); ("de", REG_DE); ("e", REG_E); ("h", REG_H);
   ("hl", REG_HL); ("i", REG_I); ("ix", REG_IX); ("ixh", REG_IXH);
   ("ixl", REG_IXL); ("iy", REG_IY); ("iyh", REG_IYH); ("iyl", REG_IYL);
   ("l", REG_L); ("mb", REG_MB); ("r", REG_R); ("sp", REG_SP)].

Definition parse_register (name : string) : Reg :=
  match table_lookup fst reg_table (str_tolower name 8) with
  | Some (_, e) => snd e
  | None => REG_NONE
  end.

Definition cc_table : list (string * Z) :=
  [("c", CC_C); ("m", CC_M); ("nc", CC_NC); ("nz", CC_NZ); ("p", CC_P);
   ("pe", CC_PE); ("po", CC_PO); ("z", CC_Z)].

Definition parse_condition (name : string) : Z :=
  match table_lookup fst cc_table (str_tolower name 4) with
  | Some (_, e) => snd e
  | None => CC_NONE
  end.

(** ** Symbol table *)

Definition symbol_hash (name : string) : Z :=
  Z.land
    ((fix go (s : string) (h : Z) : Z :=
        match s with
        | EmptyString => h
        | String c r => go r (Z.lxor (uint24 (Z.shiftl h 5 + h)) (chr c))
        end) (c_str name) 5381)
    (SYM_HASH_SIZE - 1).

(** The index of the first match on the chain of bucket [h]: entries added
    later stand nearer the head of the chain. *)
Fixpoint chain_find (h : Z) (name : string) (syms : list Symbol) (i : nat)
    : option nat :=
  match syms with
  | [] => None
  | s :: rest =>
      match chain_find h name rest (S i) with
      | Some j => Some j
      | None =>
          if (sym_bucket s =? h) && streq (sym_name s) name then Some i else None
      end
  end.

(** [symbol_find]: the index in [symbols] in place of the pointer. *)
Definition symbol_find (st : AsmState) (name : string) : option nat :=
  chain_find (symbol_hash name) name (symbols st) 0.

Definition get_symbol (st : AsmState) (i : nat) : Symbol :=
  nth i (symbols st) (mkSymbol "" 0 0 0 false 0 0).

(** [sym->field = v] through the pointer [&as->symbols[i]]. *)
Definition update_symbol (i : nat) (f : Symbol -> Symbol) (st : AsmState) : AsmState :=
  set_symbols (list_update i f (symbols st)) st.

Definition num_symbols (st : AsmState) : Z := Z.of_nat (List.length (symbols st)).
Definition num_externs (st : AsmState) : Z := Z.of_nat (List.length (externs st)).

Definition symbol_add (name : string) (st : AsmState) : option nat * AsmState :=
  if num_symbols st >=? MAX_SYMBOLS then (None, asm_error "symbol table full" st)
  else
    let sym := mkSymbol (str_copy name MAX_LABEL_LEN) 0 (current_section st)
                 SYM_LOCAL false 0 (symbol_hash name) in
    (Some (List.length (symbols st)), set_symbols (symbols st ++ [sym]) st).

Definition define_at (i : nat) (value : Z) (st : AsmState) : Z * AsmState :=
  let st1 := update_symbol i (set_sym_value (uint24 value)) st in
  let st2 := update_symbol i (set_sym_section (current_section st1)) st1 in
  let st3 := update_symbol i (set_sym_defined true) st2 in
  let st4 := if pass st3 =? 1
             then update_symbol i (set_sym_pass1_value (uint24 value)) st3 else st3 in
  (0, st4).

Definition symbol_define (name : string) (value : Z) (st : AsmState) : Z * AsmState :=
  match symbol_find st name with
  | Some i =>
      let sym := get_symbol st i in
      if sym_defined sym && (pass st =? 1) then
        (-1, asm_error "symbol '%s' already defined" st)
      else if sym_flags sym =? SYM_EXTERN then
        (-1, asm_error "cannot define external symbol '%s'" st)
      else define_at i value st
  | None =>
      match symbol_add name st with
      | (None, st1) => (-1, st1)
      | (Some i, st1) => define_at i value st1
      end
  end.

Definition symbol_set_export (name : string) (st : AsmState) : Z * AsmState :=
  match symbol_find st name with
  | Some i => (0, update_symbol i (set_sym_flags SYM_EXPORT) st)
  | None =>
      match symbol_add name st with
      | (None, st1) => (-1, st1)
      | (Some i, st1) => (0, update_symbol i (set_sym_flags SYM_EXPORT) st1)
      end
  end.

(** The tail of [symbol_set_extern]: the flag, then the ordered,
    de-duplicated list of externals. *)
Definition mark_extern (i : nat) (name : string) (st : AsmState) : Z * AsmState :=
  let st1 := update_symbol i (set_sym_flags SYM_EXTERN) st in
  if existsb (fun e => streq e name) (externs st1) then (0, st1)
  else if num_externs st1 <? MAX_EXTERNS then
    (0, set_externs (externs st1 ++ [str_copy name MAX_LABEL_LEN]) st1)
  else (0, st1).

Definition symbol_set_extern (name : string) (st : AsmState) : Z * AsmState :=
  match symbol_find st name with
  | Some i =>
      if sym_defined (get_symbol st i) then
        (-1, asm_error "cannot declare defined symbol '%s' as external" st)
      else mark_extern i name st
  | None =>
      match symbol_add name st with
      | (None, st1) => (-1, st1)
      | (Some i, st1) => mark_extern i name st1
      end
  end.

Definition symbol_is_extern (st : AsmState) (name : string) : bool :=
  existsb (fun e => streq name e) (externs st).

Fixpoint index_of (p : string -> bool) (l : list string) (i : Z) : Z :=
  match l with
  | [] => -1
  | e :: r => if p e then i else index_of p r (i + 1)
  end.

Definition symbol_extern_index (st : AsmState) (name : string) : Z :=
  index_of (fun e => streq name e) (externs st) 0.

Definition symbol_is_local (name : string) : bool := Ascii.eqb (deref name) "@".

(** [sprintf(scope_str, ":%d", as->local_scope)]. *)
Definition scope_str (st : AsmState) : string :=
  String.append ":" (NilZero.string_of_int (Z.to_int (local_scope st))).

Definition symbol_mangle_local (st : AsmState) (name : string) (max_len : Z) : string :=
  str_take (Z.to_nat (max_len - 1)) (String.append (c_str name) (scope_str st)).

(** ** Expression parser

    The out-parameters [char *symbol_out] and [int *has_symbol] are passed
    in and returned as a pair. A call of [parse_expr_primary] spends one
    unit of fuel, and so does a turn of either operator loop. *)

Definition SymOut : Type := (string * bool)%type.

Definition is_mul_op (t : TokType) : bool :=
  match t with TOK_STAR | TOK_SLASH => true | _ => false end.

Definition is_add_op (t : TokType) : bool :=
  match t with TOK_PLUS | TOK_MINUS => true | _ => false end.

(** One turn of the loop of [parse_expr_mul], after the right operand. *)
Definition mul_step (op : TokType) (val rhs : Z) (st : AsmState) : Z * AsmState :=
  match op with
  | TOK_STAR => (int24 (val * rhs), st)
  | _ =>
      if rhs =? 0 then (val, asm_error "division by zero" st)
      else (int24 (Z.quot val rhs), st)
  end.

Fixpoint mul_loop (prim : SymOut -> M (Z * SymOut)) (n : nat) (val : Z)
    (so : SymOut) : M (Z * SymOut) :=
  fun st =>
    let op := tok_type (current_token st) in
    if is_mul_op op then
      match n with
      | O => None
      | S n' =>
          match prim so (lexer_next st) with
          | None => None
          | Some ((rhs, so1), st1) =>
              let '(val1, st2) := mul_step op val rhs st1 in
              mul_loop prim n' val1 so1 st2
          end
      end
    else Some ((val, so), st).

Definition parse_expr_mul_with (prim : SymOut -> M (Z * SymOut)) (n : nat)
    (so : SymOut) : M (Z * SymOut) :=
  r <- prim so ;; mul_loop prim n (fst r) (snd r).

(** The symbol bookkeeping of one turn of the loop of [parse_expr_add]. *)
Definition add_step_symbol (op : TokType) (lhs rhs : SymOut) (st : AsmState) : SymOut :=
  match op with
  | TOK_PLUS =>
      if snd rhs && negb (snd lhs) then (str_copy (fst rhs) MAX_LABEL_LEN, true)
      else lhs
  | _ =>
      if snd lhs && snd rhs then
        match symbol_find st (fst lhs), symbol_find st (fst rhs) with
        | Some i, Some j =>
            if (sym_section (get_symbol st i) =? sym_section (get_symbol st j))
               && negb (sym_section (get_symbol st i) =? 0)
            then (EmptyString, false)
            else lhs
        | _, _ => lhs
        end
      else if snd rhs && negb (snd lhs) then (str_copy (fst rhs) MAX_LABEL_LEN, true)
      else lhs
  end.

Definition add_step_value (op : TokType) (val rhs : Z) : Z :=
  match op with
  | TOK_PLUS => int24 (val + rhs)
  | _ => int24 (val - rhs)
  end.

Fixpoint add_loop (mul : SymOut -> M (Z * SymOut)) (n : nat) (val : Z)
    (lhs : SymOut) : M (Z * SymOut) :=
  fun st =>
    let op := tok_type (current_token st) in
    if is_add_op op then
      match n with
      | O => None
      | S n' =>
          match mul (EmptyString, false) (lexer_next st) with
          | None => None
          | Some ((rhs, rso), st1) =>
              add_loop mul n' (add_step_value op val rhs)
                (add_step_symbol op lhs rso st1) st1
          end
      end
    else Some ((val, lhs), st).

Definition parse_expr_add_with (mul : SymOut -> M (Z * SymOut)) (n : nat)
    (so : SymOut) : M (Z * SymOut) :=
  r <- mul (EmptyString, false) ;;
  r' <- add_loop mul n (fst r) (snd r) ;;
  ret (fst r', (str_copy (fst (snd r')) MAX_LABEL_LEN, snd (snd r'))).

(** The identifier case of [parse_expr_primary], before the token is
    consumed. *)
Definition primary_ident (text : string) (so : SymOut) (st : AsmState)
    : (Z * SymOut) * AsmState :=
  let lookup_name :=
    if symbol_is_local text then symbol_mangle_local st text MAX_LABEL_LEN
    else str_copy text MAX_LABEL_LEN in
  let named : SymOut := (str_copy lookup_name MAX_LABEL_LEN, true) in
  let forward :=
    if pass st =? 1 then ((0, named), st)
    else ((0, so), asm_error "undefined symbol '%s'" st) in
  match symbol_find st lookup_name with
  | Some i =>
      let sym := get_symbol st i in
      if sym_defined sym then
        ((int24 (sym_value sym), if negb (sym_section sym =? 0) then named else so), st)
      else if sym_flags sym =? SYM_EXTERN then ((0, named), st)
      else forward
  | None => forward
  end.

Fixpoint parse_expr_primary (fuel : nat) (so : SymOut) : M (Z * SymOut) :=
  match fuel with
  | O => out_of_fuel
  | S f =>
      fun st =>
        let tok := current_token st in
        match tok_type tok with
        | TOK_NUMBER | TOK_CHAR => Some ((tok_value tok, so), lexer_next st)
        | TOK_DOLLAR =>
            let st1 := lexer_next st in Some ((int24 (pc st1), so), st1)
        | TOK_IDENT =>
            let '(r, st1) := primary_ident (tok_text tok) so st in
            Some (r, lexer_next st1)
        | TOK_LPAREN =>
            match parse_expr_add_with (parse_expr_mul_with (parse_expr_primary f) f) f
                    so (lexer_next st) with
            | None => None
            | Some (r, st1) =>
                if TokType_eqb (tok_type (current_token st1)) TOK_RPAREN
                then Some (r, lexer_next st1)
                else Some (r, asm_error "expected ')'" st1)
            end
        | TOK_MINUS =>
            match parse_expr_primary f so (lexer_next st) with
            | None => None
            | Some ((v, so1), st1) => Some ((int24 (- v), so1), st1)
            end
        | TOK_PLUS => parse_expr_primary f so (lexer_next st)
        | _ => Some ((0, so), st)
        end
  end.

Definition parse_expr_mul (fuel : nat) : SymOut -> M (Z * SymOut) :=
  parse_expr_mul_with (parse_expr_primary fuel) fuel.

Definition parse_expr_add (fuel : nat) : SymOut -> M (Z * SymOut) :=
  parse_expr_add_with (parse_expr_mul fuel) fuel.

(** Enough fuel for the rest of the line: every nested call and every turn
    of a loop consumes a character of it. *)
Definition expr_fuel (st : AsmState) : nat := String.length (line_ptr st) + 2.

(** The result of [parse_expression]: the returned [has_symbol], [*result]
    and [symbol_out]. *)
Record ExprResult : Type := mkExpr {
  e_has_symbol : bool;
  e_value : Z;
  e_symbol : string
}.

Definition parse_expression : M ExprResult :=
  fun st =>
    match parse_expr_add (expr_fuel st) (EmptyString, false) st with
    | None => None
    | Some ((v, (sym, has)), st1) => Some (mkExpr has v sym, st1)
    end.

(** ** Operand parser *)

Definition op_zero : Operand := mkOperand OP_NONE REG_NONE CC_NONE 0 "" false.

Definition cur_is (t : TokType) (st : AsmState) : bool :=
  TokType_eqb (tok_type (current_token st)) t.

Definition ind_reg_of (r : Reg) : option Reg :=
  match r with
  | REG_HL => Some REG_IND_HL
  | REG_BC => Some REG_IND_BC
  | REG_DE => Some REG_IND_DE
  | REG_SP => Some REG_IND_SP
  | REG_C => Some REG_IND_C
  | _ => None
  end.

Definition expect_rparen (op : Operand) : M (Z * Operand) :=
  fun st =>
    if cur_is TOK_RPAREN st then Some ((0, op), lexer_next st)
    else Some ((-1, op), asm_error "expected ')'" st).

(** [IX+d] / [IY+d] after the register, inside or outside parentheses: the
    operand record once the displacement is read. *)
Definition index_offset (reg : Reg) : M Operand :=
  fun st =>
    let ty := if Reg_eqb reg REG_IX then OP_IX_OFF else OP_IY_OFF in
    if cur_is TOK_PLUS st then
      match parse_expression (lexer_next st) with
      | None => None
      | Some (e, st1) =>
          Some (mkOperand ty REG_NONE CC_NONE (e_value e) (e_symbol e) (e_has_symbol e), st1)
      end
    else if cur_is TOK_MINUS st then
      match parse_expression (lexer_next st) with
      | None => None
      | Some (e, st1) =>
          Some (mkOperand ty REG_NONE CC_NONE (int24 (- e_value e)) (e_symbol e)
                  (e_has_symbol e), st1)
      end
    else Some (mkOperand ty REG_NONE CC_NONE 0 "" false, st).

Definition operand_expr (ty : OpType) : M Operand :=
  e <- parse_expression ;;
  ret (mkOperand ty REG_NONE CC_NONE (e_value e) (e_symbol e) (e_has_symbol e)).

Definition parse_operand_indirect : M (Z * Operand) :=
  fun st =>
    let address := (op <- operand_expr OP_ADDR ;; expect_rparen op) in
    if cur_is TOK_IDENT st then
      let reg := parse_register (tok_text (current_token st)) in
      match ind_reg_of reg with
      | Some ir =>
          expect_rparen (mkOperand OP_IND_REG ir CC_NONE 0 "" false) (lexer_next st)
      | None =>
          if Reg_eqb reg REG_IX || Reg_eqb reg REG_IY then
            let st1 := lexer_next st in
            if cur_is TOK_RPAREN st1 then
              Some ((0, mkOperand OP_IND_REG
                          (if Reg_eqb reg REG_IX then REG_IND_IX else REG_IND_IY)
                          CC_NONE 0 "" false), lexer_next st1)
            else (op <- index_offset reg ;; expect_rparen op) st1
          else address st
      end
    else address st.

Definition parse_operand : M (Z * Operand) :=
  fun st =>
    let immediate := (op <- operand_expr OP_IMM ;; ret (0, op)) in
    if cur_is TOK_LPAREN st then parse_operand_indirect (lexer_next st)
    else if cur_is TOK_IDENT st then
      let text := tok_text (current_token st) in
      let reg := parse_register text in
      if negb (Reg_eqb reg REG_NONE) then
        let st1 := lexer_next st in
        if (Reg_eqb reg REG_IX || Reg_eqb reg REG_IY)
           && (cur_is TOK_PLUS st1 || cur_is TOK_MINUS st1)
        then (op <- index_offset reg ;; ret (0, op)) st1
        else if Reg_eqb reg REG_C then
          Some ((0, mkOperand OP_REG reg CC_C 0 "" false), st1)
        else Some ((0, mkOperand OP_REG reg CC_NONE 0 "" false), st1)
      else
        let cc := parse_condition text in
        if negb (cc =? CC_NONE) then
          Some ((0, mkOperand OP_COND REG_NONE cc 0 "" false), lexer_next st)
        else immediate st
    else immediate st.

(** ** Code emission *)

Definition append_byte (b : Z) (f : option (list Z)) : option (list Z) :=
  match f with
  | Some bytes => Some (bytes ++ [b])
  | None => None
  end.

Definition emit_byte (b : Z) (st : AsmState) : AsmState :=
  let st1 :=
    if pass st =? 2 then
      if current_section st =? SECT_CODE then
        set_code_size (uint24 (code_size st + 1))
          (set_code_tmp (append_byte (uint8 b) (code_tmp st)) st)
      else if current_section st =? SECT_DATA then
        set_data_size (uint24 (data_size st + 1))
          (set_data_tmp (append_byte (uint8 b) (data_tmp st)) st)
      else if current_section st =? SECT_BSS then
        set_bss_size (uint24 (bss_size st + 1)) st
      else st
    else st in
  set_pc (uint24 (pc st1 + 1)) st1.

Definition emit_word (w : Z) (st : AsmState) : AsmState :=
  emit_byte (Z.land (Z.shiftr w 8) 0xFF) (emit_byte (Z.land w 0xFF) st).

Definition emit_long (l : Z) (st : AsmState) : AsmState :=
  emit_byte (Z.land (Z.shiftr l 16) 0xFF)
    (emit_byte (Z.land (Z.shiftr l 8) 0xFF) (emit_byte (Z.land l 0xFF) st)).

Definition emit_reloc (type : Z) (symbol : string) (st : AsmState) : AsmState :=
  match reloc_tmp st with
  | Some relocs =>
      if (pass st =? 2) && negb (Ascii.eqb (deref symbol) NUL) then
        let offset := if current_section st =? SECT_CODE then code_size st else data_size st in
        let ext_idx := symbol_extern_index st symbol in
        let r :=
          if ext_idx >=? 0 then mkRelocation offset (current_section st) type 0 ext_idx
          else
            let target :=
              match symbol_find st symbol with
              | Some i =>
                  if sym_defined (get_symbol st i) then sym_section (get_symbol st i)
                  else current_section st
              | None => current_section st
              end in
            mkRelocation offset (current_section st) type target 0 in
        set_num_relocs (uint24 (num_relocs st + 1))
          (set_reloc_tmp (Some (relocs ++ [r])) st)
      else st
  | None => st
  end.

(** ** ez80instr.c: instruction encoding *)

(** An encoding step: the value returned and the state left. *)
Definition Action : Type := AsmState -> Z * AsmState.

(** [emit_byte] of each byte in turn, then [return 0]. *)
Definition emits (bytes : list Z) : Action :=
  fun st => (0, fold_left (fun s b => emit_byte b s) bytes st).

(** [asm_error(as, msg); return -1]. *)
Definition fails (msg : string) : Action := fun st => (-1, asm_error msg st).

(** The opcode bytes, then the 24-bit field of [op] with its relocation. *)
Definition emits_abs24 (bytes : list Z) (op : Operand) : Action :=
  fun st =>
    let st1 := fold_left (fun s b => emit_byte b s) bytes st in
    let st2 := if op_has_symbol op then emit_reloc RELOC_ADDR24 (op_symbol op) st1 else st1 in
    (0, emit_long (Z.land (op_value op) 0xFFFFFF) st2).

(** A chain of [if (...) { ...; return ...; }] blocks: the first block that
    applies runs, and [last] when none does. *)
Fixpoint first_of (blocks : list (option Action)) (last : Action) : Action :=
  match blocks with
  | [] => last
  | Some a :: _ => a
  | None :: rest => first_of rest last
  end.

Definition when (c : bool) (a : Action) : option Action := if c then Some a else None.

Definition lift (a : Action) : M Z := fun st => Some (a st).
Definition lex : M unit := modify lexer_next.

(** [if (parse_operand(as, &op) < 0) return -1;] *)
Definition with_operand (k : Operand -> M Z) : M Z :=
  r <- parse_operand ;; if fst r <? 0 then ret (-1) else k (snd r).

(** [if (as->current_token.type != TOK_COMMA) { asm_error(...); return -1; }
     lexer_next(as);] *)
Definition expect_comma (msg : string) (k : M Z) : M Z :=
  fun st => if cur_is TOK_COMMA st then k (lexer_next st) else Some (fails msg st).

Definition at_eol (st : AsmState) : bool := cur_is TOK_EOL st || cur_is TOK_EOF st.

Definition is_type (t : OpType) (op : Operand) : bool := OpType_eqb (op_type op) t.
Definition is_reg (r : Reg) (op : Operand) : bool := Reg_eqb (op_reg op) r.
Definition is_idx_off (op : Operand) : bool := is_type OP_IX_OFF op || is_type OP_IY_OFF op.

Definition simple_table : list (string * (Z * Z)) :=
  [("ccf", (0x00, 0x3F)); ("cpd", (0xED, 0xA9)); ("cpdr", (0xED, 0xB9));
   ("cpi", (0xED, 0xA1)); ("cpir", (0xED, 0xB1)); ("cpl", (0x00, 0x2F));
   ("daa", (0x00, 0x27)); ("di", (0x00, 0xF3)); ("ei", (0x00, 0xFB));
   ("exx", (0x00, 0xD9)); ("halt", (0x00, 0x76)); ("ind", (0xED, 0xAA));
   ("indr", (0xED, 0xBA)); ("ini", (0xED, 0xA2)); ("inir", (0xED, 0xB2));
   ("ldd", (0xED, 0xA8)); ("lddr", (0xED, 0xB8)); ("ldi", (0xED, 0xA0));
   ("ldir", (0xED, 0xB0)); ("neg", (0xED, 0x44)); ("nop", (0x00, 0x00));
   ("otdr", (0xED, 0xBB)); ("otir", (0xED, 0xB3)); ("outd", (0xED, 0xAB));
   ("outi", (0xED, 0xA3)); ("reti", (0xED, 0x4D)); ("retn", (0xED, 0x45));
   ("rla", (0x00, 0x17)); ("rlca", (0x00, 0x07)); ("rld", (0xED, 0x6F));
   ("rra", (0x00, 0x1F)); ("rrca", (0x00, 0x0F)); ("rrd", (0xED, 0x67));
   ("rsmix", (0xED, 0x7E)); ("scf", (0x00, 0x37)); ("slp", (0xED, 0x76));
   ("stmix", (0xED, 0x7D))].

Definition simple_lookup (lower : string) : option (Z * Z) :=
  match table_lookup fst simple_table lower with
  | Some (_, e) => Some (snd e)
  | None => None
  end.

Definition get_reg8_code (reg : Reg) : Z :=
  match reg with
  | REG_B => 0 | REG_C => 1 | REG_D => 2 | REG_E => 3 | REG_H => 4
  | REG_L => 5 | REG_A => 7
  | REG_IXH => 4 | REG_IXL => 5 | REG_IYH => 4 | REG_IYL => 5
  | _ => -1
  end.

Definition is_ix_half (reg : Reg) : bool :=
  match reg with REG_IXH | REG_IXL => true | _ => false end.

Definition is_iy_half (reg : Reg) : bool :=
  match reg with REG_IYH | REG_IYL => true | _ => false end.

Definition emit_index_prefix_if_needed (reg1 reg2 : Reg) : Action :=
  fun st =>
    if (is_ix_half reg1 && is_iy_half reg2) || (is_iy_half reg1 && is_ix_half reg2)
    then (-1, st)
    else if is_ix_half reg1 || is_ix_half reg2 then (1, emit_byte 0xDD st)
    else if is_iy_half reg1 || is_iy_half reg2 then (1, emit_byte 0xFD st)
    else (0, st).

Definition get_reg16_dd_code (reg : Reg) : Z :=
  match reg with
  | REG_BC => 0 | REG_DE => 1 | REG_HL => 2 | REG_SP => 3
  | _ => -1
  end.

Definition get_reg16_qq_code (reg : Reg) : Z :=
  match reg with
  | REG_BC => 0 | REG_DE => 1 | REG_HL => 2 | REG_AF => 3
  | _ => -1
  end.

(** The byte of [emit_idx_reg_prefix], [emit_idx_off_prefix] and
    [emit_ind_idx_prefix]. *)
Definition idx_reg_prefix (reg : Reg) : Z := if Reg_eqb reg REG_IX then 0xDD else 0xFD.
Definition idx_off_prefix (t : OpType) : Z := if OpType_eqb t OP_IX_OFF then 0xDD else 0xFD.
Definition ind_idx_prefix (reg : Reg) : Z := if Reg_eqb reg REG_IND_IX then 0xDD else 0xFD.

Definition get_idx_pair_code (dest_reg src_reg : Reg) : Z :=
  match src_reg with
  | REG_BC => 0
  | REG_DE => 1
  | REG_SP => 3
  | _ => if Reg_eqb src_reg dest_reg then 2 else -1
  end.

Definition get_condition_code (op : Operand) : Z :=
  if is_type OP_COND op then op_cc op
  else if is_type OP_REG op && is_reg REG_C op then CC_C
  else -1.

(** *** IM *)

Definition handle_im : M Z :=
  lex ;;;
  with_operand (fun op =>
    lift (if negb (is_type OP_IMM op) then fails "IM requires immediate operand"
          else fun st =>
            let st1 := emit_byte 0xED st in
            if op_value op =? 0 then (0, emit_byte 0x46 st1)
            else if op_value op =? 1 then (0, emit_byte 0x56 st1)
            else if op_value op =? 2 then (0, emit_byte 0x5E st1)
            else fails "invalid interrupt mode" st1)).

(** *** LD *)

(** [ld_special_pairs]: destination, source, prefix (0 = none), opcode. *)
Definition ld_special_pairs : list (Reg * Reg * Z * Z) :=
  [(REG_SP, REG_HL, 0x00, 0xF9); (REG_SP, REG_IX, 0xDD, 0xF9);
   (REG_SP, REG_IY, 0xFD, 0xF9); (REG_I, REG_A, 0xED, 0x47);
   (REG_R, REG_A, 0xED, 0x4F); (REG_A, REG_I, 0xED, 0x57);
   (REG_A, REG_R, 0xED, 0x5F); (REG_A, REG_MB, 0xED, 0x6E);
   (REG_MB, REG_A, 0xED, 0x6D)].

Definition find_ld_special (dest src : Reg) : option (Z * Z) :=
  match find (fun e => match e with
                       | (d, s, _, _) => Reg_eqb dest d && Reg_eqb src s
                       end) ld_special_pairs with
  | Some (_, _, prefix, opcode) => Some (prefix, opcode)
  | None => None
  end.

Record LdRR16Entry : Type := mkLdRR16 {
  rr_reg : Reg;
  load_hl : Z; store_hl : Z;
  load_ix : Z; store_ix : Z;
  load_iy : Z; store_iy : Z
}.

Definition ld_rr16_table : list LdRR16Entry :=
  [mkLdRR16 REG_BC 0x07 0x0F 0x07 0x0F 0x07 0x0F;
   mkLdRR16 REG_DE 0x17 0x1F 0x17 0x1F 0x17 0x1F;
   mkLdRR16 REG_HL 0x27 0x2F 0x27 0x2F 0x27 0x2F;
   mkLdRR16 REG_IX 0x37 0x3F 0x37 0x3E 0x31 0x3D;
   mkLdRR16 REG_IY 0x31 0x3E 0x31 0x3D 0x37 0x3E].

Definition find_ld_rr16 (reg : Reg) : option LdRR16Entry :=
  find (fun e => Reg_eqb (rr_reg e) reg) ld_rr16_table.

(** [LD r, r'] with the index-half prefix and its checks. *)
Definition ld_r_r (dest src : Operand) (d s : Z) : Action :=
  fun st =>
    let '(prefix_result, st1) := emit_index_prefix_if_needed (op_reg dest) (op_reg src) st in
    if prefix_result <? 0 then fails "cannot mix IX and IY half registers" st1
    else if (prefix_result >? 0)
            && (is_ix_half (op_reg dest) || is_iy_half (op_reg dest))
            && (is_reg REG_H src || is_reg REG_L src)
    then fails "cannot use H or L with index half registers" st1
    else if (prefix_result >? 0)
            && (is_ix_half (op_reg src) || is_iy_half (op_reg src))
            && (is_reg REG_H dest || is_reg REG_L dest)
    then fails "cannot use H or L with index half registers" st1
    else emits [Z.lor (Z.lor 0x40 (Z.shiftl d 3)) s] st1.

(** The decision tree of [handle_ld] once both operands are parsed. *)
Definition ld_encode (dest src : Operand) : Action :=
  let d := get_reg8_code (op_reg dest) in
  let s := get_reg8_code (op_reg src) in
  let dd_dest := get_reg16_dd_code (op_reg dest) in
  let dd_src := get_reg16_dd_code (op_reg src) in
  let dest_is r := is_type OP_REG dest && is_reg r dest in
  let src_is r := is_type OP_REG src && is_reg r src in
  let dest_hl := is_type OP_IND_REG dest && is_reg REG_IND_HL dest in
  let src_hl := is_type OP_IND_REG src && is_reg REG_IND_HL src in
  first_of
    [ (* REG, REG *)
      when (is_type OP_REG dest && is_type OP_REG src && (d >=? 0) && (s >=? 0))
        (ld_r_r dest src d s);
      (if is_type OP_REG dest && is_type OP_REG src then
         match find_ld_special (op_reg dest) (op_reg src) with
         | Some (prefix, opcode) =>
             Some (emits (if prefix =? 0 then [opcode] else [prefix; opcode]))
         | None => None
         end
       else None);
      (* REG, IMM *)
      when (is_type OP_REG dest && is_type OP_IMM src && (d >=? 0))
        (fun st =>
           let '(_, st1) := emit_index_prefix_if_needed (op_reg dest) REG_NONE st in
           emits [Z.lor 0x06 (Z.shiftl d 3); Z.land (op_value src) 0xFF] st1);
      when (is_type OP_REG dest && is_type OP_IMM src && (dd_dest >=? 0))
        (emits_abs24 [Z.lor 0x01 (Z.shiftl dd_dest 4)] src);
      when (is_type OP_REG dest && is_type OP_IMM src
            && (is_reg REG_IX dest || is_reg REG_IY dest))
        (emits_abs24 [idx_reg_prefix (op_reg dest); 0x21] src);
      (* REG, (HL) *)
      (if is_type OP_REG dest && src_hl then
         match find_ld_rr16 (op_reg dest) with
         | Some rr16 => Some (emits [0xED; load_hl rr16])
         | None => when (d >=? 0) (emits [Z.lor 0x46 (Z.shiftl d 3)])
         end
       else None);
      (* (HL), REG *)
      (if dest_hl && is_type OP_REG src then
         match find_ld_rr16 (op_reg src) with
         | Some rr16 => Some (emits [0xED; store_hl rr16])
         | None => when (s >=? 0) (emits [Z.lor 0x70 s])
         end
       else None);
      (* LD (HL), n *)
      when (dest_hl && is_type OP_IMM src)
        (emits [0x36; Z.land (op_value src) 0xFF]);
      (* REG, (IX+d)/(IY+d) *)
      (if is_type OP_REG dest && is_idx_off src then
         if d >=? 0 then
           Some (emits [idx_off_prefix (op_type src); Z.lor 0x46 (Z.shiftl d 3);
                        Z.land (op_value src) 0xFF])
         else
           match find_ld_rr16 (op_reg dest) with
           | Some rr16 =>
               Some (emits [idx_off_prefix (op_type src);
                            if is_type OP_IX_OFF src then load_ix rr16 else load_iy rr16;
                            Z.land (op_value src) 0xFF])
           | None => None
           end
       else None);
      (* (IX+d)/(IY+d), REG *)
      (if is_idx_off dest && is_type OP_REG src then
         if s >=? 0 then
           Some (emits [idx_off_prefix (op_type dest); Z.lor 0x70 s;
                        Z.land (op_value dest) 0xFF])
         else
           match find_ld_rr16 (op_reg src) with
           | Some rr16 =>
               Some (emits [idx_off_prefix (op_type dest);
                            if is_type OP_IX_OFF dest then store_ix rr16 else store_iy rr16;
                            Z.land (op_value dest) 0xFF])
           | None => None
           end
       else None);
      (* LD (IX/IY+d), n *)
      when (is_idx_off dest && is_type OP_IMM src)
        (emits [idx_off_prefix (op_type dest); 0x36; Z.land (op_value dest) 0xFF;
                Z.land (op_value src) 0xFF]);
      (* LD A, (BC)/(DE) and LD (BC)/(DE), A *)
      when (dest_is REG_A && is_type OP_IND_REG src && is_reg REG_IND_BC src) (emits [0x0A]);
      when (dest_is REG_A && is_type OP_IND_REG src && is_reg REG_IND_DE src) (emits [0x1A]);
      when (is_type OP_IND_REG dest && src_is REG_A && is_reg REG_IND_BC dest) (emits [0x02]);
      when (is_type OP_IND_REG dest && src_is REG_A && is_reg REG_IND_DE dest) (emits [0x12]);
      (* LD A, (nn) / LD (nn), A / LD HL, (nn) / LD (nn), HL *)
      when (dest_is REG_A && is_type OP_ADDR src) (emits_abs24 [0x3A] src);
      when (is_type OP_ADDR dest && src_is REG_A) (emits_abs24 [0x32] dest);
      when (dest_is REG_HL && is_type OP_ADDR src) (emits_abs24 [0x2A] src);
      when (is_type OP_ADDR dest && src_is REG_HL) (emits_abs24 [0x22] dest);
      (* REG, (nn) *)
      when (is_type OP_REG dest && is_type OP_ADDR src && (dd_dest >=? 0))
        (emits_abs24 [0xED; Z.lor 0x4B (Z.shiftl dd_dest 4)] src);
      when (is_type OP_REG dest && is_type OP_ADDR src
            && (is_reg REG_IX dest || is_reg REG_IY dest))
        (emits_abs24 [idx_reg_prefix (op_reg dest); 0x2A] src);
      (* (nn), REG *)
      when (is_type OP_ADDR dest && is_type OP_REG src && (dd_src >=? 0))
        (emits_abs24 [0xED; Z.lor 0x43 (Z.shiftl dd_src 4)] dest);
      when (is_type OP_ADDR dest && is_type OP_REG src
            && (is_reg REG_IX src || is_reg REG_IY src))
        (emits_abs24 [idx_reg_prefix (op_reg src); 0x22] dest) ]
    (fails "invalid operands for LD").

Definition handle_ld : M Z :=
  lex ;;;
  with_operand (fun dest =>
    expect_comma "expected comma"
      (with_operand (fun src => lift (ld_encode dest src)))).

(** *** PUSH / POP *)

Definition handle_push_pop (qq_base idx_op : Z) : M Z :=
  lex ;;;
  with_operand (fun op =>
    lift (if negb (is_type OP_REG op) then fails "%s requires register operand"
          else
            let qq := get_reg16_qq_code (op_reg op) in
            first_of
              [ when (qq >=? 0) (emits [Z.lor qq_base (Z.shiftl qq 4)]);
                when (is_reg REG_IX op || is_reg REG_IY op)
                  (emits [idx_reg_prefix (op_reg op); idx_op]) ]
              (fails "invalid register for %s"))).

Definition handle_push : M Z := handle_push_pop 0xC5 0xE5.
Definition handle_pop : M Z := handle_push_pop 0xC1 0xE1.

(** *** EX *)

Definition handle_ex : M Z :=
  lex ;;;
  with_operand (fun op1 =>
    expect_comma "expected comma"
      (with_operand (fun op2 =>
         lift (first_of
           [ when (is_type OP_REG op1 && is_reg REG_DE op1
                   && is_type OP_REG op2 && is_reg REG_HL op2) (emits [0xEB]);
             when (is_type OP_REG op1 && is_reg REG_AF op1
                   && is_type OP_REG op2 && is_reg REG_AF_ op2) (emits [0x08]);
             when (is_type OP_IND_REG op1 && is_reg REG_IND_SP op1
                   && is_type OP_REG op2 && is_reg REG_HL op2) (emits [0xE3]);
             when (is_type OP_IND_REG op1 && is_reg REG_IND_SP op1
                   && is_type OP_REG op2 && (is_reg REG_IX op2 || is_reg REG_IY op2))
               (emits [idx_reg_prefix (op_reg op2); 0xE3]) ]
           (fails "invalid operands for EX"))))).

(** *** ALU operations *)

Definition emit_alu8 (aluop : Z) (src : Operand) : Action :=
  let r := get_reg8_code (op_reg src) in
  first_of
    [ when (is_type OP_REG src && (r >=? 0))
        (fun st =>
           let '(_, st1) := emit_index_prefix_if_needed (op_reg src) REG_NONE st in
           emits [Z.lor (Z.lor 0x80 (Z.shiftl aluop 3)) r] st1);
      when (is_type OP_IMM src)
        (emits [Z.lor 0xC6 (Z.shiftl aluop 3); Z.land (op_value src) 0xFF]);
      when (is_type OP_IND_REG src && is_reg REG_IND_HL src)
        (emits [Z.lor 0x86 (Z.shiftl aluop 3)]);
      when (is_idx_off src)
        (emits [idx_off_prefix (op_type src); Z.lor 0x86 (Z.shiftl aluop 3);
                Z.land (op_value src) 0xFF]) ]
    (fun st => (-1, st)).

(** [if (c && emit_alu8(as, aluop, op) == 0) return 0;] then [rest]. *)
Definition try_alu8 (c : bool) (aluop : Z) (op : Operand) (rest : Action) : Action :=
  fun st =>
    if c then
      let '(r, st1) := emit_alu8 aluop op st in
      if r =? 0 then (0, st1) else rest st1
    else rest st.

Definition sil_bytes (sil_prefix : Z) : list Z :=
  if sil_prefix =? 0 then [] else [sil_prefix].

Definition handle_add_impl (sil_prefix : Z) : M Z :=
  lex ;;;
  with_operand (fun dest =>
    fun st =>
      if negb (cur_is TOK_COMMA st) then
        Some (try_alu8 (sil_prefix =? 0) 0 dest (fails "invalid operand for %s") st)
      else
        with_operand (fun src =>
          let ss := get_reg16_dd_code (op_reg src) in
          let pp := get_idx_pair_code (op_reg dest) (op_reg src) in
          lift (try_alu8 ((sil_prefix =? 0) && is_type OP_REG dest && is_reg REG_A dest) 0 src
            (first_of
               [ when (is_type OP_REG dest && is_reg REG_HL dest && is_type OP_REG src
                       && (ss >=? 0))
                   (emits (sil_bytes sil_prefix ++ [Z.lor 0x09 (Z.shiftl ss 4)]));
                 when (is_type OP_REG dest && (is_reg REG_IX dest || is_reg REG_IY dest)
                       && is_type OP_REG src && (pp >=? 0))
                   (emits (sil_bytes sil_prefix
                           ++ [idx_reg_prefix (op_reg dest); Z.lor 0x09 (Z.shiftl pp 4)])) ]
               (fails "invalid operands for %s"))))
          (lexer_next st)).

Definition handle_add : M Z := handle_add_impl 0.
Definition handle_add_s : M Z := handle_add_impl 0x52.

Definition handle_adc_sbc (aluop hl_op sil_prefix : Z) : M Z :=
  lex ;;;
  with_operand (fun dest =>
    fun st =>
      if negb (cur_is TOK_COMMA st) then
        Some (try_alu8 (sil_prefix =? 0) aluop dest (fails "invalid operand for %s") st)
      else
        with_operand (fun src =>
          let ss := get_reg16_dd_code (op_reg src) in
          lift (try_alu8 ((sil_prefix =? 0) && is_type OP_REG dest && is_reg REG_A dest)
                  aluop src
            (first_of
               [ when (is_type OP_REG dest && is_reg REG_HL dest && is_type OP_REG src
                       && (ss >=? 0))
                   (emits (sil_bytes sil_prefix ++ [0xED; Z.lor hl_op (Z.shiftl ss 4)])) ]
               (fails "invalid operands for %s"))))
          (lexer_next st)).

Definition handle_adc : M Z := handle_adc_sbc 1 0x4A 0.
Definition handle_sbc : M Z := handle_adc_sbc 3 0x42 0.
Definition handle_adc_s : M Z := handle_adc_sbc 1 0x4A 0x52.
Definition handle_sbc_s : M Z := handle_adc_sbc 3 0x42 0x52.

Definition handle_alu_simple (aluop : Z) : M Z :=
  lex ;;;
  with_operand (fun src =>
    let finish (op : Operand) : M Z :=
      lift (try_alu8 true aluop op (fails "invalid operand for %s")) in
    fun st =>
      if is_type OP_REG src && is_reg REG_A src && cur_is TOK_COMMA st
      then with_operand finish (lexer_next st)
      else finish src st).

Definition handle_sub : M Z := handle_alu_simple 2.
Definition handle_and : M Z := handle_alu_simple 4.
Definition handle_xor : M Z := handle_alu_simple 5.
Definition handle_or : M Z := handle_alu_simple 6.
Definition handle_cp : M Z := handle_alu_simple 7.

(** *** INC / DEC *)

Definition handle_inc_dec (r8_base r16_base idx_op ind_op : Z) : M Z :=
  lex ;;;
  with_operand (fun op =>
    let r := get_reg8_code (op_reg op) in
    let ss := get_reg16_dd_code (op_reg op) in
    lift (first_of
      [ when (is_type OP_REG op && (r >=? 0))
          (fun st =>
             let '(_, st1) := emit_index_prefix_if_needed (op_reg op) REG_NONE st in
             emits [Z.lor r8_base (Z.shiftl r 3)] st1);
        when (is_type OP_REG op && (ss >=? 0)) (emits [Z.lor r16_base (Z.shiftl ss 4)]);
        when (is_type OP_REG op && (is_reg REG_IX op || is_reg REG_IY op))
          (emits [idx_reg_prefix (op_reg op); idx_op]);
        when (is_type OP_IND_REG op && is_reg REG_IND_HL op) (emits [ind_op]);
        when (is_idx_off op)
          (emits [idx_off_prefix (op_type op); ind_op; Z.land (op_value op) 0xFF]) ]
      (fails "invalid operand for %s"))).

Definition handle_inc : M Z := handle_inc_dec 0x04 0x03 0x23 0x34.
Definition handle_dec : M Z := handle_inc_dec 0x05 0x0B 0x2B 0x35.

(** *** Control flow *)

Definition is_addr_operand (op : Operand) : bool := is_type OP_IMM op || is_type OP_ADDR op.

Definition handle_jp : M Z :=
  lex ;;;
  with_operand (fun op =>
    let cc := get_condition_code op in
    if is_type OP_IND_REG op && is_reg REG_IND_HL op then lift (emits [0xE9])
    else if is_type OP_IND_REG op && (is_reg REG_IND_IX op || is_reg REG_IND_IY op)
    then lift (emits [ind_idx_prefix (op_reg op); 0xE9])
    else if cc >=? 0 then
      expect_comma "expected comma after condition"
        (with_operand (fun addr =>
           lift (if negb (is_addr_operand addr) then fails "JP requires address operand"
                 else emits_abs24 [Z.lor 0xC2 (Z.shiftl cc 3)] addr)))
    else if is_addr_operand op then lift (emits_abs24 [0xC3] op)
    else lift (fails "invalid operand for JP")).

(** The tail shared by [JR] and [DJNZ]: the opcode byte, then the
    displacement from the address after the displacement byte. *)
Definition emit_relative (opcode : Z) (target : Operand) (range_msg : string) : Action :=
  fun st =>
    let st1 := emit_byte opcode st in
    let offset := int24 (op_value target - (pc st1 + 1)) in
    let st2 := if negb (is_signed_8bit offset) && (pass st1 =? 2)
               then asm_error range_msg st1 else st1 in
    (0, emit_byte (Z.land offset 0xFF) st2).

Definition targets_extern (op : Operand) (st : AsmState) : bool :=
  op_has_symbol op && symbol_is_extern st (op_symbol op).

Definition handle_jr : M Z :=
  lex ;;;
  with_operand (fun op =>
    let cc := get_condition_code op in
    if cc >=? 0 then
      if cc >? CC_C then lift (fails "JR only supports NZ, Z, NC, C conditions")
      else
        expect_comma "expected comma after condition"
          (with_operand (fun addr =>
             lift (fun st =>
               if targets_extern addr st then fails "JR cannot use external symbols" st
               else emit_relative (Z.lor 0x20 (Z.shiftl cc 3)) addr "JR offset out of range" st)))
    else if is_type OP_IMM op then
      lift (fun st =>
        if targets_extern op st then fails "JR cannot use external symbols" st
        else emit_relative 0x18 op "JR offset out of range" st)
    else lift (fails "invalid operand for JR")).

Definition handle_djnz : M Z :=
  lex ;;;
  with_operand (fun op =>
    lift (fun st =>
      if negb (is_type OP_IMM op) then fails "DJNZ requires address operand" st
      else if targets_extern op st then fails "DJNZ cannot use external symbols" st
      else emit_relative 0x10 op "DJNZ offset out of range" st)).

Definition handle_call : M Z :=
  lex ;;;
  with_operand (fun op =>
    let cc := get_condition_code op in
    if cc >=? 0 then
      expect_comma "expected comma after condition"
        (with_operand (fun addr => lift (emits_abs24 [Z.lor 0xC4 (Z.shiftl cc 3)] addr)))
    else if is_addr_operand op then lift (emits_abs24 [0xCD] op)
    else lift (fails "invalid operand for CALL")).

Definition handle_ret : M Z :=
  lex ;;;
  (fun st =>
     if at_eol st then Some (emits [0xC9] st)
     else
       with_operand (fun op =>
         let cc := get_condition_code op in
         lift (if cc >=? 0 then emits [Z.lor 0xC0 (Z.shiftl cc 3)]
               else fails "invalid operand for RET")) st).

(** [parse_rst_vector]: the result and [*vec]. *)
Definition parse_rst_vector : M (Z * Z) :=
  lex ;;;
  r <- parse_operand ;;
  let op := snd r in
  if fst r <? 0 then ret (-1, 0)
  else if negb (is_type OP_IMM op) then
    modify (asm_error "RST requires immediate operand") ;;; ret (-1, 0)
  else if (op_value op >=? 0) && (op_value op <=? 7) then
    ret (0, uint8 (Z.shiftl (op_value op) 3))
  else if (Z.land (op_value op) 0x07 =? 0) && (op_value op >=? 0) && (op_value op <=? 0x38)
  then ret (0, uint8 (op_value op))
  else modify (asm_error "invalid RST vector (use 0-7 or 0x00-0x38)") ;;; ret (-1, 0).

Definition handle_rst : M Z :=
  r <- parse_rst_vector ;;
  if fst r <? 0 then ret (-1) else lift (emits [Z.lor 0xC7 (snd r)]).

Definition handle_rst_lil : M Z :=
  r <- parse_rst_vector ;;
  if fst r <? 0 then ret (-1) else lift (emits [0x5B; Z.lor 0xC7 (snd r)]).

(** *** I/O *)

Definition handle_in_out (is_out : Z) : M Z :=
  lex ;;;
  with_operand (fun op1 =>
    expect_comma "expected comma"
      (with_operand (fun op2 =>
         let reg_op := if is_out =? 0 then op1 else op2 in
         let other_op := if is_out =? 0 then op2 else op1 in
         let r := get_reg8_code (op_reg reg_op) in
         lift (first_of
           [ when (is_type OP_REG reg_op && is_reg REG_A reg_op && is_type OP_ADDR other_op)
               (emits [if is_out =? 0 then 0xDB else 0xD3; Z.land (op_value other_op) 0xFF]);
             when (is_type OP_REG reg_op && is_type OP_IND_REG other_op
                   && is_reg REG_IND_C other_op && (r >=? 0))
               (emits [0xED; Z.lor (Z.lor 0x40 (Z.shiftl r 3)) is_out]) ]
           (fails "invalid operands for %s"))))).

Definition handle_in : M Z := handle_in_out 0.
Definition handle_out : M Z := handle_in_out 1.

Definition handle_in0_out0 (is_out : Z) : M Z :=
  lex ;;;
  with_operand (fun op1 =>
    expect_comma "expected comma"
      (with_operand (fun op2 =>
         let reg_op := if is_out =? 0 then op1 else op2 in
         let addr_op := if is_out =? 0 then op2 else op1 in
         let r := get_reg8_code (op_reg reg_op) in
         lift (first_of
           [ when (is_type OP_REG reg_op && is_type OP_ADDR addr_op
                   && (r >=? 0) && negb (r =? 6))
               (emits [0xED; Z.lor (Z.shiftl r 3) is_out; Z.land (op_value addr_op) 0xFF]) ]
           (fails "invalid operands for %s"))))).

Definition handle_in0 : M Z := handle_in0_out0 0.
Definition handle_out0 : M Z := handle_in0_out0 1.

(** *** Bit operations *)

Definition emit_cb_op (base : Z) (bit op : Operand) : Action :=
  let b := op_value bit in
  let r := get_reg8_code (op_reg op) in
  if (b <? 0) || (b >? 7) then fails "bit number must be 0-7"
  else
    first_of
      [ when (is_type OP_REG op && (r >=? 0))
          (emits [0xCB; Z.lor (Z.lor base (Z.shiftl b 3)) r]);
        when (is_type OP_IND_REG op && is_reg REG_IND_HL op)
          (emits [0xCB; Z.lor (Z.lor base (Z.shiftl b 3)) 6]);
        when (is_idx_off op)
          (emits [idx_off_prefix (op_type op); 0xCB; Z.land (op_value op) 0xFF;
                  Z.lor (Z.lor base (Z.shiftl b 3)) 6]) ]
      (fun st => (-1, st)).

Definition handle_cb_op (base : Z) : M Z :=
  lex ;;;
  with_operand (fun bit =>
    expect_comma "expected comma"
      (with_operand (fun op =>
         lift (fun st =>
           let '(r, st1) := emit_cb_op base bit op st in
           if r =? 0 then (0, st1) else fails "invalid operands for %s" st1)))).

Definition handle_bit : M Z := handle_cb_op 0x40.
Definition handle_set : M Z := handle_cb_op 0xC0.
Definition handle_res : M Z := handle_cb_op 0x80.

(** *** Rotates and shifts *)

Definition emit_shift_op (opcode : Z) (op : Operand) : Action :=
  let r := get_reg8_code (op_reg op) in
  first_of
    [ when (is_type OP_REG op && (r >=? 0)) (emits [0xCB; Z.lor opcode r]);
      when (is_type OP_IND_REG op && is_reg REG_IND_HL op) (emits [0xCB; Z.lor opcode 6]);
      when (is_idx_off op)
        (emits [idx_off_prefix (op_type op); 0xCB; Z.land (op_value op) 0xFF;
                Z.lor opcode 6]) ]
    (fun st => (-1, st)).

Definition handle_shift (opcode : Z) : M Z :=
  lex ;;;
  with_operand (fun op =>
    lift (fun st =>
      let '(r, st1) := emit_shift_op opcode op st in
      if r =? 0 then (0, st1) else fails "invalid operand for %s" st1)).

Definition handle_rlc : M Z := handle_shift 0x00.
Definition handle_rrc : M Z := handle_shift 0x08.
Definition handle_rl : M Z := handle_shift 0x10.
Definition handle_rr : M Z := handle_shift 0x18.
Definition handle_sla : M Z := handle_shift 0x20.
Definition handle_sra : M Z := handle_shift 0x28.
Definition handle_srl : M Z := handle_shift 0x38.

(** *** eZ80 instructions *)

Definition lea_opcode (dest : Reg) (is_iy_src : bool) : Z :=
  let iy := if is_iy_src then 1 else 0 in
  match dest with
  | REG_BC => 0x02 + iy
  | REG_DE => 0x12 + iy
  | REG_HL => 0x22 + iy
  | REG_IX => if is_iy_src then 0x54 else 0x32
  | REG_IY => if is_iy_src then 0x33 else 0x55
  | _ => -1
  end.

Definition handle_lea : M Z :=
  lex ;;;
  with_operand (fun dest =>
    if negb (is_type OP_REG dest) then lift (fails "LEA requires register destination")
    else
      expect_comma "expected comma"
        (with_operand (fun src =>
           let opc := lea_opcode (op_reg dest) (is_type OP_IY_OFF src) in
           lift (if is_idx_off src then
                   if opc >=? 0 then emits [0xED; opc; Z.land (op_value src) 0xFF]
                   else fails "invalid destination for LEA"
                 else fails "LEA requires IX+d or IY+d source")))).

Definition handle_pea : M Z :=
  lex ;;;
  with_operand (fun op =>
    lift (if is_idx_off op then
            emits [0xED; if is_type OP_IX_OFF op then 0x65 else 0x66;
                   Z.land (op_value op) 0xFF]
          else fails "PEA requires IX+d or IY+d operand")).

Definition handle_mlt : M Z :=
  lex ;;;
  with_operand (fun op =>
    let ss := get_reg16_dd_code (op_reg op) in
    lift (if negb (is_type OP_REG op) then fails "MLT requires register operand"
          else if ss <? 0 then fails "MLT requires BC, DE, HL, or SP"
          else emits [0xED; Z.lor 0x4C (Z.shiftl ss 4)])).

Definition handle_tst : M Z :=
  lex ;;;
  with_operand (fun op0 =>
    let finish (op : Operand) : M Z :=
      let r := get_reg8_code (op_reg op) in
      lift (first_of
        [ when (is_type OP_REG op && (r >=? 0)) (emits [0xED; Z.lor 0x04 (Z.shiftl r 3)]);
          when (is_type OP_IMM op) (emits [0xED; 0x64; Z.land (op_value op) 0xFF]) ]
        (fails "invalid operand for TST")) in
    fun st =>
      if is_type OP_REG op0 && is_reg REG_A op0 && cur_is TOK_COMMA st
      then with_operand finish (lexer_next st)
      else finish op0 st).

(** *** Instruction table and dispatch *)

Definition instr_table : list (string * M Z) :=
  [("adc", handle_adc); ("adc.s", handle_adc_s); ("add", handle_add);
   ("add.s", handle_add_s); ("and", handle_and); ("bit", handle_bit);
   ("call", handle_call); ("cp", handle_cp); ("dec", handle_dec);
   ("djnz", handle_djnz); ("ex", handle_ex); ("im", handle_im);
   ("in", handle_in); ("in0", handle_in0); ("inc", handle_inc);
   ("jp", handle_jp); ("jr", handle_jr); ("ld", handle_ld);
   ("lea", handle_lea); ("mlt", handle_mlt); ("or", handle_or);
   ("out", handle_out); ("out0", handle_out0); ("pea", handle_pea);
   ("pop", handle_pop); ("push", handle_push); ("res", handle_res);
   ("ret", handle_ret); ("rl", handle_rl); ("rlc", handle_rlc);
   ("rr", handle_rr); ("rrc", handle_rrc); ("rst", handle_rst);
   ("rst.lil", handle_rst_lil); ("sbc", handle_sbc); ("sbc.s", handle_sbc_s);
   ("set", handle_set); ("sla", handle_sla); ("sra", handle_sra);
   ("srl", handle_srl); ("sub", handle_sub); ("tst", handle_tst);
   ("xor", handle_xor)].

Definition instr_tolower (src : string) (maxlen : Z) : string := str_tolower src maxlen.

Definition instr_lookup (lower : string) : option (M Z) :=
  match table_lookup fst instr_table lower with
  | Some (_, e) => Some (snd e)
  | None => None
  end.

Definition instr_execute (mnemonic : string) : M Z :=
  let lower := instr_tolower mnemonic 16 in
  match simple_lookup lower with
  | Some (prefix, opcode) =>
      fun st =>
        let st1 := lexer_next st in
        let st2 := if prefix =? 0 then st1 else emit_byte prefix st1 in
        let st3 := emit_byte opcode st2 in
        if negb (at_eol st3) then Some (fails "unexpected content after instruction" st3)
        else Some (0, st3)
  | None =>
      match instr_lookup lower with
      | None => ret (-1)
      | Some handler =>
          result <- handler ;;
          fun st =>
            if (result =? 0) && negb (at_eol st)
            then Some (fails "unexpected content after instruction" st)
            else Some (result, st)
      end
  end.

(** ** ez80dir.c: directives, lines, passes, object output *)

Definition dir_org : M Z :=
  lex ;;;
  e <- parse_expression ;;
  if e_has_symbol e then lift (fails "ORG requires constant expression")
  else modify (set_pc (Z.land (e_value e) 0xFFFFFF)) ;;; ret 0.

Definition dir_equ (label : string) : M Z :=
  if Ascii.eqb (deref label) NUL then lift (fails "EQU requires a label")
  else
    lex ;;;
    e <- parse_expression ;;
    fun st =>
      if e_has_symbol e && (pass st =? 2) then
        Some (fails "EQU requires constant expression" st)
      else
        let value := if e_has_symbol e then 0 else e_value e in
        let saved_section := current_section st in
        let '(_, st1) := symbol_define label value (set_current_section 0 st) in
        Some (0, set_current_section saved_section st1).

Definition try_equ_directive (label : string) : M Z :=
  fun st =>
    if str_casecmp_eq (tok_text (current_token st)) "equ"
       || str_casecmp_eq (tok_text (current_token st)) ".equ"
       || cur_is TOK_EQUALS st
    then dir_equ label st
    else Some (-1, st).

(** [for (p = text; *p; p++) emit_byte(as, (uint8)*p);] *)
Definition emit_string (text : string) (st : AsmState) : AsmState :=
  fold_left (fun s c => emit_byte (chr c) s) (list_ascii_of_string (c_str text)) st.

(** The operand loop of [dir_db]; a turn after the first costs a comma. *)
Fixpoint dir_db_loop (n : nat) : M Z :=
  fun st =>
    let continue (st1 : AsmState) : option (Z * AsmState) :=
      if cur_is TOK_COMMA st1 then
        match n with
        | O => None
        | S n' => dir_db_loop n' (lexer_next st1)
        end
      else Some (0, st1) in
    if cur_is TOK_STRING st then
      continue (lexer_next (emit_string (tok_text (current_token st)) st))
    else
      match parse_expression st with
      | None => None
      | Some (e, st1) =>
          if e_has_symbol e then
            Some (fails "DB cannot use relocatable symbols, use DL" st1)
          else continue (emit_byte (Z.land (e_value e) 0xFF) st1)
      end.

(** Fuel for a loop over the operands left on the line. *)
Definition line_fuel (st : AsmState) : nat := String.length (line_ptr st) + 1.

Definition dir_db : M Z := lex ;;; (fun st => dir_db_loop (line_fuel st) st).

Fixpoint dir_dw_loop (n : nat) : M Z :=
  fun st =>
    match parse_expression st with
    | None => None
    | Some (e, st1) =>
        if e_has_symbol e then
          Some (fails "DW cannot use relocatable symbols, use DL" st1)
        else
          let st2 := emit_word (Z.land (e_value e) 0xFFFF) st1 in
          if cur_is TOK_COMMA st2 then
            match n with
            | O => None
            | S n' => dir_dw_loop n' (lexer_next st2)
            end
          else Some (0, st2)
    end.

Definition dir_dw : M Z := lex ;;; (fun st => dir_dw_loop (line_fuel st) st).

Fixpoint dir_dl_loop (n : nat) : M Z :=
  fun st =>
    match parse_expression st with
    | None => None
    | Some (e, st1) =>
        let st2 := if e_has_symbol e then emit_reloc RELOC_ADDR24 (e_symbol e) st1 else st1 in
        let st3 := emit_long (Z.land (e_value e) 0xFFFFFF) st2 in
        if cur_is TOK_COMMA st3 then
          match n with
          | O => None
          | S n' => dir_dl_loop n' (lexer_next st3)
          end
        else Some (0, st3)
    end.

Definition dir_dl : M Z := lex ;;; (fun st => dir_dl_loop (line_fuel st) st).

(** [for (i = 0; i < count; i++) emit_byte(as, fill & 0xFF);] *)
Definition ds_fill (count fill : Z) (st : AsmState) : AsmState :=
  Nat.iter (Z.to_nat count) (emit_byte (Z.land fill 0xFF)) st.

Definition dir_ds : M Z :=
  lex ;;;
  e <- parse_expression ;;
  if e_has_symbol e then lift (fails "DS requires constant expression")
  else
    fun st =>
      if cur_is TOK_COMMA st then
        match parse_expression (lexer_next st) with
        | None => None
        | Some (f, st1) => Some (0, ds_fill (e_value e) (e_value f) st1)
        end
      else Some (0, ds_fill (e_value e) 0 st).

Definition save_section_pc (st : AsmState) : AsmState :=
  if current_section st =? SECT_CODE then set_code_pc (pc st) st
  else if current_section st =? SECT_DATA then set_data_pc (pc st) st
  else if current_section st =? SECT_BSS then set_bss_pc (pc st) st
  else st.

Definition dir_section : M Z :=
  lex ;;;
  lift (fun st =>
    if negb (cur_is TOK_IDENT st) then fails "SECTION requires name" st
    else
      let name := tok_text (current_token st) in
      let st1 := save_section_pc st in
      let st2 :=
        if str_casecmp_eq name "code" || str_casecmp_eq name "text"
           || str_casecmp_eq name ".text"
        then set_pc (code_pc st1) (set_current_section SECT_CODE st1)
        else if str_casecmp_eq name "data" || str_casecmp_eq name ".data"
        then set_pc (data_pc st1) (set_current_section SECT_DATA st1)
        else if str_casecmp_eq name "bss" || str_casecmp_eq name ".bss"
        then set_pc (bss_pc st1) (set_current_section SECT_BSS st1)
        else set_current_section SECT_CODE
               (asm_warning "unknown section '%s', using CODE" st1) in
      (0, lexer_next st2)).

(** The loop of [dir_xdef] and [dir_xref]: [declare] is [symbol_set_export]
    or [symbol_set_extern]. *)
Fixpoint dir_names_loop (declare : string -> AsmState -> Z * AsmState)
    (local_msg : string) (n : nat) : M Z :=
  fun st =>
    if cur_is TOK_IDENT st then
      if symbol_is_local (tok_text (current_token st)) then Some (fails local_msg st)
      else
        let st1 := lexer_next (snd (declare (tok_text (current_token st)) st)) in
        if cur_is TOK_COMMA st1 then
          match n with
          | O => None
          | S n' => dir_names_loop declare local_msg n' (lexer_next st1)
          end
        else Some (0, st1)
    else Some (0, st).

Definition dir_xdef : M Z :=
  lex ;;;
  (fun st => dir_names_loop symbol_set_export "local labels cannot be exported"
               (line_fuel st) st).

Definition dir_xref : M Z :=
  lex ;;;
  (fun st => dir_names_loop symbol_set_extern
               "local labels cannot be external references" (line_fuel st) st).

Definition dir_end : M Z := ret 0.

(** [while (as->pc & (align - 1)) emit_byte(as, 0);] fewer than [align]
    turns. *)
Fixpoint align_loop (n : nat) (align : Z) (st : AsmState) : AsmState :=
  match n with
  | O => st
  | S n' =>
      if Z.land (pc st) (align - 1) =? 0 then st
      else align_loop n' align (emit_byte 0 st)
  end.

Definition dir_align : M Z :=
  lex ;;;
  e <- parse_expression ;;
  let align := e_value e in
  lift (if e_has_symbol e then fails "ALIGN requires constant expression"
        else if (align <=? 0) || negb (Z.land align (align - 1) =? 0)
        then fails "ALIGN must be power of 2"
        else fun st => (0, align_loop (Z.to_nat align) align st)).

Definition dir_ascii : M Z :=
  lex ;;;
  lift (fun st =>
    if negb (cur_is TOK_STRING st) then fails "ASCII requires string" st
    else (0, lexer_next (emit_string (tok_text (current_token st)) st))).

Definition dir_asciz : M Z :=
  result <- dir_ascii ;;
  if result =? 0 then modify (emit_byte 0) ;;; ret result else ret result.

Definition dir_assume : M Z :=
  lex ;;;
  lift (fun st =>
    if negb (cur_is TOK_IDENT st)
       || negb (str_casecmp_eq (tok_text (current_token st)) "ADL")
    then fails "ASSUME expects ADL=0 or ADL=1" st
    else
      let st1 := lexer_next st in
      if negb (cur_is TOK_EQUALS st1) then fails "ASSUME expects ADL=0 or ADL=1" st1
      else
        let st2 := lexer_next st1 in
        if negb (cur_is TOK_NUMBER st2) then fails "ASSUME expects ADL=0 or ADL=1" st2
        else if tok_value (current_token st2) =? 0
        then fails "this assembler only supports ADL mode (ADL=1)" st2
        else if negb (tok_value (current_token st2) =? 1)
        then fails "ASSUME expects ADL=0 or ADL=1" st2
        else (0, lexer_next st2)).

(** [fgets(line, size, fp)] with [n = size - 1]: the line read and the rest
    of the stream; the line is empty at the end of the file only. *)
Fixpoint fgets (n : nat) (fp : string) : string * string :=
  match n, fp with
  | S n', String c r =>
      if chr c =? 10 then (String c EmptyString, r)
      else let '(l, fp') := fgets n' r in (String c l, fp')
  | _, _ => (EmptyString, fp)
  end.

(** [while ((c = fgetc(fp)) != EOF && c != '\n');] *)
Fixpoint skip_rest_of_line (fp : string) : string :=
  match fp with
  | EmptyString => EmptyString
  | String c r => if chr c =? 10 then r else skip_rest_of_line r
  end.

Definition last_char (s : string) : ascii :=
  deref (string_of_list_ascii (rev (list_ascii_of_string (c_str s)))).

(** The check for an over-long line after [fgets(line, size, fp)]. *)
Definition too_long (size : Z) (line : string) : bool :=
  (strlen line =? size - 1) && negb (chr (last_char line) =? 10).

Definition chomp (line : string) : string :=
  if (strlen line >? 0) && (chr (last_char line) =? 10)
  then str_take (Z.to_nat (strlen line - 1)) (c_str line)
  else line.

Section Files.

(** The files [fopen] can open, by name. *)
Variable fs : string -> option string.

(** The line loop of [dir_include]; a turn reads at least one character. *)
Fixpoint include_loop (asm_line : string -> M Z) (n : nat) (fp : string) : M unit :=
  fun st =>
    match fgets 1023 fp with
    | (EmptyString, _) => Some (tt, st)
    | (line, fp1) =>
        match n with
        | O => None
        | S n' =>
            let st1 := set_line_num (line_num st + 1) st in
            let long := too_long 1024 line in
            let st2 := if long then asm_error "line too long (max %d characters)" st1 else st1 in
            let fp2 := if long then skip_rest_of_line fp1 else fp1 in
            match asm_line line st2 with
            | None => None
            | Some (_, st3) => include_loop asm_line n' fp2 st3
            end
        end
    end.

(** [dir_include]; the file name ([as->filename]) is not kept in the state. *)
Definition dir_include (asm_line : string -> M Z) : M Z :=
  lex ;;;
  (fun st =>
     if negb (cur_is TOK_STRING st) then Some (fails "INCLUDE requires filename string" st)
     else
       let filename := str_take 255 (c_str (tok_text (current_token st))) in
       let st1 := lexer_next st in
       match fs filename with
       | None => Some (fails "cannot open include file '%s'" st1)
       | Some content =>
           let saved_line_num := line_num st1 in
           match include_loop asm_line (String.length content) content
                   (set_line_num 0 st1) with
           | None => None
           | Some (_, st2) => Some (0, set_line_num saved_line_num st2)
           end
       end).

Definition dir_incbin : M Z :=
  lex ;;;
  lift (fun st =>
    if negb (cur_is TOK_STRING st) then fails "INCBIN requires filename string" st
    else
      let filename := str_take 255 (c_str (tok_text (current_token st))) in
      let st1 := lexer_next st in
      match fs filename with
      | None => fails "cannot open binary file '%s'" st1
      | Some content =>
          (0, fold_left (fun s c => emit_byte (chr c) s) (list_ascii_of_string content) st1)
      end).

Definition directive_execute (asm_line : string -> M Z) (name : string) : M Z :=
  let dir := if Ascii.eqb (deref name) "." then next name else name in
  let named (d : string) : bool := str_casecmp_eq dir d in
  if named "org" then dir_org
  else if named "db" || named "defb" || named "byte" then dir_db
  else if named "dw" || named "defw" || named "word" then dir_dw
  else if named "dl" || named "defl" || named "long" || named "dd" then dir_dl
  else if named "ds" || named "defs" || named "rmb" || named "blkb" then dir_ds
  else if named "section" || named "segment" then dir_section
  else if named "xdef" || named "public" || named "global" then dir_xdef
  else if named "xref" || named "extern" || named "external" then dir_xref
  else if named "end" then dir_end
  else if named "align" then dir_align
  else if named "ascii" then dir_ascii
  else if named "asciz" || named "asciiz" then dir_asciz
  else if named "assume" then dir_assume
  else if named "include" then dir_include asm_line
  else if named "incbin" then dir_incbin
  else ret (-1).

(** *** Line processing *)

Definition is_equ_token (st : AsmState) : bool :=
  (cur_is TOK_IDENT st
   && (str_casecmp_eq (tok_text (current_token st)) "equ"
       || str_casecmp_eq (tok_text (current_token st)) ".equ"))
  || cur_is TOK_EQUALS st.

(** A label in front of anything but [equ] or [=]: defined at the PC; a
    global label opens a new scope of local labels. *)
Definition define_label (label : string) (st : AsmState) : AsmState :=
  if is_equ_token st then st
  else if symbol_is_local label then
    snd (symbol_define (symbol_mangle_local st label MAX_LABEL_LEN) (pc st) st)
  else
    let st1 := snd (symbol_define label (pc st) st) in
    set_local_scope (local_scope st1 + 1) st1.

(** The label part of [asm_line]: the label found and the state at the
    token after it. *)
Definition line_label (st : AsmState) : string * AsmState :=
  let text := str_copy (tok_text (current_token st)) MAX_LABEL_LEN in
  if cur_is TOK_LABEL st then (text, define_label text (lexer_next st))
  else if cur_is TOK_IDENT st then
    let st1 := lexer_peek st in
    let peek := peek_token st1 in
    match tok_type peek with
    | TOK_COLON => (text, define_label text (lexer_next (lexer_next st1)))
    | TOK_EQUALS => (text, lexer_next st1)
    | TOK_IDENT =>
        if str_casecmp_eq (tok_text peek) "equ" || str_casecmp_eq (tok_text peek) ".equ"
        then (text, lexer_next st1)
        else (EmptyString, st1)
    | _ => (EmptyString, st1)
    end
  else (EmptyString, st).

Definition asm_line_with (asm_line : string -> M Z) (line : string) : M Z :=
  fun st =>
    let st0 := lexer_next (lexer_init line st) in
    if at_eol st0 then Some (0, st0)
    else
      let '(label, st1) := line_label st0 in
      if at_eol st1 then Some (0, st1)
      else if cur_is TOK_EQUALS st1 then
        if Ascii.eqb (deref label) NUL then Some (fails "= requires a label" st1)
        else dir_equ label st1
      else if negb (cur_is TOK_IDENT st1) then
        Some (fails "expected instruction or directive" st1)
      else
        let mnemonic := str_copy (tok_text (current_token st1)) MAX_LABEL_LEN in
        match try_equ_directive label st1 with
        | None => None
        | Some (r1, st2) =>
            if r1 =? 0 then Some (0, st2)
            else
              match instr_execute mnemonic st2 with
              | None => None
              | Some (r2, st3) =>
                  if r2 =? 0 then Some (0, st3)
                  else
                    let errors_before := errors st3 in
                    match directive_execute asm_line mnemonic st3 with
                    | None => None
                    | Some (r3, st4) =>
                        if r3 =? 0 then Some (0, st4)
                        else if errors st4 >? errors_before then Some (-1, st4)
                        else Some (fails "unknown instruction or directive '%s'" st4)
                    end
              end
        end.

(** [asm_line]; [depth] bounds the nesting of [include]. *)
Fixpoint asm_line (depth : nat) (line : string) : M Z :=
  asm_line_with
    (match depth with
     | O => fun _ => out_of_fuel
     | S d => asm_line d
     end) line.

(** *** Passes *)

Fixpoint asm_pass_loop (depth : nat) (n : nat) (fp : string) : M unit :=
  fun st =>
    match fgets (Z.to_nat (MAX_LINE_LEN - 1)) fp with
    | (EmptyString, _) => Some (tt, st)
    | (line, fp1) =>
        match n with
        | O => None
        | S n' =>
            let st1 := set_line_num (line_num st + 1) st in
            let long := too_long MAX_LINE_LEN line in
            let st2 := if long then asm_error "line too long (max %d characters)" st1 else st1 in
            let fp2 := if long then skip_rest_of_line fp1 else fp1 in
            match asm_line depth (chomp line) st2 with
            | None => None
            | Some (_, st3) => asm_pass_loop depth n' fp2 st3
            end
        end
    end.

Definition asm_pass (depth : nat) (fp : string) : M Z :=
  modify (set_line_num 0) ;;;
  asm_pass_loop depth (String.length fp) fp ;;;
  gets errors.

Definition begin_pass (p : Z) (st : AsmState) : AsmState :=
  set_bss_pc 0 (set_data_pc 0 (set_code_pc 0 (set_local_scope 0
    (set_current_section SECT_CODE (set_num_relocs 0 (set_data_size 0
      (set_code_size 0 (set_pc 0 (set_pass p st))))))))).

Definition open_scratch (st : AsmState) : AsmState :=
  set_reloc_tmp (Some []) (set_data_tmp (Some []) (set_code_tmp (Some []) st)).

(** The state at the end of pass 1 of [asm_file]. *)
Definition asm_pass1 (depth : nat) (fp : string) : M Z :=
  modify (fun st => set_bss_size 0 (begin_pass 1 st)) ;;; asm_pass depth fp.

(** The state at the end of pass 2, entered from the end of pass 1. *)
Definition asm_pass2 (depth : nat) (fp : string) : M Z :=
  modify (fun st => begin_pass 2 (open_scratch st)) ;;; asm_pass depth fp.

(** [asm_file]; [tmpfile()] is taken to succeed. *)
Definition asm_file (depth : nat) (filename : string) : M Z :=
  match fs filename with
  | None => ret (-1)
  | Some fp =>
      asm_pass1 depth fp ;;;
      (fun st =>
         if errors st >? 0 then Some (-1, st)
         else asm_pass2 depth fp st)
  end.

End Files.

Definition empty_token : Token := mkToken TOK_EOF "" 0.

(** [asm_init]: the zeroed state. *)
Definition asm_init : AsmState :=
  {| pass := 1; errors := 0; warnings := 0; diag := []; line_num := 0;
     line_ptr := ""; current_token := empty_token; peek_token := empty_token;
     code_tmp := None; data_tmp := None; reloc_tmp := None;
     code_size := 0; data_size := 0; bss_size := 0; num_relocs := 0;
     current_section := SECT_CODE; pc := 0; code_pc := 0; data_pc := 0; bss_pc := 0;
     symbols := []; externs := []; local_scope := 0 |}.

(** *** Object output *)

Definition scratch_bytes (f : option (list Z)) (size : Z) : list Z :=
  match f with
  | Some bytes => if size >? 0 then firstn (Z.to_nat size) bytes else []
  | None => []
  end.

Definition name_bytes (name : string) : list Z :=
  map chr (list_ascii_of_string (c_str name)) ++ [0].

Definition exported (st : AsmState) : list Symbol :=
  filter (fun s => sym_flags s =? SYM_EXPORT) (symbols st).

(** The symbol records and the string table they leave, from the offset
    [off]. *)
Fixpoint symbol_records (syms : list Symbol) (off : Z) : list Z * list Z :=
  match syms with
  | [] => ([], [])
  | s :: r =>
      let nb := name_bytes (sym_name s) in
      let '(recs, strs) := symbol_records r (off + Z.of_nat (List.length nb)) in
      (WRITE24 off ++ [sym_section s; sym_flags s] ++ WRITE24 (sym_value s) ++ [0; 0] ++ recs,
       nb ++ strs)
  end.

Definition reloc_record (r : Relocation) : list Z :=
  WRITE24 (rel_offset r)
  ++ [rel_section r; rel_type r; rel_target_sect r;
      Z.land (rel_ext_index r) 0xFF; Z.land (Z.shiftr (rel_ext_index r) 8) 0xFF].

Fixpoint extern_records (names : list string) (i off : Z) : list Z * list Z :=
  match names with
  | [] => ([], [])
  | n :: r =>
      let nb := name_bytes n in
      let '(recs, strs) := extern_records r (i + 1) (off + Z.of_nat (List.length nb)) in
      (WRITE24 off ++ WRITE24 i ++ recs, nb ++ strs)
  end.

Definition reloc_records (st : AsmState) : list Z :=
  match reloc_tmp st with
  | Some relocs =>
      if num_relocs st >? 0
      then flat_map reloc_record (firstn (Z.to_nat (num_relocs st)) relocs)
      else []
  | None => []
  end.

(** The final header of [asm_output]. *)
Definition obj_header (st : AsmState) (num_obj_symbols strtab_size : Z) : list Z :=
  [OBJ_MAGIC_0; OBJ_MAGIC_1; OBJ_MAGIC_2; OBJ_MAGIC_3; OBJ_VERSION; 0]
  ++ WRITE24 (code_size st) ++ WRITE24 (data_size st) ++ WRITE24 (bss_size st)
  ++ WRITE24 num_obj_symbols ++ WRITE24 (num_relocs st) ++ WRITE24 (num_externs st)
  ++ WRITE24 strtab_size.

(** [asm_output]: the bytes of the object file. *)
Definition asm_output (st : AsmState) : list Z :=
  let '(sym_recs, sym_strs) := symbol_records (exported st) 0 in
  let '(ext_recs, ext_strs) :=
    extern_records (externs st) 0 (Z.of_nat (List.length sym_strs)) in
  let strtab := sym_strs ++ ext_strs in
  obj_header st (Z.of_nat (List.length (exported st))) (uint24 (Z.of_nat (List.length strtab)))
  ++ scratch_bytes (code_tmp st) (code_size st)
  ++ scratch_bytes (data_tmp st) (data_size st)
  ++ sym_recs ++ reloc_records st ++ ext_recs ++ strtab.

(** ** Running the assembler on a source text *)

Definition NL : string := String (ascii_of_N 10) EmptyString.

(** A source file given by its lines. *)
Definition source (lines : list string) : string := String.concat NL lines.

(** A string literal of the assembly language. *)
Definition quoted (s : string) : string :=
  String.append (String DQUOTE s) (String DQUOTE EmptyString).

(** The file system that holds the one file [in.asm]. *)
Definition one_file (src : string) : string -> option string :=
  fun name => if String.eqb name "in.asm" then Some src else None.

(** [asm_init] followed by [asm_file] on the source. *)
Definition assemble (src : string) : option (Z * AsmState) :=
  asm_file (one_file src) 0 "in.asm" asm_init.

(** Pass 1 alone, and pass 2 entered from its end. *)
Definition assemble_pass1 (src : string) : option (Z * AsmState) :=
  asm_pass1 (one_file src) 0 src asm_init.

(** The state in which an operand field is parsed: the line is [text] and
    its first token is current. *)
Definition at_operand (text : string) (st : AsmState) : AsmState :=
  lexer_next (lexer_init text st).









(** The state a computation leaves, or [st] when it runs out of fuel. *)
Definition state_after {A : Type} (m : M A) (st : AsmState) : AsmState :=
  match m st with
  | Some (_, st') => st'
  | None => st
  end.

(** ** What a step of the assembler may change *)

(** The state apart from the lexer's position and tokens, the line number
    and the diagnostics. *)
Definition assembled (st : AsmState) :=
  (pass st, (code_tmp st, data_tmp st, reloc_tmp st),
   (code_size st, data_size st, bss_size st, num_relocs st),
   (current_section st, pc st, code_pc st, data_pc st, bss_pc st),
   (symbols st, externs st, local_scope st)).

(** [emission st st']: [st'] comes from [st] by reading tokens, reporting
    errors, emitting bytes and recording relocations, and by nothing else. *)
Inductive emission : AsmState -> AsmState -> Prop :=
| em_refl : forall st, emission st st
| em_frame : forall st st1 st',
    emission st st1 -> assembled st1 = assembled st' -> emission st st'
| em_byte : forall st st1 b, emission st st1 -> emission st (emit_byte b st1)
| em_reloc : forall st st1 t s, emission st st1 -> emission st (emit_reloc t s st1).

(** An action, and a computation, that only emits. *)
Definition Emitting (a : Action) : Prop := forall st, emission st (snd (a st)).

Definition EmittingM {A : Type} (m : M A) : Prop :=
  forall st r st', m st = Some (r, st') -> emission st st'.

(** The length of the line still to read, and the bound on the depth of the
    calls and on the turns of the loops of the expression parser. *)
Definition remaining (st : AsmState) : nat := String.length (line_ptr st).

Definition expr_measure (st : AsmState) : nat :=
  remaining st + (if cur_is TOK_EOL st then 0 else 1).


(** No symbol is both external and defined. *)
Definition externs_undefined (st : AsmState) : Prop :=
  Forall (fun s => sym_flags s = SYM_EXTERN -> sym_defined s = false) (symbols st).

(** A parser that returns on every state of measure below [f], and leaves
    a state of no greater measure in which nothing was assembled. *)
Definition returns_below {A : Type} (f : nat) (p : SymOut -> M (A * SymOut)) : Prop :=
  forall so st, (expr_measure st < f)%nat ->
    exists r st', p so st = Some (r, st')
                  /\ (expr_measure st' <= expr_measure st)%nat
                  /\ assembled st' = assembled st.

(** A block of a chain of [if] blocks that only emits when it applies. *)
Definition block_emitting (o : option Action) : Prop :=
  match o with
  | Some a => Emitting a
  | None => True
  end.


(** A computation under which no symbol becomes both external and
    defined. *)
Definition keeps_externs_undefined {A : Type} (m : M A) : Prop :=
  forall st r st', m st = Some (r, st') -> externs_undefined st -> externs_undefined st'.

(** The symbol named [name], when the table has one. *)
Definition symbol_named (st : AsmState) (name : string) : option Symbol :=
  match symbol_find st name with
  | Some i => Some (get_symbol st i)
  | None => None
  end.





(** A computation that returns on every state. *)
Definition returns {A : Type} (m : M A) : Prop :=
  forall st, exists r st', m st = Some (r, st').

End Asm.

Module Linker.

(** ** ld.c

    A file is the list of its bytes and [fs] maps the names [fopen] can
    open to files; the files do not change while the linker runs. File
    positions ([long]) are exact integers. [malloc] is taken to succeed.
    Messages go to the log [diag]; [errors] is [ls->errors]. *)

Definition MAX_OBJECTS : Z := 128.
Definition MAX_SYMBOLS : Z := 2048.
Definition MAX_EXTERNS : Z := 1024.
Definition MAX_FILENAME : Z := 256.
Definition MAX_LIBRARIES : Z := 4.
Definition MAX_LIB_OBJECTS : Z := 256.
Definition HASH_SIZE : Z := 256.
Definition LINKER_DEFINED : Z := -1.

Record LibObject : Type := mkLibObject {
  lo_offset : Z;
  lo_obj_size : Z;
  lo_loaded : bool
}.

Record LibraryInfo : Type := mkLibraryInfo {
  lib_filename : string;
  lib_objects : list LibObject
}.

(** [GlobalSymbol]: [hash_next] is kept as the bucket of the chain. *)
Record GlobalSymbol : Type := mkGlobalSymbol {
  gs_name : string;
  gs_value : Z;
  gs_section : Z;
  gs_obj_index : Z;
  gs_bucket : Z
}.

Record ObjectInfo : Type := mkObjectInfo {
  filename : string;
  code_size : Z;
  data_size : Z;
  bss_size : Z;
  num_symbols : Z;
  num_relocs : Z;
  num_externs : Z;
  strtab_size : Z;
  code_base : Z;
  data_base : Z;
  bss_base : Z;
  code_pos : Z;
  data_pos : Z;
  sym_pos : Z;
  reloc_pos : Z;
  extern_pos : Z;
  strtab_pos : Z
}.

(** [LinkerState]: [objects], [symbols] and [libraries] are the arrays up
    to [num_objects], [num_symbols] and [num_libraries]. *)
Record LinkerState : Type := {
  objects : list ObjectInfo;
  symbols : list GlobalSymbol;
  libraries : list LibraryInfo;
  base_addr : Z;
  total_code : Z;
  total_data : Z;
  total_bss : Z;
  errors : Z;
  diag : list string
}.

Definition set_objects (v : list ObjectInfo) (st : LinkerState) : LinkerState :=
  Build_LinkerState v (symbols st) (libraries st) (base_addr st) (total_code
    st) (total_data st) (total_bss st) (errors st) (diag st).

Definition set_symbols (v : list GlobalSymbol) (st : LinkerState) : LinkerState :=
  Build_LinkerState (objects st) v (libraries st) (base_addr st) (total_code
    st) (total_data st) (total_bss st) (errors st) (diag st).

Definition set_libraries (v : list LibraryInfo) (st : LinkerState) : LinkerState :=
  Build_LinkerState (objects st) (symbols st) v (base_addr st) (total_code st)
    (total_data st) (total_bss st) (errors st) (diag st).

Definition set_base_addr (v : Z) (st : LinkerState) : LinkerState :=
  Build_LinkerState (objects st) (symbols st) (libraries st) v (total_code st)
    (total_data st) (total_bss st) (errors st) (diag st).

Definition set_total_code (v : Z) (st : LinkerState) : LinkerState :=
  Build_LinkerState (objects st) (symbols st) (libraries st) (base_addr st) v
    (total_data st) (total_bss st) (errors st) (diag st).

Definition set_total_data (v : Z) (st : LinkerState) : LinkerState :=
  Build_LinkerState (objects st) (symbols st) (libraries st) (base_addr st)
    (total_code st) v (total_bss st) (errors st) (diag st).

Definition set_total_bss (v : Z) (st : LinkerState) : LinkerState :=
  Build_LinkerState (objects st) (symbols st) (libraries st) (base_addr st)
    (total_code st) (total_data st) v (errors st) (diag st).

Definition set_errors (v : Z) (st : LinkerState) : LinkerState :=
  Build_LinkerState (objects st) (symbols st) (libraries st) (base_addr st)
    (total_code st) (total_data st) (total_bss st) v (diag st).

Definition set_diag (v : list string) (st : LinkerState) : LinkerState :=
  Build_LinkerState (objects st) (symbols st) (libraries st) (base_addr st)
    (total_code st) (total_data st) (total_bss st) (errors st) v.


Definition set_code_base (v : Z) (o : ObjectInfo) : ObjectInfo :=
  mkObjectInfo (filename o) (code_size o) (data_size o) (bss_size o)
    (num_symbols o) (num_relocs o) (num_externs o) (strtab_size o) v
    (data_base o) (bss_base o) (code_pos o) (data_pos o) (sym_pos o)
    (reloc_pos o) (extern_pos o) (strtab_pos o).

Definition set_data_base (v : Z) (o : ObjectInfo) : ObjectInfo :=
  mkObjectInfo (filename o) (code_size o) (data_size o) (bss_size o)
    (num_symbols o) (num_relocs o) (num_externs o) (strtab_size o)
    (code_base o) v (bss_base o) (code_pos o) (data_pos o) (sym_pos o)
    (reloc_pos o) (extern_pos o) (strtab_pos o).

Definition set_bss_base (v : Z) (o : ObjectInfo) : ObjectInfo :=
  mkObjectInfo (filename o) (code_size o) (data_size o) (bss_size o)
    (num_symbols o) (num_relocs o) (num_externs o) (strtab_size o)
    (code_base o) (data_base o) v (code_pos o) (data_pos o) (sym_pos o)
    (reloc_pos o) (extern_pos o) (strtab_pos o).

Definition num_objects (ls : LinkerState) : Z := Z.of_nat (List.length (objects ls)).
Definition num_globals (ls : LinkerState) : Z := Z.of_nat (List.length (symbols ls)).
Definition num_libraries (ls : LinkerState) : Z := Z.of_nat (List.length (libraries ls)).

(** A message on stderr, and one with [ls->errors++]. *)
Definition message (msg : string) (ls : LinkerState) : LinkerState :=
  set_diag (diag ls ++ [msg]) ls.

Definition report (msg : string) (ls : LinkerState) : LinkerState :=
  set_errors (errors ls + 1) (message msg ls).

(** *** Bytes and files *)

Definition byte_at (b : list Z) (i : nat) : Z := uint8 (nth i b 0).

Definition read24 (b : list Z) (i : nat) : Z :=
  READ24 (byte_at b i) (byte_at b (i + 1)) (byte_at b (i + 2)).

(** [READ16]. *)
Definition read16 (b : list Z) (i : nat) : Z :=
  Z.lor (byte_at b i) (Z.shiftl (byte_at b (i + 1)) 8).

(** [fseek(fp, pos, SEEK_SET)] and an [fread] of [n] bytes that must be
    complete. *)
Definition read_at (file : list Z) (pos n : Z) : option (list Z) :=
  if (0 <=? pos) && (0 <=? n) && (pos + n <=? Z.of_nat (List.length file))
  then Some (firstn (Z.to_nat n) (skipn (Z.to_nat pos) file))
  else None.

(** An [fread] of up to [n] bytes whose count is not checked. *)
Definition read_some (file : list Z) (pos n : Z) : list Z :=
  if (0 <=? pos) && (0 <=? n) then firstn (Z.to_nat n) (skipn (Z.to_nat pos) file)
  else [].

Definition string_of_bytes (b : list Z) : string :=
  string_of_list_ascii (map (fun x => ascii_of_N (Z.to_N (uint8 x))) b).

(** [&strtab[name_off]] as a C string. *)
Definition cstring_at (strtab : list Z) (name_off : Z) : string :=
  c_str (string_of_bytes (skipn (Z.to_nat name_off) strtab)).

Record ObjHeader : Type := mkObjHeader {
  h_magic : list Z;
  h_version : Z;
  h_code_size : Z;
  h_data_size : Z;
  h_bss_size : Z;
  h_num_symbols : Z;
  h_num_relocs : Z;
  h_num_externs : Z;
  h_strtab_size : Z
}.

Definition parse_header (b : list Z) : ObjHeader :=
  mkObjHeader [byte_at b 0; byte_at b 1; byte_at b 2; byte_at b 3] (byte_at b 4)
    (read24 b 6) (read24 b 9) (read24 b 12) (read24 b 15) (read24 b 18)
    (read24 b 21) (read24 b 24).

Definition magic_ok (h : ObjHeader) : bool :=
  match h_magic h with
  | [m0; m1; m2; m3] =>
      (m0 =? OBJ_MAGIC_0) && (m1 =? OBJ_MAGIC_1) && (m2 =? OBJ_MAGIC_2) && (m3 =? OBJ_MAGIC_3)
  | _ => false
  end.

(** *** Global symbols *)

Definition lower (c : ascii) : ascii :=
  if (65 <=? chr c) && (chr c <=? 90) then ascii_of_N (N_of_ascii c + 32) else c.

(** [str_casecmp(a, b) == 0]. *)
Definition str_casecmp_eq (a b : string) : bool :=
  streq (str_map lower (c_str a)) (str_map lower (c_str b)).

Definition sym_hash (name : string) : Z :=
  Z.land
    ((fix go (s : string) (h : Z) : Z :=
        match s with
        | EmptyString => h
        | String c r => go r (Z.lxor (uint24 (Z.shiftl h 5 + h)) (chr (lower c)))
        end) (c_str name) 5381)
    (HASH_SIZE - 1).

(** The first match on the chain of the bucket of [name], from its head:
    the index in [symbols]. *)
Fixpoint chain_find (h : Z) (name : string) (syms : list GlobalSymbol) (i : nat)
    : option nat :=
  match syms with
  | [] => None
  | s :: rest =>
      match chain_find h name rest (S i) with
      | Some j => Some j
      | None =>
          if (gs_bucket s =? h) && str_casecmp_eq (gs_name s) name then Some i else None
      end
  end.

Definition find_global (ls : LinkerState) (name : string) : option GlobalSymbol :=
  match chain_find (sym_hash name) name (symbols ls) 0 with
  | Some i => nth_error (symbols ls) i
  | None => None
  end.

Definition add_global (name : string) (value section obj_index : Z)
    (ls : LinkerState) : Z * LinkerState :=
  match find_global ls name with
  | Some _ => (-1, report "error: duplicate symbol '%s' in '%s' and '%s'" ls)
  | None =>
      if num_globals ls >=? MAX_SYMBOLS then (-1, report "error: too many symbols" ls)
      else
        (0, set_symbols
              (symbols ls
               ++ [mkGlobalSymbol (str_copy name 64) value section obj_index (sym_hash name)])
              ls)
  end.

(** *** Loading objects *)

Section Files.

Variable fs : string -> option (list Z).

(** The symbol loop of [load_object_at]: [None] when a record cannot be
    read, with the symbols registered until then. *)
Fixpoint register_symbols (n : nat) (file : list Z) (pos : Z) (strtab : list Z)
    (strtab_size : Z) (obj_index : Z) (ls : LinkerState) : bool * LinkerState :=
  match n with
  | O => (true, ls)
  | S n' =>
      match read_at file pos sizeof_ObjSymbol with
      | None => (false, message "error: cannot read symbol from '%s'" ls)
      | Some sym =>
          let name_off := read24 sym 0 in
          let value := read24 sym 5 in
          let ls1 :=
            if (strtab_size >? 0) && (name_off <? strtab_size)
            then snd (add_global (cstring_at strtab name_off) value (byte_at sym 3)
                        obj_index ls)
            else ls in
          register_symbols n' file (pos + sizeof_ObjSymbol) strtab strtab_size obj_index ls1
      end
  end.

Definition object_of_header (name : string) (offset : Z) (h : ObjHeader) : ObjectInfo :=
  let code_pos := offset + sizeof_ObjHeader in
  let data_pos := code_pos + h_code_size h in
  let sym_pos := data_pos + h_data_size h in
  let reloc_pos := sym_pos + h_num_symbols h * sizeof_ObjSymbol in
  let extern_pos := reloc_pos + h_num_relocs h * sizeof_ObjReloc in
  let strtab_pos := extern_pos + h_num_externs h * sizeof_ObjExtern in
  mkObjectInfo (str_copy name MAX_FILENAME) (h_code_size h) (h_data_size h) (h_bss_size h)
    (h_num_symbols h) (h_num_relocs h) (h_num_externs h) (h_strtab_size h)
    0 0 0 code_pos data_pos sym_pos reloc_pos extern_pos strtab_pos.

(** [load_object_at]. A load that fails leaves the slot [objects[num_objects]]
    out of the list, and keeps the symbols it had registered. *)
Definition load_object_at (name : string) (offset : Z) (ls : LinkerState)
    : Z * LinkerState :=
  if num_objects ls >=? MAX_OBJECTS then (-1, message "error: too many object files" ls)
  else
    match fs name with
    | None => (-1, message "error: cannot open '%s'" ls)
    | Some file =>
        match read_at file offset sizeof_ObjHeader with
        | None => (-1, message "error: cannot read header from '%s'" ls)
        | Some hb =>
            let h := parse_header hb in
            if negb (magic_ok h) then
              (-1, message "error: '%s' is not a valid object file" ls)
            else if negb (h_version h =? 3) then
              (-1, message "error: '%s' has unsupported version %d" ls)
            else
              let obj := object_of_header name offset h in
              let strtab :=
                if strtab_size obj >? 0
                then read_at file (strtab_pos obj) (strtab_size obj)
                else Some [] in
              match strtab with
              | None => (-1, message "error: cannot read string table from '%s'" ls)
              | Some st =>
                  match register_symbols (Z.to_nat (int24 (num_symbols obj))) file
                          (sym_pos obj) st (strtab_size obj) (num_objects ls) ls with
                  | (false, ls1) => (-1, ls1)
                  | (true, ls1) => (0, set_objects (objects ls1 ++ [obj]) ls1)
                  end
              end
        end
    end.

Definition load_object (name : string) (ls : LinkerState) : Z * LinkerState :=
  load_object_at name 0 ls.

(** *** Scanning a library *)

(** [obj_size], in [uint24] arithmetic. *)
Definition object_size (h : ObjHeader) : Z :=
  uint24 (sizeof_ObjHeader + h_code_size h + h_data_size h
          + h_num_symbols h * sizeof_ObjSymbol
          + h_num_relocs h * sizeof_ObjReloc
          + h_num_externs h * sizeof_ObjExtern
          + h_strtab_size h).

(** The scan loop of [add_library]: [None] on a bad magic or a full
    catalogue. A turn records one object, so the loop ends within
    [MAX_LIB_OBJECTS] turns and one more. *)
Fixpoint scan_library (n : nat) (file : list Z) (pos : Z) (acc : list LibObject)
    : option (list LibObject) :=
  match n with
  | O => None
  | S n' =>
      if pos <? Z.of_nat (List.length file) then
        match read_at file pos sizeof_ObjHeader with
        | None => Some acc
        | Some hb =>
            let h := parse_header hb in
            if negb (magic_ok h) then None
            else if Z.of_nat (List.length acc) >=? MAX_LIB_OBJECTS then None
            else
              scan_library n' file (pos + object_size h)
                (acc ++ [mkLibObject pos (object_size h) false])
        end
      else Some acc
  end.

Definition add_library (name : string) (ls : LinkerState) : Z * LinkerState :=
  if num_libraries ls >=? MAX_LIBRARIES then (-1, message "error: too many libraries" ls)
  else
    match fs name with
    | None => (-1, message "error: cannot open library '%s'" ls)
    | Some file =>
        match scan_library (Z.to_nat MAX_LIB_OBJECTS + 2) file 0 [] with
        | None => (-1, message "error: invalid object or too many objects in library '%s'" ls)
        | Some objs =>
            (0, set_libraries
                  (libraries ls ++ [mkLibraryInfo (str_copy name MAX_FILENAME) objs]) ls)
        end
    end.

(** *** Selective loading *)

(** The loop of [get_object_externals_fp] over the extern records. *)
Fixpoint read_externals (n : nat) (file : list Z) (pos : Z) (strtab : list Z)
    (strtab_size max_ext : Z) (acc : list string) : list string :=
  match n with
  | O => acc
  | S n' =>
      if Z.of_nat (List.length acc) <? max_ext then
        match read_at file pos sizeof_ObjExtern with
        | None => acc
        | Some ext =>
            let name_off := read24 ext 0 in
            read_externals n' file (pos + sizeof_ObjExtern) strtab strtab_size max_ext
              (if name_off <? strtab_size
               then acc ++ [str_copy (cstring_at strtab name_off) 64]
               else acc)
        end
      else acc
  end.

Definition get_object_externals_fp (file : list Z) (obj : ObjectInfo) (max_ext : Z)
    : list string :=
  if (strtab_size obj =? 0) || (num_externs obj =? 0) then []
  else
    match read_at file (strtab_pos obj) (strtab_size obj) with
    | None => []
    | Some strtab =>
        read_externals (Z.to_nat (int24 (num_externs obj))) file (extern_pos obj)
          strtab (strtab_size obj) max_ext []
    end.

(** The undefined externals of one object, added to the list. *)
Fixpoint add_undefined (ls : LinkerState) (names : list string) (undefined : list string)
    : list string :=
  match names with
  | [] => undefined
  | n :: rest =>
      if Z.of_nat (List.length undefined) <? MAX_EXTERNS then
        match find_global ls n with
        | Some _ => add_undefined ls rest undefined
        | None =>
            if existsb (fun u => str_casecmp_eq u n) undefined
            then add_undefined ls rest undefined
            else add_undefined ls rest (undefined ++ [str_copy n 64])
        end
      else undefined
  end.

(** The first loop of a pass of [process_libraries]: the undefined externals
    of the loaded objects. *)
Fixpoint collect_undefined (ls : LinkerState) (objs : list ObjectInfo)
    (undefined : list string) : list string :=
  match objs with
  | [] => undefined
  | o :: rest =>
      if Z.of_nat (List.length undefined) <? MAX_EXTERNS then
        match fs (filename o) with
        | None => collect_undefined ls rest undefined
        | Some file =>
            collect_undefined ls rest
              (add_undefined ls (get_object_externals_fp file o 256) undefined)
        end
      else undefined
  end.

(** The symbol loop of the match test. *)
Fixpoint exports_match (n : nat) (sym_buf strtab : list Z) (strtab_size : Z)
    (undefined : list string) (s : nat) : bool :=
  match n with
  | O => false
  | S n' =>
      let name_off := read24 sym_buf (s * 10) in
      if (name_off <? strtab_size)
         && existsb (fun u => str_casecmp_eq (cstring_at strtab name_off) u) undefined
      then true
      else exports_match n' sym_buf strtab strtab_size undefined (S s)
  end.

(** [found_match] for the library object at [offset]: some exported name is
    one of the undefined ones. *)
Definition found_match (file : list Z) (offset : Z) (undefined : list string) : bool :=
  match read_at file offset sizeof_ObjHeader with
  | None => false
  | Some hb =>
      let h := parse_header hb in
      if (h_num_symbols h =? 0) || (h_strtab_size h =? 0) then false
      else
        let sym_pos := offset + sizeof_ObjHeader + h_code_size h + h_data_size h in
        let strtab_pos :=
          sym_pos + h_num_symbols h * sizeof_ObjSymbol
          + h_num_relocs h * sizeof_ObjReloc + h_num_externs h * sizeof_ObjExtern in
        match read_at file strtab_pos (h_strtab_size h) with
        | None => false
        | Some strtab =>
            match read_at file sym_pos (h_num_symbols h * sizeof_ObjSymbol) with
            | None => false
            | Some sym_buf =>
                exports_match (Z.to_nat (int24 (h_num_symbols h))) sym_buf strtab
                  (h_strtab_size h) undefined 0
            end
        end
  end.

(** What a pass carries through the libraries: the linker state (its
    objects and symbols grow with each load) and the positions
    [(library, object)] of the objects loaded, in loading order. *)
Record PassState : Type := mkPass {
  p_ls : LinkerState;
  p_loaded : list (nat * nat)
}.

(** The inner loop of the second loop of a pass, over the objects of the
    library [lib_idx] from its [j]-th: the catalogue entries as the loop
    leaves them. *)
Fixpoint scan_objects (name : string) (file : list Z) (undefined : list string)
    (lib_idx j : nat) (objs : list LibObject) (p : PassState)
    : list LibObject * PassState :=
  match objs with
  | [] => ([], p)
  | o :: rest =>
      if lo_loaded o then
        let '(rest', p') := scan_objects name file undefined lib_idx (S j) rest p in
        (o :: rest', p')
      else if found_match file (lo_offset o) undefined then
        let '(r, ls1) := load_object_at name (lo_offset o) (p_ls p) in
        let o1 := if r =? 0 then mkLibObject (lo_offset o) (lo_obj_size o) true else o in
        let p1 := mkPass ls1 (if r =? 0 then p_loaded p ++ [(lib_idx, j)] else p_loaded p) in
        let '(rest', p') := scan_objects name file undefined lib_idx (S j) rest p1 in
        (o1 :: rest', p')
      else
        let '(rest', p') := scan_objects name file undefined lib_idx (S j) rest p in
        (o :: rest', p')
  end.

(** The second loop of a pass, over the libraries from the [lib_idx]-th. *)
Fixpoint scan_libraries (undefined : list string) (lib_idx : nat)
    (libs : list LibraryInfo) (p : PassState) : list LibraryInfo * PassState :=
  match libs with
  | [] => ([], p)
  | lib :: rest =>
      match fs (lib_filename lib) with
      | None =>
          let '(rest', p') := scan_libraries undefined (S lib_idx) rest p in
          (lib :: rest', p')
      | Some file =>
          let '(objs, p1) :=
            scan_objects (lib_filename lib) file undefined lib_idx 0 (lib_objects lib) p in
          let '(rest', p') := scan_libraries undefined (S lib_idx) rest p1 in
          (mkLibraryInfo (lib_filename lib) objs :: rest', p')
      end
  end.

(** One turn of the [do ... while (loaded_any)] loop: [None] when the turn
    leaves the loop by [break] (nothing is undefined), and otherwise the
    objects loaded in the turn and the state after it. *)
Definition library_pass (ls : LinkerState) : option (list (nat * nat) * LinkerState) :=
  match collect_undefined ls (objects ls) [] with
  | [] => None
  | undefined =>
      let '(libs, p) := scan_libraries undefined 0 (libraries ls) (mkPass ls []) in
      Some (p_loaded p, set_libraries libs (p_ls p))
  end.

(** The loop of [process_libraries]: the objects loaded, in order, and the
    final state; a turn spends one unit of fuel. *)
Fixpoint library_loop (fuel : nat) (ls : LinkerState)
    : option (list (nat * nat) * LinkerState) :=
  match fuel with
  | O => None
  | S f =>
      match library_pass ls with
      | None => Some ([], ls)
      | Some ([], ls1) => Some ([], ls1)
      | Some (loaded, ls1) =>
          match library_loop f ls1 with
          | None => None
          | Some (more, ls2) => Some (loaded ++ more, ls2)
          end
      end
  end.

Definition unloaded_objects (libs : list LibraryInfo) : nat :=
  list_sum (map (fun lib => List.length (filter (fun o => negb (lo_loaded o)) (lib_objects lib)))
              libs).

(** [process_libraries]: every turn but the last loads an object not yet
    loaded, so one turn more than there are such objects is enough. *)
Definition process_libraries (ls : LinkerState) : option (list (nat * nat) * LinkerState) :=
  if num_libraries ls =? 0 then Some ([], ls)
  else library_loop (S (unloaded_objects (libraries ls))) ls.

End Files.

(** *** Layout and symbol resolution *)

Fixpoint assign_bases (size : ObjectInfo -> Z) (set_base : Z -> ObjectInfo -> ObjectInfo)
    (objs : list ObjectInfo) (addr : Z) : list ObjectInfo * Z :=
  match objs with
  | [] => ([], addr)
  | o :: rest =>
      let '(rest', last) := assign_bases size set_base rest (uint24 (addr + size o)) in
      (set_base addr o :: rest', last)
  end.

Definition zero_object : ObjectInfo :=
  mkObjectInfo "" 0 0 0 0 0 0 0 0 0 0 0 0 0 0 0 0.

(** [ls->objects[i]]; a slot past [num_objects] is still zeroed. *)
Definition object_at (ls : LinkerState) (i : Z) : ObjectInfo :=
  if i <? 0 then zero_object else nth (Z.to_nat i) (objects ls) zero_object.

(** The base a global symbol is relative to. *)
Definition section_base (ls : LinkerState) (sym : GlobalSymbol) : Z :=
  if gs_section sym =? SECT_CODE then code_base (object_at ls (gs_obj_index sym))
  else if gs_section sym =? SECT_DATA then data_base (object_at ls (gs_obj_index sym))
  else if gs_section sym =? SECT_BSS then bss_base (object_at ls (gs_obj_index sym))
  else 0.

Definition make_absolute (ls : LinkerState) (sym : GlobalSymbol) : GlobalSymbol :=
  mkGlobalSymbol (gs_name sym) (uint24 (gs_value sym + section_base ls sym))
    (gs_section sym) (gs_obj_index sym) (gs_bucket sym).

(** The first part of [resolve_symbols]: the three layout loops. *)
Definition layout (ls : LinkerState) : LinkerState :=
  let '(objs1, code_addr) := assign_bases code_size set_code_base (objects ls) (base_addr ls) in
  let ls1 := set_total_code (uint24 (code_addr - base_addr ls)) (set_objects objs1 ls) in
  let '(objs2, data_addr) := assign_bases data_size set_data_base objs1 code_addr in
  let ls2 := set_total_data (uint24 (data_addr - code_addr)) (set_objects objs2 ls1) in
  let '(objs3, bss_addr) := assign_bases bss_size set_bss_base objs2 data_addr in
  set_total_bss (uint24 (bss_addr - data_addr)) (set_objects objs3 ls2).

Definition linker_symbols (ls : LinkerState) : list (string * Z) :=
  [("__low_code", base_addr ls);
   ("__len_code", total_code ls);
   ("__low_data", uint24 (base_addr ls + total_code ls));
   ("__len_data", total_data ls);
   ("__low_bss", uint24 (base_addr ls + total_code ls + total_data ls));
   ("__len_bss", total_bss ls)].

Definition inject (ls : LinkerState) (defs : list (string * Z)) : LinkerState :=
  fold_left (fun l d => snd (add_global (fst d) (snd d) 0 LINKER_DEFINED l)) defs ls.

Definition resolve_symbols (ls : LinkerState) : Z * LinkerState :=
  let ls1 := layout ls in
  let ls2 := set_symbols (map (make_absolute ls1) (symbols ls1)) ls1 in
  (0, inject ls2 (linker_symbols ls2)).

(** *** Output and relocation *)

(** [buf[pos] = b] inside the allocation. *)
Definition poke (buf : list Z) (pos : Z) (b : Z) : list Z :=
  if pos <? 0 then buf else list_update (Z.to_nat pos) (fun _ => b) buf.

Definition peek (buf : list Z) (pos : Z) : Z :=
  if pos <? 0 then 0 else nth (Z.to_nat pos) buf 0.

(** An [fread] into [&buf[pos]]. *)
Fixpoint blit (buf : list Z) (pos : Z) (bytes : list Z) : list Z :=
  match bytes with
  | [] => buf
  | b :: rest => blit (poke buf pos (uint8 b)) (pos + 1) rest
  end.

Record Image : Type := mkImage {
  code_buf : list Z;
  data_buf : list Z
}.

(** The patch of one buffer at [patch_pos], when it lies inside the first
    [total] bytes: the 24-bit little-endian value there plus the target
    address. *)
Definition patch24 (buf : list Z) (patch_pos total target_addr : Z) : list Z :=
  if patch_pos + 2 <? total then
    let existing :=
      Z.lor (Z.lor (peek buf patch_pos) (Z.shiftl (peek buf (patch_pos + 1)) 8))
            (Z.shiftl (peek buf (patch_pos + 2)) 16) in
    let target := uint24 (target_addr + existing) in
    poke (poke (poke buf patch_pos (Z.land target 0xFF))
               (patch_pos + 1) (Z.land (Z.shiftr target 8) 0xFF))
         (patch_pos + 2) (Z.land (Z.shiftr target 16) 0xFF)
  else buf.

(** "Find patch location and apply relocation". *)
Definition apply_patch (ls : LinkerState) (obj : ObjectInfo) (section offset target_addr : Z)
    (img : Image) : Image :=
  if section =? SECT_CODE then
    mkImage (patch24 (code_buf img) (uint24 (code_base obj - base_addr ls + offset))
               (total_code ls) target_addr)
            (data_buf img)
  else if section =? SECT_DATA then
    mkImage (code_buf img)
            (patch24 (data_buf img)
               (uint24 (data_base obj - base_addr ls - total_code ls + offset))
               (total_data ls) target_addr)
  else img.

(** "Determine target address": the address, or the error reported. *)
Definition target_address (ls : LinkerState) (obj : ObjectInfo)
    (strtab ext_tab : option (list Z)) (target_sect ext_index : Z) : Z + string :=
  if target_sect =? 0 then
    match ext_tab, strtab with
    | Some et, Some st =>
        if ext_index >=? num_externs obj then inr "error: cannot resolve external %u in '%s'"
        else
          let name_off := read24 et (Z.to_nat (ext_index * sizeof_ObjExtern)) in
          if name_off >=? strtab_size obj then inr "error: bad extern name offset %u in '%s'"
          else
            match find_global ls (str_copy (cstring_at st name_off) 64) with
            | Some sym => inl (gs_value sym)
            | None => inr "error: undefined symbol '%s' referenced in '%s'"
            end
    | _, _ => inr "error: cannot resolve external %u in '%s'"
    end
  else if target_sect =? SECT_CODE then inl (code_base obj)
  else if target_sect =? SECT_DATA then inl (data_base obj)
  else if target_sect =? SECT_BSS then inl (bss_base obj)
  else inr "error: invalid target section %d".

(** The body of the relocation loop for one record of 8 bytes. *)
Definition apply_reloc (obj : ObjectInfo) (strtab ext_tab : option (list Z))
    (reloc : list Z) (acc : LinkerState * Image) : LinkerState * Image :=
  let '(ls, img) := acc in
  let offset := read24 reloc 0 in
  let section := byte_at reloc 3 in
  let target_sect := byte_at reloc 5 in
  let ext_index := read16 reloc 6 in
  match target_address ls obj strtab ext_tab target_sect ext_index with
  | inr msg => (report msg ls, img)
  | inl target_addr => (ls, apply_patch ls obj section offset target_addr img)
  end.

Fixpoint reloc_loop (n : nat) (file : list Z) (pos : Z) (obj : ObjectInfo)
    (strtab ext_tab : option (list Z)) (acc : LinkerState * Image)
    : LinkerState * Image :=
  match n with
  | O => acc
  | S n' =>
      match read_at file pos sizeof_ObjReloc with
      | None => acc
      | Some reloc =>
          reloc_loop n' file (pos + sizeof_ObjReloc) obj strtab ext_tab
            (apply_reloc obj strtab ext_tab reloc acc)
      end
  end.

(** One turn of the object loop of [link_output]. *)
Definition link_object (file : list Z) (obj : ObjectInfo) (acc : LinkerState * Image)
    : LinkerState * Image :=
  let '(ls, img) := acc in
  let code :=
    if code_size obj >? 0
    then blit (code_buf img) (uint24 (code_base obj - base_addr ls))
           (read_some file (code_pos obj) (code_size obj))
    else code_buf img in
  let data :=
    if data_size obj >? 0
    then blit (data_buf img) (uint24 (data_base obj - base_addr ls - total_code ls))
           (read_some file (data_pos obj) (data_size obj))
    else data_buf img in
  let strtab :=
    if strtab_size obj >? 0 then read_at file (strtab_pos obj) (strtab_size obj) else None in
  let ext_tab :=
    if num_externs obj >? 0
    then read_at file (extern_pos obj) (num_externs obj * sizeof_ObjExtern)
    else None in
  reloc_loop (Z.to_nat (num_relocs obj)) file (reloc_pos obj) obj strtab ext_tab
    (ls, mkImage code data).

Section Output.

Variable fs : string -> option (list Z).

(** The object loop of [link_output]: [false] when an object cannot be
    reopened. *)
Fixpoint link_objects (objs : list ObjectInfo) (acc : LinkerState * Image)
    : bool * (LinkerState * Image) :=
  match objs with
  | [] => (true, acc)
  | obj :: rest =>
      match fs (filename obj) with
      | None => (false, acc)
      | Some file => link_objects rest (link_object file obj acc)
      end
  end.

Definition zeros (n : Z) : list Z := repeat 0 (Z.to_nat (if n =? 0 then 1 else n)).

(** [link_output]: the result, the state, and the bytes written to the
    output file when it is written. *)
Definition link_output (ls : LinkerState) : Z * LinkerState * option (list Z) :=
  match link_objects (objects ls)
          (ls, mkImage (zeros (total_code ls)) (zeros (total_data ls))) with
  | (false, (ls1, _)) => (-1, message "error: cannot reopen '%s'" ls1, None)
  | (true, (ls1, img)) =>
      if errors ls1 >? 0 then (-1, ls1, None)
      else
        (0, ls1,
         Some (firstn (Z.to_nat (total_code ls1)) (code_buf img)
               ++ firstn (Z.to_nat (total_data ls1)) (data_buf img)))
  end.

(** *** main, after the command line is read *)

Inductive Input : Type :=
| InObject (name : string)
| InLibrary (path : string).

Fixpoint load_inputs (inputs : list Input) (ls : LinkerState) : Z * LinkerState :=
  match inputs with
  | [] => (0, ls)
  | InObject name :: rest =>
      let '(r, ls1) := load_object fs name ls in
      if r <? 0 then (-1, ls1) else load_inputs rest ls1
  | InLibrary path :: rest =>
      let '(r, ls1) := add_library fs path ls in
      if r <? 0 then (-1, ls1) else load_inputs rest ls1
  end.

Definition linker_init (base : Z) : LinkerState :=
  {| objects := []; symbols := []; libraries := []; base_addr := base;
     total_code := 0; total_data := 0; total_bss := 0; errors := 0; diag := [] |}.

(** [main]: the exit code, the final state and the output image. *)
Definition link (base : Z) (inputs : list Input)
    : option (Z * LinkerState * option (list Z)) :=
  let '(r, ls0) := load_inputs inputs (linker_init base) in
  if r <? 0 then Some (1, ls0, None)
  else if num_objects ls0 =? 0 then Some (1, message "error: no input files" ls0, None)
  else
    match process_libraries fs ls0 with
    | None => None
    | Some (_, ls1) =>
        let '(_, ls2) := resolve_symbols ls1 in
        if errors ls2 >? 0 then Some (1, message "Link failed with %d error(s)" ls2, None)
        else
          let '(r3, ls3, out) := link_output ls2 in
          if r3 <? 0 then Some (1, ls3, None)
          else Some (if errors ls3 >? 0 then 1 else 0, ls3, out)
    end.

End Output.

(** *** Notions the properties of the linker are stated with *)






(** The [loaded] flag of the [k]-th object of a catalogue, and of the
    [j]-th object of the [i]-th library. *)
Definition loaded_in (objs : list LibObject) (k : nat) : bool :=
  match nth_error objs k with
  | Some o => lo_loaded o
  | None => false
  end.

Definition is_loaded (libs : list LibraryInfo) (i j : nat) : bool :=
  match nth_error libs i with
  | Some lib => loaded_in (lib_objects lib) j
  | None => false
  end.

(** Every external name of every loaded object is a global symbol. *)
Definition closed (fs : string -> option (list Z)) (ls : LinkerState) : Prop :=
  forall o file n,
    In o (objects ls) -> fs (filename o) = Some file ->
    In n (get_object_externals_fp file o 256) ->
    find_global ls n <> None.

End Linker.


(** * The assembler and the linker together *)

Module Toolchain.

(** The object file [main] writes for a source that assembles without an
    error. *)
Definition object_file (lines : list string) : list Z :=
  match Asm.assemble (Asm.source lines) with
  | Some (r, st) => if r =? 0 then Asm.asm_output st else []
  | None => []
  end.

(** The file system that holds the given files. *)
Fixpoint files (l : list (string * list Z)) (name : string) : option (list Z) :=
  match l with
  | [] => None
  | (n, content) :: rest => if String.eqb n name then Some content else files rest name
  end.

End Toolchain.


From Stdlib Require DecimalZ.

(** * main.c: the entry point of the assembler *)

Module AsMain.

(** The scan of [change_extension] for the last dot after the last
    separator: the index of the dot, if any, and the length of [src]. *)
Fixpoint find_dot (s : string) (i : nat) (dot : option nat) : option nat * nat :=
  match s with
  | EmptyString => (dot, i)
  | String c r =>
      let dot1 := if Ascii.eqb c "." then Some i else dot in
      let dot2 := if Ascii.eqb c "/" || Ascii.eqb c "\" then None else dot1 in
      find_dot r (S i) dot2
  end.

(** [change_extension(dest, src, newext, maxlen)]: the string left in
    [dest]. The one call passes [maxlen = 256]; below 4 the C code writes
    before the buffer. *)
Definition change_extension (src newext : string) (maxlen : Z) : string :=
  let s := c_str src in
  let '(dot, len) := find_dot s 0 None in
  let baselen0 :=
    match dot with
    | Some d => Z.of_nat d
    | None => Z.of_nat len
    end in
  let baselen := if baselen0 >? maxlen - 4 then maxlen - 4 else baselen0 in
  String.append (str_take (Z.to_nat baselen) s)
    (str_take (Z.to_nat (maxlen - 1 - baselen)) (c_str newext)).

(** What the argument loop of [main] has read. *)
Record Options : Type := mkOptions {
  input_file : option string;
  output_file : string;
  verbose : bool
}.

(** [strncpy(output_file, argv[i], 255)] and the terminator. *)
Definition strncpy255 (s : string) : string := str_take 255 (c_str s).

(** The argument loop of [main]: the exit code when it returns from the
    loop, the options otherwise. *)
Fixpoint parse_args (args : list string) (o : Options) : Z + Options :=
  match args with
  | [] => inr o
  | a :: rest =>
      if Ascii.eqb (deref a) "-" then
        if streq a "-o" then
          match rest with
          | [] => inl 1
          | f :: rest' =>
              parse_args rest' (mkOptions (input_file o) (strncpy255 f) (verbose o))
          end
        else if streq a "-v" then
          parse_args rest (mkOptions (input_file o) (output_file o) true)
        else if streq a "-h" then inl 0
        else inl 1
      else
        match input_file o with
        | Some _ => inl 1
        | None => parse_args rest (mkOptions (Some a) (output_file o) (verbose o))
        end
  end.

Section Files.

Variable fs : string -> option string.

(** [main]: the exit code and the object file it writes, by name;
    [depth] bounds the nesting of [include], [fopen] for writing is taken to
    succeed. *)
Definition main (depth : nat) (args : list string)
    : option (Z * option (string * list Z)) :=
  match parse_args args (mkOptions None "" false) with
  | inl code => Some (code, None)
  | inr o =>
      match input_file o with
      | None => Some (1, None)
      | Some input =>
          let output :=
            if Ascii.eqb (deref (output_file o)) NUL
            then change_extension input ".o" 256
            else output_file o in
          match Asm.asm_file fs depth input Asm.asm_init with
          | None => None
          | Some (result, st) =>
              if result =? 0 then Some (0, Some (output, Asm.asm_output st))
              else Some (1, None)
          end
      end
  end.

End Files.

End AsMain.

(** * ld.c: the library search of the command line *)

Module LdMain.

Import Linker.

Definition MAX_LIBDIRS : Z := 4.

(** [add_libdir]; the directories [ls->libdirs] are passed beside the
    state. *)
Definition add_libdir (dir : string) (libdirs : list string) (ls : LinkerState)
    : Z * list string * LinkerState :=
  if Z.of_nat (List.length libdirs) >=? MAX_LIBDIRS
  then (-1, libdirs, message "error: too many library directories" ls)
  else (0, libdirs ++ [str_copy dir MAX_FILENAME], ls).

Definition last_char (s : string) : ascii :=
  deref (string_of_list_ascii (rev (list_ascii_of_string s))).

(** The path [dir/lib<name>.a] as [find_and_add_library] builds it in a
    buffer of [MAX_FILENAME] characters. *)
Definition library_path (dir name : string) : string :=
  let p1 := str_take (Z.to_nat (MAX_FILENAME - 1)) (c_str dir) in
  let len1 := Z.of_nat (String.length p1) in
  let p2 :=
    if (len1 >? 0) && negb (Ascii.eqb (last_char p1) "/")
       && negb (Ascii.eqb (last_char p1) "\")
    then if len1 <? MAX_FILENAME - 1 then String.append p1 "/" else p1
    else p1 in
  let len2 := Z.of_nat (String.length p2) in
  let p3 := if len2 + 3 <? MAX_FILENAME then String.append p2 "lib" else p2 in
  let len3 := Z.of_nat (String.length p3) in
  let p4 := String.append p3 (str_take (Z.to_nat (MAX_FILENAME - 1 - len3)) (c_str name)) in
  let len4 := Z.of_nat (String.length p4) in
  if len4 + 2 <? MAX_FILENAME then String.append p4 ".a" else p4.

Section Files.

Variable fs : string -> option (list Z).

(** The search through the [-L] directories. *)
Fixpoint search_libdirs (libdirs : list string) (name : string) : option string :=
  match libdirs with
  | [] => None
  | dir :: rest =>
      match fs (library_path dir name) with
      | Some _ => Some (library_path dir name)
      | None => search_libdirs rest name
      end
  end.

Definition find_and_add_library (libdirs : list string) (name : string)
    (ls : LinkerState) : Z * LinkerState :=
  match search_libdirs libdirs name with
  | Some path => add_library fs path ls
  | None =>
      match fs name with
      | Some _ => add_library fs name ls
      | None => (-1, message "error: cannot find library '%s'" ls)
      end
  end.

End Files.

End LdMain.

(** * Notions the further properties are stated with *)

Module Notions.

(** A list of keys in strictly increasing [strcmp] order. *)
Fixpoint strictly_sorted (keys : list string) : bool :=
  match keys with
  | [] => true
  | a :: r =>
      match r with
      | [] => true
      | b :: _ =>
          match strcmp a b with
          | Lt => strictly_sorted r
          | _ => false
          end
      end
  end.

(** What [symbol_define] writes through [sym]: the value, the section and
    the [defined] mark, and in pass 1 the pass-1 value. *)
Definition defined_as (p sect value : Z) (s : Asm.Symbol) : Asm.Symbol :=
  Asm.mkSymbol (Asm.sym_name s) (uint24 value) sect (Asm.sym_flags s) true
    (if p =? 1 then uint24 value else Asm.sym_pass1_value s) (Asm.sym_bucket s).

(** What an assembly has written and declared: the pass, the scratch files
    with their counts, the symbols and the externals. *)
Definition kept (st : Asm.AsmState) :=
  (Asm.pass st, (Asm.code_tmp st, Asm.data_tmp st, Asm.reloc_tmp st),
   (Asm.code_size st, Asm.data_size st, Asm.bss_size st, Asm.num_relocs st),
   (Asm.symbols st, Asm.externs st)).

(** A computation that keeps the property [Inv] of the state. *)
Definition keeps (Inv : Asm.AsmState -> Prop) {A : Type} (m : Asm.M A) : Prop :=
  forall st r st', m st = Some (r, st') -> Inv st -> Inv st'.

(** The tables [symbols] and [externs] hold no more than their arrays. *)
Definition within_capacity (st : Asm.AsmState) : Prop :=
  Asm.num_symbols st <= Asm.MAX_SYMBOLS /\ Asm.num_externs st <= Asm.MAX_EXTERNS.

(** Every name in the tables fits a buffer of [MAX_LABEL_LEN] characters. *)
Definition names_fit (st : Asm.AsmState) : Prop :=
  Forall (fun s => strlen (Asm.sym_name s) <= Asm.MAX_LABEL_LEN - 1) (Asm.symbols st)
  /\ Forall (fun e => strlen e <= Asm.MAX_LABEL_LEN - 1) (Asm.externs st).

(** The scratch files are open and each count is the length of its file as
    a 24-bit number. *)
Definition scratch_in_step (st : Asm.AsmState) : Prop :=
  exists c d r,
    Asm.code_tmp st = Some c /\ Asm.data_tmp st = Some d /\ Asm.reloc_tmp st = Some r
    /\ Asm.code_size st = uint24 (Z.of_nat (List.length c))
    /\ Asm.data_size st = uint24 (Z.of_nat (List.length d))
    /\ Asm.num_relocs st = uint24 (Z.of_nat (List.length r)).

(** The bytes a list of names takes in a string table, each name with its
    terminator. *)
Definition names_length (names : list string) : Z :=
  fold_right (fun n a => strlen n + 1 + a) 0 names.

(** The displacement a byte stands for in a relative jump: the byte as a
    signed 8-bit number. *)
Definition int8 (b : Z) : Z := if b <? 128 then b else b - 256.


(** An object file with a good magic number that is as long as its header
    says. *)
Definition well_sized (obj : list Z) : Prop :=
  Linker.magic_ok (Linker.parse_header obj) = true
  /\ sizeof_ObjHeader <= Z.of_nat (List.length obj)
  /\ Z.of_nat (List.length obj) = Linker.object_size (Linker.parse_header obj).

(** The catalogue of a library that holds the given objects one after the
    other from the offset [pos]: none is marked as loaded. *)
Fixpoint catalogue (objs : list (list Z)) (pos : Z) : list Linker.LibObject :=
  match objs with
  | [] => []
  | obj :: rest =>
      Linker.mkLibObject pos (Z.of_nat (List.length obj)) false
      :: catalogue rest (pos + Z.of_nat (List.length obj))
  end.

(** An object file the assembler writes: the output of an assembly that
    starts from [asm_init] and returns 0. *)
Definition assembled_object (obj : list Z) : Prop :=
  exists fs depth filename st,
    Asm.asm_file fs depth filename Asm.asm_init = Some (0, st)
    /\ obj = Asm.asm_output st.

(** The global symbols the linker makes of the exported symbols of an
    object, in their order: [add_global] of each name with its value and
    its section as the object file holds them. *)
Definition register_exports (syms : list Asm.Symbol) (obj_index : Z)
    (ls : Linker.LinkerState) : Linker.LinkerState :=
  fold_left
    (fun l s =>
       snd (Linker.add_global (c_str (Asm.sym_name s)) (uint24 (Asm.sym_value s))
              (uint8 (Asm.sym_section s)) obj_index l))
    syms ls.

(** A string without a NUL, and a file name part: neither a dot nor a
    separator nor a NUL. *)
Fixpoint no_nul (s : string) : bool :=
  match s with
  | EmptyString => true
  | String c r => negb (Ascii.eqb c NUL) && no_nul r
  end.

Fixpoint plain (s : string) : bool :=
  match s with
  | EmptyString => true
  | String c r =>
      negb (Ascii.eqb c "." || Ascii.eqb c "/" || Ascii.eqb c "\" || Ascii.eqb c NUL)
      && plain r
  end.

End Notions.

(** * Facts about the tables and the arrays *)

Module ListFacts.

Lemma Forall_list_update :
  forall (A : Type) (P : A -> Prop) (f : A -> A) (d : A) (l : list A) (i : nat),
    Forall P l -> P (f (nth i l d)) -> Forall P (list_update i f l).
Proof.
  intros A P f d. induction l as [| x r IH]; intros i Hl Hf; simpl.
  - destruct i; constructor.
  - inversion Hl; subst. destruct i as [| i]; constructor; auto.
Qed.

Lemma nth_list_update :
  forall (A B : Type) (g : A -> B) (f : A -> A) (d : A) (l : list A) (i j : nat),
    (forall x, g (f x) = g x) -> g (nth j (list_update i f l) d) = g (nth j l d).
Proof.
  intros A B g f d. induction l as [| x r IH]; intros i j Hg; simpl.
  - destruct i; reflexivity.
  - destruct i as [| i], j as [| j]; simpl; auto.
Qed.

Lemma length_list_update :
  forall (A : Type) (f : A -> A) (l : list A) (i : nat),
    List.length (list_update i f l) = List.length l.
Proof.
  intros A f. induction l as [| x r IH]; intros i; simpl; [destruct i; reflexivity |].
  destruct i; simpl; auto.
Qed.

Lemma nth_list_update_same :
  forall (A : Type) (f : A -> A) (d : A) (l : list A) (i : nat),
    (i < List.length l)%nat -> nth i (list_update i f l) d = f (nth i l d).
Proof.
  intros A f d. induction l as [| x r IH]; intros i H; simpl in *; [lia |].
  destruct i as [| i]; simpl; [reflexivity | apply IH; lia].
Qed.

End ListFacts.

(** * Properties of the assembler *)

Module AsmSpec.

Import Asm ListFacts.

(** ** The LD table of register pairs *)


(** ** Division by zero *)

(** The claim of the document fails on [6/0]: the evaluator reports the
    error and the expression is worth 6, not 0. *)
Lemma C7_six_over_zero_is_six :
  exists st',
    parse_expression (at_operand "6/0" asm_init) = Some (mkExpr false 6 "", st')
    /\ diag st' = ["division by zero"]
    /\ e_value (mkExpr false 6 "") <> 0.
Proof.
  eexists. split; [vm_compute; reflexivity | split; [reflexivity | discriminate]].
Qed.

(** C7 (as the code has it). A division whose right operand evaluates to 0
    reports "division by zero" once and leaves the value of the left operand
    as it is: the turn of the loop of [parse_expr_mul] at a [/] whose right
    primary evaluates to 0 goes on with the same value, in the state the
    right operand left, with one more error. *)
Theorem C7_division_by_zero_keeps_left_value :
  forall (fuel n : nat) (val : Z) (so so1 : SymOut) (st st1 : AsmState),
    tok_type (current_token st) = TOK_SLASH ->
    parse_expr_primary fuel so (lexer_next st) = Some ((0, so1), st1) ->
    mul_loop (parse_expr_primary fuel) (S n) val so st
    = mul_loop (parse_expr_primary fuel) n val so1 (asm_error "division by zero" st1)
    /\ mul_step TOK_SLASH val 0 st1 = (val, asm_error "division by zero" st1)
    /\ errors (asm_error "division by zero" st1) = errors st1 + 1
    /\ diag (asm_error "division by zero" st1) = diag st1 ++ ["division by zero"].
Proof.
  intros fuel n val so so1 st st1 Hop Hrhs.
  split; [| repeat split].
  simpl. rewrite Hop. simpl. rewrite Hrhs. reflexivity.
Qed.

Lemma C7_division_by_zero_witness :
  let st := lexer_next (at_operand "6/0" asm_init) in
  let st1 := lexer_next (lexer_next st) in
  mul_loop (parse_expr_primary 3) 1 6 ("", false) st
  = mul_loop (parse_expr_primary 3) 0 6 ("", false) (asm_error "division by zero" st1)
  /\ mul_step TOK_SLASH 6 0 st1 = (6, asm_error "division by zero" st1)
  /\ errors (asm_error "division by zero" st1) = errors st1 + 1
  /\ diag (asm_error "division by zero" st1) = diag st1 ++ ["division by zero"].
Proof.
  intros st st1.
  apply (C7_division_by_zero_keeps_left_value 3 0 6 ("", false) ("", false) st st1).
  - reflexivity.
  - vm_compute. reflexivity.
Defined.

(** ** Symbols under subtraction *)



(** ** The lexer and the expression parser: what they leave alone, and that
    they return *)

Ltac break_if :=
  match goal with
  | |- context [if ?c then _ else _] => destruct c eqn:?
  | |- context [match ?x with _ => _ end] => destruct x eqn:?
  end.

Lemma assembled_asm_error : forall msg st, assembled (asm_error msg st) = assembled st.
Proof. reflexivity. Qed.

Lemma assembled_asm_warning : forall msg st, assembled (asm_warning msg st) = assembled st.
Proof. reflexivity. Qed.

Lemma assembled_set_tok :
  forall ty text v p st, assembled (set_tok ty text v p st) = assembled st.
Proof. reflexivity. Qed.

Lemma assembled_lexer_next : forall st, assembled (lexer_next st) = assembled st.
Proof.
  intros st.
  unfold lexer_next, lex_number, lex_ident, lex_string, lex_char, lexer_skip_whitespace.
  repeat break_if; reflexivity.
Qed.

Lemma assembled_lexer_init : forall line st, assembled (lexer_init line st) = assembled st.
Proof. reflexivity. Qed.

Lemma assembled_lexer_peek : forall st, assembled (lexer_peek st) = assembled st.
Proof.
  intros st. unfold lexer_peek.
  transitivity (assembled (lexer_next st)); [reflexivity | apply assembled_lexer_next].
Qed.

(** *** The line only gets shorter *)

Lemma skip_while_length :
  forall p s, (String.length (skip_while p s) <= String.length s)%nat.
Proof.
  induction s as [| c r IH]; simpl; [lia |].
  destruct (p c); simpl; lia.
Qed.

Lemma span_length :
  forall p n s, (String.length (snd (span p n s)) <= String.length s)%nat.
Proof.
  induction n as [| n IH]; intros s; simpl; [lia |].
  destruct s as [| c r]; simpl; [lia |].
  destruct (p c); simpl; [| lia].
  specialize (IH r). destruct (span p n r) as [t s']. simpl in *. lia.
Qed.

Lemma span_length_first :
  forall p n c r,
    p c = true ->
    (String.length (snd (span p (S n) (String c r))) <= String.length r)%nat.
Proof.
  intros p n c r H. simpl. rewrite H.
  pose proof (span_length p n r) as L.
  destruct (span p n r) as [t s']. simpl in *. exact L.
Qed.

Lemma lex_number_digits_length :
  forall n base s,
    (String.length (snd (lex_number_digits n base s)) <= String.length s)%nat.
Proof.
  induction n as [| n IH]; intros base s; simpl; [lia |].
  destruct s as [| c r]; simpl; [lia |].
  destruct ((base =? 16) && isxdigit c || (base =? 10) && isdigit c).
  - specialize (IH base r). destruct (lex_number_digits n base r) as [t s']. simpl in *. lia.
  - destruct (is_h c); simpl; lia.
Qed.

Lemma lex_string_body_length :
  forall n s, (String.length (snd (lex_string_body n s)) <= String.length s)%nat.
Proof.
  induction n as [| n IH]; intros s; simpl; [lia |].
  destruct s as [| c r]; simpl; [lia |].
  destruct (Ascii.eqb c DQUOTE); simpl; [lia |].
  destruct (Ascii.eqb c "\").
  - destruct r as [| e r'].
    + pose proof (IH EmptyString) as L.
      destruct (lex_string_body n EmptyString) as [t s']. simpl in *. lia.
    + pose proof (IH r') as L.
      destruct (lex_string_body n r') as [t s']. simpl in *. lia.
  - pose proof (IH r) as L. destruct (lex_string_body n r) as [t s']. simpl in *. lia.
Qed.

Lemma next_length : forall p, (String.length (next p) <= String.length p)%nat.
Proof. destruct p; simpl; lia. Qed.

Lemma next_length_lt :
  forall p, deref p <> NUL -> (String.length (next p) < String.length p)%nat.
Proof.
  destruct p; simpl; intros H; [contradiction H; reflexivity | lia].
Qed.

Lemma deref_not_nul :
  forall p, Ascii.eqb (deref p) NUL = false -> (0 < String.length p)%nat.
Proof.
  destruct p; simpl; intros H; [discriminate | lia].
Qed.

Lemma remaining_set_tok :
  forall ty text v p st, remaining (set_tok ty text v p st) = String.length p.
Proof. reflexivity. Qed.

Lemma cur_is_set_tok :
  forall t ty text v p st, cur_is t (set_tok ty text v p st) = TokType_eqb ty t.
Proof. reflexivity. Qed.

(** A character that does not end the line is a character of the line. *)
Lemma not_eol_positive :
  forall p, is_eol (deref p) = false -> exists c r, p = String c r.
Proof.
  destruct p as [| c r]; intros H; [discriminate | eauto].
Qed.

Lemma is_ident_start_char : forall c, is_ident_start c = true -> is_ident_char c = true.
Proof.
  intros c. unfold is_ident_start, is_ident_char, isalnum.
  destruct (isalpha c), (isdigit c), (Ascii.eqb c "_"), (Ascii.eqb c "."),
    (Ascii.eqb c "@"); simpl; auto.
Qed.

Lemma isdigit_isxdigit : forall c, isdigit c = true -> isxdigit c = true.
Proof. intros c H. unfold isxdigit. rewrite H. reflexivity. Qed.

Lemma lex_number_digits_length_first :
  forall n base c r,
    ((base =? 16) && isxdigit c || (base =? 10) && isdigit c)%bool = true ->
    (String.length (snd (lex_number_digits (S n) base (String c r))) <= String.length r)%nat.
Proof.
  intros n base c r H.
  pose proof (lex_number_digits_length n base r) as L.
  cbn [lex_number_digits]. rewrite H.
  destruct (lex_number_digits n base r) as [t s']. exact L.
Qed.

Lemma lex_number_remaining :
  forall c r st, isdigit c = true ->
    (remaining (lex_number (String c r) st) <= String.length r)%nat
    /\ cur_is TOK_EOL (lex_number (String c r) st) = false.
Proof.
  intros c r st Hd. unfold lex_number.
  set (hex := (Ascii.eqb (deref (String c r)) "0" && _)%bool).
  set (base := if hex then 16 else _).
  destruct hex eqn:Eh.
  - pose proof (lex_number_digits_length (Z.to_nat (MAX_LABEL_LEN - 1)) base (next (next (String c r)))) as L.
    destruct (lex_number_digits _ base (next (next (String c r)))) as [t p2].
    split; [| reflexivity].
    rewrite remaining_set_tok. simpl in L. pose proof (next_length r). lia.
  - assert (Hb : ((base =? 16) && isxdigit c || (base =? 10) && isdigit c)%bool = true).
    { subst base. cbv zeta. rewrite Hd, (isdigit_isxdigit c Hd).
      destruct (is_h _ && _)%bool; reflexivity. }
    change (Z.to_nat (MAX_LABEL_LEN - 1)) with (S 62).
    pose proof (lex_number_digits_length_first 62 base c r Hb) as L.
    destruct (lex_number_digits (S 62) base (String c r)) as [t p2].
    split; [| reflexivity]. rewrite remaining_set_tok. simpl in L. lia.
Qed.

Lemma lex_ident_remaining :
  forall c r st, is_ident_start c = true ->
    (remaining (lex_ident (String c r) st) <= String.length r)%nat
    /\ cur_is TOK_EOL (lex_ident (String c r) st) = false.
Proof.
  intros c r st Hs. unfold lex_ident.
  change (Z.to_nat (MAX_LABEL_LEN - 1)) with (S 62).
  pose proof (span_length_first is_ident_char 62 c r (is_ident_start_char c Hs)) as L.
  destruct (span is_ident_char (S 62) (String c r)) as [t p1]. simpl in L.
  cbv zeta.
  set (af := (Nat.eqb (String.length t) 2 && _ && _ && _)%bool).
  set (p2 := if af then next p1 else p1).
  assert (L2 : (String.length p2 <= String.length r)%nat).
  { subst p2. destruct af; [pose proof (next_length p1) |]; lia. }
  pose proof (skip_while_length is_blank p2) as L3.
  destruct (Ascii.eqb (deref (skip_while is_blank p2)) ":");
    (split; [| reflexivity]); rewrite remaining_set_tok.
  - pose proof (next_length (skip_while is_blank p2)). lia.
  - lia.
Qed.

Lemma lex_string_remaining :
  forall c r st,
    (remaining (lex_string (String c r) st) <= String.length r)%nat
    /\ cur_is TOK_EOL (lex_string (String c r) st) = false.
Proof.
  intros c r st. unfold lex_string.
  pose proof (lex_string_body_length (Z.to_nat (MAX_STRING_LEN - 1)) (next (String c r))) as L.
  destruct (lex_string_body _ (next (String c r))) as [text p1]. simpl in L.
  cbv zeta.
  set (tr := (negb (Ascii.eqb (deref p1) NUL) && not_dquote (deref p1))%bool).
  set (p2 := if tr then skip_while not_dquote p1 else p1).
  assert (L2 : (String.length p2 <= String.length r)%nat).
  { subst p2. destruct tr; [pose proof (skip_while_length not_dquote p1) |]; lia. }
  split; [| reflexivity]. rewrite remaining_set_tok.
  destruct (Ascii.eqb (deref p2) DQUOTE); [pose proof (next_length p2) |]; lia.
Qed.

Lemma lex_char_remaining :
  forall c r st,
    (remaining (lex_char (String c r) st) <= String.length r)%nat
    /\ cur_is TOK_EOL (lex_char (String c r) st) = false.
Proof.
  intros c r st. unfold lex_char. cbv zeta.
  set (esc := (Ascii.eqb (deref (next (String c r))) "\" && _)%bool).
  set (p2 := if esc then next (next (next (String c r))) else next (next (String c r))).
  assert (L2 : (String.length p2 <= String.length r)%nat).
  { subst p2. simpl. pose proof (next_length r). pose proof (next_length (next r)).
    destruct esc; lia. }
  split; [| reflexivity]. rewrite remaining_set_tok.
  destruct (Ascii.eqb (deref p2) "'"); [pose proof (next_length p2) |]; lia.
Qed.

(** Reading a token: the line gets no longer, and shorter by a character
    unless the token is the end of the line. *)
Lemma lexer_next_measure : forall st, (expr_measure (lexer_next st) <= remaining st)%nat.
Proof.
  intros st. unfold lexer_next.
  pose proof (skip_while_length is_blank (line_ptr st)) as Lws.
  set (st0 := lexer_skip_whitespace st).
  assert (Hp : line_ptr st0 = skip_while is_blank (line_ptr st)) by reflexivity.
  set (p := line_ptr st0) in *. cbv zeta.
  destruct (is_eol (deref p)) eqn:Eeol.
  - unfold expr_measure. rewrite cur_is_set_tok, remaining_set_tok. simpl.
    unfold remaining. rewrite Hp. lia.
  - destruct (not_eol_positive p Eeol) as (c & r & Ep).
    assert (Hr : (S (String.length r) <= remaining st)%nat).
    { unfold remaining. rewrite <- Hp, Ep in Lws. simpl in Lws. lia. }
    assert (Goal : forall s, (remaining s <= String.length r)%nat /\ cur_is TOK_EOL s = false ->
                             (expr_measure s <= remaining st)%nat).
    { intros s [H1 H2]. unfold expr_measure. rewrite H2. lia. }
    rewrite Ep. simpl deref. simpl next.
    destruct (single_char_token c) eqn:Esc.
    + apply Goal. rewrite remaining_set_tok, cur_is_set_tok. split; [lia |].
      unfold single_char_token in Esc.
      repeat match type of Esc with
             | (if ?b then _ else _) = _ => destruct b
             end; inversion Esc; reflexivity.
    + destruct (isdigit c) eqn:Ed; [apply Goal, lex_number_remaining; assumption |].
      destruct (Ascii.eqb c "$" && isxdigit (deref r))%bool.
      { pose proof (span_length isxdigit (Z.to_nat (MAX_LABEL_LEN - 1)) r) as L.
        destruct (span isxdigit _ r) as [t p1]. apply Goal.
        rewrite remaining_set_tok, cur_is_set_tok. simpl in L. split; [lia | reflexivity]. }
      destruct (Ascii.eqb c "%" && (Ascii.eqb (deref r) "0" || Ascii.eqb (deref r) "1"))%bool.
      { pose proof (span_length (fun d => Ascii.eqb d "0" || Ascii.eqb d "1")%bool
                      (Z.to_nat (MAX_LABEL_LEN - 1)) r) as L.
        destruct (span _ _ r) as [t p1]. apply Goal.
        rewrite remaining_set_tok, cur_is_set_tok. simpl in L. split; [lia | reflexivity]. }
      destruct (Ascii.eqb c "$").
      { apply Goal. rewrite remaining_set_tok, cur_is_set_tok. split; [lia | reflexivity]. }
      destruct (is_ident_start c) eqn:Ei; [apply Goal, lex_ident_remaining; assumption |].
      destruct (Ascii.eqb c DQUOTE); [apply Goal, lex_string_remaining |].
      destruct (Ascii.eqb c "'"); [apply Goal, lex_char_remaining |].
      apply Goal. rewrite remaining_set_tok, cur_is_set_tok. split; [lia | reflexivity].
Qed.

Lemma expr_measure_asm_error : forall msg st, expr_measure (asm_error msg st) = expr_measure st.
Proof. reflexivity. Qed.

Lemma remaining_le_measure : forall st, (remaining st <= expr_measure st)%nat.
Proof. intros st. unfold expr_measure. lia. Qed.

Lemma measure_not_eol :
  forall st, cur_is TOK_EOL st = false -> expr_measure st = S (remaining st).
Proof. intros st H. unfold expr_measure. rewrite H. lia. Qed.

Lemma mul_step_state :
  forall op val rhs st,
    expr_measure (snd (mul_step op val rhs st)) = expr_measure st
    /\ assembled (snd (mul_step op val rhs st)) = assembled st.
Proof.
  intros op val rhs st. unfold mul_step.
  destruct op; try (destruct (rhs =? 0)); split; reflexivity.
Qed.

Lemma mul_loop_returns :
  forall f prim, returns_below f prim ->
  forall n val so st,
    (expr_measure st < f)%nat -> (expr_measure st <= n)%nat ->
    exists r st', mul_loop prim n val so st = Some (r, st')
                  /\ (expr_measure st' <= expr_measure st)%nat
                  /\ assembled st' = assembled st.
Proof.
  intros f prim Hprim. induction n as [| n IH]; intros val so st Hf Hn.
  - unfold mul_loop. destruct (is_mul_op (tok_type (current_token st))) eqn:Eop.
    + assert (cur_is TOK_EOL st = false).
      { unfold cur_is. destruct (tok_type (current_token st)); try discriminate; reflexivity. }
      rewrite (measure_not_eol st H) in Hn. lia.
    + eauto.
  - cbn [mul_loop]. destruct (is_mul_op (tok_type (current_token st))) eqn:Eop; [| eauto].
    assert (Hne : cur_is TOK_EOL st = false).
    { unfold cur_is. destruct (tok_type (current_token st)); try discriminate; reflexivity. }
    pose proof (lexer_next_measure st) as Hlex.
    rewrite (measure_not_eol st Hne) in *.
    destruct (Hprim so (lexer_next st)) as ((rhs & so1) & st1 & E1 & M1 & A1); [lia |].
    rewrite E1.
    destruct (mul_step_state (tok_type (current_token st)) val rhs st1) as [M2 A2].
    destruct (mul_step (tok_type (current_token st)) val rhs st1) as [val1 st2].
    simpl in M2, A2.
    destruct (IH val1 so1 st2) as (r & st' & E & M & A); [lia | lia |].
    exists r, st'. split; [exact E | split; [lia |]].
    rewrite A, A2, A1. apply assembled_lexer_next.
Qed.

Lemma parse_expr_mul_with_returns :
  forall f n prim, returns_below f prim -> (f <= S n)%nat ->
    returns_below f (parse_expr_mul_with prim n).
Proof.
  intros f n prim Hprim Hfn so st Hf.
  unfold parse_expr_mul_with, bind.
  destruct (Hprim so st Hf) as ((v & so1) & st1 & E1 & M1 & A1). rewrite E1.
  destruct (mul_loop_returns f prim Hprim n v so1 st1) as (r & st' & E & M & A); [lia | lia |].
  exists r, st'. simpl. split; [exact E | split; [lia | congruence]].
Qed.

Lemma add_loop_returns :
  forall f mul, returns_below f mul ->
  forall n val lhs st,
    (expr_measure st < f)%nat -> (expr_measure st <= n)%nat ->
    exists r st', add_loop mul n val lhs st = Some (r, st')
                  /\ (expr_measure st' <= expr_measure st)%nat
                  /\ assembled st' = assembled st.
Proof.
  intros f mul Hmul. induction n as [| n IH]; intros val lhs st Hf Hn.
  - unfold add_loop. destruct (is_add_op (tok_type (current_token st))) eqn:Eop.
    + assert (cur_is TOK_EOL st = false).
      { unfold cur_is. destruct (tok_type (current_token st)); try discriminate; reflexivity. }
      rewrite (measure_not_eol st H) in Hn. lia.
    + eauto.
  - cbn [add_loop]. destruct (is_add_op (tok_type (current_token st))) eqn:Eop; [| eauto].
    assert (Hne : cur_is TOK_EOL st = false).
    { unfold cur_is. destruct (tok_type (current_token st)); try discriminate; reflexivity. }
    pose proof (lexer_next_measure st) as Hlex.
    rewrite (measure_not_eol st Hne) in *.
    destruct (Hmul (EmptyString, false) (lexer_next st)) as ((rhs & rso) & st1 & E1 & M1 & A1);
      [lia |].
    rewrite E1.
    destruct (IH (add_step_value (tok_type (current_token st)) val rhs)
                (add_step_symbol (tok_type (current_token st)) lhs rso st1) st1)
      as (r & st' & E & M & A); [lia | lia |].
    exists r, st'. split; [exact E | split; [lia |]].
    rewrite A, A1. apply assembled_lexer_next.
Qed.

Lemma parse_expr_add_with_returns :
  forall f n mul, returns_below f mul -> (f <= S n)%nat ->
    returns_below f (parse_expr_add_with mul n).
Proof.
  intros f n mul Hmul Hfn so st Hf.
  unfold parse_expr_add_with, bind, ret.
  destruct (Hmul (EmptyString, false) st Hf) as ((v & so1) & st1 & E1 & M1 & A1). rewrite E1.
  destruct (add_loop_returns f mul Hmul n v so1 st1) as ((v' & so') & st' & E & M & A);
    [lia | lia |].
  simpl. rewrite E. eexists. eexists. split; [reflexivity | split; [lia | congruence]].
Qed.

Lemma primary_ident_state :
  forall text so st,
    expr_measure (snd (primary_ident text so st)) = expr_measure st
    /\ assembled (snd (primary_ident text so st)) = assembled st.
Proof.
  intros text so st. unfold primary_ident. cbv zeta.
  repeat break_if; split; reflexivity.
Qed.

Lemma parse_expr_primary_returns :
  forall f, returns_below f (parse_expr_primary f).
Proof.
  induction f as [| f IH]; intros so st Hf; [lia |].
  cbn [parse_expr_primary].
  pose proof (lexer_next_measure st) as Hlex.
  pose proof (remaining_le_measure st) as Hrem.
  destruct (tok_type (current_token st)) eqn:Et;
    try (eexists; eexists; split; [reflexivity | split; [lia | reflexivity]]);
    try (eexists; eexists; split;
         [reflexivity | split; [lia | apply assembled_lexer_next]]).
  - (* TOK_IDENT *)
    destruct (primary_ident_state (tok_text (current_token st)) so st) as [M1 A1].
    destruct (primary_ident (tok_text (current_token st)) so st) as [r st1].
    simpl in M1, A1.
    pose proof (lexer_next_measure st1) as Hlex1.
    pose proof (remaining_le_measure st1).
    eexists; eexists; split; [reflexivity | split; [lia |]].
    rewrite assembled_lexer_next. exact A1.
  - (* TOK_LPAREN *)
    assert (Hne : cur_is TOK_EOL st = false) by (unfold cur_is; rewrite Et; reflexivity).
    rewrite (measure_not_eol st Hne) in *.
    assert (Hadd : returns_below f
              (parse_expr_add_with (parse_expr_mul_with (parse_expr_primary f) f) f)).
    { apply parse_expr_add_with_returns; [| lia].
      apply parse_expr_mul_with_returns; [exact IH | lia]. }
    destruct (Hadd so (lexer_next st)) as (r & st1 & E1 & M1 & A1); [lia |].
    rewrite E1.
    pose proof (lexer_next_measure st1) as Hlex1.
    pose proof (remaining_le_measure st1).
    destruct (TokType_eqb (tok_type (current_token st1)) TOK_RPAREN);
      eexists; eexists; (split; [reflexivity | split]).
    + lia.
    + rewrite assembled_lexer_next, A1. apply assembled_lexer_next.
    + rewrite expr_measure_asm_error. lia.
    + rewrite assembled_asm_error, A1. apply assembled_lexer_next.
  - (* TOK_PLUS *)
    assert (Hne : cur_is TOK_EOL st = false) by (unfold cur_is; rewrite Et; reflexivity).
    rewrite (measure_not_eol st Hne) in *.
    destruct (IH so (lexer_next st)) as (r & st1 & E1 & M1 & A1); [lia |].
    exists r, st1. split; [exact E1 | split; [lia |]].
    rewrite A1. apply assembled_lexer_next.
  - (* TOK_MINUS *)
    assert (Hne : cur_is TOK_EOL st = false) by (unfold cur_is; rewrite Et; reflexivity).
    rewrite (measure_not_eol st Hne) in *.
    destruct (IH so (lexer_next st)) as ((v & so1) & st1 & E1 & M1 & A1); [lia |].
    rewrite E1. eexists; eexists; split; [reflexivity | split; [lia |]].
    rewrite A1. apply assembled_lexer_next.
Qed.

(** [parse_expression] returns on every state, and assembles nothing. *)
Lemma parse_expression_returns :
  forall st, exists e st',
    parse_expression st = Some (e, st')
    /\ (expr_measure st' <= expr_measure st)%nat
    /\ assembled st' = assembled st.
Proof.
  intros st. unfold parse_expression, parse_expr_add, parse_expr_mul.
  assert (H : returns_below (expr_fuel st)
            (parse_expr_add_with
               (parse_expr_mul_with (parse_expr_primary (expr_fuel st)) (expr_fuel st))
               (expr_fuel st))).
  { apply parse_expr_add_with_returns; [| lia].
    apply parse_expr_mul_with_returns; [apply parse_expr_primary_returns | lia]. }
  destruct (H (EmptyString, false) st) as ((v & sym & has) & st' & E & M & A).
  { unfold expr_fuel, expr_measure. fold (remaining st). destruct (cur_is TOK_EOL st); lia. }
  rewrite E. eauto.
Qed.

(** ** [ds] with a negative count *)

(** C10. When the count expression of [ds] evaluates to a negative value,
    [dir_ds] returns and leaves everything assembled as it was: no byte is
    written, and the PC, the saved section PCs and the three size counters
    keep their values. *)
Theorem C10_ds_negative_count_emits_nothing :
  forall (st : AsmState) (e : ExprResult) (st1 : AsmState),
    parse_expression (lexer_next st) = Some (e, st1) ->
    e_value e < 0 ->
    exists r st',
      dir_ds st = Some (r, st')
      /\ assembled st' = assembled st
      /\ pc st' = pc st
      /\ (code_size st', data_size st', bss_size st') = (code_size st, data_size st, bss_size st)
      /\ (code_tmp st', data_tmp st') = (code_tmp st, data_tmp st).
Proof.
  intros st e st1 Hcount Hneg.
  assert (A1 : assembled st1 = assembled st).
  { destruct (parse_expression_returns (lexer_next st)) as (e' & st1' & E & _ & A).
    rewrite Hcount in E. inversion E; subst. rewrite A. apply assembled_lexer_next. }
  assert (Hfill : forall fill s, ds_fill (e_value e) fill s = s).
  { intros fill s. unfold ds_fill.
    replace (Z.to_nat (e_value e)) with 0%nat by lia. reflexivity. }
  assert (Hres : exists r st', dir_ds st = Some (r, st') /\ assembled st' = assembled st).
  { unfold dir_ds, bind, lex, modify. rewrite Hcount.
    destruct (e_has_symbol e).
    - eexists; eexists; split; [reflexivity |].
      unfold fails. simpl. rewrite assembled_asm_error. exact A1.
    - destruct (cur_is TOK_COMMA st1).
      + destruct (parse_expression_returns (lexer_next st1)) as (f & st2 & E & _ & A).
        rewrite E, Hfill. eexists; eexists; split; [reflexivity |].
        rewrite A, assembled_lexer_next. exact A1.
      + rewrite Hfill. eexists; eexists; split; [reflexivity | exact A1]. }
  destruct Hres as (r & st' & E & A).
  exists r, st'. split; [exact E | split; [exact A |]].
  unfold assembled in A. inversion A. repeat split; reflexivity.
Qed.

Lemma C10_ds_negative_count_witness :
  let st := at_operand "ds -3, 7" asm_init in
  exists r st',
    dir_ds st = Some (r, st')
    /\ assembled st' = assembled st
    /\ pc st' = pc st
    /\ (code_size st', data_size st', bss_size st') = (code_size st, data_size st, bss_size st)
    /\ (code_tmp st', data_tmp st') = (code_tmp st, data_tmp st).
Proof.
  intros st.
  apply (C10_ds_negative_count_emits_nothing st (mkExpr false (-3) "")
           (state_after parse_expression (lexer_next st))).
  - vm_compute. reflexivity.
  - simpl. lia.
Defined.

(** ** Instructions only emit *)

Lemma emission_trans :
  forall a b c, emission a b -> emission b c -> emission a c.
Proof.
  intros a b c Hab Hbc. revert a Hab.
  induction Hbc; intros a Hab.
  - exact Hab.
  - eapply em_frame; [apply IHHbc; exact Hab | assumption].
  - apply em_byte; auto.
  - apply em_reloc; auto.
Qed.

Lemma emission_same : forall st st', assembled st = assembled st' -> emission st st'.
Proof. intros st st' H. eapply em_frame; [apply em_refl | exact H]. Qed.

Lemma emission_lexer_next : forall st, emission st (lexer_next st).
Proof. intros st. apply emission_same. symmetry. apply assembled_lexer_next. Qed.

Lemma emission_asm_error : forall msg st, emission st (asm_error msg st).
Proof. intros. apply emission_same. reflexivity. Qed.

Lemma emission_emit_bytes :
  forall bytes st st1,
    emission st st1 -> emission st (fold_left (fun s b => emit_byte b s) bytes st1).
Proof.
  induction bytes as [| b r IH]; intros st st1 H; simpl; [exact H |].
  apply IH. apply em_byte. exact H.
Qed.

Lemma emission_emit_long : forall l st st1, emission st st1 -> emission st (emit_long l st1).
Proof. intros. unfold emit_long. repeat apply em_byte. assumption. Qed.

Lemma emission_emit_word : forall w st st1, emission st st1 -> emission st (emit_word w st1).
Proof. intros. unfold emit_word. repeat apply em_byte. assumption. Qed.

Lemma Emitting_emits : forall bytes, Emitting (emits bytes).
Proof. intros bytes st. unfold emits. simpl. apply emission_emit_bytes, em_refl. Qed.

Lemma Emitting_fails : forall msg, Emitting (fails msg).
Proof. intros msg st. apply emission_asm_error. Qed.

Lemma Emitting_emits_abs24 : forall bytes op, Emitting (emits_abs24 bytes op).
Proof.
  intros bytes op st. unfold emits_abs24. simpl.
  apply emission_emit_long.
  destruct (op_has_symbol op); [apply em_reloc |]; apply emission_emit_bytes, em_refl.
Qed.

Lemma Emitting_first_of :
  forall blocks last,
    Forall block_emitting blocks -> Emitting last -> Emitting (first_of blocks last).
Proof.
  induction blocks as [| b r IH]; intros last Hb Hl; simpl; [exact Hl |].
  inversion Hb; subst. destruct b; [assumption | apply IH; assumption].
Qed.

Lemma block_emitting_when : forall c a, Emitting a -> block_emitting (when c a).
Proof. intros c a H. unfold when. destruct c; simpl; auto. Qed.

Lemma Emitting_nothing : forall r, Emitting (fun st => (r, st)).
Proof. intros r st. apply em_refl. Qed.

Lemma Emitting_index_prefix :
  forall r1 r2, Emitting (emit_index_prefix_if_needed r1 r2).
Proof.
  intros r1 r2 st. unfold emit_index_prefix_if_needed.
  repeat break_if; simpl; try apply em_byte; apply em_refl.
Qed.

(** An action run after another. *)
Lemma Emitting_then :
  forall (a : Action) (k : Z -> Action),
    Emitting a -> (forall r, Emitting (k r)) ->
    Emitting (fun st => let '(r, st1) := a st in k r st1).
Proof.
  intros a k Ha Hk st. specialize (Ha st). destruct (a st) as [r st1]. simpl in Ha.
  eapply emission_trans; [exact Ha | apply Hk].
Qed.

Lemma Emitting_if :
  forall (c : bool) (a b : Action), Emitting a -> Emitting b -> Emitting (if c then a else b).
Proof. intros c a b Ha Hb. destruct c; assumption. Qed.

Lemma Emitting_ext :
  forall a b : Action, (forall st, a st = b st) -> Emitting a -> Emitting b.
Proof. intros a b H Ha st. rewrite <- H. apply Ha. Qed.

Ltac emitting :=
  repeat first
    [ apply Emitting_emits
    | apply Emitting_fails
    | apply Emitting_emits_abs24
    | apply Emitting_nothing
    | apply Emitting_index_prefix
    | apply Emitting_first_of
    | apply block_emitting_when
    | apply Forall_nil
    | apply Forall_cons
    | apply Emitting_if
    | match goal with
      | |- block_emitting (if ?c then _ else _) => destruct c
      | |- block_emitting (match ?x with _ => _ end) => destruct x
      | |- block_emitting (Some _) => cbn [block_emitting]
      | |- block_emitting None => exact I
      | |- Emitting (if ?c then _ else _) => destruct c
      | |- Emitting (match ?x with _ => _ end) => destruct x
      | |- Emitting (fun st => let '(_, _) := _ st in _) => apply Emitting_then; [| intros ?]
      end ].

Lemma Emitting_ld_r_r : forall dest src d s, Emitting (ld_r_r dest src d s).
Proof.
  intros dest src d s. unfold ld_r_r.
  apply (Emitting_then (emit_index_prefix_if_needed (op_reg dest) (op_reg src))
           (fun prefix_result st1 =>
              if prefix_result <? 0 then fails "cannot mix IX and IY half registers" st1
              else if (prefix_result >? 0)
                      && (is_ix_half (op_reg dest) || is_iy_half (op_reg dest))
                      && (is_reg REG_H src || is_reg REG_L src)
              then fails "cannot use H or L with index half registers" st1
              else if (prefix_result >? 0)
                      && (is_ix_half (op_reg src) || is_iy_half (op_reg src))
                      && (is_reg REG_H dest || is_reg REG_L dest)
              then fails "cannot use H or L with index half registers" st1
              else emits [Z.lor (Z.lor 0x40 (Z.shiftl d 3)) s] st1)).
  - emitting.
  - intros r st. repeat break_if; first [apply Emitting_fails | apply Emitting_emits].
Qed.

Lemma Emitting_ld_encode : forall dest src, Emitting (ld_encode dest src).
Proof.
  intros dest src. unfold ld_encode. cbv zeta.
  emitting; try apply Emitting_ld_r_r.
Qed.

(** *** Operands *)

Lemma parse_expression_assembled :
  forall st e st', parse_expression st = Some (e, st') -> assembled st' = assembled st.
Proof.
  intros st e st' H.
  destruct (parse_expression_returns st) as (e1 & st1 & E & _ & A).
  rewrite H in E. inversion E; subst. exact A.
Qed.

Ltac frame_inv :=
  repeat match goal with
         | H : Some _ = Some _ |- _ => inversion H; subst; clear H
         | H : None = Some _ |- _ => discriminate H
         | H : bind _ _ _ = Some _ |- _ => unfold bind in H
         | H : ret _ _ = Some _ |- _ => unfold ret in H
         | H : parse_expression _ = Some _ |- _ => apply parse_expression_assembled in H
         | H : (if ?c then _ else _) = Some _ |- _ => destruct c eqn:?
         | H : match ?x with _ => _ end = Some _ |- _ => destruct x eqn:?
         end.

Ltac frame_done :=
  repeat first
    [ rewrite assembled_lexer_next
    | rewrite assembled_asm_error
    | match goal with
      | H : assembled _ = assembled _ |- _ => rewrite H; clear H
      end ];
  try reflexivity.

Lemma index_offset_assembled :
  forall reg st r st', index_offset reg st = Some (r, st') -> assembled st' = assembled st.
Proof.
  intros reg st r st' H. unfold index_offset in H. frame_inv; frame_done.
Qed.

Lemma expect_rparen_assembled :
  forall op st r st', expect_rparen op st = Some (r, st') -> assembled st' = assembled st.
Proof.
  intros op st r st' H. unfold expect_rparen in H. frame_inv; frame_done.
Qed.

Lemma operand_expr_assembled :
  forall ty st r st', operand_expr ty st = Some (r, st') -> assembled st' = assembled st.
Proof.
  intros ty st r st' H. unfold operand_expr, bind, ret in H. frame_inv; frame_done.
Qed.

Ltac frame_operand :=
  repeat match goal with
         | H : expect_rparen _ _ = Some _ |- _ => apply expect_rparen_assembled in H
         | H : operand_expr _ _ = Some _ |- _ => apply operand_expr_assembled in H
         | H : index_offset _ _ = Some _ |- _ => apply index_offset_assembled in H
         | _ => progress frame_inv
         end.

Lemma parse_operand_indirect_assembled :
  forall st r st', parse_operand_indirect st = Some (r, st') -> assembled st' = assembled st.
Proof.
  intros st r st' H. unfold parse_operand_indirect in H.
  frame_operand; frame_done.
Qed.

Lemma parse_operand_assembled :
  forall st r st', parse_operand st = Some (r, st') -> assembled st' = assembled st.
Proof.
  intros st r st' H. unfold parse_operand in H.
  repeat match goal with
         | H : parse_operand_indirect _ = Some _ |- _ =>
             apply parse_operand_indirect_assembled in H
         | _ => progress frame_operand
         end; frame_done.
Qed.

(** *** Computations that only emit *)

Lemma EmittingM_ret : forall (A : Type) (x : A), EmittingM (ret x).
Proof. intros A x st r st' H. inversion H; subst. apply em_refl. Qed.

Lemma EmittingM_lift : forall a, Emitting a -> EmittingM (lift a).
Proof.
  intros a Ha st r st' H. unfold lift in H. specialize (Ha st).
  destruct (a st) as [r1 st1]. inversion H; subst. exact Ha.
Qed.

Lemma EmittingM_modify :
  forall f, (forall st, emission st (f st)) -> EmittingM (modify f).
Proof. intros f Hf st r st' H. inversion H; subst. apply Hf. Qed.

Lemma EmittingM_lex : EmittingM lex.
Proof. apply EmittingM_modify, emission_lexer_next. Qed.

Lemma EmittingM_bind :
  forall (A B : Type) (m : M A) (k : A -> M B),
    EmittingM m -> (forall x, EmittingM (k x)) -> EmittingM (bind m k).
Proof.
  intros A B m k Hm Hk st r st' H. unfold bind in H.
  destruct (m st) as [[x st1] |] eqn:E; [| discriminate].
  eapply emission_trans; [eapply Hm; exact E | eapply Hk; exact H].
Qed.

Lemma EmittingM_parse_operand : EmittingM parse_operand.
Proof.
  intros st r st' H. apply emission_same. symmetry.
  eapply parse_operand_assembled. exact H.
Qed.

Lemma EmittingM_if :
  forall (A : Type) (c : bool) (m1 m2 : M A),
    EmittingM m1 -> EmittingM m2 -> EmittingM (if c then m1 else m2).
Proof. intros A c m1 m2 H1 H2. destruct c; assumption. Qed.

Lemma EmittingM_with_operand :
  forall k, (forall op, EmittingM (k op)) -> EmittingM (with_operand k).
Proof.
  intros k Hk. unfold with_operand. apply EmittingM_bind.
  - apply EmittingM_parse_operand.
  - intros r. apply EmittingM_if; [apply EmittingM_ret | apply Hk].
Qed.

Lemma EmittingM_branch :
  forall (A : Type) (c : AsmState -> bool) (m1 m2 : M A),
    EmittingM m1 -> EmittingM m2 -> EmittingM (fun st => if c st then m1 st else m2 st).
Proof.
  intros A c m1 m2 H1 H2 st r st' H. destruct (c st); [eapply H1 | eapply H2]; exact H.
Qed.

Lemma EmittingM_after_lex :
  forall (A : Type) (m : M A), EmittingM m -> EmittingM (fun st => m (lexer_next st)).
Proof.
  intros A m Hm st r st' H.
  eapply emission_trans; [apply emission_lexer_next | eapply Hm; exact H].
Qed.

Lemma EmittingM_expect_comma :
  forall msg k, EmittingM k -> EmittingM (expect_comma msg k).
Proof.
  intros msg k Hk. unfold expect_comma.
  apply (EmittingM_branch Z (cur_is TOK_COMMA) (fun st => k (lexer_next st))
           (lift (fails msg))).
  - apply EmittingM_after_lex, Hk.
  - apply EmittingM_lift, Emitting_fails.
Qed.

Lemma Emitting_branch :
  forall (c : AsmState -> bool) (a b : Action),
    Emitting a -> Emitting b -> Emitting (fun st => if c st then a st else b st).
Proof. intros c a b Ha Hb st. destruct (c st); [apply Ha | apply Hb]. Qed.

Lemma Emitting_emit_alu8 : forall aluop src, Emitting (emit_alu8 aluop src).
Proof. intros aluop src. unfold emit_alu8. cbv zeta. emitting. Qed.

Lemma Emitting_try_alu8 :
  forall c aluop op rest, Emitting rest -> Emitting (try_alu8 c aluop op rest).
Proof.
  intros c aluop op rest Hr st. unfold try_alu8. destruct c; [| apply Hr].
  pose proof (Emitting_emit_alu8 aluop op st) as H.
  destruct (emit_alu8 aluop op st) as [r st1]. simpl in H.
  destruct (r =? 0); [exact H |].
  eapply emission_trans; [exact H | apply Hr].
Qed.

Lemma Emitting_emit_relative :
  forall opcode target msg, Emitting (emit_relative opcode target msg).
Proof.
  intros opcode target msg st. unfold emit_relative. simpl.
  apply em_byte. break_if.
  - eapply em_frame; [apply em_byte, em_refl | reflexivity].
  - apply em_byte, em_refl.
Qed.

Lemma Emitting_emit_cb_op : forall base bit op, Emitting (emit_cb_op base bit op).
Proof. intros base bit op. unfold emit_cb_op. cbv zeta. emitting. Qed.

Lemma Emitting_emit_shift_op : forall opcode op, Emitting (emit_shift_op opcode op).
Proof. intros opcode op. unfold emit_shift_op. cbv zeta. emitting. Qed.

Ltac emittingM :=
  repeat first
    [ apply EmittingM_ret
    | apply EmittingM_lex
    | apply EmittingM_parse_operand
    | apply EmittingM_bind; [| intros ?]
    | apply EmittingM_with_operand; intros ?
    | apply EmittingM_expect_comma
    | apply EmittingM_lift
    | apply EmittingM_if
    | apply EmittingM_after_lex
    | match goal with
      | |- EmittingM (if ?c then _ else _) => destruct c
      | |- EmittingM (let _ := _ in _) => cbv zeta
      end ].

Lemma EmittingM_handle_im : EmittingM handle_im.
Proof.
  unfold handle_im. emittingM. apply Emitting_if; [apply Emitting_fails |].
  intros st. repeat break_if; simpl; repeat apply em_byte; try apply em_refl.
  all: eapply em_frame; [apply em_byte, em_refl | reflexivity].
Qed.

Lemma EmittingM_handle_ld : EmittingM handle_ld.
Proof. unfold handle_ld. emittingM. apply Emitting_ld_encode. Qed.

Lemma EmittingM_handle_push_pop : forall q i, EmittingM (handle_push_pop q i).
Proof. intros q i. unfold handle_push_pop. emittingM. cbv zeta. emitting. Qed.

Lemma EmittingM_handle_ex : EmittingM handle_ex.
Proof. unfold handle_ex. emittingM. emitting. Qed.

Lemma EmittingM_handle_add_impl : forall p, EmittingM (handle_add_impl p).
Proof.
  intros p. unfold handle_add_impl. emittingM.
  apply EmittingM_branch.
  - apply EmittingM_lift, Emitting_try_alu8, Emitting_fails.
  - emittingM. cbv zeta. apply Emitting_try_alu8. emitting.
Qed.

Lemma EmittingM_handle_adc_sbc : forall a h p, EmittingM (handle_adc_sbc a h p).
Proof.
  intros a h p. unfold handle_adc_sbc. emittingM.
  apply EmittingM_branch.
  - apply EmittingM_lift, Emitting_try_alu8, Emitting_fails.
  - emittingM. cbv zeta. apply Emitting_try_alu8. emitting.
Qed.

Lemma EmittingM_handle_alu_simple : forall a, EmittingM (handle_alu_simple a).
Proof.
  intros a. unfold handle_alu_simple. emittingM.
  apply EmittingM_branch.
  - emittingM. apply Emitting_try_alu8, Emitting_fails.
  - emittingM. apply Emitting_try_alu8, Emitting_fails.
Qed.

Lemma EmittingM_handle_inc_dec : forall a b c d, EmittingM (handle_inc_dec a b c d).
Proof. intros a b c d. unfold handle_inc_dec. emittingM. emitting. Qed.

Lemma EmittingM_handle_jp : EmittingM handle_jp.
Proof. unfold handle_jp. emittingM; emitting. Qed.

Lemma Emitting_relative_or_extern :
  forall op msg opcode range_msg,
    Emitting (fun st => if targets_extern op st then fails msg st
                        else emit_relative opcode op range_msg st).
Proof.
  intros. apply (Emitting_branch (targets_extern op));
    [apply Emitting_fails | apply Emitting_emit_relative].
Qed.

Lemma EmittingM_handle_jr : EmittingM handle_jr.
Proof.
  unfold handle_jr. emittingM;
    first [apply Emitting_relative_or_extern | apply Emitting_fails].
Qed.

Lemma EmittingM_handle_djnz : EmittingM handle_djnz.
Proof.
  unfold handle_djnz. emittingM. intros st.
  break_if; [apply Emitting_fails |].
  match goal with
  | |- context [targets_extern ?op] =>
      apply (Emitting_relative_or_extern op "DJNZ cannot use external symbols" 0x10
               "DJNZ offset out of range" st)
  end.
Qed.

Lemma EmittingM_handle_call : EmittingM handle_call.
Proof. unfold handle_call. emittingM; emitting. Qed.

Lemma EmittingM_handle_ret : EmittingM handle_ret.
Proof.
  unfold handle_ret. emittingM.
  apply (EmittingM_branch Z at_eol (lift (emits [0xC9]))).
  - apply EmittingM_lift, Emitting_emits.
  - emittingM. emitting.
Qed.

Lemma EmittingM_parse_rst_vector : EmittingM parse_rst_vector.
Proof.
  unfold parse_rst_vector. emittingM.
  all: apply EmittingM_modify, emission_asm_error.
Qed.

Lemma EmittingM_handle_rst : EmittingM handle_rst.
Proof.
  unfold handle_rst. apply EmittingM_bind; [apply EmittingM_parse_rst_vector | intros r].
  emittingM. emitting.
Qed.

Lemma EmittingM_handle_rst_lil : EmittingM handle_rst_lil.
Proof.
  unfold handle_rst_lil. apply EmittingM_bind; [apply EmittingM_parse_rst_vector | intros r].
  emittingM. emitting.
Qed.

Lemma EmittingM_handle_in_out : forall o, EmittingM (handle_in_out o).
Proof. intros o. unfold handle_in_out. emittingM. emitting. Qed.

Lemma EmittingM_handle_in0_out0 : forall o, EmittingM (handle_in0_out0 o).
Proof. intros o. unfold handle_in0_out0. emittingM. emitting. Qed.

Lemma Emitting_or_fail :
  forall (a : Action) msg,
    Emitting a ->
    Emitting (fun st => let '(r, st1) := a st in if r =? 0 then (0, st1) else fails msg st1).
Proof.
  intros a msg Ha.
  apply (Emitting_then a (fun r st1 => if r =? 0 then (0, st1) else fails msg st1) Ha).
  intros r st. destruct (r =? 0); [apply em_refl | apply Emitting_fails].
Qed.

Lemma EmittingM_handle_cb_op : forall b, EmittingM (handle_cb_op b).
Proof.
  intros b. unfold handle_cb_op. emittingM.
  apply Emitting_or_fail, Emitting_emit_cb_op.
Qed.

Lemma EmittingM_handle_shift : forall o, EmittingM (handle_shift o).
Proof.
  intros o. unfold handle_shift. emittingM.
  apply Emitting_or_fail, Emitting_emit_shift_op.
Qed.

Lemma EmittingM_handle_lea : EmittingM handle_lea.
Proof. unfold handle_lea. emittingM; emitting. Qed.

Lemma EmittingM_handle_pea : EmittingM handle_pea.
Proof. unfold handle_pea. emittingM. emitting. Qed.

Lemma EmittingM_handle_mlt : EmittingM handle_mlt.
Proof. unfold handle_mlt. emittingM. emitting. Qed.

Lemma EmittingM_handle_tst : EmittingM handle_tst.
Proof.
  unfold handle_tst. emittingM.
  apply EmittingM_branch.
  - emittingM. emitting.
  - emittingM. emitting.
Qed.

Lemma EmittingM_instr_table : Forall (fun e => EmittingM (snd e)) instr_table.
Proof.
  unfold instr_table.
  unfold handle_adc, handle_adc_s, handle_sbc, handle_sbc_s, handle_add, handle_add_s,
    handle_sub, handle_and, handle_xor, handle_or, handle_cp, handle_inc, handle_dec,
    handle_push, handle_pop, handle_in, handle_out, handle_in0, handle_out0,
    handle_bit, handle_set, handle_res, handle_rlc, handle_rrc, handle_rl, handle_rr,
    handle_sla, handle_sra, handle_srl.
  repeat (apply Forall_cons; [cbn [snd] |]); try apply Forall_nil.
  all: match goal with
       | |- EmittingM (handle_adc_sbc _ _ _) => apply EmittingM_handle_adc_sbc
       | |- EmittingM (handle_add_impl _) => apply EmittingM_handle_add_impl
       | |- EmittingM (handle_alu_simple _) => apply EmittingM_handle_alu_simple
       | |- EmittingM (handle_cb_op _) => apply EmittingM_handle_cb_op
       | |- EmittingM (handle_inc_dec _ _ _ _) => apply EmittingM_handle_inc_dec
       | |- EmittingM (handle_in_out _) => apply EmittingM_handle_in_out
       | |- EmittingM (handle_in0_out0 _) => apply EmittingM_handle_in0_out0
       | |- EmittingM (handle_push_pop _ _) => apply EmittingM_handle_push_pop
       | |- EmittingM (handle_shift _) => apply EmittingM_handle_shift
       | |- EmittingM handle_call => apply EmittingM_handle_call
       | |- EmittingM handle_djnz => apply EmittingM_handle_djnz
       | |- EmittingM handle_ex => apply EmittingM_handle_ex
       | |- EmittingM handle_im => apply EmittingM_handle_im
       | |- EmittingM handle_jp => apply EmittingM_handle_jp
       | |- EmittingM handle_jr => apply EmittingM_handle_jr
       | |- EmittingM handle_ld => apply EmittingM_handle_ld
       | |- EmittingM handle_lea => apply EmittingM_handle_lea
       | |- EmittingM handle_mlt => apply EmittingM_handle_mlt
       | |- EmittingM handle_pea => apply EmittingM_handle_pea
       | |- EmittingM handle_ret => apply EmittingM_handle_ret
       | |- EmittingM handle_rst => apply EmittingM_handle_rst
       | |- EmittingM handle_rst_lil => apply EmittingM_handle_rst_lil
       | |- EmittingM handle_tst => apply EmittingM_handle_tst
       end.
Qed.

Lemma bsearch_In :
  forall (A : Type) fuel (key : A -> string) tbl lower lo hi i e,
    bsearch fuel key tbl lower lo hi = Some (i, e) -> In e tbl.
Proof.
  induction fuel as [| f IH]; intros key tbl lower lo hi i e H; simpl in H; [discriminate |].
  destruct (lo <=? hi); [| discriminate].
  destruct (nth_error tbl (Z.to_nat ((lo + hi) / 2))) as [x |] eqn:E; [| discriminate].
  destruct (strcmp lower (key x)).
  - inversion H; subst. eapply nth_error_In. exact E.
  - eapply IH. exact H.
  - eapply IH. exact H.
Qed.

Lemma instr_lookup_emitting :
  forall lower h, instr_lookup lower = Some h -> EmittingM h.
Proof.
  intros lower h H. unfold instr_lookup, table_lookup in H.
  destruct (bsearch (S (Datatypes.length instr_table)) fst instr_table lower 0
              (Z.of_nat (Datatypes.length instr_table) - 1)) as [[i e] |] eqn:E;
    [| discriminate].
  inversion H; subst.
  apply bsearch_In in E.
  pose proof EmittingM_instr_table as T. rewrite Forall_forall in T.
  apply T. exact E.
Qed.

(** Every instruction only emits: it leaves the symbols, the section and the
    pass as they are, and moves the PC and the byte counts by [emit_byte]. *)
Lemma EmittingM_instr_execute : forall mnemonic, EmittingM (instr_execute mnemonic).
Proof.
  intros mnemonic. unfold instr_execute. cbv zeta.
  destruct (simple_lookup (instr_tolower mnemonic 16)) as [[prefix opcode] |].
  - intros st r st' H.
    assert (E : emission st (emit_byte opcode
                  (if prefix =? 0 then lexer_next st else emit_byte prefix (lexer_next st)))).
    { apply em_byte. destruct (prefix =? 0); [| apply em_byte]; apply emission_lexer_next. }
    destruct (negb _) in H; inversion H; subst; [| exact E].
    eapply emission_trans; [exact E | apply emission_asm_error].
  - destruct (instr_lookup (instr_tolower mnemonic 16)) as [h |] eqn:L.
    + apply EmittingM_bind; [eapply instr_lookup_emitting; exact L | intros result].
      intros st r st' H. destruct (_ && _) in H; inversion H; subst;
        [apply emission_asm_error | apply em_refl].
    + apply EmittingM_ret.
Qed.

(** ** What emission leaves alone *)

Lemma assembled_symbols :
  forall st st', assembled st = assembled st' -> symbols st' = symbols st.
Proof. intros st st' H. unfold assembled in H. congruence. Qed.

Lemma emit_byte_fixed :
  forall b st,
    symbols (emit_byte b st) = symbols st
    /\ pass (emit_byte b st) = pass st
    /\ current_section (emit_byte b st) = current_section st.
Proof.
  intros b st. unfold emit_byte. repeat break_if; repeat split; reflexivity.
Qed.

Lemma emit_reloc_fixed :
  forall t s st,
    symbols (emit_reloc t s st) = symbols st
    /\ pass (emit_reloc t s st) = pass st
    /\ current_section (emit_reloc t s st) = current_section st
    /\ pc (emit_reloc t s st) = pc st
    /\ code_size (emit_reloc t s st) = code_size st
    /\ data_size (emit_reloc t s st) = data_size st
    /\ bss_size (emit_reloc t s st) = bss_size st.
Proof.
  intros t s st. unfold emit_reloc. repeat break_if; repeat split; reflexivity.
Qed.

Lemma emission_fixed :
  forall st st',
    emission st st' ->
    symbols st' = symbols st /\ pass st' = pass st
    /\ current_section st' = current_section st.
Proof.
  intros st st' H. induction H as [st | st st1 st' H IH E | st st1 b H IH | st st1 t s H IH].
  - repeat split.
  - destruct IH as (S1 & P1 & C1). unfold assembled in E.
    repeat split; congruence.
  - destruct IH as (S1 & P1 & C1). destruct (emit_byte_fixed b st1) as (S2 & P2 & C2).
    repeat split; congruence.
  - destruct IH as (S1 & P1 & C1).
    destruct (emit_reloc_fixed t s st1) as (S2 & P2 & C2 & _).
    repeat split; congruence.
Qed.

Lemma externs_undefined_symbols :
  forall st st', symbols st' = symbols st -> externs_undefined st -> externs_undefined st'.
Proof. intros st st' H. unfold externs_undefined. rewrite H. auto. Qed.

Lemma EmittingM_keeps :
  forall (A : Type) (m : M A), EmittingM m -> keeps_externs_undefined m.
Proof.
  intros A m Hm st r st' H. apply externs_undefined_symbols.
  apply (emission_fixed st st'). eapply Hm. exact H.
Qed.

(** *** The PC and the byte count move together *)


(** *** The data directives only emit *)

Lemma emission_fold_emit :
  forall (A : Type) (f : A -> Z) (l : list A) st st1,
    emission st st1 -> emission st (fold_left (fun s c => emit_byte (f c) s) l st1).
Proof.
  intros A f l. induction l as [| c r IH]; intros st st1 H; simpl; [exact H |].
  apply IH, em_byte, H.
Qed.

Lemma emission_emit_string :
  forall text st st1, emission st st1 -> emission st (emit_string text st1).
Proof. intros text st st1 H. unfold emit_string. apply emission_fold_emit, H. Qed.

Lemma emission_parse_expression :
  forall st e st', parse_expression st = Some (e, st') -> emission st st'.
Proof.
  intros st e st' H. apply emission_same. symmetry.
  eapply parse_expression_assembled. exact H.
Qed.

Lemma EmittingM_parse_expression : EmittingM parse_expression.
Proof. intros st e st' H. eapply emission_parse_expression. exact H. Qed.

Lemma emission_next :
  forall st st1, emission st st1 -> emission st (lexer_next st1).
Proof. intros st st1 H. eapply emission_trans; [exact H | apply emission_lexer_next]. Qed.

Lemma emission_error :
  forall msg st st1, emission st st1 -> emission st (asm_error msg st1).
Proof. intros msg st st1 H. eapply emission_trans; [exact H | apply emission_asm_error]. Qed.

Lemma EmittingM_dir_db_loop : forall n, EmittingM (dir_db_loop n).
Proof.
  induction n as [| n IH]; intros st r st' H; simpl in H.
  - destruct (cur_is TOK_STRING st).
    + destruct (cur_is TOK_COMMA _) in H; [discriminate |].
      inversion H; subst. apply emission_next, emission_emit_string, em_refl.
    + destruct (parse_expression st) as [[e st1] |] eqn:E; [| discriminate].
      apply emission_parse_expression in E.
      destruct (e_has_symbol e).
      * inversion H; subst. apply emission_error, E.
      * destruct (cur_is TOK_COMMA _) in H; [discriminate |].
        inversion H; subst. apply em_byte, E.
  - destruct (cur_is TOK_STRING st).
    + destruct (cur_is TOK_COMMA _) in H.
      * eapply emission_trans; [| eapply IH; exact H].
        apply emission_next, emission_next, emission_emit_string, em_refl.
      * inversion H; subst. apply emission_next, emission_emit_string, em_refl.
    + destruct (parse_expression st) as [[e st1] |] eqn:E; [| discriminate].
      apply emission_parse_expression in E.
      destruct (e_has_symbol e).
      * inversion H; subst. apply emission_error, E.
      * destruct (cur_is TOK_COMMA _) in H.
        -- eapply emission_trans; [| eapply IH; exact H].
           apply emission_next, em_byte, E.
        -- inversion H; subst. apply em_byte, E.
Qed.

Lemma EmittingM_fueled :
  forall (A : Type) (f : AsmState -> nat) (m : nat -> M A),
    (forall n, EmittingM (m n)) -> EmittingM (fun st => m (f st) st).
Proof. intros A f m Hm st r st' H. eapply Hm. exact H. Qed.

Lemma EmittingM_dir_db : EmittingM dir_db.
Proof.
  unfold dir_db. apply EmittingM_bind; [apply EmittingM_lex | intros _].
  apply (EmittingM_fueled Z line_fuel dir_db_loop EmittingM_dir_db_loop).
Qed.

Lemma EmittingM_dir_dw_loop : forall n, EmittingM (dir_dw_loop n).
Proof.
  induction n as [| n IH]; intros st r st' H; simpl in H;
    destruct (parse_expression st) as [[e st1] |] eqn:E; try discriminate;
    apply emission_parse_expression in E;
    (destruct (e_has_symbol e); [inversion H; subst; apply emission_error, E |]);
    destruct (cur_is TOK_COMMA _) in H; try discriminate.
  - inversion H; subst. apply emission_emit_word, E.
  - eapply emission_trans; [| eapply IH; exact H].
    apply emission_next, emission_emit_word, E.
  - inversion H; subst. apply emission_emit_word, E.
Qed.

Lemma EmittingM_dir_dw : EmittingM dir_dw.
Proof.
  unfold dir_dw. apply EmittingM_bind; [apply EmittingM_lex | intros _].
  apply (EmittingM_fueled Z line_fuel dir_dw_loop EmittingM_dir_dw_loop).
Qed.

Lemma emission_dl_datum :
  forall e st st1,
    emission st st1 ->
    emission st (emit_long (Z.land (e_value e) 0xFFFFFF)
                   (if e_has_symbol e then emit_reloc RELOC_ADDR24 (e_symbol e) st1 else st1)).
Proof.
  intros e st st1 H. apply emission_emit_long.
  destruct (e_has_symbol e); [apply em_reloc |]; exact H.
Qed.

Lemma EmittingM_dir_dl_loop : forall n, EmittingM (dir_dl_loop n).
Proof.
  induction n as [| n IH]; intros st r st' H; simpl in H;
    destruct (parse_expression st) as [[e st1] |] eqn:E; try discriminate;
    apply emission_parse_expression in E;
    destruct (cur_is TOK_COMMA _) in H; try discriminate.
  - inversion H; subst. apply emission_dl_datum, E.
  - eapply emission_trans; [| eapply IH; exact H].
    apply emission_next, emission_dl_datum, E.
  - inversion H; subst. apply emission_dl_datum, E.
Qed.

Lemma EmittingM_dir_dl : EmittingM dir_dl.
Proof.
  unfold dir_dl. apply EmittingM_bind; [apply EmittingM_lex | intros _].
  apply (EmittingM_fueled Z line_fuel dir_dl_loop EmittingM_dir_dl_loop).
Qed.

Lemma emission_ds_fill :
  forall count fill st st1, emission st st1 -> emission st (ds_fill count fill st1).
Proof.
  intros count fill st st1 H. unfold ds_fill.
  induction (Z.to_nat count) as [| n IH]; simpl; [exact H | apply em_byte, IH].
Qed.

Lemma EmittingM_dir_ds : EmittingM dir_ds.
Proof.
  unfold dir_ds. apply EmittingM_bind; [apply EmittingM_lex | intros _].
  apply EmittingM_bind; [apply EmittingM_parse_expression | intros e].
  destruct (e_has_symbol e); [apply EmittingM_lift, Emitting_fails |].
  intros st r st' H. destruct (cur_is TOK_COMMA st).
  - destruct (parse_expression (lexer_next st)) as [[f st1] |] eqn:E; [| discriminate].
    apply emission_parse_expression in E. inversion H; subst.
    apply emission_ds_fill. eapply emission_trans; [apply emission_lexer_next | exact E].
  - inversion H; subst. apply emission_ds_fill, em_refl.
Qed.

Lemma emission_align_loop :
  forall n align st st1, emission st st1 -> emission st (align_loop n align st1).
Proof.
  induction n as [| n IH]; intros align st st1 H; simpl; [exact H |].
  destruct (Z.land (pc st1) (align - 1) =? 0); [exact H | apply IH, em_byte, H].
Qed.

Lemma EmittingM_dir_align : EmittingM dir_align.
Proof.
  unfold dir_align. apply EmittingM_bind; [apply EmittingM_lex | intros _].
  apply EmittingM_bind; [apply EmittingM_parse_expression | intros e].
  cbv zeta. apply EmittingM_lift.
  destruct (e_has_symbol e); [apply Emitting_fails |].
  destruct (_ || _); [apply Emitting_fails |].
  intros st. apply emission_align_loop, em_refl.
Qed.

Lemma EmittingM_dir_ascii : EmittingM dir_ascii.
Proof.
  unfold dir_ascii. apply EmittingM_bind; [apply EmittingM_lex | intros _].
  apply EmittingM_lift. intros st. destruct (negb _); [apply Emitting_fails |].
  apply emission_next, emission_emit_string, em_refl.
Qed.

Lemma EmittingM_dir_asciz : EmittingM dir_asciz.
Proof.
  unfold dir_asciz. apply EmittingM_bind; [apply EmittingM_dir_ascii | intros result].
  destruct (result =? 0); [| apply EmittingM_ret].
  apply EmittingM_bind; [| intros _; apply EmittingM_ret].
  apply EmittingM_modify. intros st. apply em_byte, em_refl.
Qed.

Lemma EmittingM_dir_incbin : forall fs, EmittingM (dir_incbin fs).
Proof.
  intros fs. unfold dir_incbin. apply EmittingM_bind; [apply EmittingM_lex | intros _].
  apply EmittingM_lift. intros st. destruct (negb _); [apply Emitting_fails |].
  destruct (fs _); [| apply emission_error, emission_lexer_next].
  apply emission_fold_emit, emission_lexer_next.
Qed.

Lemma EmittingM_dir_assume : EmittingM dir_assume.
Proof.
  unfold dir_assume. apply EmittingM_bind; [apply EmittingM_lex | intros _].
  apply EmittingM_lift. intros st.
  repeat break_if; cbn [snd fails];
    repeat first [apply emission_error | apply emission_next]; apply em_refl.
Qed.

(** ** External symbols stay undefined *)

Lemma externs_undefined_update :
  forall i f st,
    externs_undefined st ->
    (sym_flags (f (get_symbol st i)) = SYM_EXTERN -> sym_defined (f (get_symbol st i)) = false) ->
    externs_undefined (update_symbol i f st).
Proof.
  intros i f st H Hf. unfold externs_undefined, update_symbol. simpl.
  eapply Forall_list_update; [exact H | exact Hf].
Qed.

Lemma externs_undefined_asm_error :
  forall msg st, externs_undefined st -> externs_undefined (asm_error msg st).
Proof. intros msg st H. exact H. Qed.

Lemma symbol_add_externs_undefined :
  forall name st, externs_undefined st -> externs_undefined (snd (symbol_add name st)).
Proof.
  intros name st H. unfold symbol_add. break_if; simpl; [exact H |].
  unfold externs_undefined. simpl. apply Forall_app. split; [exact H |].
  constructor; [| constructor]. simpl. discriminate.
Qed.

Lemma flags_update_symbol :
  forall i j f st,
    (forall x, sym_flags (f x) = sym_flags x) ->
    sym_flags (get_symbol (update_symbol i f st) j) = sym_flags (get_symbol st j).
Proof.
  intros i j f st Hf. unfold get_symbol, update_symbol. simpl.
  apply (nth_list_update Symbol Z sym_flags). exact Hf.
Qed.

Lemma externs_undefined_update_local :
  forall i f st,
    externs_undefined st ->
    (forall x, sym_flags (f x) = sym_flags x) ->
    sym_flags (get_symbol st i) <> SYM_EXTERN ->
    externs_undefined (update_symbol i f st)
    /\ sym_flags (get_symbol (update_symbol i f st) i) <> SYM_EXTERN.
Proof.
  intros i f st H Hf Hn. split.
  - apply externs_undefined_update; [exact H |]. rewrite Hf. intros E. contradiction.
  - rewrite flags_update_symbol; assumption.
Qed.

Lemma define_at_externs_undefined :
  forall i value st,
    externs_undefined st ->
    sym_flags (get_symbol st i) <> SYM_EXTERN ->
    externs_undefined (snd (define_at i value st)).
Proof.
  intros i value st H Hn. unfold define_at. cbv zeta. cbn [snd].
  destruct (externs_undefined_update_local i (set_sym_value (uint24 value)) st H)
    as (H1 & N1); [reflexivity | exact Hn |].
  set (st1 := update_symbol i (set_sym_value (uint24 value)) st) in *.
  destruct (externs_undefined_update_local i (set_sym_section (current_section st1)) st1 H1)
    as (H2 & N2); [reflexivity | exact N1 |].
  set (st2 := update_symbol i (set_sym_section (current_section st1)) st1) in *.
  destruct (externs_undefined_update_local i (set_sym_defined true) st2 H2)
    as (H3 & N3); [reflexivity | exact N2 |].
  destruct (pass _ =? 1); [| exact H3].
  apply externs_undefined_update_local; [exact H3 | reflexivity | exact N3].
Qed.

Lemma symbol_add_flags :
  forall name st i st1,
    symbol_add name st = (Some i, st1) ->
    externs_undefined st ->
    externs_undefined st1
    /\ sym_flags (get_symbol st1 i) = SYM_LOCAL
    /\ sym_defined (get_symbol st1 i) = false
    /\ sym_section (get_symbol st1 i) = current_section st.
Proof.
  intros name st i st1 H Hst.
  pose proof (symbol_add_externs_undefined name st Hst) as Hadd. rewrite H in Hadd.
  split; [exact Hadd |].
  unfold symbol_add in H. destruct (num_symbols st >=? MAX_SYMBOLS); [discriminate |].
  inversion H; subst. unfold get_symbol. simpl.
  rewrite app_nth2, Nat.sub_diag; [| lia]. simpl. repeat split.
Qed.

Lemma symbol_define_externs_undefined :
  forall name value st,
    externs_undefined st -> externs_undefined (snd (symbol_define name value st)).
Proof.
  intros name value st H. unfold symbol_define.
  destruct (symbol_find st name) as [i |].
  - destruct (_ && _); [exact H |].
    destruct (sym_flags (get_symbol st i) =? SYM_EXTERN) eqn:E; [exact H |].
    apply define_at_externs_undefined; [exact H |]. apply Z.eqb_neq. exact E.
  - destruct (symbol_add name st) as [[i |] st1] eqn:A.
    + destruct (symbol_add_flags name st i st1 A H) as (H1 & F & _).
      apply define_at_externs_undefined; [exact H1 |]. rewrite F. discriminate.
    + pose proof (symbol_add_externs_undefined name st H) as H1. rewrite A in H1. exact H1.
Qed.

Lemma symbol_set_export_externs_undefined :
  forall name st,
    externs_undefined st -> externs_undefined (snd (symbol_set_export name st)).
Proof.
  intros name st H. unfold symbol_set_export.
  destruct (symbol_find st name) as [i |].
  - apply externs_undefined_update; [exact H | discriminate].
  - destruct (symbol_add name st) as [[i |] st1] eqn:A.
    + destruct (symbol_add_flags name st i st1 A H) as (H1 & _).
      apply externs_undefined_update; [exact H1 | discriminate].
    + pose proof (symbol_add_externs_undefined name st H) as H1. rewrite A in H1. exact H1.
Qed.

Lemma mark_extern_externs_undefined :
  forall i name st,
    externs_undefined st ->
    sym_defined (get_symbol st i) = false ->
    externs_undefined (snd (mark_extern i name st)).
Proof.
  intros i name st H Hd. unfold mark_extern. cbv zeta.
  assert (H1 : externs_undefined (update_symbol i (set_sym_flags SYM_EXTERN) st)).
  { apply externs_undefined_update; [exact H |]. intros _. exact Hd. }
  repeat break_if; exact H1.
Qed.

Lemma symbol_set_extern_externs_undefined :
  forall name st,
    externs_undefined st -> externs_undefined (snd (symbol_set_extern name st)).
Proof.
  intros name st H. unfold symbol_set_extern.
  destruct (symbol_find st name) as [i |].
  - destruct (sym_defined (get_symbol st i)) eqn:D; [exact H |].
    apply mark_extern_externs_undefined; assumption.
  - destruct (symbol_add name st) as [[i |] st1] eqn:A.
    + destruct (symbol_add_flags name st i st1 A H) as (H1 & _ & D & _).
      apply mark_extern_externs_undefined; assumption.
    + pose proof (symbol_add_externs_undefined name st H) as H1. rewrite A in H1. exact H1.
Qed.

Lemma keeps_ret : forall (A : Type) (x : A), keeps_externs_undefined (ret x).
Proof. intros A x st r st' H. inversion H; subst. auto. Qed.

Lemma keeps_bind :
  forall (A B : Type) (m : M A) (k : A -> M B),
    keeps_externs_undefined m -> (forall x, keeps_externs_undefined (k x)) ->
    keeps_externs_undefined (bind m k).
Proof.
  intros A B m k Hm Hk st r st' H Hst. unfold bind in H.
  destruct (m st) as [[x st1] |] eqn:E; [| discriminate].
  eapply Hk; [exact H |]. eapply Hm; [exact E | exact Hst].
Qed.

Lemma keeps_lex : keeps_externs_undefined lex.
Proof. apply EmittingM_keeps, EmittingM_lex. Qed.

Lemma keeps_parse_expression : keeps_externs_undefined parse_expression.
Proof. apply EmittingM_keeps, EmittingM_parse_expression. Qed.

Lemma externs_undefined_lexer_next :
  forall st, externs_undefined st -> externs_undefined (lexer_next st).
Proof.
  intros st. apply externs_undefined_symbols.
  apply (emission_fixed st (lexer_next st)), emission_lexer_next.
Qed.

Lemma keeps_dir_org : keeps_externs_undefined dir_org.
Proof.
  unfold dir_org. apply keeps_bind; [apply keeps_lex | intros _].
  apply keeps_bind; [apply keeps_parse_expression | intros e].
  destruct (e_has_symbol e).
  - apply EmittingM_keeps, EmittingM_lift, Emitting_fails.
  - apply keeps_bind; [| intros _; apply keeps_ret].
    intros st r st' H Hst. inversion H; subst. exact Hst.
Qed.

Lemma keeps_dir_equ : forall label, keeps_externs_undefined (dir_equ label).
Proof.
  intros label. unfold dir_equ.
  destruct (Ascii.eqb (deref label) NUL);
    [apply EmittingM_keeps, EmittingM_lift, Emitting_fails |].
  apply keeps_bind; [apply keeps_lex | intros _].
  apply keeps_bind; [apply keeps_parse_expression | intros e].
  intros st r st' H Hst. destruct (_ && _); [inversion H; subst; exact Hst |].
  pose proof (symbol_define_externs_undefined label (if e_has_symbol e then 0 else e_value e)
                (set_current_section 0 st) Hst) as D.
  destruct (symbol_define label _ _) as [r1 st1]. inversion H; subst. exact D.
Qed.

Lemma keeps_try_equ_directive :
  forall label, keeps_externs_undefined (try_equ_directive label).
Proof.
  intros label st r st' H Hst. unfold try_equ_directive in H.
  destruct (_ || _); [eapply keeps_dir_equ; eauto |]. inversion H; subst. exact Hst.
Qed.

Lemma keeps_dir_section : keeps_externs_undefined dir_section.
Proof.
  unfold dir_section. apply keeps_bind; [apply keeps_lex | intros _].
  intros st r st' H Hst. unfold lift in H. injection H as H.
  apply (f_equal snd) in H. cbn [snd] in H. subst st'.
  destruct (negb _); [exact Hst |]. cbv zeta. cbn [snd].
  apply externs_undefined_lexer_next.
  assert (S1 : externs_undefined (save_section_pc st)).
  { unfold save_section_pc. repeat break_if; exact Hst. }
  repeat break_if; exact S1.
Qed.

Lemma keeps_dir_names_loop :
  forall declare msg,
    (forall name st, externs_undefined st -> externs_undefined (snd (declare name st))) ->
    forall n, keeps_externs_undefined (dir_names_loop declare msg n).
Proof.
  intros declare msg Hd.
  induction n as [| n IH]; intros st r st' H Hst; simpl in H.
  - destruct (cur_is TOK_IDENT st); [| inversion H; subst; exact Hst].
    destruct (symbol_is_local _); [inversion H; subst; exact Hst |].
    destruct (cur_is TOK_COMMA _); [discriminate |].
    inversion H; subst. apply externs_undefined_lexer_next, Hd, Hst.
  - destruct (cur_is TOK_IDENT st); [| inversion H; subst; exact Hst].
    destruct (symbol_is_local _); [inversion H; subst; exact Hst |].
    destruct (cur_is TOK_COMMA _).
    + eapply IH; [exact H |].
      apply externs_undefined_lexer_next, externs_undefined_lexer_next, Hd, Hst.
    + inversion H; subst. apply externs_undefined_lexer_next, Hd, Hst.
Qed.

Lemma keeps_dir_xdef : keeps_externs_undefined dir_xdef.
Proof.
  unfold dir_xdef. apply keeps_bind; [apply keeps_lex | intros _].
  intros st r st' H. eapply keeps_dir_names_loop; [| exact H].
  apply symbol_set_export_externs_undefined.
Qed.

Lemma keeps_dir_xref : keeps_externs_undefined dir_xref.
Proof.
  unfold dir_xref. apply keeps_bind; [apply keeps_lex | intros _].
  intros st r st' H. eapply keeps_dir_names_loop; [| exact H].
  apply symbol_set_extern_externs_undefined.
Qed.

Section FilesKeep.

Variable fs : string -> option string.

Lemma keeps_include_loop :
  forall asm_line,
    (forall line, keeps_externs_undefined (asm_line line)) ->
    forall n fp, keeps_externs_undefined (include_loop asm_line n fp).
Proof.
  intros asm_line Hl. induction n as [| n IH]; intros fp st r st' H Hst;
    cbn [include_loop] in H.
  - destruct (fgets 1023 fp) as [[| c l] fp1]; [| discriminate].
    inversion H; subst. exact Hst.
  - destruct (fgets 1023 fp) as [[| c l] fp1]; [inversion H; subst; exact Hst |].
    match type of H with
    | match asm_line ?line ?s with _ => _ end = _ =>
        destruct (asm_line line s) as [[r3 st3] |] eqn:E; [| discriminate];
        assert (Hs : externs_undefined s) by (destruct (too_long _ _); exact Hst)
    end.
    eapply IH; [exact H |]. eapply Hl; [exact E | exact Hs].
Qed.

Lemma keeps_dir_include :
  forall asm_line,
    (forall line, keeps_externs_undefined (asm_line line)) ->
    keeps_externs_undefined (dir_include fs asm_line).
Proof.
  intros asm_line Hl. unfold dir_include. apply keeps_bind; [apply keeps_lex | intros _].
  intros st r st' H Hst. destruct (negb _); [inversion H; subst; exact Hst |].
  cbv zeta in H. destruct (fs _) as [content |].
  - destruct (include_loop _ _ _ _) as [[u st2] |] eqn:E; [| discriminate].
    inversion H; subst.
    apply (keeps_include_loop asm_line Hl _ _ _ _ _ E).
    apply externs_undefined_lexer_next, Hst.
  - inversion H; subst. apply externs_undefined_lexer_next, Hst.
Qed.

Lemma keeps_directive_execute :
  forall asm_line name,
    (forall line, keeps_externs_undefined (asm_line line)) ->
    keeps_externs_undefined (directive_execute fs asm_line name).
Proof.
  intros asm_line name Hl. unfold directive_execute. cbv zeta.
  repeat match goal with
         | |- keeps_externs_undefined (if ?c then _ else _) => destruct c
         end.
  - apply keeps_dir_org.
  - apply EmittingM_keeps, EmittingM_dir_db.
  - apply EmittingM_keeps, EmittingM_dir_dw.
  - apply EmittingM_keeps, EmittingM_dir_dl.
  - apply EmittingM_keeps, EmittingM_dir_ds.
  - apply keeps_dir_section.
  - apply keeps_dir_xdef.
  - apply keeps_dir_xref.
  - apply keeps_ret.
  - apply EmittingM_keeps, EmittingM_dir_align.
  - apply EmittingM_keeps, EmittingM_dir_ascii.
  - apply EmittingM_keeps, EmittingM_dir_asciz.
  - apply EmittingM_keeps, EmittingM_dir_assume.
  - apply keeps_dir_include, Hl.
  - apply EmittingM_keeps, EmittingM_dir_incbin.
  - apply keeps_ret.
Qed.

Lemma define_label_externs_undefined :
  forall label st, externs_undefined st -> externs_undefined (define_label label st).
Proof.
  intros label st H. unfold define_label.
  destruct (is_equ_token st); [exact H |].
  destruct (symbol_is_local label).
  - apply symbol_define_externs_undefined, H.
  - cbv zeta. apply (symbol_define_externs_undefined label (pc st) st H).
Qed.

Lemma externs_undefined_lexer_peek :
  forall st, externs_undefined st -> externs_undefined (lexer_peek st).
Proof.
  intros st. apply externs_undefined_symbols.
  pose proof (assembled_lexer_peek st) as E. unfold assembled in E. congruence.
Qed.

Lemma line_label_externs_undefined :
  forall st, externs_undefined st -> externs_undefined (snd (line_label st)).
Proof.
  intros st H. unfold line_label. cbv zeta.
  pose proof (externs_undefined_lexer_peek st H) as P.
  repeat break_if; cbn [snd];
    repeat first [ apply define_label_externs_undefined
                 | apply externs_undefined_lexer_next ];
    assumption.
Qed.

Lemma keeps_asm_line_with :
  forall asm_line line,
    (forall l, keeps_externs_undefined (asm_line l)) ->
    keeps_externs_undefined (asm_line_with fs asm_line line).
Proof.
  intros asm_line line Hl st r st' H Hst. unfold asm_line_with in H. cbv zeta in H.
  assert (H0 : externs_undefined (lexer_next (lexer_init line st))).
  { apply externs_undefined_lexer_next. exact Hst. }
  destruct (at_eol _); [inversion H; subst; exact H0 |].
  pose proof (line_label_externs_undefined _ H0) as H1.
  destruct (line_label _) as [label st1]. cbn [snd] in H1.
  destruct (at_eol st1); [inversion H; subst; exact H1 |].
  destruct (cur_is TOK_EQUALS st1).
  { destruct (Ascii.eqb _ _); [inversion H; subst; exact H1 |].
    eapply keeps_dir_equ; eauto. }
  destruct (negb _); [inversion H; subst; exact H1 |].
  destruct (try_equ_directive label st1) as [[r1 st2] |] eqn:E1; [| discriminate].
  pose proof (keeps_try_equ_directive label _ _ _ E1 H1) as H2.
  destruct (r1 =? 0); [inversion H; subst; exact H2 |].
  destruct (instr_execute _ st2) as [[r2 st3] |] eqn:E2; [| discriminate].
  pose proof (EmittingM_keeps _ _ (EmittingM_instr_execute _) _ _ _ E2 H2) as H3.
  destruct (r2 =? 0); [inversion H; subst; exact H3 |].
  destruct (directive_execute _ _ _ st3) as [[r3 st4] |] eqn:E3; [| discriminate].
  pose proof (keeps_directive_execute _ _ Hl _ _ _ E3 H3) as H4.
  destruct (r3 =? 0); [inversion H; subst; exact H4 |].
  destruct (_ >? _); inversion H; subst; exact H4.
Qed.

Lemma keeps_out_of_fuel : forall A : Type, keeps_externs_undefined (@out_of_fuel A).
Proof. intros A st r st' H. discriminate H. Qed.

Lemma keeps_asm_line :
  forall depth line, keeps_externs_undefined (asm_line fs depth line).
Proof.
  induction depth as [| d IH]; intros line; simpl; apply keeps_asm_line_with.
  - intros l. apply keeps_out_of_fuel.
  - exact IH.
Qed.

Lemma keeps_asm_pass_loop :
  forall depth n fp, keeps_externs_undefined (asm_pass_loop fs depth n fp).
Proof.
  intros depth. induction n as [| n IH]; intros fp st r st' H Hst;
    cbn [asm_pass_loop] in H.
  - destruct (fgets _ fp) as [[| c l] fp1]; [| discriminate].
    inversion H; subst. exact Hst.
  - destruct (fgets _ fp) as [[| c l] fp1]; [inversion H; subst; exact Hst |].
    match type of H with
    | match asm_line fs depth ?line ?s with _ => _ end = _ =>
        destruct (asm_line fs depth line s) as [[r3 st3] |] eqn:E; [| discriminate];
        assert (Hs : externs_undefined s) by (destruct (too_long _ _); exact Hst)
    end.
    eapply IH; [exact H |]. eapply keeps_asm_line; [exact E | exact Hs].
Qed.

Lemma keeps_modify :
  forall f, (forall st, symbols (f st) = symbols st) -> keeps_externs_undefined (modify f).
Proof.
  intros f Hf st r st' H. inversion H; subst. apply externs_undefined_symbols, Hf.
Qed.

Lemma keeps_asm_pass : forall depth fp, keeps_externs_undefined (asm_pass fs depth fp).
Proof.
  intros depth fp. unfold asm_pass.
  apply keeps_bind; [apply keeps_modify; reflexivity | intros _].
  apply keeps_bind; [apply keeps_asm_pass_loop | intros _].
  intros st r st' H. inversion H; subst. auto.
Qed.

Lemma keeps_asm_pass1 : forall depth fp, keeps_externs_undefined (asm_pass1 fs depth fp).
Proof.
  intros depth fp. unfold asm_pass1.
  apply keeps_bind; [apply keeps_modify; reflexivity | intros _; apply keeps_asm_pass].
Qed.

Lemma keeps_asm_pass2 : forall depth fp, keeps_externs_undefined (asm_pass2 fs depth fp).
Proof.
  intros depth fp. unfold asm_pass2.
  apply keeps_bind; [apply keeps_modify; reflexivity | intros _; apply keeps_asm_pass].
Qed.

Lemma keeps_asm_file :
  forall depth filename, keeps_externs_undefined (asm_file fs depth filename).
Proof.
  intros depth filename. unfold asm_file. destruct (fs filename) as [fp |];
    [| apply keeps_ret].
  apply keeps_bind; [apply keeps_asm_pass1 | intros _].
  intros st r st' H Hst. destruct (errors st >? 0); [inversion H; subst; exact Hst |].
  eapply keeps_asm_pass2; eauto.
Qed.

End FilesKeep.

(** ** External symbols *)

Lemma mark_extern_symbols :
  forall i name st,
    symbols (snd (mark_extern i name st))
    = list_update i (set_sym_flags SYM_EXTERN) (symbols st).
Proof. intros i name st. unfold mark_extern. cbv zeta. repeat break_if; reflexivity. Qed.

(** The claim of the document fails on [xref foo]: the symbol the directive
    creates is external and undefined, and its section is the one current at
    the directive, code (1) by default and data (2) after [section data],
    not the absolute section 0. *)
Lemma C8_xref_symbol_takes_current_section :
  (exists st s,
      assemble (source [" xref foo"]) = Some (0, st)
      /\ symbol_named st "foo" = Some s
      /\ sym_flags s = SYM_EXTERN /\ sym_defined s = false
      /\ sym_section s = SECT_CODE /\ sym_section s <> 0)
  /\ (exists st s,
         assemble (source [" section data"; " xref foo"]) = Some (0, st)
         /\ symbol_named st "foo" = Some s
         /\ sym_flags s = SYM_EXTERN /\ sym_defined s = false
         /\ sym_section s = SECT_DATA /\ sym_section s <> 0).
Proof.
  split; eexists; eexists.
  - split; [vm_compute; reflexivity |].
    split; [vm_compute; reflexivity |].
    repeat split. discriminate.
  - split; [vm_compute; reflexivity |].
    split; [vm_compute; reflexivity |].
    repeat split. discriminate.
Qed.

(** C8 (as the code has it). No symbol is ever both external and defined:
    the property holds of the initial state and is kept by [symbol_add],
    [symbol_define], [symbol_set_export] and [symbol_set_extern], by every
    source line ([asm_line]) and by both passes of [asm_file], on every file
    system and at every depth of [include]. Declaring a defined symbol
    external is rejected with an error and changes no symbol, and so is
    defining an external symbol. A symbol created by [xref] is external,
    undefined, and in the section current at the declaration. On the source
    "foo: nop / xref foo / xref bar / bar: nop" pass 1 reports the two
    rejections and leaves foo defined and local, bar external and
    undefined. *)
Theorem C8_extern_symbols_stay_undefined :
  externs_undefined asm_init
  /\ (forall name st,
         externs_undefined st -> externs_undefined (snd (symbol_add name st)))
  /\ (forall name value st,
         externs_undefined st -> externs_undefined (snd (symbol_define name value st)))
  /\ (forall name st,
         externs_undefined st -> externs_undefined (snd (symbol_set_export name st)))
  /\ (forall name st,
         externs_undefined st -> externs_undefined (snd (symbol_set_extern name st)))
  /\ (forall fs depth line, keeps_externs_undefined (asm_line fs depth line))
  /\ (forall fs depth filename, keeps_externs_undefined (asm_file fs depth filename))
  /\ (forall name st i,
         symbol_find st name = Some i ->
         sym_defined (get_symbol st i) = true ->
         symbol_set_extern name st
         = (-1, asm_error "cannot declare defined symbol '%s' as external" st))
  /\ (forall name value st i,
         symbol_find st name = Some i ->
         sym_flags (get_symbol st i) = SYM_EXTERN ->
         fst (symbol_define name value st) = -1
         /\ symbols (snd (symbol_define name value st)) = symbols st
         /\ errors (snd (symbol_define name value st)) = errors st + 1)
  /\ (forall name st,
         symbol_find st name = None ->
         num_symbols st < MAX_SYMBOLS ->
         get_symbol (snd (symbol_set_extern name st)) (List.length (symbols st))
         = mkSymbol (str_copy name MAX_LABEL_LEN) 0 (current_section st) SYM_EXTERN
             false 0 (symbol_hash name))
  /\ option_map
       (fun r => (diag (snd r),
                  map (fun s => (sym_name s, sym_flags s, sym_defined s)) (symbols (snd r))))
       (assemble_pass1 (source ["foo: nop"; " xref foo"; " xref bar"; "bar: nop"]))
     = Some (["cannot declare defined symbol '%s' as external";
              "cannot define external symbol '%s'"],
             [("foo", SYM_LOCAL, true); ("bar", SYM_EXTERN, false)]).
Proof.
  split; [constructor |].
  split; [apply symbol_add_externs_undefined |].
  split; [apply symbol_define_externs_undefined |].
  split; [apply symbol_set_export_externs_undefined |].
  split; [apply symbol_set_extern_externs_undefined |].
  split; [apply keeps_asm_line |].
  split; [apply keeps_asm_file |].
  split; [| split; [| split]].
  - intros name st i F D. unfold symbol_set_extern. rewrite F, D. reflexivity.
  - intros name value st i F X. unfold symbol_define. rewrite F, X.
    destruct (_ && _); repeat split.
  - intros name st F L. unfold symbol_set_extern. rewrite F.
    unfold symbol_add. destruct (num_symbols st >=? MAX_SYMBOLS) eqn:G; [lia |].
    unfold get_symbol. rewrite mark_extern_symbols. cbn [symbols set_symbols].
    rewrite nth_list_update_same; [| rewrite length_app; simpl; lia].
    rewrite app_nth2, Nat.sub_diag; [reflexivity | lia].
  - vm_compute. reflexivity.
Qed.
(** ** The PC and the byte counts *)








(** ** Instructions and data directives return *)

Lemma returns_ret : forall (A : Type) (x : A), returns (ret x).
Proof. intros A x st. eexists. eexists. reflexivity. Qed.

Lemma returns_some :
  forall (A : Type) (f : AsmState -> A * AsmState), returns (fun st => Some (f st)).
Proof. intros A f st. destruct (f st) as [r st'] eqn:E. eexists. eexists. reflexivity. Qed.

Lemma returns_lift : forall a, returns (lift a).
Proof. intros a. apply returns_some. Qed.

Lemma returns_lex : returns lex.
Proof. intros st. eexists. eexists. reflexivity. Qed.

Lemma returns_modify : forall f, returns (modify f).
Proof. intros f st. eexists. eexists. reflexivity. Qed.

Lemma returns_bind :
  forall (A B : Type) (m : M A) (k : A -> M B),
    returns m -> (forall x, returns (k x)) -> returns (bind m k).
Proof.
  intros A B m k Hm Hk st. unfold bind.
  destruct (Hm st) as (x & st1 & E). rewrite E. apply Hk.
Qed.

Lemma returns_if :
  forall (A : Type) (c : bool) (m1 m2 : M A),
    returns m1 -> returns m2 -> returns (if c then m1 else m2).
Proof. intros A c m1 m2 H1 H2. destruct c; assumption. Qed.

Lemma returns_branch :
  forall (A : Type) (c : AsmState -> bool) (m1 m2 : M A),
    returns m1 -> returns m2 -> returns (fun st => if c st then m1 st else m2 st).
Proof. intros A c m1 m2 H1 H2 st. destruct (c st); [apply H1 | apply H2]. Qed.

Lemma returns_after_lex :
  forall (A : Type) (m : M A), returns m -> returns (fun st => m (lexer_next st)).
Proof. intros A m Hm st. apply Hm. Qed.

Lemma returns_parse_expression : returns parse_expression.
Proof.
  intros st. destruct (parse_expression_returns st) as (e & st' & E & _).
  eauto.
Qed.

Lemma returns_expect_rparen : forall op, returns (expect_rparen op).
Proof. intros op st. unfold expect_rparen. destruct (cur_is _ _); eauto. Qed.

Lemma returns_index_offset : forall reg, returns (index_offset reg).
Proof.
  intros reg st. unfold index_offset. cbv zeta.
  destruct (cur_is TOK_PLUS st).
  - destruct (returns_parse_expression (lexer_next st)) as (e & st1 & E). rewrite E. eauto.
  - destruct (cur_is TOK_MINUS st); [| eauto].
    destruct (returns_parse_expression (lexer_next st)) as (e & st1 & E). rewrite E. eauto.
Qed.

Lemma returns_operand_expr : forall ty, returns (operand_expr ty).
Proof.
  intros ty. unfold operand_expr.
  apply returns_bind; [apply returns_parse_expression | intros e; apply returns_ret].
Qed.

Lemma returns_parse_operand_indirect : returns parse_operand_indirect.
Proof.
  assert (A : returns (op <- operand_expr OP_ADDR ;; expect_rparen op)).
  { apply returns_bind; [apply returns_operand_expr | apply returns_expect_rparen]. }
  intros st. unfold parse_operand_indirect. cbv zeta.
  destruct (cur_is TOK_IDENT st); [| apply A].
  destruct (ind_reg_of _); [apply returns_expect_rparen |].
  destruct (_ || _); [| apply A].
  destruct (cur_is TOK_RPAREN _); [eauto |].
  apply (returns_bind _ _ (index_offset _) expect_rparen);
    [apply returns_index_offset | apply returns_expect_rparen].
Qed.

Lemma returns_parse_operand : returns parse_operand.
Proof.
  assert (I : returns (op <- operand_expr OP_IMM ;; ret (0, op))).
  { apply returns_bind; [apply returns_operand_expr | intros op; apply returns_ret]. }
  intros st. unfold parse_operand. cbv zeta.
  destruct (cur_is TOK_LPAREN st); [apply returns_parse_operand_indirect |].
  destruct (cur_is TOK_IDENT st); [| apply I].
  destruct (negb (Reg_eqb _ _)).
  - destruct (_ && _).
    + apply (returns_bind _ _ (index_offset _) (fun op => ret (0, op)));
        [apply returns_index_offset | intros op; apply returns_ret].
    + destruct (Reg_eqb _ REG_C); eauto.
  - destruct (negb _); [eauto | apply I].
Qed.

Lemma returns_with_operand :
  forall k, (forall op, returns (k op)) -> returns (with_operand k).
Proof.
  intros k Hk. unfold with_operand. apply returns_bind; [apply returns_parse_operand |].
  intros r. apply returns_if; [apply returns_ret | apply Hk].
Qed.

Lemma returns_expect_comma : forall msg k, returns k -> returns (expect_comma msg k).
Proof.
  intros msg k Hk st. unfold expect_comma.
  destruct (cur_is TOK_COMMA st); [apply Hk | apply (returns_lift (fails msg))].
Qed.

Ltac returning :=
  repeat match goal with
         | |- returns (ret _) => apply returns_ret
         | |- returns lex => apply returns_lex
         | |- returns (lift _) => apply returns_lift
         | |- returns (modify _) => apply returns_modify
         | |- returns parse_operand => apply returns_parse_operand
         | |- returns (with_operand _) => apply returns_with_operand; intros ?
         | |- returns (expect_comma _ _) => apply returns_expect_comma
         | |- returns (bind _ _) => apply returns_bind; [| intros ?]
         | |- returns (if ?c then _ else _) => destruct c
         | |- returns (let _ := _ in _) => cbv zeta
         | |- returns (fun st => if _ then _ else _) => apply returns_branch
         | |- returns (fun st => Some _) => apply returns_some
         | |- returns (fun st => with_operand _ (lexer_next st)) => apply returns_after_lex
         | |- returns (fun st => with_operand _ st) =>
             apply returns_with_operand; intros ?
         | |- returns (fun st => lift _ st) => apply returns_lift
         end.

Lemma returns_instr_table : Forall (fun e => returns (snd e)) instr_table.
Proof.
  unfold instr_table.
  repeat (apply Forall_cons; [cbn [snd] |]); try apply Forall_nil.
  all: unfold handle_adc, handle_adc_s, handle_sbc, handle_sbc_s, handle_add, handle_add_s,
    handle_sub, handle_and, handle_xor, handle_or, handle_cp, handle_inc, handle_dec,
    handle_push, handle_pop, handle_in, handle_out, handle_in0, handle_out0,
    handle_bit, handle_set, handle_res, handle_rlc, handle_rrc, handle_rl, handle_rr,
    handle_sla, handle_sra, handle_srl.
  all: unfold handle_adc_sbc, handle_add_impl, handle_alu_simple, handle_cb_op,
    handle_call, handle_inc_dec, handle_djnz, handle_ex, handle_im, handle_in_out,
    handle_in0_out0, handle_jp, handle_jr, handle_ld, handle_lea, handle_mlt,
    handle_pea, handle_push_pop, handle_ret, handle_shift, handle_rst, handle_rst_lil,
    handle_tst, parse_rst_vector.
  all: returning.
Qed.

Lemma instr_lookup_returns :
  forall lower h, instr_lookup lower = Some h -> returns h.
Proof.
  intros lower h H. unfold instr_lookup, table_lookup in H.
  destruct (bsearch (S (Datatypes.length instr_table)) fst instr_table lower 0
              (Z.of_nat (Datatypes.length instr_table) - 1)) as [[i e] |] eqn:E;
    [| discriminate].
  inversion H; subst.
  apply bsearch_In in E.
  pose proof returns_instr_table as T. rewrite Forall_forall in T.
  apply T. exact E.
Qed.

(** Every instruction returns. *)
Lemma returns_instr_execute : forall mnemonic, returns (instr_execute mnemonic).
Proof.
  intros mnemonic. unfold instr_execute. cbv zeta.
  destruct (simple_lookup _) as [[prefix opcode] |].
  - intros st. unfold fails. destruct (negb _); eauto.
  - destruct (instr_lookup _) as [h |] eqn:L; [| apply returns_ret].
    apply returns_bind; [eapply instr_lookup_returns; exact L | intros result].
    intros st. unfold fails. destruct (_ && _); eauto.
Qed.

(** *** The operand loops of the data directives *)





















(** ** The program counter across the passes *)




(** ** Strings in [db] *)

Lemma chr_uint8 : forall c, uint8 (chr c) = chr c.
Proof.
  intros c. unfold uint8, chr. apply Z.mod_small.
  pose proof (N_ascii_bounded c). lia.
Qed.

Lemma c_str_interior_nul :
  forall a b, c_str (String.append a (String NUL b)) = c_str a.
Proof.
  induction a as [| c r IH]; intros b; simpl; [reflexivity |].
  destruct (Ascii.eqb c NUL); [reflexivity | rewrite IH; reflexivity].
Qed.

Lemma fold_emit_code :
  forall (chars : list ascii) st bytes,
    pass st = 2 -> current_section st = SECT_CODE -> code_tmp st = Some bytes ->
    code_tmp (fold_left (fun s c => emit_byte (chr c) s) chars st)
    = Some (bytes ++ map chr chars).
Proof.
  induction chars as [| c r IH]; intros st bytes P S T; simpl.
  - rewrite app_nil_r. exact T.
  - rewrite (IH (emit_byte (chr c) st) (bytes ++ [chr c])).
    + rewrite <- app_assoc. reflexivity.
    + destruct (emit_byte_fixed (chr c) st) as (_ & P' & _). congruence.
    + destruct (emit_byte_fixed (chr c) st) as (_ & _ & S'). congruence.
    + unfold emit_byte. rewrite P, S. simpl. rewrite T. simpl. rewrite chr_uint8. reflexivity.
Qed.

(** [db] of one string: the bytes are the characters before the first NUL
    of the token text. *)
Lemma dir_db_string :
  forall st bytes,
    cur_is TOK_STRING (lexer_next st) = true ->
    cur_is TOK_COMMA
      (lexer_next (emit_string (tok_text (current_token (lexer_next st))) (lexer_next st)))
    = false ->
    pass st = 2 -> current_section st = SECT_CODE -> code_tmp st = Some bytes ->
    exists st',
      dir_db st = Some (0, st')
      /\ code_tmp st'
         = Some (bytes
                 ++ map chr (list_ascii_of_string
                               (c_str (tok_text (current_token (lexer_next st)))))).
Proof.
  intros st bytes S C P Sec T.
  pose proof (assembled_lexer_next st) as A. unfold assembled in A.
  set (st1 := lexer_next st) in *.
  assert (P1 : pass st1 = 2) by congruence.
  assert (S1 : current_section st1 = SECT_CODE) by congruence.
  assert (T1 : code_tmp st1 = Some bytes) by congruence.
  exists (lexer_next (emit_string (tok_text (current_token st1)) st1)).
  split.
  - unfold dir_db, bind, lex, modify. fold st1.
    destruct (line_fuel st1); cbn [dir_db_loop]; rewrite S, C; reflexivity.
  - pose proof (assembled_lexer_next (emit_string (tok_text (current_token st1)) st1)) as B.
    unfold assembled in B.
    transitivity (code_tmp (emit_string (tok_text (current_token st1)) st1)); [congruence |].
    unfold emit_string. apply fold_emit_code; assumption.
Qed.

(** C9 (the code stops at an interior NUL). [db] of a string emits the
    characters of the token text before its first NUL, and a text with a NUL
    inside is cut there: in pass 2, in the code section, [dir_db] at a string
    that no comma follows appends [c_str] of the text to the code, and
    [c_str] of "a", NUL, "b" is [c_str] of "a". The lexer reads the literal
    "a\0b" as the three characters a, NUL, b; [db] of it emits the single
    byte 61 and advances the PC by one. A literal without the escape [\0] is
    emitted whole: "Hi" gives 48 69. *)
Theorem C9_db_string_stops_at_interior_nul :
  (forall st bytes,
      cur_is TOK_STRING (lexer_next st) = true ->
      cur_is TOK_COMMA
        (lexer_next (emit_string (tok_text (current_token (lexer_next st))) (lexer_next st)))
      = false ->
      pass st = 2 -> current_section st = SECT_CODE -> code_tmp st = Some bytes ->
      exists st',
        dir_db st = Some (0, st')
        /\ code_tmp st'
           = Some (bytes
                   ++ map chr (list_ascii_of_string
                                 (c_str (tok_text (current_token (lexer_next st)))))))
  /\ (forall a b, c_str (String.append a (String NUL b)) = c_str a)
  /\ tok_text (current_token (at_operand (quoted "a\0b") asm_init))
     = String "a" (String NUL (String "b" EmptyString))
  /\ tok_type (current_token (at_operand (quoted "a\0b") asm_init)) = TOK_STRING
  /\ option_map (fun r => (fst r, code_tmp (snd r), code_size (snd r), pc (snd r)))
       (assemble (source [String.append " db " (quoted "a\0b")]))
     = Some (0, Some [0x61], 1, 1)
  /\ option_map (fun r => (fst r, code_tmp (snd r), code_size (snd r), pc (snd r)))
       (assemble (source [String.append " db " (quoted "Hi")]))
     = Some (0, Some [0x48; 0x69], 2, 2).
Proof.
  split; [apply dir_db_string |].
  split; [apply c_str_interior_nul |].
  repeat split; vm_compute; reflexivity.
Qed.

End AsmSpec.

(** * Properties of the linker *)

Module LinkerSpec.

Import Linker ListFacts.

Lemma nth_list_update_other :
  forall (A : Type) (f : A -> A) (d : A) (l : list A) (i j : nat),
    i <> j -> nth j (list_update i f l) d = nth j l d.
Proof.
  intros A f d. induction l as [| x r IH]; intros i j H; simpl.
  - destruct i; reflexivity.
  - destruct i as [| i], j as [| j]; simpl; try reflexivity; [contradiction | apply IH; lia].
Qed.

(** ** Relocation *)






Lemma uint24_nonneg : forall z, 0 <= uint24 z.
Proof. intros z. unfold uint24. apply Z.mod_pos_bound. lia. Qed.



(** ** Layout *)










(** ** Global symbols *)

Lemma chain_find_bound :
  forall h name syms i j,
    chain_find h name syms i = Some j -> (i <= j < i + List.length syms)%nat.
Proof.
  intros h name. induction syms as [| s r IH]; intros i j H; simpl in H; [discriminate |].
  destruct (chain_find h name r (S i)) as [k |] eqn:E.
  - inversion H; subst. apply IH in E. simpl. lia.
  - destruct (_ && _); inversion H; subst. simpl. lia.
Qed.

Lemma find_global_None :
  forall ls name,
    find_global ls name = None <-> chain_find (sym_hash name) name (symbols ls) 0 = None.
Proof.
  intros ls name. unfold find_global.
  destruct (chain_find (sym_hash name) name (symbols ls) 0) as [j |] eqn:E.
  - apply chain_find_bound in E.
    split; [| discriminate]. intros H. apply nth_error_None in H. lia.
  - split; reflexivity.
Qed.


Lemma chain_find_app_miss :
  forall h name s syms i,
    (gs_bucket s =? h) && str_casecmp_eq (gs_name s) name = false ->
    chain_find h name (syms ++ [s]) i = chain_find h name syms i.
Proof.
  intros h name s. induction syms as [| x r IH]; intros i H; simpl.
  - rewrite H. reflexivity.
  - rewrite IH by exact H. reflexivity.
Qed.


Lemma add_global_duplicate :
  forall name value section obj_index ls,
    find_global ls name <> None ->
    add_global name value section obj_index ls
    = (-1, report "error: duplicate symbol '%s' in '%s' and '%s'" ls).
Proof.
  intros name value section obj_index ls F. unfold add_global.
  destruct (find_global ls name); [reflexivity | contradiction].
Qed.


Lemma make_absolute_objects :
  forall a b s, objects a = objects b -> make_absolute a s = make_absolute b s.
Proof.
  intros a b s H. unfold make_absolute, section_base, object_at. rewrite H. reflexivity.
Qed.





(** ** Selective loading of library objects *)

Lemma add_global_libraries :
  forall name value section obj_index ls,
    libraries (snd (add_global name value section obj_index ls)) = libraries ls.
Proof.
  intros. unfold add_global. destruct (find_global ls name); [reflexivity |].
  destruct (num_globals ls >=? MAX_SYMBOLS); reflexivity.
Qed.

Lemma register_symbols_libraries :
  forall n file pos strtab strtab_size obj_index ls,
    libraries (snd (register_symbols n file pos strtab strtab_size obj_index ls))
    = libraries ls.
Proof.
  induction n as [| n IH]; intros; simpl; [reflexivity |].
  destruct (read_at file pos sizeof_ObjSymbol); [| reflexivity].
  rewrite IH. destruct (_ && _); [apply add_global_libraries | reflexivity].
Qed.

Section Libraries.

Variable fs : string -> option (list Z).

Lemma load_object_at_libraries :
  forall name offset ls,
    libraries (snd (load_object_at fs name offset ls)) = libraries ls.
Proof.
  intros name offset ls. unfold load_object_at.
  destruct (num_objects ls >=? MAX_OBJECTS); [reflexivity |].
  destruct (fs name) as [file |]; [| reflexivity].
  destruct (read_at file offset sizeof_ObjHeader) as [hb |]; [| reflexivity].
  cbv zeta.
  destruct (negb (magic_ok _)); [reflexivity |].
  destruct (negb (_ =? 3)); [reflexivity |].
  match goal with
  | |- context [match ?s with Some _ => _ | None => _ end] => destruct s as [st |]
  end; [| reflexivity].
  match goal with
  | |- context [register_symbols ?n ?f ?p ?s ?z ?i ?l] =>
      pose proof (register_symbols_libraries n f p s z i l) as R;
      destruct (register_symbols n f p s z i l) as [[|] ls1]
  end; exact R.
Qed.

Lemma scan_objects_spec :
  forall objs name file undefined lib_idx j p,
    exists new,
      p_loaded (snd (scan_objects fs name file undefined lib_idx j objs p))
      = p_loaded p ++ new
      /\ List.length (fst (scan_objects fs name file undefined lib_idx j objs p))
         = List.length objs
      /\ NoDup new
      /\ (forall e, In e new ->
            exists k, e = (lib_idx, (j + k)%nat)
                      /\ loaded_in objs k = false
                      /\ loaded_in (fst (scan_objects fs name file undefined lib_idx j objs p)) k
                         = true)
      /\ (forall k, loaded_in objs k = true ->
            loaded_in (fst (scan_objects fs name file undefined lib_idx j objs p)) k = true)
      /\ (List.length (filter (fun o => negb (lo_loaded o))
                         (fst (scan_objects fs name file undefined lib_idx j objs p)))
          + List.length new
          = List.length (filter (fun o => negb (lo_loaded o)) objs))%nat
      /\ libraries (p_ls (snd (scan_objects fs name file undefined lib_idx j objs p)))
         = libraries (p_ls p).
Proof.
  induction objs as [| o rest IH]; intros name file undefined lib_idx j p.
  - exists []. simpl. rewrite app_nil_r. repeat split; try constructor.
    + intros e [].
    + intros k H. exact H.
  - cbn [scan_objects].
    destruct (lo_loaded o) eqn:L.
    + (* already loaded *)
      destruct (IH name file undefined lib_idx (S j) p) as (new & P & N & D & I & M & U & B).
      destruct (scan_objects fs name file undefined lib_idx (S j) rest p) as [rest' p'].
      cbn [fst snd] in *. exists new.
      split; [exact P |]. split; [simpl; lia |]. split; [exact D |].
      split; [| split; [| split]].
      * intros e He. destruct (I e He) as (k & E & A & C).
        exists (S k). split; [rewrite E; f_equal; lia |]. split; assumption.
      * intros [| k] H; [unfold loaded_in; simpl; exact L | apply M; exact H].
      * simpl. rewrite L. simpl. exact U.
      * exact B.
    + destruct (found_match file (lo_offset o) undefined).
      * (* a match: the object is loaded when [load_object_at] succeeds *)
        pose proof (load_object_at_libraries name (lo_offset o) (p_ls p)) as LL.
        destruct (load_object_at fs name (lo_offset o) (p_ls p)) as [r ls1].
        cbn [snd] in LL. cbv zeta.
        match goal with
        | |- context [scan_objects fs name file undefined lib_idx (S j) rest ?p1] =>
            destruct (IH name file undefined lib_idx (S j) p1)
              as (new & P & N & D & I & M & U & B);
            destruct (scan_objects fs name file undefined lib_idx (S j) rest p1)
              as [rest' p']
        end.
        cbn [fst snd p_loaded p_ls] in *.
        destruct (r =? 0).
        -- exists ((lib_idx, j) :: new).
           split; [rewrite P, <- app_assoc; reflexivity |].
           split; [simpl; lia |].
           split; [constructor; [| exact D] |].
           { intros He. destruct (I _ He) as (k & E & _). inversion E. lia. }
           split; [| split; [| split]].
           ++ intros e [He | He].
              ** exists 0%nat. split; [rewrite <- He; f_equal; lia |].
                 unfold loaded_in. simpl. split; [exact L | reflexivity].
              ** destruct (I e He) as (k & E & A & C).
                 exists (S k). split; [rewrite E; f_equal; lia |]. split; assumption.
           ++ intros [| k] H; [unfold loaded_in in *; simpl in *; congruence | apply M; exact H].
           ++ simpl. rewrite L. simpl. lia.
           ++ congruence.
        -- exists new.
           split; [exact P |]. split; [simpl; lia |]. split; [exact D |].
           split; [| split; [| split]].
           ++ intros e He. destruct (I e He) as (k & E & A & C).
              exists (S k). split; [rewrite E; f_equal; lia |]. split; assumption.
           ++ intros [| k] H; [unfold loaded_in in *; simpl in *; congruence | apply M; exact H].
           ++ simpl. rewrite L. simpl. lia.
           ++ congruence.
      * destruct (IH name file undefined lib_idx (S j) p) as (new & P & N & D & I & M & U & B).
        destruct (scan_objects fs name file undefined lib_idx (S j) rest p) as [rest' p'].
        cbn [fst snd] in *. exists new.
        split; [exact P |]. split; [simpl; lia |]. split; [exact D |].
        split; [| split; [| split]].
        -- intros e He. destruct (I e He) as (k & E & A & C).
           exists (S k). split; [rewrite E; f_equal; lia |]. split; assumption.
        -- intros [| k] H; [unfold loaded_in in *; simpl in *; congruence | apply M; exact H].
        -- simpl. rewrite L. simpl. lia.
        -- exact B.
Qed.

Lemma scan_libraries_spec :
  forall libs undefined lib_idx p,
    exists new,
      p_loaded (snd (scan_libraries fs undefined lib_idx libs p)) = p_loaded p ++ new
      /\ NoDup new
      /\ (forall e, In e new ->
            exists i k, e = ((lib_idx + i)%nat, k)
                        /\ is_loaded libs i k = false
                        /\ is_loaded (fst (scan_libraries fs undefined lib_idx libs p)) i k
                           = true)
      /\ (forall i k, is_loaded libs i k = true ->
            is_loaded (fst (scan_libraries fs undefined lib_idx libs p)) i k = true)
      /\ (unloaded_objects (fst (scan_libraries fs undefined lib_idx libs p))
          + List.length new
          = unloaded_objects libs)%nat
      /\ libraries (p_ls (snd (scan_libraries fs undefined lib_idx libs p)))
         = libraries (p_ls p).
Proof.
  induction libs as [| lib rest IH]; intros undefined lib_idx p.
  - exists []. simpl. rewrite app_nil_r. repeat split; try constructor.
    + intros e [].
    + intros i k H. exact H.
  - cbn [scan_libraries].
    destruct (fs (lib_filename lib)) as [file |].
    + destruct (scan_objects_spec (lib_objects lib) (lib_filename lib) file undefined
                  lib_idx 0 p) as (new1 & P1 & N1 & D1 & I1 & M1 & U1 & B1).
      destruct (scan_objects fs (lib_filename lib) file undefined lib_idx 0
                  (lib_objects lib) p) as [objs p1].
      cbn [fst snd] in *.
      destruct (IH undefined (S lib_idx) p1) as (new2 & P2 & D2 & I2 & M2 & U2 & B2).
      destruct (scan_libraries fs undefined (S lib_idx) rest p1) as [rest' p'].
      cbn [fst snd] in *.
      exists (new1 ++ new2).
      split; [rewrite P2, P1, app_assoc; reflexivity |].
      split; [| split; [| split; [| split]]].
      * apply NoDup_app; [exact D1 | exact D2 |].
        intros e H1 H2. destruct (I1 e H1) as (k & E1 & _).
        destruct (I2 e H2) as (i & k' & E2 & _). rewrite E1 in E2. inversion E2. lia.
      * intros e He. apply in_app_or in He. destruct He as [He | He].
        -- destruct (I1 e He) as (k & E & A & C).
           exists 0%nat, k. split; [rewrite E; f_equal; lia |].
           unfold is_loaded. simpl. split; assumption.
        -- destruct (I2 e He) as (i & k & E & A & C).
           exists (S i), k. split; [rewrite E; f_equal; lia |].
           unfold is_loaded in *. simpl. split; assumption.
      * intros [| i] k H; unfold is_loaded in *; simpl in *; [apply M1 | apply M2]; exact H.
      * unfold unloaded_objects in *. simpl. rewrite length_app. lia.
      * congruence.
    + destruct (IH undefined (S lib_idx) p) as (new2 & P2 & D2 & I2 & M2 & U2 & B2).
      destruct (scan_libraries fs undefined (S lib_idx) rest p) as [rest' p'].
      cbn [fst snd] in *.
      exists new2.
      split; [exact P2 |]. split; [exact D2 |].
      split; [| split; [| split]].
      * intros e He. destruct (I2 e He) as (i & k & E & A & C).
        exists (S i), k. split; [rewrite E; f_equal; lia |].
        unfold is_loaded in *. simpl. split; assumption.
      * intros [| i] k H; unfold is_loaded in *; simpl in *; [exact H | apply M2; exact H].
      * unfold unloaded_objects in *. simpl. lia.
      * exact B2.
Qed.

(** One turn of the loop: the objects it loads were not loaded before and
    are loaded after, none twice; a loaded object stays loaded; as many
    fewer objects are left to load as the turn loaded. *)
Lemma library_pass_spec :
  forall ls new ls1,
    library_pass fs ls = Some (new, ls1) ->
    NoDup new
    /\ (forall i j, In (i, j) new ->
          is_loaded (libraries ls) i j = false /\ is_loaded (libraries ls1) i j = true)
    /\ (forall i j, is_loaded (libraries ls) i j = true ->
          is_loaded (libraries ls1) i j = true)
    /\ (unloaded_objects (libraries ls1) + List.length new
        = unloaded_objects (libraries ls))%nat.
Proof.
  intros ls new ls1 H. unfold library_pass in H.
  destruct (collect_undefined fs ls (objects ls) []) as [| u und]; [discriminate |].
  destruct (scan_libraries_spec (libraries ls) (u :: und) 0 (mkPass ls []))
    as (new' & P & D & I & M & U & B).
  destruct (scan_libraries fs (u :: und) 0 (libraries ls) (mkPass ls [])) as [libs p].
  cbn [fst snd p_loaded p_ls] in *. simpl in P. injection H as H1 H2.
  rewrite <- H1, <- H2. cbn [libraries set_libraries].
  rewrite P. split; [exact D |]. split; [| split; [exact M | exact U]].
  intros i j He. destruct (I _ He) as (i' & k & E & A & C).
  inversion E; subst. split; assumption.
Qed.

Lemma library_loop_spec :
  forall fuel ls,
    (unloaded_objects (libraries ls) < fuel)%nat ->
    exists log ls',
      library_loop fs fuel ls = Some (log, ls')
      /\ NoDup log
      /\ (forall i j, In (i, j) log ->
            is_loaded (libraries ls) i j = false /\ is_loaded (libraries ls') i j = true)
      /\ (forall i j, is_loaded (libraries ls) i j = true ->
            is_loaded (libraries ls') i j = true)
      /\ (unloaded_objects (libraries ls') + List.length log
          = unloaded_objects (libraries ls))%nat.
Proof.
  induction fuel as [| f IH]; intros ls Hf; [lia |].
  cbn [library_loop].
  destruct (library_pass fs ls) as [[new ls1] |] eqn:P.
  - destruct (library_pass_spec ls new ls1 P) as (D & I & M & U).
    destruct new as [| e new].
    + exists [], ls1. split; [reflexivity |]. split; [constructor |].
      split; [intros i j [] |]. split; [exact M | exact U].
    + destruct (IH ls1) as (more & ls2 & L & D2 & I2 & M2 & U2); [simpl in U; lia |].
      rewrite L. exists ((e :: new) ++ more), ls2.
      split; [reflexivity |].
      split; [| split; [| split]].
      * apply NoDup_app; [exact D | exact D2 |].
        intros [i j] H1 H2. destruct (I i j H1) as (_ & A). destruct (I2 i j H2) as (B & _).
        congruence.
      * intros i j He. apply in_app_or in He. destruct He as [He | He].
        -- destruct (I i j He) as (A & B). split; [exact A | apply M2; exact B].
        -- destruct (I2 i j He) as (A & B). split; [| exact B].
           destruct (is_loaded (libraries ls) i j) eqn:X; [| reflexivity].
           rewrite (M i j X) in A. discriminate.
      * intros i j H. apply M2, M, H.
      * rewrite length_app. lia.
  - exists [], ls. split; [reflexivity |]. split; [constructor |].
    split; [intros i j [] |]. split; [auto | simpl; lia].
Qed.

(** More fuel changes nothing. *)
Lemma library_loop_more_fuel :
  forall f1 f2 ls r,
    library_loop fs f1 ls = Some r -> (f1 <= f2)%nat -> library_loop fs f2 ls = Some r.
Proof.
  induction f1 as [| f1 IH]; intros f2 ls r H L; [discriminate |].
  destruct f2 as [| f2]; [lia |].
  cbn [library_loop] in *.
  destruct (library_pass fs ls) as [[[| e new] ls1] |]; try exact H.
  destruct (library_loop fs f1 ls1) as [[more ls2] |] eqn:E; [| discriminate].
  rewrite (IH f2 ls1 (more, ls2) E); [exact H | lia].
Qed.

Lemma add_undefined_found :
  forall ls names undefined,
    (forall n, In n names -> find_global ls n <> None) ->
    add_undefined ls names undefined = undefined.
Proof.
  intros ls. induction names as [| n rest IH]; intros undefined H; simpl; [reflexivity |].
  destruct (_ <? MAX_EXTERNS); [| reflexivity].
  destruct (find_global ls n) eqn:F.
  - apply IH. intros m Hm. apply H. right. exact Hm.
  - exfalso. apply (H n); [left; reflexivity | exact F].
Qed.

Lemma collect_undefined_closed :
  forall ls objs undefined,
    (forall o file n,
        In o objs -> fs (filename o) = Some file ->
        In n (get_object_externals_fp file o 256) -> find_global ls n <> None) ->
    collect_undefined fs ls objs undefined = undefined.
Proof.
  intros ls. induction objs as [| o rest IH]; intros undefined H; simpl; [reflexivity |].
  destruct (_ <? MAX_EXTERNS); [| reflexivity].
  destruct (fs (filename o)) as [file |] eqn:F.
  - rewrite add_undefined_found.
    + apply IH. intros o' file' n Ho. apply H. right. exact Ho.
    + intros n Hn. apply (H o file n); [left; reflexivity | exact F | exact Hn].
  - apply IH. intros o' file' n Ho. apply H. right. exact Ho.
Qed.

End Libraries.

(** The chain "main needs a, a needs b, b needs c": the library holds b, c,
    a and an object nothing needs, in this order; three turns load a, b and
    c, each once, and a fourth finds nothing undefined. *)
Lemma library_chain_example :
  let lib :=
    Toolchain.object_file [" xdef _b"; " xref _c"; "_b: call _c"; " ret"]
    ++ Toolchain.object_file [" xdef _c"; "_c: ret"]
    ++ Toolchain.object_file [" xdef _a"; " xref _b"; "_a: call _b"; " ret"]
    ++ Toolchain.object_file [" xdef _unused"; "_unused: ret"] in
  let fs :=
    Toolchain.files
      [("main.o", Toolchain.object_file [" xref _a"; " call _a"; " ret"]);
       ("libc.a", lib)] in
  exists ls ls',
    load_inputs fs [InObject "main.o"; InLibrary "libc.a"] (linker_init 0x40000) = (0, ls)
    /\ process_libraries fs ls = Some ([(0, 2); (0, 0); (0, 1)]%nat, ls')
    /\ map (fun o => lo_loaded o) (flat_map lib_objects (libraries ls'))
       = [true; true; true; false]
    /\ List.length (objects ls') = 4%nat
    /\ process_libraries fs ls' = Some ([], ls').
Proof.
  intros lib fs. eexists. eexists.
  split; [vm_compute; reflexivity |].
  split; [vm_compute; reflexivity |].
  split; [reflexivity |].
  split; [reflexivity |].
  vm_compute. reflexivity.
Qed.

(** C6. On every file system and every linker state [process_libraries]
    returns. The objects it loads were not loaded before and are loaded
    after, and none is loaded twice: the log of the positions (library,
    object) loaded has no duplicate, and is no longer than the number of
    objects not yet loaded. A loaded object stays loaded. A turn that loads
    nothing ends the loop, and so does a turn that finds nothing undefined.
    When every external name of every loaded object is already a global
    symbol, nothing is loaded and the state is unchanged. The bound on the
    turns of the loop plays no part: with any bound above the number of
    objects not yet loaded the loop gives the same log and the same
    state. *)
Theorem C6_library_loading_terminates :
  forall (fs : string -> option (list Z)) (ls : LinkerState),
    exists log ls',
      process_libraries fs ls = Some (log, ls')
      /\ NoDup log
      /\ (forall i j, In (i, j) log ->
            is_loaded (libraries ls) i j = false /\ is_loaded (libraries ls') i j = true)
      /\ (forall i j, is_loaded (libraries ls) i j = true ->
            is_loaded (libraries ls') i j = true)
      /\ (List.length log <= unloaded_objects (libraries ls))%nat
      /\ (forall fuel ls1,
            library_pass fs ls = Some ([], ls1) ->
            library_loop fs (S fuel) ls = Some ([], ls1))
      /\ (forall fuel,
            library_pass fs ls = None -> library_loop fs (S fuel) ls = Some ([], ls))
      /\ (forall fuel,
            num_libraries ls <> 0 ->
            (unloaded_objects (libraries ls) < fuel)%nat ->
            library_loop fs fuel ls = Some (log, ls'))
      /\ (closed fs ls -> log = [] /\ ls' = ls).
Proof.
  intros fs ls.
  assert (Stop : (forall fuel ls1,
                     library_pass fs ls = Some ([], ls1) ->
                     library_loop fs (S fuel) ls = Some ([], ls1))
                 /\ (forall fuel,
                        library_pass fs ls = None ->
                        library_loop fs (S fuel) ls = Some ([], ls))).
  { split; intros; cbn [library_loop]; rewrite H; reflexivity. }
  assert (Closed : closed fs ls -> library_pass fs ls = None).
  { intros C. unfold library_pass. rewrite collect_undefined_closed; [reflexivity |].
    intros o file n Ho Hf Hn. apply (C o file n Ho Hf Hn). }
  unfold process_libraries.
  destruct (num_libraries ls =? 0) eqn:N.
  - exists [], ls. split; [reflexivity |]. split; [constructor |].
    split; [intros i j [] |]. split; [auto |]. split; [simpl; lia |].
    split; [apply Stop |]. split; [apply Stop |].
    split; [intros fuel H; apply Z.eqb_eq in N; contradiction | auto].
  - destruct (library_loop_spec fs (S (unloaded_objects (libraries ls))) ls)
      as (log & ls' & L & D & I & M & U); [lia |].
    exists log, ls'. split; [exact L |]. split; [exact D |].
    split; [exact I |]. split; [exact M |]. split; [lia |].
    split; [apply Stop |]. split; [apply Stop |].
    split.
    + intros fuel _ Hf.
      destruct (library_loop_spec fs fuel ls Hf) as (log2 & ls2 & L2 & _).
      destruct (Nat.le_ge_cases fuel (S (unloaded_objects (libraries ls)))) as [Le | Ge].
      * rewrite (library_loop_more_fuel fs _ _ _ _ L2 Le) in L. rewrite L2. exact L.
      * apply (library_loop_more_fuel fs _ _ _ _ L Ge).
    + intros C. destruct Stop as (_ & S2).
      rewrite (S2 _ (Closed C)) in L. inversion L. split; reflexivity.
Qed.

(** ** A program assembled and linked

    [main.o] calls [_a] and holds a pointer to itself in its data; the
    library gives [_a], [_b] and [_c]. The image at 40000h: the four code
    sections in loading order with the three calls patched to 40005h,
    4000Ah and 4000Fh, then the datum patched to its own address 40010h. *)
Lemma link_example :
  let lib :=
    Toolchain.object_file [" xdef _b"; " xref _c"; "_b: call _c"; " ret"]
    ++ Toolchain.object_file [" xdef _c"; "_c: ret"]
    ++ Toolchain.object_file [" xdef _a"; " xref _b"; "_a: call _b"; " ret"]
    ++ Toolchain.object_file [" xdef _unused"; "_unused: ret"] in
  let fs :=
    Toolchain.files
      [("main.o",
        Toolchain.object_file
          [" xref _a"; " call _a"; " ret"; " section data"; "p: dl p"]);
       ("libc.a", lib)] in
  option_map (fun r => (fst (fst r), errors (snd (fst r)), snd r))
    (link fs 0x40000 [InObject "main.o"; InLibrary "libc.a"])
  = Some (0, 0,
          Some [0xCD; 0x05; 0x00; 0x04; 0xC9;
                0xCD; 0x0A; 0x00; 0x04; 0xC9;
                0xCD; 0x0F; 0x00; 0x04; 0xC9;
                0xC9;
                0x10; 0x00; 0x04]).
Proof.
  intros lib fs. vm_compute. reflexivity.
Qed.

End LinkerSpec.
(** * Further facts about strings, tables and the object format *)

Module MoreFacts.

Import Notions.

(** ** 24-bit fields *)

Lemma land_255_mod : forall v, Z.land v 255 = v mod 256.
Proof. intros v. change 255 with (Z.ones 8). rewrite Z.land_ones by lia. reflexivity. Qed.

Lemma uint8_byte : forall v, uint8 (Z.land v 255) = Z.land v 255.
Proof.
  intros v. unfold uint8. rewrite land_255_mod. apply Z.mod_mod. lia.
Qed.

Lemma READ24_WRITE24 :
  forall v,
    READ24 (Z.land v 255) (Z.land (Z.shiftr v 8) 255) (Z.land (Z.shiftr v 16) 255)
    = uint24 v.
Proof.
  intros v. unfold READ24, uint24.
  change 16777216 with (2 ^ 24). rewrite <- Z.land_ones by lia.
  change 255 with (Z.ones 8).
  apply Z.bits_inj'. intros n Hn.
  rewrite !Z.lor_spec, !Z.land_spec.
  destruct (Z.ltb_spec n 8) as [L8 | G8].
  - rewrite (Z.shiftl_spec_low _ 8 n) by lia.
    rewrite (Z.shiftl_spec_low _ 16 n) by lia.
    rewrite !Z.ones_spec_low by lia. rewrite !andb_true_r, !orb_false_r. reflexivity.
  - rewrite (Z.ones_spec_high 8 n) by lia. rewrite andb_false_r. cbn [orb].
    destruct (Z.ltb_spec n 16) as [L16 | G16].
    + rewrite (Z.shiftl_spec_low _ 16 n) by lia.
      rewrite Z.shiftl_spec by lia. rewrite Z.land_spec, Z.shiftr_spec by lia.
      rewrite (Z.ones_spec_low 8 (n - 8)) by lia.
      rewrite (Z.ones_spec_low 24 n) by lia.
      replace (n - 8 + 8) with n by lia. rewrite !andb_true_r, orb_false_r. reflexivity.
    + rewrite (Z.shiftl_spec _ 8 n) by lia. rewrite Z.land_spec.
      rewrite (Z.ones_spec_high 8 (n - 8)) by lia. rewrite andb_false_r. cbn [orb].
      rewrite Z.shiftl_spec by lia. rewrite Z.land_spec, Z.shiftr_spec by lia.
      replace (n - 16 + 16) with n by lia.
      destruct (Z.ltb_spec n 24) as [L24 | G24].
      * rewrite (Z.ones_spec_low 8 (n - 16)) by lia.
        rewrite (Z.ones_spec_low 24 n) by lia. reflexivity.
      * rewrite (Z.ones_spec_high 8 (n - 16)) by lia.
        rewrite (Z.ones_spec_high 24 n) by lia. reflexivity.
Qed.

Lemma byte_at_app :
  forall (pre l : list Z) (k : nat),
    Linker.byte_at (pre ++ l) (List.length pre + k) = Linker.byte_at l k.
Proof.
  intros pre l k. unfold Linker.byte_at. f_equal.
  rewrite app_nth2 by lia. f_equal. lia.
Qed.

Lemma read24_WRITE24_at :
  forall (pre post : list Z) (v : Z),
    Linker.read24 (pre ++ WRITE24 v ++ post) (List.length pre) = uint24 v.
Proof.
  intros pre post v. unfold Linker.read24.
  rewrite <- (Nat.add_0_r (List.length pre)) at 1.
  rewrite !byte_at_app. unfold Linker.byte_at, WRITE24. cbn [app nth].
  change (uint8 (Z.land ?x 255)) with (uint8 (Z.land x 255)).
  rewrite !uint8_byte. apply READ24_WRITE24.
Qed.

Lemma byte_at_app_l :
  forall (l rest : list Z) (i : nat),
    (i < List.length l)%nat -> Linker.byte_at (l ++ rest) i = Linker.byte_at l i.
Proof. intros l rest i H. unfold Linker.byte_at. rewrite app_nth1 by exact H. reflexivity. Qed.

Lemma read24_app_l :
  forall (l rest : list Z) (i : nat),
    (i + 2 < List.length l)%nat -> Linker.read24 (l ++ rest) i = Linker.read24 l i.
Proof.
  intros l rest i H. unfold Linker.read24. rewrite !byte_at_app_l by lia. reflexivity.
Qed.

(** ** String comparison and binary search *)

Lemma chr_inj : forall a b, chr a = chr b -> a = b.
Proof.
  intros a b H. unfold chr in H. apply N2Z.inj in H.
  rewrite <- (ascii_N_embedding a), <- (ascii_N_embedding b). rewrite H. reflexivity.
Qed.

Lemma strcmp_refl : forall a, strcmp a a = Eq.
Proof.
  induction a as [| c a IH]; simpl; [reflexivity |]. rewrite Z.compare_refl. exact IH.
Qed.

Lemma strcmp_eq : forall a b, strcmp a b = Eq -> a = b.
Proof.
  induction a as [| x a IH]; intros [| y b] H; simpl in H; try discriminate; [reflexivity |].
  destruct (chr x ?= chr y) eqn:E; try discriminate.
  apply Z.compare_eq in E. apply chr_inj in E. subst y. f_equal. apply IH, H.
Qed.

Lemma strcmp_antisym : forall a b, strcmp b a = CompOpp (strcmp a b).
Proof.
  induction a as [| x a IH]; intros [| y b]; simpl; try reflexivity.
  rewrite (Z.compare_antisym (chr x) (chr y)).
  destruct (chr x ?= chr y); simpl; [apply IH | reflexivity | reflexivity].
Qed.

Lemma strcmp_trans :
  forall a b c, strcmp a b = Lt -> strcmp b c = Lt -> strcmp a c = Lt.
Proof.
  induction a as [| x a IH]; intros [| y b] [| z c] H1 H2; simpl in *;
    try discriminate; try reflexivity.
  destruct (chr x ?= chr y) eqn:E1; try discriminate;
    destruct (chr y ?= chr z) eqn:E2; try discriminate.
  - apply Z.compare_eq in E1, E2. rewrite E1, E2, Z.compare_refl. eapply IH; eauto.
  - apply Z.compare_eq in E1. rewrite E1, E2. reflexivity.
  - apply Z.compare_eq in E2. rewrite <- E2, E1. reflexivity.
  - assert (L : (chr x ?= chr z) = Lt).
    { rewrite Z.compare_lt_iff in *. lia. }
    rewrite L. reflexivity.
Qed.

Lemma strictly_sorted_tail :
  forall a r, strictly_sorted (a :: r) = true -> strictly_sorted r = true.
Proof.
  intros a [| b r] H; [reflexivity |]. cbn [strictly_sorted] in H.
  destruct (strcmp a b); try discriminate. exact H.
Qed.

Lemma strictly_sorted_head :
  forall a r k, strictly_sorted (a :: r) = true -> In k r -> strcmp a k = Lt.
Proof.
  intros a r. revert a. induction r as [| b r IH]; intros a k H I; [destruct I |].
  destruct I as [E | I].
  - subst k. cbn [strictly_sorted] in H. destruct (strcmp a b); try discriminate. reflexivity.
  - assert (Hab : strcmp a b = Lt).
    { cbn [strictly_sorted] in H. destruct (strcmp a b); try discriminate. reflexivity. }
    eapply strcmp_trans; [exact Hab |].
    apply IH; [| exact I]. eapply strictly_sorted_tail, H.
Qed.

Lemma strictly_sorted_nth :
  forall keys i j a b,
    strictly_sorted keys = true -> (i < j)%nat ->
    nth_error keys i = Some a -> nth_error keys j = Some b -> strcmp a b = Lt.
Proof.
  induction keys as [| k keys IH]; intros i j a b S L Hi Hj.
  - destruct i; discriminate.
  - destruct j as [| j]; [lia |]. destruct i as [| i].
    + injection Hi as <-. eapply strictly_sorted_head; [exact S |].
      eapply nth_error_In, Hj.
    + eapply (IH i j); eauto; [eapply strictly_sorted_tail, S | lia].
Qed.

Section Bsearch.

Context {A : Type}.
Variable key : A -> string.
Variable tbl : list A.

Lemma bsearch_sound :
  forall fuel k lo hi i e,
    0 <= lo ->
    bsearch fuel key tbl k lo hi = Some (i, e) ->
    lo <= i <= hi /\ nth_error tbl (Z.to_nat i) = Some e /\ key e = k.
Proof.
  induction fuel as [| f IH]; intros k lo hi i e L H; simpl in H; [discriminate |].
  destruct (Z.leb_spec lo hi) as [Le | Gt]; [| discriminate].
  assert (M : lo <= (lo + hi) / 2 <= hi).
  { split; [apply Z.div_le_lower_bound | apply Z.div_le_upper_bound]; lia. }
  destruct (nth_error tbl (Z.to_nat ((lo + hi) / 2))) as [e' |] eqn:N; [| discriminate].
  destruct (strcmp k (key e')) eqn:C.
  - injection H as <- <-. apply strcmp_eq in C. auto.
  - apply IH in H; [| lia]. intuition lia.
  - apply IH in H; [| lia]. intuition lia.
Qed.

Hypothesis sorted : strictly_sorted (map key tbl) = true.

Lemma key_order :
  forall i j a b,
    (i < j)%nat -> nth_error tbl i = Some a -> nth_error tbl j = Some b ->
    strcmp (key a) (key b) = Lt.
Proof.
  intros i j a b L Hi Hj.
  apply (strictly_sorted_nth (map key tbl) i j); auto.
  - rewrite nth_error_map, Hi. reflexivity.
  - rewrite nth_error_map, Hj. reflexivity.
Qed.

Lemma bsearch_complete :
  forall fuel t e lo hi,
    nth_error tbl t = Some e ->
    0 <= lo <= Z.of_nat t -> Z.of_nat t <= hi < Z.of_nat (List.length tbl) ->
    hi - lo < Z.of_nat fuel ->
    bsearch fuel key tbl (key e) lo hi = Some (Z.of_nat t, e).
Proof.
  induction fuel as [| f IH]; intros t e lo hi N L Hh F; [lia |].
  simpl. destruct (Z.leb_spec lo hi) as [Le | Gt]; [| lia].
  assert (M : lo <= (lo + hi) / 2 <= hi).
  { split; [apply Z.div_le_lower_bound | apply Z.div_le_upper_bound]; lia. }
  destruct (nth_error tbl (Z.to_nat ((lo + hi) / 2))) as [e' |] eqn:N'.
  2:{ apply nth_error_None in N'. lia. }
  destruct (Z.compare_spec (Z.of_nat t) ((lo + hi) / 2)) as [E | Lt | Gt].
  - rewrite <- E, Nat2Z.id in N'. rewrite N in N'. injection N' as <-.
    rewrite strcmp_refl. rewrite <- E. reflexivity.
  - rewrite (key_order t (Z.to_nat ((lo + hi) / 2)) e e') by (auto; lia).
    apply IH; auto; lia.
  - assert (G : strcmp (key e) (key e') = Datatypes.Gt).
    { rewrite strcmp_antisym.
      rewrite (key_order (Z.to_nat ((lo + hi) / 2)) t e' e) by (auto; lia). reflexivity. }
    rewrite G. apply IH; auto; lia.
Qed.

Lemma table_lookup_found :
  forall t e, nth_error tbl t = Some e -> table_lookup key tbl (key e) = Some (Z.of_nat t, e).
Proof.
  intros t e N. unfold table_lookup.
  assert (T : (t < List.length tbl)%nat) by (apply nth_error_Some; congruence).
  apply bsearch_complete; auto; lia.
Qed.

End Bsearch.


(** ** C strings *)

Lemma c_str_idem : forall s, c_str (c_str s) = c_str s.
Proof.
  induction s as [| c s IH]; simpl; [reflexivity |].
  destruct (Ascii.eqb c NUL) eqn:E; simpl; [reflexivity |]. rewrite E, IH. reflexivity.
Qed.

Lemma str_take_all :
  forall n s, (String.length s <= n)%nat -> str_take n s = s.
Proof.
  induction n as [| n IH]; intros [| c s] H; simpl in *; try reflexivity; [lia |].
  rewrite IH by lia. reflexivity.
Qed.

Lemma str_copy_short :
  forall name maxlen, strlen name <= maxlen - 1 -> str_copy name maxlen = c_str name.
Proof.
  intros name maxlen H. unfold str_copy. apply str_take_all. unfold strlen in H. lia.
Qed.

Lemma streq_refl : forall s, streq s s = true.
Proof. intros s. unfold streq. rewrite strcmp_refl. reflexivity. Qed.

Lemma streq_c_str : forall a b, streq (c_str a) b = streq a b.
Proof. intros a b. unfold streq. rewrite c_str_idem. reflexivity. Qed.

Lemma streq_eq : forall a b, streq a b = true <-> c_str a = c_str b.
Proof.
  intros a b. unfold streq. split.
  - destruct (strcmp (c_str a) (c_str b)) eqn:E; try discriminate.
    intros _. apply strcmp_eq, E.
  - intros ->. rewrite strcmp_refl. reflexivity.
Qed.

Lemma streq_sym : forall a b, streq a b = streq b a.
Proof.
  intros a b. destruct (streq a b) eqn:E1, (streq b a) eqn:E2; try reflexivity.
  - apply streq_eq in E1. symmetry in E1. apply streq_eq in E1. congruence.
  - apply streq_eq in E2. symmetry in E2. apply streq_eq in E2. congruence.
Qed.

Lemma streq_trans :
  forall a b c, streq a b = true -> streq b c = true -> streq a c = true.
Proof. intros a b c H1 H2. apply streq_eq in H1, H2. apply streq_eq. congruence. Qed.

Lemma c_str_take : forall n s, c_str (str_take n (c_str s)) = str_take n (c_str s).
Proof.
  intros n s. revert n. induction s as [| c s IH]; intros n.
  - destruct n; reflexivity.
  - cbn [c_str]. destruct (Ascii.eqb c NUL) eqn:E; [destruct n; reflexivity |].
    destruct n as [| n]; [reflexivity |]. cbn [str_take c_str]. rewrite E, IH. reflexivity.
Qed.

Lemma length_str_take : forall n s, (String.length (str_take n s) <= n)%nat.
Proof.
  induction n as [| n IH]; intros [| c s]; simpl; try lia. specialize (IH s). lia.
Qed.

Lemma strlen_str_copy :
  forall name maxlen, 1 <= maxlen -> strlen (str_copy name maxlen) <= maxlen - 1.
Proof.
  intros name maxlen H. unfold strlen, str_copy. rewrite c_str_take.
  pose proof (length_str_take (Z.to_nat (maxlen - 1)) (c_str name)). lia.
Qed.


End MoreFacts.

(** * Further properties of the assembler *)

Module AsmMore.

Import Asm ListFacts AsmSpec MoreFacts Notions.

(** ** Tables *)

(** X2. Binary search in a table whose keys are in strictly increasing
    [strcmp] order finds a key exactly when the table has it: it returns
    the index and the entry of that key, and nothing when no entry has the
    key. *)
Theorem X2_binary_search (A : Type) (key : A -> string) (tbl : list A) (k : string)
    (sorted : strictly_sorted (map key tbl) = true) :
  (forall i e,
      table_lookup key tbl k = Some (i, e)
      <-> 0 <= i /\ nth_error tbl (Z.to_nat i) = Some e /\ key e = k)
  /\ (table_lookup key tbl k = None <-> forall e, In e tbl -> key e <> k).
Proof.
  assert (S : forall i e,
             table_lookup key tbl k = Some (i, e)
             <-> 0 <= i /\ nth_error tbl (Z.to_nat i) = Some e /\ key e = k).
  { intros i e. split.
    - intros H. apply bsearch_sound in H; [| lia]. intuition lia.
    - intros [I [N <-]]. rewrite (table_lookup_found key tbl sorted _ _ N).
      rewrite Z2Nat.id by exact I. reflexivity. }
  split; [exact S |]. split.
  - intros N e I E. apply In_nth_error in I. destruct I as [t T].
    rewrite <- E, (table_lookup_found key tbl sorted _ _ T) in N. discriminate.
  - intros N. destruct (table_lookup key tbl k) as [[i e] |] eqn:L; [| reflexivity].
    exfalso.
    destruct (proj1 (S i e) eq_refl) as [_ [T E]]. apply nth_error_In in T.
    exact (N e T E).
Qed.

Lemma X2_binary_search_witness :
  strictly_sorted (map fst Asm.reg_table) = true
  /\ table_lookup fst Asm.reg_table "hl" = Some (10, ("hl", Asm.REG_HL))
  /\ table_lookup fst Asm.reg_table "hx" = None.
Proof.
  split; [reflexivity |].
  pose proof (X2_binary_search _ fst Asm.reg_table "hl" eq_refl) as [F _].
  pose proof (X2_binary_search _ fst Asm.reg_table "hx" eq_refl) as [_ N].
  split.
  - apply F. repeat split. lia.
  - apply N. intros e I E. simpl in I.
    repeat (destruct I as [<- | I]; [discriminate E |]). exact I.
Defined.

(** ** The symbol table *)

Lemma chain_find_app :
  forall h name syms s i,
    chain_find h name (syms ++ [s]) i
    = if (sym_bucket s =? h) && streq (sym_name s) name
      then Some (i + List.length syms)%nat
      else chain_find h name syms i.
Proof.
  intros h name syms s. induction syms as [| x syms IH]; intros i; simpl.
  - rewrite Nat.add_0_r. reflexivity.
  - rewrite IH. destruct ((sym_bucket s =? h) && streq (sym_name s) name).
    + f_equal. lia.
    + reflexivity.
Qed.

Lemma chain_find_keys :
  forall h name syms syms' i,
    map (fun s => (sym_bucket s, sym_name s)) syms
    = map (fun s => (sym_bucket s, sym_name s)) syms' ->
    chain_find h name syms i = chain_find h name syms' i.
Proof.
  intros h name. induction syms as [| x syms IH]; intros [| y syms'] i E;
    simpl in E; try discriminate; [reflexivity |].
  injection E as E1 E2 E3. simpl. rewrite (IH syms' (S i) E3), E1, E2. reflexivity.
Qed.

Lemma chain_find_hit :
  forall h name syms i j,
    chain_find h name syms i = Some j ->
    (i <= j < i + List.length syms)%nat
    /\ exists s, nth_error syms (j - i) = Some s
                 /\ sym_bucket s = h /\ streq (sym_name s) name = true.
Proof.
  intros h name. induction syms as [| x syms IH]; intros i j H; simpl in H; [discriminate |].
  destruct (chain_find h name syms (S i)) as [k |] eqn:E.
  - injection H as <-. apply IH in E. destruct E as [B [s [N P]]].
    split; [simpl; lia |]. exists s. split; [| exact P].
    replace (k - i)%nat with (S (k - S i)) by lia. exact N.
  - destruct ((sym_bucket x =? h) && streq (sym_name x) name) eqn:C; [| discriminate].
    injection H as <-. split; [simpl; lia |]. exists x.
    rewrite Nat.sub_diag. apply andb_prop in C. destruct C as [C1 C2].
    apply Z.eqb_eq in C1. auto.
Qed.

Lemma list_update_keys :
  forall (f : Symbol -> Symbol) i syms,
    (forall s, sym_bucket (f s) = sym_bucket s /\ sym_name (f s) = sym_name s) ->
    map (fun s => (sym_bucket s, sym_name s)) (list_update i f syms)
    = map (fun s => (sym_bucket s, sym_name s)) syms.
Proof.
  intros f i syms Hf. revert i. induction syms as [| x syms IH]; intros [| i]; simpl;
    try reflexivity.
  - destruct (Hf x) as [-> ->]. reflexivity.
  - rewrite IH. reflexivity.
Qed.

Lemma list_update_twice :
  forall (A : Type) (f g : A -> A) i (l : list A),
    list_update i f (list_update i g l) = list_update i (fun x => f (g x)) l.
Proof.
  intros A f g i l. revert i. induction l as [| x l IH]; intros [| i]; simpl;
    try reflexivity. rewrite IH. reflexivity.
Qed.

Lemma list_update_ext :
  forall (A : Type) (f g : A -> A) i (l : list A),
    (forall x, f x = g x) -> list_update i f l = list_update i g l.
Proof.
  intros A f g i l H. revert i. induction l as [| x l IH]; intros [| i]; simpl;
    try reflexivity; [rewrite H | rewrite IH]; reflexivity.
Qed.

Lemma define_at_spec :
  forall i value st,
    fst (define_at i value st) = 0
    /\ symbols (snd (define_at i value st))
       = list_update i (defined_as (pass st) (current_section st) value) (symbols st)
    /\ assembled (set_symbols (symbols st) (snd (define_at i value st))) = assembled st
    /\ errors (snd (define_at i value st)) = errors st.
Proof.
  intros i value st. unfold define_at. cbv zeta. cbn [fst snd].
  split; [reflexivity |].
  unfold update_symbol.
  destruct (pass _ =? 1) eqn:P; cbn in P; rewrite ?P; cbn;
    rewrite !list_update_twice; (split; [apply list_update_ext; intros [n v s f d p1 b];
      unfold defined_as; cbn; rewrite ?P; reflexivity |]);
    destruct st; split; reflexivity.
Qed.

Lemma symbol_find_hit :
  forall st name i,
    symbol_find st name = Some i ->
    (i < List.length (symbols st))%nat
    /\ streq (sym_name (get_symbol st i)) name = true.
Proof.
  intros st name i H. unfold symbol_find in H. apply chain_find_hit in H.
  destruct H as [B [s [N [_ E]]]]. rewrite Nat.sub_0_r in N. split; [lia |].
  unfold get_symbol. rewrite (nth_error_nth _ _ _ N). exact E.
Qed.

Lemma symbol_find_update :
  forall st name i f,
    (forall s, sym_bucket (f s) = sym_bucket s /\ sym_name (f s) = sym_name s) ->
    chain_find (symbol_hash name) name (list_update i f (symbols st)) 0
    = symbol_find st name.
Proof.
  intros st name i f Hf. unfold symbol_find. apply chain_find_keys, list_update_keys, Hf.
Qed.

Lemma list_update_last :
  forall (A : Type) (f : A -> A) (l : list A) (x : A),
    list_update (List.length l) f (l ++ [x]) = l ++ [f x].
Proof.
  intros A f l x. induction l as [| y l IH]; simpl; [reflexivity |].
  rewrite IH. reflexivity.
Qed.

Lemma symbol_named_as :
  forall st st' name,
    symbols st' = symbols st -> symbol_named st' name = symbol_named st name.
Proof.
  intros st st' name E. unfold symbol_named, symbol_find, get_symbol. rewrite E.
  reflexivity.
Qed.

(** The lookups after the record at [i], found under [name], is rewritten
    by [f], which keeps its name and bucket. *)
Lemma lookup_after_update :
  forall st st' name i f,
    symbol_find st name = Some i ->
    symbols st' = list_update i f (symbols st) ->
    (forall s, sym_bucket (f s) = sym_bucket s /\ sym_name (f s) = sym_name s) ->
    symbol_named st' name = Some (f (get_symbol st i))
    /\ forall other, streq other name = false ->
         symbol_named st' other = symbol_named st other.
Proof.
  intros st st' name i f F E Hf.
  destruct (symbol_find_hit _ _ _ F) as [B N].
  assert (L : forall n, symbol_find st' n = symbol_find st n).
  { intros n. unfold symbol_find at 1. rewrite E. apply symbol_find_update, Hf. }
  split.
  - unfold symbol_named. rewrite L, F. f_equal. unfold get_symbol. rewrite E.
    apply nth_list_update_same, B.
  - intros other O. unfold symbol_named. rewrite L.
    destruct (symbol_find st other) as [j |] eqn:J; [| reflexivity].
    f_equal. unfold get_symbol. rewrite E.
    apply LinkerSpec.nth_list_update_other. intros ->.
    destruct (symbol_find_hit _ _ _ J) as [_ N'].
    assert (T : streq other name = true).
    { apply (streq_trans _ (sym_name (get_symbol st j))); [| exact N].
      rewrite streq_sym. exact N'. }
    congruence.
Qed.

(** The lookups after a record for the new name [name] is appended. *)
Lemma lookup_after_add :
  forall st st' name s,
    strlen name <= MAX_LABEL_LEN - 1 ->
    symbols st' = symbols st ++ [s] ->
    sym_name s = str_copy name MAX_LABEL_LEN -> sym_bucket s = symbol_hash name ->
    symbol_named st' name = Some s
    /\ forall other, streq other name = false ->
         symbol_named st' other = symbol_named st other.
Proof.
  intros st st' name s Len E Hn Hb.
  assert (N : sym_name s = c_str name) by (rewrite Hn; apply str_copy_short, Len).
  split.
  - unfold symbol_named, symbol_find. rewrite E, chain_find_app, Hb, Z.eqb_refl, N.
    rewrite streq_c_str, streq_refl. cbn [andb]. f_equal.
    unfold get_symbol. rewrite E, app_nth2 by lia.
    replace (0 + _ - _)%nat with 0%nat by lia. reflexivity.
  - intros other O. unfold symbol_named, symbol_find.
    rewrite E, chain_find_app, N, streq_c_str, streq_sym, O, andb_false_r.
    fold (symbol_find st other).
    destruct (symbol_find st other) as [j |] eqn:J; [| reflexivity].
    f_equal. unfold get_symbol. rewrite E.
    apply app_nth1. apply symbol_find_hit in J. apply J.
Qed.

Lemma defined_as_keys :
  forall p sect v s,
    sym_bucket (defined_as p sect v s) = sym_bucket s
    /\ sym_name (defined_as p sect v s) = sym_name s.
Proof. intros p sect v s. split; reflexivity. Qed.

Lemma define_at_pass :
  forall i v st, pass (snd (define_at i v st)) = pass st.
Proof.
  intros i v st. unfold define_at, update_symbol. cbv zeta. cbn [snd].
  match goal with |- context [if ?c then _ else _] => destruct c end; reflexivity.
Qed.

Lemma symbol_define_pass :
  forall name v st, pass (snd (symbol_define name v st)) = pass st.
Proof.
  intros name v st. unfold symbol_define.
  destruct (symbol_find st name) as [i |].
  - repeat break_if; try reflexivity. apply define_at_pass.
  - unfold symbol_add. destruct (_ >=? _); [reflexivity |]. rewrite define_at_pass.
    reflexivity.
Qed.

(** The lookups after a definition that succeeds. *)
Lemma symbol_define_defines (name : string) (v : Z) (st : AsmState)
    (Hlen : strlen name <= MAX_LABEL_LEN - 1)
    (Hok : fst (symbol_define name v st) = 0) :
  (exists s,
      symbol_named (snd (symbol_define name v st)) name = Some s
      /\ sym_value s = uint24 v /\ sym_defined s = true
      /\ sym_section s = current_section st)
  /\ (forall other, streq other name = false ->
        symbol_named (snd (symbol_define name v st)) other = symbol_named st other)
  /\ errors (snd (symbol_define name v st)) = errors st.
Proof.
  unfold symbol_define in *.
  destruct (symbol_find st name) as [i |] eqn:F.
  - destruct (sym_defined (get_symbol st i) && (pass st =? 1)); [discriminate Hok |].
    destruct (sym_flags (get_symbol st i) =? SYM_EXTERN); [discriminate Hok |].
    destruct (define_at_spec i v st) as [_ [S [_ Er]]].
    destruct (lookup_after_update st _ name i _ F S (defined_as_keys _ _ _)) as [L1 L2].
    split; [| split; [exact L2 | exact Er]].
    eexists. split; [exact L1 |]. repeat split.
  - unfold symbol_add in *.
    destruct (num_symbols st >=? MAX_SYMBOLS); [discriminate Hok |].
    match goal with
    | |- context [define_at ?n v ?s1] =>
        destruct (define_at_spec n v s1) as [_ [S [_ Er]]]
    end.
    cbn [symbols set_symbols] in S. rewrite list_update_last in S.
    match type of S with
    | _ = _ ++ [?s] =>
        destruct (lookup_after_add st _ name s Hlen S eq_refl eq_refl) as [L1 L2]
    end.
    split; [| split; [exact L2 | exact Er]].
    eexists. split; [exact L1 |]. repeat split.
Qed.

(** X3. A definition that succeeds can be looked up: for a name of at most
    63 characters, when [symbol_define] returns 0 the symbol found under
    that name holds the value as a 24-bit number, is marked defined and
    lies in the current section; the lookup of every other name gives what
    it gave before, and no error is reported. *)
Theorem X3_symbol_define_round_trip (name : string) (v : Z) (st : AsmState)
    (Hlen : strlen name <= MAX_LABEL_LEN - 1)
    (Hok : fst (symbol_define name v st) = 0) :
  (exists s,
      symbol_named (snd (symbol_define name v st)) name = Some s
      /\ sym_value s = uint24 v /\ sym_defined s = true
      /\ sym_section s = current_section st)
  /\ (forall other, streq other name = false ->
        symbol_named (snd (symbol_define name v st)) other = symbol_named st other)
  /\ errors (snd (symbol_define name v st)) = errors st.
Proof. exact (symbol_define_defines name v st Hlen Hok). Qed.

Lemma X3_symbol_define_witness :
  exists s,
    symbol_named (snd (symbol_define "start" 0x40000 asm_init)) "start" = Some s
    /\ sym_value s = 0x40000 /\ sym_defined s = true /\ sym_section s = SECT_CODE.
Proof.
  destruct (X3_symbol_define_round_trip "start" 0x40000 asm_init) as [H _].
  - vm_compute. discriminate.
  - reflexivity.
  - exact H.
Defined.

(** ** The list of externals *)

Lemma index_of_listed :
  forall p l i, existsb p l = true -> i <= index_of p l i < i + Z.of_nat (List.length l).
Proof.
  intros p. induction l as [| e l IH]; intros i H; simpl in *; [discriminate |].
  destruct (p e); [lia |]. simpl in H. specialize (IH (i + 1) H). lia.
Qed.

Lemma index_of_app :
  forall p l x i,
    existsb p l = true -> index_of p (l ++ [x]) i = index_of p l i.
Proof.
  intros p. induction l as [| e l IH]; intros x i H; simpl in *; [discriminate |].
  destruct (p e); [reflexivity |]. simpl in H. apply IH, H.
Qed.

Lemma index_of_new :
  forall p l x i,
    existsb p l = false -> p x = true ->
    index_of p (l ++ [x]) i = i + Z.of_nat (List.length l).
Proof.
  intros p. induction l as [| e l IH]; intros x i H Hx; simpl in *.
  - rewrite Hx. lia.
  - destruct (p e); [discriminate |]. simpl in H. rewrite IH by assumption. lia.
Qed.

Lemma existsb_streq_sym :
  forall name l,
    existsb (fun e => streq e name) l = existsb (fun e => streq name e) l.
Proof.
  intros name l. induction l as [| e l IH]; simpl; [reflexivity |].
  rewrite IH, (streq_sym e name). reflexivity.
Qed.

(** What [mark_extern] does to the list of externals. *)
Lemma mark_extern_externs :
  forall i name st,
    fst (mark_extern i name st) = 0
    /\ errors (snd (mark_extern i name st)) = errors st
    /\ externs (snd (mark_extern i name st))
       = if symbol_is_extern st name then externs st
         else if num_externs st <? MAX_EXTERNS
              then externs st ++ [str_copy name MAX_LABEL_LEN]
              else externs st.
Proof.
  intros i name st. unfold mark_extern, symbol_is_extern. cbv zeta.
  rewrite existsb_streq_sym. cbn [externs update_symbol set_symbols].
  replace (externs (update_symbol i (set_sym_flags SYM_EXTERN) st)) with (externs st)
    by reflexivity.
  replace (num_externs (update_symbol i (set_sym_flags SYM_EXTERN) st))
    with (num_externs st) by reflexivity.
  destruct (existsb _ (externs st)); [repeat split |].
  destruct (num_externs st <? MAX_EXTERNS); repeat split.
Qed.

Lemma symbol_add_externs :
  forall name st, externs (snd (symbol_add name st)) = externs st.
Proof.
  intros name st. unfold symbol_add. destruct (_ >=? _); reflexivity.
Qed.

(** The list of externals after [symbol_set_extern]: the name is appended
    when the call succeeds, the name is not listed and the list has room. *)
Lemma symbol_set_extern_externs :
  forall name st,
    externs (snd (symbol_set_extern name st))
    = if (fst (symbol_set_extern name st) =? 0) && negb (symbol_is_extern st name)
         && (num_externs st <? MAX_EXTERNS)
      then externs st ++ [str_copy name MAX_LABEL_LEN]
      else externs st.
Proof.
  intros name st. unfold symbol_set_extern.
  assert (M : forall i s, externs s = externs st ->
                externs (snd (mark_extern i name s))
                = if (fst (mark_extern i name s) =? 0) && negb (symbol_is_extern st name)
                     && (num_externs st <? MAX_EXTERNS)
                  then externs st ++ [str_copy name MAX_LABEL_LEN]
                  else externs st).
  { intros i s E. destruct (mark_extern_externs i name s) as [R [_ X]].
    rewrite R, X. unfold symbol_is_extern, num_externs. rewrite E.
    destruct (existsb _ (externs st)); [reflexivity |].
    destruct (_ <? _); reflexivity. }
  destruct (symbol_find st name) as [i |].
  - destruct (sym_defined _); [reflexivity | apply M; reflexivity].
  - pose proof (symbol_add_externs name st) as A.
    destruct (symbol_add name st) as [[i |] st1]; cbn [snd] in A.
    + apply M, A.
    + exact A.
Qed.

(** X5. Round trip of a declaration of an external. While the list has
    room for it, a name of at most 63 characters that [symbol_set_extern]
    accepts is listed as external afterwards with an index below the
    count; a name that was listed before keeps its index, whatever is
    declared; and declaring a listed name again leaves the list as it
    is. *)
Theorem X5_extern_declaration_round_trip (name : string) (st : AsmState) :
  (strlen name <= MAX_LABEL_LEN - 1 ->
   fst (symbol_set_extern name st) = 0 ->
   symbol_is_extern st name = true \/ num_externs st < MAX_EXTERNS ->
   symbol_is_extern (snd (symbol_set_extern name st)) name = true
   /\ 0 <= symbol_extern_index (snd (symbol_set_extern name st)) name
        < num_externs (snd (symbol_set_extern name st)))
  /\ (forall other,
        symbol_is_extern st other = true ->
        symbol_extern_index (snd (symbol_set_extern name st)) other
        = symbol_extern_index st other)
  /\ (symbol_is_extern st name = true ->
      externs (snd (symbol_set_extern name st)) = externs st).
Proof.
  pose proof (symbol_set_extern_externs name st) as E.
  split; [| split].
  - intros Len Ok Room. rewrite Ok in E. cbn [Z.eqb andb] in E.
    assert (L : symbol_is_extern (snd (symbol_set_extern name st)) name = true).
    { unfold symbol_is_extern at 1. rewrite E.
      destruct (symbol_is_extern st name) eqn:L; [exact L |].
      destruct Room as [Room | Room]; [discriminate |].
      apply Z.ltb_lt in Room. rewrite Room. cbn [negb andb].
      rewrite existsb_app. cbn [existsb].
      rewrite (str_copy_short _ _ Len), streq_sym, streq_c_str, streq_refl.
      apply orb_true_iff. right. reflexivity. }
    split; [exact L |].
    apply (index_of_listed _ _ 0) in L.
    unfold symbol_extern_index, num_externs. lia.
  - intros other L. unfold symbol_extern_index. rewrite E.
    destruct (_ && _); [| reflexivity]. apply index_of_app, L.
  - intros L. rewrite E, L, andb_false_r. reflexivity.
Qed.

Lemma X5_extern_declaration_witness :
  symbol_is_extern (snd (symbol_set_extern "puts" asm_init)) "puts" = true
  /\ 0 <= symbol_extern_index (snd (symbol_set_extern "puts" asm_init)) "puts"
       < num_externs (snd (symbol_set_extern "puts" asm_init)).
Proof.
  apply (X5_extern_declaration_round_trip "puts" asm_init).
  - vm_compute. discriminate.
  - reflexivity.
  - right. reflexivity.
Defined.

(** ** Properties every line keeps *)

Lemma kept_assembled :
  forall st st', assembled st = assembled st' -> kept st = kept st'.
Proof. intros st st' H. unfold assembled in H. unfold kept. congruence. Qed.

Lemma kept_lexer_next : forall st, kept (lexer_next st) = kept st.
Proof.
  intros st. symmetry. apply kept_assembled. symmetry. apply assembled_lexer_next.
Qed.

Lemma kept_lexer_peek : forall st, kept (lexer_peek st) = kept st.
Proof.
  intros st. symmetry. apply kept_assembled. symmetry. apply assembled_lexer_peek.
Qed.

Section Invariants.

Variable Inv : AsmState -> Prop.

Hypothesis Inv_kept : forall st st', kept st = kept st' -> Inv st -> Inv st'.
Hypothesis Inv_emit_byte : forall b st, Inv st -> Inv (emit_byte b st).
Hypothesis Inv_emit_reloc : forall t s st, Inv st -> Inv (emit_reloc t s st).
Hypothesis Inv_define : forall name v st, Inv st -> Inv (snd (symbol_define name v st)).
Hypothesis Inv_export : forall name st, Inv st -> Inv (snd (symbol_set_export name st)).
Hypothesis Inv_extern : forall name st, Inv st -> Inv (snd (symbol_set_extern name st)).

Lemma Inv_emission : forall st st', emission st st' -> Inv st -> Inv st'.
Proof.
  intros st st' H. induction H as [st | st st1 st' H IH E | st st1 b H IH | st st1 t s H IH];
    intros I; auto.
  apply (Inv_kept st1); [apply kept_assembled, E | auto].
Qed.

Lemma keeps_emitting : forall (A : Type) (m : M A), EmittingM m -> keeps Inv m.
Proof. intros A m Hm st r st' H. apply Inv_emission. eapply Hm, H. Qed.

Lemma Inv_lexer_next : forall st, Inv st -> Inv (lexer_next st).
Proof. intros st. apply Inv_kept. symmetry. apply kept_lexer_next. Qed.

Lemma Inv_lexer_peek : forall st, Inv st -> Inv (lexer_peek st).
Proof. intros st. apply Inv_kept. symmetry. apply kept_lexer_peek. Qed.

Lemma keeps_return : forall (A : Type) (x : A), keeps Inv (ret x).
Proof. intros A x st r st' H. inversion H; subst. auto. Qed.

Lemma keeps_then :
  forall (A B : Type) (m : M A) (k : A -> M B),
    keeps Inv m -> (forall x, keeps Inv (k x)) -> keeps Inv (bind m k).
Proof.
  intros A B m k Hm Hk st r st' H Hst. unfold bind in H.
  destruct (m st) as [[x st1] |] eqn:E; [| discriminate].
  eapply Hk; [exact H |]. eapply Hm; [exact E | exact Hst].
Qed.

Lemma keeps_lexing : keeps Inv lex.
Proof. apply keeps_emitting, EmittingM_lex. Qed.

Lemma keeps_expression : keeps Inv parse_expression.
Proof. apply keeps_emitting, EmittingM_parse_expression. Qed.

Lemma keeps_org : keeps Inv dir_org.
Proof.
  unfold dir_org. apply keeps_then; [apply keeps_lexing | intros _].
  apply keeps_then; [apply keeps_expression | intros e].
  destruct (e_has_symbol e).
  - apply keeps_emitting, EmittingM_lift, Emitting_fails.
  - apply keeps_then; [| intros _; apply keeps_return].
    intros st r st' H. inversion H; subst. apply Inv_kept. reflexivity.
Qed.

Lemma keeps_equ : forall label, keeps Inv (dir_equ label).
Proof.
  intros label. unfold dir_equ.
  destruct (Ascii.eqb (deref label) NUL);
    [apply keeps_emitting, EmittingM_lift, Emitting_fails |].
  apply keeps_then; [apply keeps_lexing | intros _].
  apply keeps_then; [apply keeps_expression | intros e].
  intros st r st' H Hst. destruct (_ && _).
  { inversion H; subst. revert Hst. apply Inv_kept. reflexivity. }
  assert (Hs : Inv (set_current_section 0 st)).
  { revert Hst. apply Inv_kept. reflexivity. }
  pose proof (Inv_define label (if e_has_symbol e then 0 else e_value e) _ Hs) as D.
  destruct (symbol_define label _ _) as [r1 st1]. inversion H; subst.
  revert D. apply Inv_kept. reflexivity.
Qed.

Lemma keeps_try_equ : forall label, keeps Inv (try_equ_directive label).
Proof.
  intros label st r st' H Hst. unfold try_equ_directive in H.
  destruct (_ || _); [eapply keeps_equ; eauto |]. inversion H; subst. exact Hst.
Qed.

Lemma keeps_section : keeps Inv dir_section.
Proof.
  unfold dir_section. apply keeps_then; [apply keeps_lexing | intros _].
  intros st r st' H Hst. unfold lift in H. injection H as H.
  apply (f_equal snd) in H. cbn [snd] in H. subst st'.
  destruct (negb _); [revert Hst; apply Inv_kept; reflexivity |]. cbv zeta. cbn [snd].
  apply Inv_lexer_next.
  assert (S1 : kept st = kept (save_section_pc st)).
  { unfold save_section_pc. repeat break_if; reflexivity. }
  revert Hst. apply Inv_kept. rewrite S1. repeat break_if; reflexivity.
Qed.

Lemma keeps_names_loop :
  forall declare msg,
    (forall name st, Inv st -> Inv (snd (declare name st))) ->
    forall n, keeps Inv (dir_names_loop declare msg n).
Proof.
  intros declare msg Hd.
  assert (F : forall m st, Inv st -> Inv (snd (fails m st))).
  { intros m st. apply Inv_kept. reflexivity. }
  induction n as [| n IH]; intros st r st' H Hst; simpl in H.
  - destruct (cur_is TOK_IDENT st); [| inversion H; subst; exact Hst].
    destruct (symbol_is_local _); [inversion H; subst; apply F, Hst |].
    destruct (cur_is TOK_COMMA _); [discriminate |].
    inversion H; subst. apply Inv_lexer_next, Hd, Hst.
  - destruct (cur_is TOK_IDENT st); [| inversion H; subst; exact Hst].
    destruct (symbol_is_local _); [inversion H; subst; apply F, Hst |].
    destruct (cur_is TOK_COMMA _).
    + eapply IH; [exact H |].
      apply Inv_lexer_next, Inv_lexer_next, Hd, Hst.
    + inversion H; subst. apply Inv_lexer_next, Hd, Hst.
Qed.

Lemma keeps_xdef : keeps Inv dir_xdef.
Proof.
  unfold dir_xdef. apply keeps_then; [apply keeps_lexing | intros _].
  intros st r st' H. eapply keeps_names_loop; [| exact H]. apply Inv_export.
Qed.

Lemma keeps_xref : keeps Inv dir_xref.
Proof.
  unfold dir_xref. apply keeps_then; [apply keeps_lexing | intros _].
  intros st r st' H. eapply keeps_names_loop; [| exact H]. apply Inv_extern.
Qed.

Section Files.

Variable fs : string -> option string.

Lemma keeps_include_lines :
  forall asm_line,
    (forall line, keeps Inv (asm_line line)) ->
    forall n fp, keeps Inv (include_loop asm_line n fp).
Proof.
  intros asm_line Hl. induction n as [| n IH]; intros fp st r st' H Hst;
    cbn [include_loop] in H.
  - destruct (fgets 1023 fp) as [[| c l] fp1]; [| discriminate].
    inversion H; subst. exact Hst.
  - destruct (fgets 1023 fp) as [[| c l] fp1]; [inversion H; subst; exact Hst |].
    match type of H with
    | match asm_line ?line ?s with _ => _ end = _ =>
        destruct (asm_line line s) as [[r3 st3] |] eqn:E; [| discriminate];
        assert (Hs : Inv s)
          by (revert Hst; apply Inv_kept; destruct (too_long _ _); reflexivity)
    end.
    eapply IH; [exact H |]. eapply Hl; [exact E | exact Hs].
Qed.

Lemma keeps_include :
  forall asm_line,
    (forall line, keeps Inv (asm_line line)) ->
    keeps Inv (dir_include fs asm_line).
Proof.
  intros asm_line Hl. unfold dir_include. apply keeps_then; [apply keeps_lexing | intros _].
  intros st r st' H Hst.
  destruct (negb _); [inversion H; subst; revert Hst; apply Inv_kept; reflexivity |].
  cbv zeta in H. destruct (fs _) as [content |].
  - destruct (include_loop _ _ _ _) as [[u st2] |] eqn:E; [| discriminate].
    inversion H; subst.
    apply (Inv_kept st2); [reflexivity |].
    apply (keeps_include_lines asm_line Hl _ _ _ _ _ E).
    apply (Inv_kept (lexer_next st)); [reflexivity |].
    apply Inv_lexer_next, Hst.
  - inversion H; subst. apply (Inv_kept (lexer_next st)); [reflexivity |].
    apply Inv_lexer_next, Hst.
Qed.

Lemma keeps_directive :
  forall asm_line name,
    (forall line, keeps Inv (asm_line line)) ->
    keeps Inv (directive_execute fs asm_line name).
Proof.
  intros asm_line name Hl. unfold directive_execute. cbv zeta.
  repeat match goal with
         | |- keeps Inv (if ?c then _ else _) => destruct c
         end.
  - apply keeps_org.
  - apply keeps_emitting, EmittingM_dir_db.
  - apply keeps_emitting, EmittingM_dir_dw.
  - apply keeps_emitting, EmittingM_dir_dl.
  - apply keeps_emitting, EmittingM_dir_ds.
  - apply keeps_section.
  - apply keeps_xdef.
  - apply keeps_xref.
  - apply keeps_return.
  - apply keeps_emitting, EmittingM_dir_align.
  - apply keeps_emitting, EmittingM_dir_ascii.
  - apply keeps_emitting, EmittingM_dir_asciz.
  - apply keeps_emitting, EmittingM_dir_assume.
  - apply keeps_include, Hl.
  - apply keeps_emitting, EmittingM_dir_incbin.
  - apply keeps_return.
Qed.

Lemma Inv_define_label :
  forall label st, Inv st -> Inv (define_label label st).
Proof.
  intros label st H. unfold define_label.
  destruct (is_equ_token st); [exact H |].
  destruct (symbol_is_local label).
  - apply Inv_define, H.
  - cbv zeta.
    apply (Inv_kept (snd (symbol_define label (pc st) st))); [reflexivity |].
    apply Inv_define, H.
Qed.

Lemma Inv_line_label : forall st, Inv st -> Inv (snd (line_label st)).
Proof.
  intros st H. unfold line_label. cbv zeta.
  pose proof (Inv_lexer_peek st H) as P.
  repeat break_if; cbn [snd];
    repeat first [ apply Inv_define_label | apply Inv_lexer_next ];
    assumption.
Qed.

Lemma Inv_fails : forall m st, Inv st -> Inv (snd (fails m st)).
Proof. intros m st. apply Inv_kept. reflexivity. Qed.

Lemma keeps_line_with :
  forall asm_line line,
    (forall l, keeps Inv (asm_line l)) ->
    keeps Inv (asm_line_with fs asm_line line).
Proof.
  intros asm_line line Hl st r st' H Hst. unfold asm_line_with in H. cbv zeta in H.
  assert (H0 : Inv (lexer_next (lexer_init line st))).
  { apply Inv_lexer_next. revert Hst. apply Inv_kept. reflexivity. }
  destruct (at_eol _); [inversion H; subst; exact H0 |].
  pose proof (Inv_line_label _ H0) as H1.
  destruct (line_label _) as [label st1]. cbn [snd] in H1.
  destruct (at_eol st1); [inversion H; subst; exact H1 |].
  destruct (cur_is TOK_EQUALS st1).
  { destruct (Ascii.eqb _ _); [inversion H; subst; apply Inv_fails, H1 |].
    eapply keeps_equ; eauto. }
  destruct (negb _); [inversion H; subst; apply Inv_fails, H1 |].
  destruct (try_equ_directive label st1) as [[r1 st2] |] eqn:E1; [| discriminate].
  pose proof (keeps_try_equ label _ _ _ E1 H1) as H2.
  destruct (r1 =? 0); [inversion H; subst; exact H2 |].
  destruct (instr_execute _ st2) as [[r2 st3] |] eqn:E2; [| discriminate].
  pose proof (keeps_emitting _ _ (EmittingM_instr_execute _) _ _ _ E2 H2) as H3.
  destruct (r2 =? 0); [inversion H; subst; exact H3 |].
  destruct (directive_execute _ _ _ st3) as [[r3 st4] |] eqn:E3; [| discriminate].
  pose proof (keeps_directive _ _ Hl _ _ _ E3 H3) as H4.
  destruct (r3 =? 0); [inversion H; subst; exact H4 |].
  destruct (_ >? _); inversion H; subst; [exact H4 | apply Inv_fails, H4].
Qed.

Lemma keeps_line : forall depth line, keeps Inv (asm_line fs depth line).
Proof.
  induction depth as [| d IH]; intros line; simpl; apply keeps_line_with.
  - intros l st r st' H. discriminate H.
  - exact IH.
Qed.

Lemma keeps_pass_loop :
  forall depth n fp, keeps Inv (asm_pass_loop fs depth n fp).
Proof.
  intros depth. induction n as [| n IH]; intros fp st r st' H Hst;
    cbn [asm_pass_loop] in H.
  - destruct (fgets _ fp) as [[| c l] fp1]; [| discriminate].
    inversion H; subst. exact Hst.
  - destruct (fgets _ fp) as [[| c l] fp1]; [inversion H; subst; exact Hst |].
    match type of H with
    | match asm_line fs depth ?line ?s with _ => _ end = _ =>
        destruct (asm_line fs depth line s) as [[r3 st3] |] eqn:E; [| discriminate];
        assert (Hs : Inv s)
          by (revert Hst; apply Inv_kept; destruct (too_long _ _); reflexivity)
    end.
    eapply IH; [exact H |]. eapply keeps_line; [exact E | exact Hs].
Qed.

Lemma keeps_pass : forall depth fp, keeps Inv (asm_pass fs depth fp).
Proof.
  intros depth fp. unfold asm_pass.
  apply keeps_then.
  - intros st r st' H. inversion H; subst. apply Inv_kept. reflexivity.
  - intros _. apply keeps_then; [apply keeps_pass_loop | intros _].
    intros st r st' H. inversion H; subst. auto.
Qed.

End Files.

End Invariants.

(** ** The tables stay within their arrays *)

Lemma emit_byte_tables :
  forall b st,
    symbols (emit_byte b st) = symbols st /\ externs (emit_byte b st) = externs st.
Proof. intros b st. unfold emit_byte. repeat break_if; split; reflexivity. Qed.

Lemma emit_reloc_tables :
  forall t s st,
    symbols (emit_reloc t s st) = symbols st /\ externs (emit_reloc t s st) = externs st.
Proof. intros t s st. unfold emit_reloc. repeat break_if; split; reflexivity. Qed.

(** What the three operations on symbols do to the tables: a symbol is
    rewritten in place or one is appended while there is room; an external
    is appended while there is room. *)
Lemma symbol_add_tables :
  forall name st,
    externs (snd (symbol_add name st)) = externs st
    /\ (symbols (snd (symbol_add name st)) = symbols st
        \/ (num_symbols st < MAX_SYMBOLS
            /\ exists s, symbols (snd (symbol_add name st)) = symbols st ++ [s]
                         /\ sym_name s = str_copy name MAX_LABEL_LEN)).
Proof.
  intros name st. unfold symbol_add.
  destruct (Z.geb_spec (num_symbols st) MAX_SYMBOLS) as [G | L]; cbn [snd].
  - split; [reflexivity | left; reflexivity].
  - split; [reflexivity | right]. split; [exact L |]. eexists. split; reflexivity.
Qed.

Section Tables.

(** A property of the two tables that rewriting a symbol under its name
    keeps, as does appending a symbol or an external while there is room. *)
Variable P : list Symbol -> list string -> Prop.

Hypothesis P_update :
  forall i f syms exts,
    (forall s, sym_name (f s) = sym_name s) ->
    P syms exts -> P (list_update i f syms) exts.
Hypothesis P_symbol :
  forall name s syms exts,
    Z.of_nat (List.length syms) < MAX_SYMBOLS ->
    sym_name s = str_copy name MAX_LABEL_LEN ->
    P syms exts -> P (syms ++ [s]) exts.
Hypothesis P_extern :
  forall name syms exts,
    Z.of_nat (List.length exts) < MAX_EXTERNS ->
    P syms exts -> P syms (exts ++ [str_copy name MAX_LABEL_LEN]).

Let Inv (st : AsmState) : Prop := P (symbols st) (externs st).

Lemma tables_kept : forall st st', kept st = kept st' -> Inv st -> Inv st'.
Proof.
  intros st st' K. unfold kept in K. unfold Inv.
  replace (symbols st') with (symbols st) by congruence.
  replace (externs st') with (externs st) by congruence. auto.
Qed.

Lemma tables_emit_byte : forall b st, Inv st -> Inv (emit_byte b st).
Proof.
  intros b st. unfold Inv. destruct (emit_byte_tables b st) as [-> ->]. auto.
Qed.

Lemma tables_emit_reloc : forall t s st, Inv st -> Inv (emit_reloc t s st).
Proof.
  intros t s st. unfold Inv. destruct (emit_reloc_tables t s st) as [-> ->]. auto.
Qed.

Lemma tables_symbol_add : forall name st, Inv st -> Inv (snd (symbol_add name st)).
Proof.
  intros name st H. unfold Inv.
  destruct (symbol_add_tables name st) as [-> [-> | [L [s [-> N]]]]]; [exact H |].
  apply (P_symbol name); assumption.
Qed.

Lemma tables_update :
  forall i f st,
    (forall s, sym_name (f s) = sym_name s) -> Inv st -> Inv (update_symbol i f st).
Proof. intros i f st Hf H. unfold Inv, update_symbol. cbn. apply P_update; assumption. Qed.

Lemma tables_asm_error : forall m st, Inv st -> Inv (asm_error m st).
Proof. intros m st H. exact H. Qed.

Lemma tables_define_at : forall i v st, Inv st -> Inv (snd (define_at i v st)).
Proof.
  intros i v st H. unfold Inv.
  destruct (define_at_spec i v st) as [_ [S [A _]]]. rewrite S.
  replace (externs (snd (define_at i v st))) with (externs st).
  - apply P_update; [reflexivity | exact H].
  - unfold define_at, update_symbol. cbv zeta. cbn [snd].
    match goal with |- context [if ?c then _ else _] => destruct c end; reflexivity.
Qed.

Lemma tables_define : forall name v st, Inv st -> Inv (snd (symbol_define name v st)).
Proof.
  intros name v st H. unfold symbol_define.
  destruct (symbol_find st name) as [i |].
  - repeat break_if; [exact H | exact H | apply tables_define_at, H].
  - pose proof (tables_symbol_add name st H) as A.
    destruct (symbol_add name st) as [[i |] st1]; cbn [snd] in *; [| exact A].
    apply tables_define_at, A.
Qed.

Lemma tables_export : forall name st, Inv st -> Inv (snd (symbol_set_export name st)).
Proof.
  intros name st H. unfold symbol_set_export.
  destruct (symbol_find st name) as [i |].
  - apply tables_update; [reflexivity | exact H].
  - pose proof (tables_symbol_add name st H) as A.
    destruct (symbol_add name st) as [[i |] st1]; cbn [snd] in *; [| exact A].
    apply tables_update; [reflexivity | exact A].
Qed.

Lemma tables_mark_extern : forall i name st, Inv st -> Inv (snd (mark_extern i name st)).
Proof.
  intros i name st H. unfold mark_extern. cbv zeta.
  pose proof (tables_update i (set_sym_flags SYM_EXTERN) st (fun _ => eq_refl) H) as U.
  destruct (existsb _ _); [exact U |].
  match goal with |- context [?a <? ?b] => destruct (Z.ltb_spec a b) as [L | G] end;
    [| exact U].
  unfold Inv. cbn [snd symbols externs set_externs].
  apply P_extern; [exact L | exact U].
Qed.

Lemma tables_extern : forall name st, Inv st -> Inv (snd (symbol_set_extern name st)).
Proof.
  intros name st H. unfold symbol_set_extern.
  destruct (symbol_find st name) as [i |].
  - destruct (sym_defined _); [exact H | apply tables_mark_extern, H].
  - pose proof (tables_symbol_add name st H) as A.
    destruct (symbol_add name st) as [[i |] st1]; cbn [snd] in *; [| exact A].
    apply tables_mark_extern, A.
Qed.

Lemma tables_asm_file :
  forall fs depth filename st r st',
    asm_file fs depth filename st = Some (r, st') -> Inv st -> Inv st'.
Proof.
  intros fs depth filename st r st' H Hst.
  assert (K : forall fp, keeps Inv (asm_pass fs depth fp)).
  { intros fp. apply keeps_pass;
      [ exact tables_kept | exact tables_emit_byte | exact tables_emit_reloc
      | exact tables_define | exact tables_export | exact tables_extern ]. }
  unfold asm_file in H. destruct (fs filename) as [fp |];
    [| inversion H; subst; exact Hst].
  unfold bind in H.
  destruct (asm_pass1 fs depth fp st) as [[r1 st1] |] eqn:E1; [| discriminate].
  assert (H1 : Inv st1).
  { unfold asm_pass1, bind, modify in E1. eapply K; [exact E1 | exact Hst]. }
  destruct (errors st1 >? 0); [inversion H; subst; exact H1 |].
  unfold asm_pass2, bind, modify in H. eapply K; [exact H | exact H1].
Qed.

End Tables.

Lemma Forall_list_update_all :
  forall (A : Type) (Q : A -> Prop) (f : A -> A) (l : list A) (i : nat),
    (forall x, Q x -> Q (f x)) -> Forall Q l -> Forall Q (list_update i f l).
Proof.
  intros A Q f l i Hf H. revert i. induction H as [| x l Hx Hl IH]; intros i; simpl.
  - destruct i; constructor.
  - destruct i; constructor; auto.
Qed.

(** The tables never outgrow their arrays, and every name in them fits its
    buffer. *)
Lemma asm_file_within_capacity :
  forall fs depth filename st r st',
    asm_file fs depth filename st = Some (r, st') ->
    within_capacity st -> within_capacity st'.
Proof.
  intros fs depth filename st r st' H.
  apply (tables_asm_file
           (fun syms exts => Z.of_nat (List.length syms) <= MAX_SYMBOLS
                             /\ Z.of_nat (List.length exts) <= MAX_EXTERNS))
    with (fs := fs) (depth := depth) (filename := filename) (r := r); [| | | exact H].
  - intros i f syms exts _ [S E]. rewrite length_list_update. auto.
  - intros name s syms exts L _ [S E]. rewrite length_app. simpl. lia.
  - intros name syms exts L [S E]. rewrite length_app. simpl. lia.
Qed.

Lemma asm_file_names_fit :
  forall fs depth filename st r st',
    asm_file fs depth filename st = Some (r, st') -> names_fit st -> names_fit st'.
Proof.
  intros fs depth filename st r st' H.
  apply (tables_asm_file
           (fun syms exts =>
              Forall (fun s => strlen (sym_name s) <= MAX_LABEL_LEN - 1) syms
              /\ Forall (fun e => strlen e <= MAX_LABEL_LEN - 1) exts))
    with (fs := fs) (depth := depth) (filename := filename) (r := r); [| | | exact H].
  - intros i f syms exts Hf [S E]. split; [| exact E].
    apply Forall_list_update_all; [| exact S]. intros x. rewrite Hf. auto.
  - intros name s syms exts _ N [S E]. split; [| exact E].
    apply Forall_app. split; [exact S |]. constructor; [| constructor].
    rewrite N. apply strlen_str_copy. vm_compute. discriminate.
  - intros name syms exts _ [S E]. split; [exact S |].
    apply Forall_app. split; [exact E |]. constructor; [| constructor].
    apply strlen_str_copy. vm_compute. discriminate.
Qed.

(** X6. The tables of the assembler never outgrow their arrays: a state
    with at most [MAX_SYMBOLS] symbols and [MAX_EXTERNS] externals is left
    so by [asm_file], whatever the source holds and whether or not it
    assembles. *)
Theorem X6_tables_within_capacity (fs : string -> option string) (depth : nat)
    (filename : string) (st : AsmState) (r : Z) (st' : AsmState)
    (Hrun : asm_file fs depth filename st = Some (r, st'))
    (Hst : within_capacity st) :
  num_symbols st' <= MAX_SYMBOLS /\ num_externs st' <= MAX_EXTERNS.
Proof. exact (asm_file_within_capacity fs depth filename st r st' Hrun Hst). Qed.

Lemma X6_tables_within_capacity_witness :
  let src := source [" xref puts"; "start:"; " call puts"; " ret"] in
  let st' := state_after (asm_file (one_file src) 0 "in.asm") asm_init in
  num_symbols st' <= MAX_SYMBOLS /\ num_externs st' <= MAX_EXTERNS.
Proof.
  intros src st'.
  apply (X6_tables_within_capacity (one_file src) 0%nat "in.asm" asm_init 0 st').
  - vm_compute. reflexivity.
  - split; vm_compute; discriminate.
Defined.

(** ** The scratch files and their counts *)

Lemma uint24_succ : forall n, uint24 (uint24 n + 1) = uint24 (n + 1).
Proof. intros n. unfold uint24. rewrite Zplus_mod_idemp_l. reflexivity. Qed.

Lemma scratch_emit_byte : forall b st, scratch_in_step st -> scratch_in_step (emit_byte b st).
Proof.
  intros b st (c & d & r & C & D & R & Sc & Sd & Sr).
  unfold emit_byte, scratch_in_step.
  repeat break_if; cbn; rewrite ?C, ?D, ?R; cbn [append_byte].
  - exists (c ++ [uint8 b]), d, r. repeat split; try assumption.
    rewrite Sc, length_app, Nat2Z.inj_add. apply uint24_succ.
  - exists c, (d ++ [uint8 b]), r. repeat split; try assumption.
    rewrite Sd, length_app, Nat2Z.inj_add. apply uint24_succ.
  - exists c, d, r. repeat split; assumption.
  - exists c, d, r. repeat split; assumption.
  - exists c, d, r. repeat split; assumption.
Qed.

Lemma scratch_emit_reloc :
  forall t s st, scratch_in_step st -> scratch_in_step (emit_reloc t s st).
Proof.
  intros t s st (c & d & r & C & D & R & Sc & Sd & Sr).
  unfold emit_reloc, scratch_in_step. rewrite R.
  destruct (_ && _); [| exists c, d, r; repeat split; assumption].
  eexists c, d, _. cbn. repeat split; try eassumption.
  rewrite Sr, length_app, Nat2Z.inj_add. apply uint24_succ.
Qed.

Lemma scratch_tables :
  forall st st',
    (code_tmp st', data_tmp st', reloc_tmp st') = (code_tmp st, data_tmp st, reloc_tmp st) ->
    (code_size st', data_size st', num_relocs st') = (code_size st, data_size st, num_relocs st) ->
    scratch_in_step st -> scratch_in_step st'.
Proof.
  intros st st' F S (c & d & r & C & D & R & Sc & Sd & Sr).
  injection F as F1 F2 F3. injection S as S1 S2 S3.
  exists c, d, r. repeat split; congruence.
Qed.

Lemma scratch_kept : forall st st', kept st = kept st' -> scratch_in_step st -> scratch_in_step st'.
Proof.
  intros st st' K. unfold kept in K. apply scratch_tables; congruence.
Qed.

Lemma scratch_update_symbol :
  forall i f st, scratch_in_step st -> scratch_in_step (update_symbol i f st).
Proof. intros i f st. apply scratch_tables; reflexivity. Qed.

Lemma scratch_symbol_add :
  forall name st, scratch_in_step st -> scratch_in_step (snd (symbol_add name st)).
Proof.
  intros name st. unfold symbol_add. destruct (_ >=? _); apply scratch_tables; reflexivity.
Qed.

Lemma scratch_define_at :
  forall i v st, scratch_in_step st -> scratch_in_step (snd (define_at i v st)).
Proof.
  intros i v st. unfold define_at, update_symbol. cbv zeta. cbn [snd].
  match goal with |- context [if ?c then _ else _] => destruct c end;
    apply scratch_tables; reflexivity.
Qed.

Lemma scratch_define :
  forall name v st, scratch_in_step st -> scratch_in_step (snd (symbol_define name v st)).
Proof.
  intros name v st H. unfold symbol_define.
  destruct (symbol_find st name) as [i |].
  - repeat break_if; [exact H | exact H | apply scratch_define_at, H].
  - pose proof (scratch_symbol_add name st H) as A.
    destruct (symbol_add name st) as [[i |] st1]; cbn [snd] in *; [| exact A].
    apply scratch_define_at, A.
Qed.

Lemma scratch_export :
  forall name st, scratch_in_step st -> scratch_in_step (snd (symbol_set_export name st)).
Proof.
  intros name st H. unfold symbol_set_export.
  destruct (symbol_find st name) as [i |].
  - apply scratch_update_symbol, H.
  - pose proof (scratch_symbol_add name st H) as A.
    destruct (symbol_add name st) as [[i |] st1]; cbn [snd] in *; [| exact A].
    apply scratch_update_symbol, A.
Qed.

Lemma scratch_mark_extern :
  forall i name st, scratch_in_step st -> scratch_in_step (snd (mark_extern i name st)).
Proof.
  intros i name st. unfold mark_extern. cbv zeta.
  repeat break_if; apply scratch_tables; reflexivity.
Qed.

Lemma scratch_extern :
  forall name st, scratch_in_step st -> scratch_in_step (snd (symbol_set_extern name st)).
Proof.
  intros name st H. unfold symbol_set_extern.
  destruct (symbol_find st name) as [i |].
  - destruct (sym_defined _); [exact H | apply scratch_mark_extern, H].
  - pose proof (scratch_symbol_add name st H) as A.
    destruct (symbol_add name st) as [[i |] st1]; cbn [snd] in *; [| exact A].
    apply scratch_mark_extern, A.
Qed.

(** An assembly that returns 0 has run pass 2, which leaves the scratch
    files in step with their counts. *)
Lemma asm_file_scratch :
  forall fs depth filename st st',
    asm_file fs depth filename st = Some (0, st') -> scratch_in_step st'.
Proof.
  intros fs depth filename st st' H.
  unfold asm_file in H. destruct (fs filename) as [fp |]; [| discriminate H].
  unfold bind in H.
  destruct (asm_pass1 fs depth fp st) as [[r1 st1] |]; [| discriminate].
  destruct (errors st1 >? 0); [discriminate H |].
  unfold asm_pass2, bind, modify in H.
  eapply (keeps_pass scratch_in_step scratch_kept scratch_emit_byte scratch_emit_reloc
            scratch_define scratch_export scratch_extern); [exact H |].
  exists [], [], []. repeat split.
Qed.

(** ** The layout of the object file *)

Lemma length_name_bytes : forall name, Z.of_nat (List.length (name_bytes name)) = strlen name + 1.
Proof.
  intros name. unfold name_bytes, strlen.
  rewrite length_app, length_map. simpl List.length.
  assert (L : forall s, List.length (list_ascii_of_string s) = String.length s).
  { induction s as [| c s IH]; simpl; congruence. }
  rewrite L. lia.
Qed.

Lemma length_symbol_records :
  forall syms off,
    Z.of_nat (List.length (fst (symbol_records syms off)))
    = sizeof_ObjSymbol * Z.of_nat (List.length syms)
    /\ Z.of_nat (List.length (snd (symbol_records syms off)))
       = names_length (map sym_name syms).
Proof.
  induction syms as [| s syms IH]; intros off; [split; reflexivity |].
  cbn [symbol_records].
  specialize (IH (off + Z.of_nat (List.length (name_bytes (sym_name s))))).
  destruct (symbol_records syms _) as [recs strs]. cbn [fst snd] in *.
  destruct IH as [IH1 IH2]. split.
  - rewrite !length_app. cbn [List.length WRITE24]. unfold sizeof_ObjSymbol in *. lia.
  - rewrite length_app, Nat2Z.inj_add, length_name_bytes, IH2. reflexivity.
Qed.

Lemma length_extern_records :
  forall names i off,
    Z.of_nat (List.length (fst (extern_records names i off)))
    = sizeof_ObjExtern * Z.of_nat (List.length names)
    /\ Z.of_nat (List.length (snd (extern_records names i off))) = names_length names.
Proof.
  induction names as [| n names IH]; intros i off; [split; reflexivity |].
  cbn [extern_records].
  specialize (IH (i + 1) (off + Z.of_nat (List.length (name_bytes n)))).
  destruct (extern_records names _ _) as [recs strs]. cbn [fst snd] in *.
  destruct IH as [IH1 IH2]. split.
  - rewrite !length_app. cbn [List.length WRITE24]. unfold sizeof_ObjExtern in *. lia.
  - rewrite length_app, Nat2Z.inj_add, length_name_bytes, IH2. reflexivity.
Qed.

Lemma uint24_le : forall n, 0 <= n -> 0 <= uint24 n <= n.
Proof.
  intros n H. unfold uint24. split.
  - apply Z.mod_pos_bound. lia.
  - apply Z.mod_le; lia.
Qed.

Lemma length_scratch_bytes :
  forall (bytes : list Z) size,
    size = uint24 (Z.of_nat (List.length bytes)) ->
    Z.of_nat (List.length (scratch_bytes (Some bytes) size)) = size.
Proof.
  intros bytes size E. unfold scratch_bytes.
  pose proof (uint24_le (Z.of_nat (List.length bytes)) (Nat2Z.is_nonneg _)) as B.
  rewrite <- E in B.
  destruct (Z.gtb_spec size 0) as [G | L].
  - rewrite length_firstn. lia.
  - simpl. lia.
Qed.

Lemma length_flat_map_reloc :
  forall l, Z.of_nat (List.length (flat_map reloc_record l))
            = sizeof_ObjReloc * Z.of_nat (List.length l).
Proof.
  induction l as [| r l IH]; [reflexivity |].
  cbn [flat_map]. rewrite length_app. cbn [List.length reloc_record WRITE24 app].
  unfold sizeof_ObjReloc in *. lia.
Qed.

Lemma length_reloc_records :
  forall st r,
    reloc_tmp st = Some r -> num_relocs st = uint24 (Z.of_nat (List.length r)) ->
    Z.of_nat (List.length (reloc_records st)) = sizeof_ObjReloc * num_relocs st.
Proof.
  intros st r R E. unfold reloc_records. rewrite R.
  pose proof (uint24_le (Z.of_nat (List.length r)) (Nat2Z.is_nonneg _)) as B.
  rewrite <- E in B.
  destruct (Z.gtb_spec (num_relocs st) 0) as [G | L].
  - rewrite length_flat_map_reloc, length_firstn. unfold sizeof_ObjReloc. lia.
  - assert (Z0 : num_relocs st = 0) by lia. rewrite Z0. reflexivity.
Qed.

(** The parts of the object file behind the header, one after the other. *)
Lemma asm_output_parts :
  forall st,
    exists sym_recs sym_strs ext_recs ext_strs,
      symbol_records (exported st) 0 = (sym_recs, sym_strs)
      /\ extern_records (externs st) 0 (Z.of_nat (List.length sym_strs))
         = (ext_recs, ext_strs)
      /\ asm_output st
         = obj_header st (Z.of_nat (List.length (exported st)))
             (uint24 (Z.of_nat (List.length (sym_strs ++ ext_strs))))
           ++ scratch_bytes (code_tmp st) (code_size st)
           ++ scratch_bytes (data_tmp st) (data_size st)
           ++ sym_recs ++ reloc_records st ++ ext_recs ++ sym_strs ++ ext_strs.
Proof.
  intros st. unfold asm_output.
  destruct (symbol_records (exported st) 0) as [sym_recs sym_strs] eqn:E1.
  destruct (extern_records (externs st) 0 (Z.of_nat (List.length sym_strs)))
    as [ext_recs ext_strs] eqn:E2.
  exists sym_recs, sym_strs, ext_recs, ext_strs.
  split; [reflexivity | split; [exact E2 | reflexivity]].
Qed.

Lemma length_asm_output :
  forall st,
    scratch_in_step st ->
    Z.of_nat (List.length (asm_output st))
    = sizeof_ObjHeader + code_size st + data_size st
      + sizeof_ObjSymbol * Z.of_nat (List.length (exported st))
      + sizeof_ObjReloc * num_relocs st
      + sizeof_ObjExtern * num_externs st
      + (names_length (map sym_name (exported st)) + names_length (externs st)).
Proof.
  intros st (c & d & r & C & D & R & Sc & Sd & Sr).
  destruct (asm_output_parts st) as (sr & ss & er & es & E1 & E2 & ->).
  pose proof (length_symbol_records (exported st) 0) as [L1 L2].
  rewrite E1 in L1, L2. cbn [fst snd] in L1, L2.
  pose proof (length_extern_records (externs st) 0 (Z.of_nat (List.length ss))) as [L3 L4].
  rewrite E2 in L3, L4. cbn [fst snd] in L3, L4.
  rewrite C, D. rewrite !length_app, !Nat2Z.inj_add.
  rewrite (length_scratch_bytes c _ Sc), (length_scratch_bytes d _ Sd).
  rewrite (length_reloc_records st r R Sr), L1, L2, L3, L4.
  replace (Z.of_nat (List.length (obj_header st _ _))) with sizeof_ObjHeader by reflexivity.
  unfold num_externs. lia.
Qed.

(** X7. The object file of an assembly that succeeds is laid out as its
    header says: its length is the 27 bytes of the header, the code and
    data sizes, 10 bytes for each exported symbol, 8 for each relocation,
    6 for each external, and the names of the exported symbols and of the
    externals with their terminators. *)
Theorem X7_object_file_layout (fs : string -> option string) (depth : nat)
    (filename : string) (st st' : AsmState)
    (Hrun : asm_file fs depth filename st = Some (0, st')) :
  Z.of_nat (List.length (asm_output st'))
  = sizeof_ObjHeader + code_size st' + data_size st'
    + sizeof_ObjSymbol * Z.of_nat (List.length (exported st'))
    + sizeof_ObjReloc * num_relocs st'
    + sizeof_ObjExtern * num_externs st'
    + (names_length (map sym_name (exported st')) + names_length (externs st')).
Proof. apply length_asm_output. eapply asm_file_scratch, Hrun. Qed.

Lemma X7_object_file_layout_witness :
  let src := source [" xref puts"; " xdef start"; "start:"; " call puts"; " ret"] in
  let st' := state_after (asm_file (one_file src) 0 "in.asm") asm_init in
  Z.of_nat (List.length (asm_output st'))
  = sizeof_ObjHeader + code_size st' + data_size st'
    + sizeof_ObjSymbol * Z.of_nat (List.length (exported st'))
    + sizeof_ObjReloc * num_relocs st'
    + sizeof_ObjExtern * num_externs st'
    + (names_length (map sym_name (exported st')) + names_length (externs st')).
Proof.
  intros src st'.
  apply (X7_object_file_layout (one_file src) 0%nat "in.asm" asm_init st').
  vm_compute. reflexivity.
Defined.

(** ** Relative jumps *)

Lemma int24_congruent :
  forall a b, uint24 a = uint24 b -> int24 a = int24 b.
Proof.
  intros a b H. unfold int24, uint24 in *.
  rewrite <- (Zplus_mod_idemp_l a), <- (Zplus_mod_idemp_l b), H. reflexivity.
Qed.

Lemma uint24_int24 : forall a, uint24 (int24 a) = uint24 a.
Proof.
  intros a. unfold int24, uint24.
  rewrite Zminus_mod_idemp_l. f_equal. lia.
Qed.

Lemma uint24_add_r : forall a b, uint24 (a + uint24 b) = uint24 (a + b).
Proof. intros a b. unfold uint24. apply Zplus_mod_idemp_r. Qed.

Lemma uint24_sub_r : forall a b, uint24 (a - uint24 b) = uint24 (a - b).
Proof. intros a b. unfold uint24. apply Zminus_mod_idemp_r. Qed.

Lemma int8_of_byte :
  forall o, -128 <= o <= 127 -> int8 (Z.land o 0xFF) = o.
Proof.
  intros o H. rewrite land_255_mod. unfold int8.
  destruct (Z.ltb_spec (o mod 256) 128) as [L | G].
  - destruct (Z.le_gt_cases 0 o) as [P | N].
    + apply Z.mod_small. lia.
    + assert (E : o mod 256 = o + 256).
      { symmetry. apply (Z.mod_unique o 256 (-1) (o + 256)); lia. }
      lia.
  - destruct (Z.le_gt_cases 0 o) as [P | N].
    + rewrite Z.mod_small in G by lia. lia.
    + assert (E : o mod 256 = o + 256).
      { symmetry. apply (Z.mod_unique o 256 (-1) (o + 256)); lia. }
      lia.
Qed.

(** X8. A relative jump ([JR], [DJNZ]) in pass 2 writes the opcode and one
    displacement byte, counted from the address behind the instruction:
    when the target lies from 128 bytes before to 127 bytes behind that
    address, no error is reported and that address plus the byte, read as
    a signed number, is the target; otherwise exactly one error is
    reported. *)
Theorem X8_relative_jump_displacement (opcode : Z) (target : Operand) (msg : string)
    (st : AsmState) (c : list Z)
    (Hpass : pass st = 2) (Hsect : current_section st = SECT_CODE)
    (Hcode : code_tmp st = Some c) :
  let st' := snd (emit_relative opcode target msg st) in
  let offset := int24 (op_value target - uint24 (pc st + 2)) in
  code_tmp st' = Some (c ++ [uint8 opcode; Z.land offset 0xFF])
  /\ pc st' = uint24 (pc st + 2)
  /\ (-128 <= offset <= 127 ->
      errors st' = errors st
      /\ uint24 (pc st' + int8 (Z.land offset 0xFF)) = uint24 (op_value target))
  /\ (~ -128 <= offset <= 127 -> errors st' = errors st + 1).
Proof.
  intros st' offset.
  assert (O : int24 (op_value target - (uint24 (pc st + 1) + 1)) = offset).
  { apply int24_congruent. unfold offset.
    rewrite uint24_sub_r. unfold uint24.
    rewrite <- (Zminus_mod_idemp_r _ (uint24 (pc st + 1) + 1)).
    unfold uint24. rewrite Zplus_mod_idemp_l.
    rewrite Zminus_mod_idemp_r. f_equal. lia. }
  assert (P1 : pc (emit_byte opcode st) = uint24 (pc st + 1)).
  { unfold emit_byte. rewrite Hpass, Hsect. reflexivity. }
  subst st'. unfold emit_relative. cbv zeta. cbn [snd]. rewrite P1, O.
  assert (S1 : forall s, let s1 := emit_byte opcode st in
               pass s = 2 -> current_section s = SECT_CODE ->
               code_tmp s = Some (c ++ [uint8 opcode]) -> pc s = uint24 (pc st + 1) ->
               code_tmp (emit_byte (Z.land offset 255) s)
               = Some (c ++ [uint8 opcode; Z.land offset 255])
               /\ pc (emit_byte (Z.land offset 255) s) = uint24 (pc st + 2)
               /\ errors (emit_byte (Z.land offset 255) s) = errors s).
  { intros s s1 Hp Hs Hc Hpc. unfold emit_byte. rewrite Hp, Hs. cbn.
    rewrite Hc, Hpc. cbn [append_byte]. rewrite <- app_assoc. cbn [app].
    rewrite uint8_byte, uint24_succ. repeat split. f_equal. lia. }
  assert (B1 : pass (emit_byte opcode st) = 2 /\ current_section (emit_byte opcode st) = SECT_CODE
               /\ code_tmp (emit_byte opcode st) = Some (c ++ [uint8 opcode])
               /\ errors (emit_byte opcode st) = errors st).
  { unfold emit_byte. rewrite Hpass, Hsect. cbn. rewrite Hcode. repeat split; assumption. }
  destruct B1 as (Bp & Bs & Bc & Be).
  unfold is_signed_8bit. rewrite Bp. cbn [Z.eqb Pos.eqb andb].
  destruct (Z.leb_spec (-128) offset) as [L1 | L1];
    destruct (Z.leb_spec offset 127) as [L2 | L2]; cbn [andb negb];
    match goal with
    | |- context [emit_byte (Z.land offset 255) ?s] =>
        destruct (S1 s) as (R1 & R2 & R3); try assumption; try reflexivity
    end;
    (split; [exact R1 | split; [exact R2 | split]]);
    try (intros; exfalso; lia).
  - intros H. split; [congruence |].
    rewrite R2, int8_of_byte by exact H. unfold offset.
    generalize (uint24 (pc st + 2)). intros p.
    rewrite <- uint24_add_r, uint24_int24, uint24_add_r. f_equal. lia.
  - intros _. rewrite R3.
    change (errors (asm_error msg (emit_byte opcode st)))
      with (errors (emit_byte opcode st) + 1).
    rewrite Be. reflexivity.
  - intros _. rewrite R3.
    change (errors (asm_error msg (emit_byte opcode st)))
      with (errors (emit_byte opcode st) + 1).
    rewrite Be. reflexivity.
Qed.

Lemma X8_relative_jump_witness :
  let st := set_pc 0x40010 (set_code_tmp (Some []) (set_pass 2 asm_init)) in
  let target := mkOperand OP_IMM REG_NONE CC_NONE 0x40000 "" false in
  let st' := snd (emit_relative 0x18 target "JR offset out of range" st) in
  code_tmp st' = Some [0x18; 0xEE]
  /\ pc st' = 0x40012
  /\ errors st' = errors st
  /\ uint24 (pc st' + int8 0xEE) = 0x40000.
Proof.
  intros st target st'.
  destruct (X8_relative_jump_displacement 0x18 target "JR offset out of range" st []
              eq_refl eq_refl eq_refl) as (C & P & R & _).
  destruct R as [E T]; [vm_compute; split; discriminate |].
  repeat split; assumption.
Defined.

(** ** Alignment *)

Lemma emit_byte_pc : forall b st, pc (emit_byte b st) = uint24 (pc st + 1).
Proof. intros b st. unfold emit_byte. repeat break_if; reflexivity. Qed.

Lemma land_pow2_mod : forall x k, 0 <= k -> Z.land x (2 ^ k - 1) = x mod 2 ^ k.
Proof.
  intros x k H. rewrite <- Z.land_ones by exact H. f_equal.
  rewrite Z.ones_equiv. lia.
Qed.

Lemma uint24_mod_pow2 :
  forall x k, 0 <= k <= 24 -> uint24 x mod 2 ^ k = x mod 2 ^ k.
Proof.
  intros x k H. unfold uint24. apply Z.mod_mod_divide.
  exists (2 ^ (24 - k)). rewrite <- Z.pow_add_r by lia.
  replace (24 - k + k) with 24 by lia. reflexivity.
Qed.

Lemma align_loop_spec :
  forall k, 0 <= k <= 24 ->
    forall n st,
      ((- pc st) mod 2 ^ k < Z.of_nat n) ->
      align_loop n (2 ^ k) st
      = Nat.iter (Z.to_nat ((- pc st) mod 2 ^ k)) (emit_byte 0) st
      /\ pc (align_loop n (2 ^ k) st) mod 2 ^ k = 0.
Proof.
  intros k Hk. assert (A : 0 < 2 ^ k) by (apply Z.pow_pos_nonneg; lia).
  induction n as [| n IH]; intros st Hn.
  - pose proof (Z.mod_pos_bound (- pc st) (2 ^ k) A). lia.
  - cbn [align_loop]. rewrite land_pow2_mod by lia.
    destruct (Z.eqb_spec (pc st mod 2 ^ k) 0) as [E | N].
    + assert (P : (- pc st) mod 2 ^ k = 0) by (apply Z.mod_opp_l_z; lia).
      rewrite P. split; [reflexivity | exact E].
    + assert (P : (- pc st) mod 2 ^ k = 2 ^ k - pc st mod 2 ^ k)
        by (apply Z.mod_opp_l_nz; lia).
      pose proof (Z.mod_pos_bound (pc st) (2 ^ k) A) as B.
      assert (P' : (- pc (emit_byte 0 st)) mod 2 ^ k = (- pc st) mod 2 ^ k - 1).
      { rewrite emit_byte_pc.
        destruct (Z.eqb_spec (uint24 (pc st + 1) mod 2 ^ k) 0) as [E1 | N1].
        - rewrite Z.mod_opp_l_z by lia. rewrite uint24_mod_pow2 in E1 by lia.
          rewrite <- Zplus_mod_idemp_l in E1.
          assert (pc st mod 2 ^ k + 1 = 2 ^ k).
          { destruct (Z.eq_dec (pc st mod 2 ^ k + 1) (2 ^ k)) as [Q | Q]; [exact Q |].
            rewrite Z.mod_small in E1 by lia. lia. }
          lia.
        - rewrite Z.mod_opp_l_nz by lia. rewrite uint24_mod_pow2 in * by lia.
          rewrite <- Zplus_mod_idemp_l in *.
          assert (pc st mod 2 ^ k + 1 < 2 ^ k).
          { destruct (Z.eq_dec (pc st mod 2 ^ k + 1) (2 ^ k)) as [Q | Q]; [| lia].
            rewrite Q, Z.mod_same in N1 by lia. contradiction. }
          rewrite Z.mod_small by lia. lia. }
      destruct (IH (emit_byte 0 st)) as [I1 I2]; [lia |].
      split; [| exact I2].
      rewrite I1, P'.
      replace (Z.to_nat ((- pc st) mod 2 ^ k)) with (S (Z.to_nat ((- pc st) mod 2 ^ k - 1)))
        by lia.
      rewrite Nat.iter_succ_r. reflexivity.
Qed.

(** X9. [ALIGN] to a power of two pads with the fewest zero bytes that
    bring the program counter to a multiple of the alignment: the loop of
    at most [align] turns emits [(-pc) mod align] bytes, fewer than
    [align], and leaves the low bits of the counter clear. *)
Theorem X9_align_pads_to_boundary (k : Z) (st : AsmState) (Hk : 0 <= k <= 24) :
  let align := 2 ^ k in
  let pad := (- pc st) mod align in
  0 <= pad < align
  /\ align_loop (Z.to_nat align) align st = Nat.iter (Z.to_nat pad) (emit_byte 0) st
  /\ Z.land (pc (align_loop (Z.to_nat align) align st)) (align - 1) = 0.
Proof.
  intros align pad. assert (A : 0 < 2 ^ k) by (apply Z.pow_pos_nonneg; lia).
  assert (B : 0 <= pad < align) by (apply Z.mod_pos_bound; exact A).
  split; [exact B |].
  destruct (align_loop_spec k Hk (Z.to_nat align) st) as [E P].
  - fold align pad. lia.
  - split; [exact E |]. unfold align. rewrite land_pow2_mod by lia. exact P.
Qed.

Lemma X9_align_witness :
  let st := set_pc 0x40003 asm_init in
  align_loop 4 4 st = emit_byte 0 st /\ pc (align_loop 4 4 st) = 0x40004.
Proof.
  intros st.
  destruct (X9_align_pads_to_boundary 2 st) as (_ & E & _); [lia |].
  split; [exact E |]. rewrite (E : align_loop 4 4 st = emit_byte 0 st). reflexivity.
Defined.

(** ** Restarts *)

Lemma small_cases :
  forall n, 0 <= n <= 7 ->
    n = 0 \/ n = 1 \/ n = 2 \/ n = 3 \/ n = 4 \/ n = 5 \/ n = 6 \/ n = 7.
Proof. intros n H. lia. Qed.

(** X10. [RST] and [RST.LIL] only ever encode one of the eight restart
    vectors: when [parse_rst_vector] succeeds the vector is 8 * n for an n
    from 0 to 7 (n itself when the operand is 0 to 7, the operand when it
    is 08h to 38h), so the opcode byte [0xC7 | vec] is C7, CF, D7, DF, E7,
    EF, F7 or FF. *)
Theorem X10_rst_vectors (st : AsmState) (r vec : Z) (st' : AsmState)
    (Hrun : parse_rst_vector st = Some ((r, vec), st')) (Hok : r = 0) :
  exists n, 0 <= n <= 7 /\ vec = 8 * n /\ Z.lor 0xC7 vec = 0xC7 + 8 * n.
Proof.
  unfold parse_rst_vector, bind, lex, modify, ret in Hrun.
  destruct (parse_operand (lexer_next st)) as [[[res op] st1] |]; [| discriminate].
  cbn [fst snd] in Hrun.
  destruct (res <? 0); [inversion Hrun; subst; discriminate |].
  destruct (negb (is_type OP_IMM op)); [inversion Hrun; subst; discriminate |].
  assert (F : forall n, 0 <= n <= 7 -> Z.lor 0xC7 (8 * n) = 0xC7 + 8 * n).
  { intros n Hn. destruct (small_cases n Hn) as [-> | [-> | [-> | [-> | [-> | [-> | [-> | ->]]]]]]];
      reflexivity. }
  destruct (Z.geb_spec (op_value op) 0) as [G0 | L0]; cbn [andb] in Hrun;
    [| rewrite andb_false_r in Hrun; inversion Hrun; subst; discriminate].
  destruct (Z.leb_spec (op_value op) 7) as [L7 | G7].
  - injection Hrun as _ Hv _. subst vec. exists (op_value op).
    assert (E : uint8 (Z.shiftl (op_value op) 3) = 8 * op_value op).
    { rewrite Z.shiftl_mul_pow2 by lia. unfold uint8. rewrite Z.mod_small; lia. }
    split; [lia | split; [exact E |]].
    change (Z.lor 199 (uint8 (Z.shiftl (op_value op) 3)) = 199 + 8 * op_value op).
    rewrite E. apply F. lia.
  - destruct (Z.eqb_spec (Z.land (op_value op) 7) 0) as [A | A]; cbn [andb] in Hrun;
      [| inversion Hrun; subst; discriminate].
    destruct (Z.leb_spec (op_value op) 56) as [L | L];
      [| inversion Hrun; subst; discriminate].
    injection Hrun as _ Hv _. subst vec. exists (op_value op / 8).
    change 7 with (2 ^ 3 - 1) in A. rewrite land_pow2_mod in A by lia.
    change (2 ^ 3) with 8 in A.
    pose proof (Z.div_mod (op_value op) 8 ltac:(lia)) as D. rewrite A in D.
    assert (B : 0 <= op_value op / 8 <= 7).
    { split; [apply Z.div_pos; lia |]. apply Z.div_le_upper_bound; lia. }
    assert (E : uint8 (op_value op) = 8 * (op_value op / 8)).
    { unfold uint8. rewrite Z.mod_small by lia. lia. }
    rewrite E. auto.
Qed.

Lemma X10_rst_vectors_witness :
  let st := at_operand " rst 10h" asm_init in
  exists n, 0 <= n <= 7 /\ 0x10 = 8 * n /\ Z.lor 0xC7 0x10 = 0xC7 + 8 * n.
Proof.
  intros st.
  apply (X10_rst_vectors st 0 0x10 (state_after parse_rst_vector st)).
  - vm_compute. reflexivity.
  - reflexivity.
Defined.

(** ** The end of the line *)






(** ** The tables of names *)

Lemma table_lookup_entry :
  forall (A : Type) (tbl : list (string * A)) (e : string * A),
    strictly_sorted (map fst tbl) = true -> In e tbl ->
    exists i, table_lookup fst tbl (fst e) = Some (i, e).
Proof.
  intros A tbl e S I. apply In_nth_error in I. destruct I as [t T].
  exists (Z.of_nat t). apply (table_lookup_found fst tbl S t e T).
Qed.

(** X12. No name of the four tables is out of reach of the binary search:
    every register and every condition is recognised under its name, every
    mnemonic of [simple_table] gives its prefix and opcode, every mnemonic
    of [instr_table] gives its handler, and no mnemonic with a handler is
    taken for a simple instruction. *)
Theorem X12_every_table_name_is_found :
  (forall e, In e reg_table -> parse_register (fst e) = snd e)
  /\ (forall e, In e cc_table -> parse_condition (fst e) = snd e)
  /\ (forall e, In e simple_table -> simple_lookup (fst e) = Some (snd e))
  /\ (forall e, In e instr_table ->
        instr_lookup (fst e) = Some (snd e) /\ simple_lookup (fst e) = None).
Proof.
  split; [| split; [| split]].
  - intros e I.
    assert (L : str_tolower (fst e) 8 = fst e).
    { simpl in I. repeat (destruct I as [<- | I]; [reflexivity |]). destruct I. }
    unfold parse_register. rewrite L.
    destruct (table_lookup_entry _ reg_table e eq_refl I) as [i ->]. reflexivity.
  - intros e I.
    assert (L : str_tolower (fst e) 4 = fst e).
    { simpl in I. repeat (destruct I as [<- | I]; [reflexivity |]). destruct I. }
    unfold parse_condition. rewrite L.
    destruct (table_lookup_entry _ cc_table e eq_refl I) as [i ->]. reflexivity.
  - intros e I. unfold simple_lookup.
    destruct (table_lookup_entry _ simple_table e eq_refl I) as [i ->]. reflexivity.
  - intros e I. split.
    + unfold instr_lookup.
      destruct (table_lookup_entry _ instr_table e eq_refl I) as [i ->]. reflexivity.
    + unfold instr_table in I. cbn [In] in I.
      repeat (destruct I as [<- | I]; [reflexivity |]). destruct I.
Qed.

(** ** What an instruction may change *)

Lemma emit_byte_scope :
  forall b st,
    externs (emit_byte b st) = externs st
    /\ local_scope (emit_byte b st) = local_scope st
    /\ reloc_tmp (emit_byte b st) = reloc_tmp st
    /\ num_relocs (emit_byte b st) = num_relocs st.
Proof. intros b st. unfold emit_byte. repeat break_if; repeat split; reflexivity. Qed.

Lemma emit_reloc_scope :
  forall t s st,
    externs (emit_reloc t s st) = externs st
    /\ local_scope (emit_reloc t s st) = local_scope st
    /\ code_tmp (emit_reloc t s st) = code_tmp st
    /\ data_tmp (emit_reloc t s st) = data_tmp st.
Proof. intros t s st. unfold emit_reloc. repeat break_if; repeat split; reflexivity. Qed.

Lemma emission_scope :
  forall st st',
    emission st st' -> externs st' = externs st /\ local_scope st' = local_scope st.
Proof.
  intros st st' H. induction H as [st | st st1 st' H IH E | st st1 b H IH | st st1 t s H IH].
  - split; reflexivity.
  - destruct IH as [E1 L1]. unfold assembled in E. split; congruence.
  - destruct IH as [E1 L1]. destruct (emit_byte_scope b st1) as (E2 & L2 & _).
    split; congruence.
  - destruct IH as [E1 L1]. destruct (emit_reloc_scope t s st1) as (E2 & L2 & _).
    split; congruence.
Qed.

(** X13. An instruction always returns, and whatever its operands it
    defines and declares nothing: after [instr_execute] the symbols, the
    externals, the section, the pass and the scope of the local labels are
    what they were. *)
Theorem X13_instructions_declare_nothing (mnemonic : string) (st : AsmState) :
  exists r st',
    instr_execute mnemonic st = Some (r, st')
    /\ symbols st' = symbols st /\ externs st' = externs st
    /\ current_section st' = current_section st /\ pass st' = pass st
    /\ local_scope st' = local_scope st.
Proof.
  destruct (returns_instr_execute mnemonic st) as (r & st' & E).
  exists r, st'. split; [exact E |].
  pose proof (EmittingM_instr_execute mnemonic st r st' E) as Em.
  destruct (emission_fixed st st' Em) as (S & P & C).
  destruct (emission_scope st st' Em) as (X & L).
  repeat split; assumption.
Qed.

(** ** Relocations *)

Lemma emit_byte_code :
  forall b st c,
    pass st = 2 -> current_section st = SECT_CODE -> code_tmp st = Some c ->
    code_size st = uint24 (Z.of_nat (List.length c)) ->
    code_tmp (emit_byte b st) = Some (c ++ [uint8 b])
    /\ code_size (emit_byte b st) = uint24 (Z.of_nat (List.length (c ++ [uint8 b]))).
Proof.
  intros b st c P S C N. unfold emit_byte. rewrite P, S. cbn. rewrite C, N.
  cbn [append_byte]. split; [reflexivity |].
  rewrite length_app, Nat2Z.inj_add. apply uint24_succ.
Qed.

Lemma fold_emit_bytes_code :
  forall (bytes : list Z) st c,
    pass st = 2 -> current_section st = SECT_CODE -> code_tmp st = Some c ->
    code_size st = uint24 (Z.of_nat (List.length c)) ->
    let st' := fold_left (fun s b => emit_byte b s) bytes st in
    code_tmp st' = Some (c ++ map uint8 bytes)
    /\ code_size st' = uint24 (Z.of_nat (List.length (c ++ map uint8 bytes)))
    /\ pass st' = 2 /\ current_section st' = SECT_CODE
    /\ reloc_tmp st' = reloc_tmp st /\ num_relocs st' = num_relocs st
    /\ symbols st' = symbols st /\ externs st' = externs st.
Proof.
  induction bytes as [| b bytes IH]; intros st c P S C N; cbn [fold_left]; cbv zeta.
  - cbn [map]. rewrite app_nil_r. repeat split; assumption.
  - destruct (emit_byte_code b st c P S C N) as [C1 N1].
    destruct (emit_byte_fixed b st) as (Y1 & P1 & S1).
    destruct (emit_byte_scope b st) as (X1 & _ & R1 & M1).
    destruct (IH (emit_byte b st) (c ++ [uint8 b])) as (A1 & A2 & A3 & A4 & A5 & A6 & A7 & A8);
      try congruence.
    cbn [map]. replace (c ++ uint8 b :: map uint8 bytes) with ((c ++ [uint8 b]) ++ map uint8 bytes)
      by (rewrite <- app_assoc; reflexivity).
    repeat split; congruence.
Qed.

(** X14. A relocation points at the field it belongs to. In pass 2, in the
    code section, an instruction with a 24-bit operand that names a symbol
    records one relocation of type [RELOC_ADDR24] whose offset is the
    place, in the code written so far, of the three operand bytes: read
    there as a 24-bit little-endian number, the code holds the value of
    the operand. *)
Theorem X14_relocation_points_at_operand (bytes : list Z) (op : Operand) (st : AsmState)
    (c : list Z) (relocs : list Relocation)
    (Hpass : pass st = 2) (Hsect : current_section st = SECT_CODE)
    (Hcode : code_tmp st = Some c) (Hrel : reloc_tmp st = Some relocs)
    (Hsize : code_size st = uint24 (Z.of_nat (List.length c)))
    (Hfit : Z.of_nat (List.length c + List.length bytes) < 16777216)
    (Hsym : op_has_symbol op = true) (Hname : Ascii.eqb (deref (op_symbol op)) NUL = false) :
  let st' := snd (emits_abs24 bytes op st) in
  exists r code',
    reloc_tmp st' = Some (relocs ++ [r])
    /\ rel_type r = RELOC_ADDR24 /\ rel_section r = SECT_CODE
    /\ rel_offset r = Z.of_nat (List.length c + List.length bytes)
    /\ code_tmp st' = Some code'
    /\ List.length code' = (List.length c + List.length bytes + 3)%nat
    /\ Linker.read24 code' (Z.to_nat (rel_offset r)) = uint24 (op_value op).
Proof.
  intros st'. subst st'. unfold emits_abs24. cbv zeta. cbn [snd]. rewrite Hsym.
  destruct (fold_emit_bytes_code bytes st c Hpass Hsect Hcode Hsize)
    as (C1 & N1 & P1 & S1 & R1 & M1 & Y1 & X1).
  set (st1 := fold_left (fun s b => emit_byte b s) bytes st) in *.
  assert (L1 : List.length (c ++ map uint8 bytes) = (List.length c + List.length bytes)%nat).
  { rewrite length_app, length_map. reflexivity. }
  assert (N1' : code_size st1 = Z.of_nat (List.length c + List.length bytes)).
  { rewrite N1, L1. unfold uint24. apply Z.mod_small. lia. }
  assert (R2 : exists r,
             reloc_tmp (emit_reloc RELOC_ADDR24 (op_symbol op) st1) = Some (relocs ++ [r])
             /\ rel_type r = RELOC_ADDR24 /\ rel_section r = SECT_CODE
             /\ rel_offset r = Z.of_nat (List.length c + List.length bytes)).
  { unfold emit_reloc. rewrite R1, Hrel, P1, Hname, S1. cbn [Z.eqb Pos.eqb andb negb].
    rewrite N1'. destruct (_ >=? 0); eexists; repeat split. }
  destruct R2 as (r & R2 & T & Sx & O).
  set (st2 := emit_reloc RELOC_ADDR24 (op_symbol op) st1) in *.
  destruct (emit_reloc_fixed RELOC_ADDR24 (op_symbol op) st1) as (_ & P2 & S2 & _ & N2 & _).
  destruct (emit_reloc_scope RELOC_ADDR24 (op_symbol op) st1) as (_ & _ & C2 & _).
  fold st2 in P2, S2, N2, C2.
  set (v := Z.land (op_value op) 16777215).
  assert (E : code_tmp (emit_long v st2)
              = Some ((c ++ map uint8 bytes) ++ WRITE24 v ++ [])
              /\ reloc_tmp (emit_long v st2) = reloc_tmp st2).
  { unfold emit_long.
    destruct (fold_emit_bytes_code
                [Z.land v 255; Z.land (Z.shiftr v 8) 255; Z.land (Z.shiftr v 16) 255]
                st2 (c ++ map uint8 bytes)) as (A1 & _ & _ & _ & A5 & _); try congruence.
    cbn [fold_left] in A1, A5. cbv zeta in A1, A5. rewrite A1, A5.
    cbn [map]. rewrite !uint8_byte. split; reflexivity. }
  destruct E as [E1 E2].
  exists r, ((c ++ map uint8 bytes) ++ WRITE24 v ++ []).
  repeat split; try assumption.
  - rewrite E2. exact R2.
  - rewrite !length_app, length_map. cbn. lia.
  - rewrite O, Nat2Z.id, <- L1, read24_WRITE24_at. unfold v, uint24.
    change 16777215 with (Z.ones 24). rewrite Z.land_ones by lia.
    apply Z.mod_mod. lia.
Qed.

Lemma X14_relocation_witness :
  let st := set_reloc_tmp (Some []) (set_code_tmp (Some []) (set_pass 2 asm_init)) in
  let op := mkOperand OP_ADDR REG_NONE CC_NONE 5 "puts" true in
  exists r code',
    reloc_tmp (snd (emits_abs24 [0xCD] op st)) = Some ([] ++ [r])
    /\ rel_type r = RELOC_ADDR24 /\ rel_section r = SECT_CODE
    /\ rel_offset r = 1
    /\ code_tmp (snd (emits_abs24 [0xCD] op st)) = Some code'
    /\ List.length code' = 4%nat
    /\ Linker.read24 code' (Z.to_nat (rel_offset r)) = 5.
Proof.
  intros st op.
  apply (X14_relocation_points_at_operand [0xCD] op st [] []); try reflexivity.
Defined.

(** ** Definitions in pass 1 *)

(** X15. A name is defined once in pass 1: after a definition of a name of
    at most 63 characters has succeeded there, a second definition of the
    same name is refused with the error "already defined" and changes
    nothing else. *)
Theorem X15_second_definition_is_refused (name : string) (v w : Z) (st : AsmState)
    (Hlen : strlen name <= MAX_LABEL_LEN - 1) (Hpass : pass st = 1)
    (Hok : fst (symbol_define name v st) = 0) :
  symbol_define name w (snd (symbol_define name v st))
  = (-1, asm_error "symbol '%s' already defined" (snd (symbol_define name v st))).
Proof.
  destruct (symbol_define_defines name v st Hlen Hok) as [(s & L & _ & D & _) _].
  pose proof (symbol_define_pass name v st) as P1. rewrite Hpass in P1.
  set (st1 := snd (symbol_define name v st)) in *.
  unfold symbol_named in L. unfold symbol_define.
  destruct (symbol_find st1 name) as [i |]; [| discriminate].
  injection L as L. rewrite L, D, P1. reflexivity.
Qed.

Lemma X15_second_definition_witness :
  symbol_define "start" 8 (snd (symbol_define "start" 4 asm_init))
  = (-1, asm_error "symbol '%s' already defined" (snd (symbol_define "start" 4 asm_init))).
Proof.
  apply (X15_second_definition_is_refused "start" 4 8 asm_init).
  - vm_compute. discriminate.
  - reflexivity.
  - reflexivity.
Defined.

(** ** Local labels *)

Lemma append_inj_l :
  forall a b c, String.append a b = String.append a c -> b = c.
Proof.
  induction a as [| x a IH]; intros b c H; simpl in H; [exact H |].
  injection H as H. apply IH, H.
Qed.

Lemma to_int_inj : forall a b, Z.to_int a = Z.to_int b -> a = b.
Proof.
  intros a b H. rewrite <- (DecimalZ.of_to a), <- (DecimalZ.of_to b), H. reflexivity.
Qed.

Lemma to_int_not_nil :
  forall z, Z.to_int z <> Decimal.Pos Decimal.Nil /\ Z.to_int z <> Decimal.Neg Decimal.Nil.
Proof.
  intros z. split; intros H; pose proof (f_equal Z.of_int H) as H';
    rewrite DecimalZ.of_to in H'; cbn in H'; subst z; discriminate H.
Qed.

Lemma scope_str_inj :
  forall st1 st2, scope_str st1 = scope_str st2 -> local_scope st1 = local_scope st2.
Proof.
  intros st1 st2 H. unfold scope_str in H. apply (append_inj_l ":") in H.
  apply to_int_inj.
  destruct (to_int_not_nil (local_scope st1)) as [P1 N1].
  destruct (to_int_not_nil (local_scope st2)) as [P2 N2].
  pose proof (NilZero.isi _ P1 N1) as I1. pose proof (NilZero.isi _ P2 N2) as I2.
  rewrite H in I1. congruence.
Qed.

Lemma length_string_append :
  forall a b, String.length (String.append a b) = (String.length a + String.length b)%nat.
Proof. induction a as [| c a IH]; intros b; simpl; [reflexivity | rewrite IH; reflexivity]. Qed.

Lemma str_take_prefix :
  forall a b n, (n <= String.length a)%nat -> str_take n (String.append a b) = str_take n a.
Proof.
  induction a as [| c a IH]; intros b n H; simpl in *.
  - destruct n; [destruct b; reflexivity | lia].
  - destruct n as [| n]; [reflexivity |]. simpl. rewrite IH by lia. reflexivity.
Qed.

(** X27. Local labels of different scopes do not clash, unless they are
    too long. While the name, a colon and the number of the scope fit the
    63 characters of a label, [symbol_mangle_local] gives the same local
    label different names in two scopes with different numbers; for a name
    of 63 characters or more the scope is cut off and the name comes out
    the same in every scope. *)
Theorem X27_local_labels_by_scope (name : string) :
  (forall st1 st2,
      local_scope st1 <> local_scope st2 ->
      (String.length (String.append (c_str name) (scope_str st1)) <= 63)%nat ->
      (String.length (String.append (c_str name) (scope_str st2)) <= 63)%nat ->
      symbol_mangle_local st1 name MAX_LABEL_LEN <> symbol_mangle_local st2 name MAX_LABEL_LEN)
  /\ (forall st,
        63 <= strlen name ->
        symbol_mangle_local st name MAX_LABEL_LEN = str_take 63 (c_str name)).
Proof.
  split.
  - intros st1 st2 D F1 F2 E. apply D. apply scope_str_inj.
    unfold symbol_mangle_local in E. change (Z.to_nat (MAX_LABEL_LEN - 1)) with 63%nat in E.
    rewrite !str_take_all in E by assumption.
    apply append_inj_l in E. exact E.
  - intros st L. unfold symbol_mangle_local.
    change (Z.to_nat (MAX_LABEL_LEN - 1)) with 63%nat.
    apply str_take_prefix. unfold strlen in L. lia.
Qed.

Lemma X27_local_labels_witness :
  symbol_mangle_local asm_init "@loop" MAX_LABEL_LEN = "@loop:0"
  /\ symbol_mangle_local asm_init "@loop" MAX_LABEL_LEN
     <> symbol_mangle_local (set_local_scope 1 asm_init) "@loop" MAX_LABEL_LEN.
Proof.
  split; [reflexivity |].
  destruct (X27_local_labels_by_scope "@loop") as [D _].
  apply (D asm_init (set_local_scope 1 asm_init));
    [intros H; discriminate H | vm_compute; lia | vm_compute; lia].
Defined.

End AsmMore.

(** * Further properties of the linker *)

Module LinkerMore.

Import Linker ListFacts LinkerSpec MoreFacts Notions.

(** ** Global symbols are found whatever the case of their letters *)

Lemma lower_not_nul : forall c, Ascii.eqb c NUL = false -> Ascii.eqb (lower c) NUL = false.
Proof.
  intros c H. unfold lower.
  destruct ((65 <=? chr c) && (chr c <=? 90)) eqn:U; [| exact H].
  apply Ascii.eqb_neq. intros E.
  apply (f_equal N_of_ascii) in E. rewrite N_ascii_embedding in E.
  - cbn in E. lia.
  - apply andb_prop in U. destruct U as [_ U]. apply Z.leb_le in U. unfold chr in U. lia.
Qed.

Lemma c_str_lower : forall s, c_str (str_map lower (c_str s)) = str_map lower (c_str s).
Proof.
  induction s as [| c s IH]; simpl; [reflexivity |].
  destruct (Ascii.eqb c NUL) eqn:E; [reflexivity |].
  simpl. rewrite (lower_not_nul c E), IH. reflexivity.
Qed.

Lemma str_casecmp_eq_iff :
  forall a b,
    str_casecmp_eq a b = true <-> str_map lower (c_str a) = str_map lower (c_str b).
Proof.
  intros a b. unfold str_casecmp_eq. rewrite streq_eq, !c_str_lower. reflexivity.
Qed.

Lemma str_casecmp_eq_c_str : forall a b, str_casecmp_eq (c_str a) b = str_casecmp_eq a b.
Proof. intros a b. unfold str_casecmp_eq. rewrite c_str_idem. reflexivity. Qed.

Lemma str_casecmp_eq_sym : forall a b, str_casecmp_eq a b = str_casecmp_eq b a.
Proof. intros a b. unfold str_casecmp_eq. apply streq_sym. Qed.

Lemma sym_hash_lower :
  forall a b, str_map lower (c_str a) = str_map lower (c_str b) -> sym_hash a = sym_hash b.
Proof.
  intros a b H. unfold sym_hash. f_equal.
  generalize 5381. revert H. generalize (c_str a) (c_str b). clear a b.
  induction s as [| x s IH]; intros [| y t] H h; simpl in H; try discriminate; [reflexivity |].
  injection H as H1 H2. cbn. rewrite H1. apply IH, H2.
Qed.

Lemma chain_find_app_hit :
  forall h name s syms i,
    (gs_bucket s =? h) && str_casecmp_eq (gs_name s) name = true ->
    chain_find h name syms i = None ->
    chain_find h name (syms ++ [s]) i = Some (i + List.length syms)%nat.
Proof.
  intros h name s. induction syms as [| x r IH]; intros i H N; simpl in *.
  - rewrite H. f_equal. lia.
  - destruct (chain_find h name r (S i)) as [j |] eqn:E; [discriminate |].
    rewrite (IH (S i) H E). f_equal. lia.
Qed.

(** The lookups after [add_global] has appended a symbol. *)
Lemma add_global_lookup :
  forall name value section obj_index ls,
    strlen name <= 63 ->
    fst (add_global name value section obj_index ls) = 0 ->
    let ls' := snd (add_global name value section obj_index ls) in
    symbols ls'
    = symbols ls ++ [mkGlobalSymbol (c_str name) value section obj_index (sym_hash name)]
    /\ errors ls' = errors ls
    /\ forall other,
         find_global ls' other
         = if str_casecmp_eq other name
           then Some (mkGlobalSymbol (c_str name) value section obj_index (sym_hash name))
           else find_global ls other.
Proof.
  intros name value section obj_index ls Len Ok ls'. subst ls'.
  unfold add_global in *.
  destruct (find_global ls name) eqn:F; [discriminate Ok |].
  destruct (num_globals ls >=? MAX_SYMBOLS); [discriminate Ok |].
  cbn [snd]. rewrite (str_copy_short name 64) by exact Len.
  split; [reflexivity | split; [reflexivity |]].
  intros other. unfold find_global at 1. cbn [symbols set_symbols].
  destruct (str_casecmp_eq other name) eqn:C.
  - assert (M : str_map lower (c_str other) = str_map lower (c_str name))
      by (apply str_casecmp_eq_iff, C).
    assert (N : chain_find (sym_hash other) other (symbols ls) 0 = None).
    { apply find_global_None in F. rewrite (sym_hash_lower other name M).
      revert F. generalize (sym_hash name) 0%nat. generalize (symbols ls).
      induction l as [| x l IH]; intros h i F; simpl in *; [reflexivity |].
      destruct (chain_find h name l (S i)) eqn:E; [discriminate |].
      rewrite (IH h (S i) E).
      assert (Q : str_casecmp_eq (gs_name x) other = str_casecmp_eq (gs_name x) name).
      { unfold str_casecmp_eq, streq. rewrite !c_str_lower, M. reflexivity. }
      rewrite Q. exact F. }
    rewrite chain_find_app_hit; [| | exact N].
    + rewrite nth_error_app2 by lia. replace (0 + _ - _)%nat with 0%nat by lia. reflexivity.
    + cbn [gs_bucket gs_name]. rewrite (sym_hash_lower name other (eq_sym M)), Z.eqb_refl.
      rewrite str_casecmp_eq_c_str, str_casecmp_eq_sym. exact C.
  - rewrite chain_find_app_miss.
    + unfold find_global.
      destruct (chain_find (sym_hash other) other (symbols ls) 0) as [j |] eqn:E;
        [| reflexivity].
      apply nth_error_app1. apply chain_find_bound in E. lia.
    + cbn [gs_bucket gs_name]. rewrite str_casecmp_eq_c_str, str_casecmp_eq_sym, C.
      apply andb_false_r.
Qed.

(** X16. The linker finds a global symbol under its name in any letter
    case. When [add_global] accepts a name of at most 63 characters, every
    name equal to it up to the case of ASCII letters finds the new symbol
    with its value, section and object, every other name finds what it
    found before, and no error is counted; a name that is already found is
    refused as a duplicate with one error and no change to the symbols. *)
Theorem X16_global_symbol_round_trip (name : string) (value section obj_index : Z)
    (ls : LinkerState) (Hlen : strlen name <= 63) :
  (fst (add_global name value section obj_index ls) = 0 ->
   errors (snd (add_global name value section obj_index ls)) = errors ls
   /\ forall other,
        find_global (snd (add_global name value section obj_index ls)) other
        = if str_casecmp_eq other name
          then Some (mkGlobalSymbol (c_str name) value section obj_index (sym_hash name))
          else find_global ls other)
  /\ (find_global ls name <> None ->
      fst (add_global name value section obj_index ls) = -1
      /\ symbols (snd (add_global name value section obj_index ls)) = symbols ls
      /\ errors (snd (add_global name value section obj_index ls)) = errors ls + 1).
Proof.
  split.
  - intros Ok.
    destruct (add_global_lookup name value section obj_index ls Hlen Ok) as (_ & E & L).
    split; [exact E | exact L].
  - intros F. rewrite (add_global_duplicate name value section obj_index ls F).
    repeat split.
Qed.

Lemma X16_global_symbol_witness :
  find_global (snd (add_global "Main" 0x40000 SECT_CODE 0 (linker_init 0x40000))) "MAIN"
  = Some (mkGlobalSymbol "Main" 0x40000 SECT_CODE 0 (sym_hash "Main")).
Proof.
  destruct (X16_global_symbol_round_trip "Main" 0x40000 SECT_CODE 0 (linker_init 0x40000))
    as [R _]; [vm_compute; discriminate |].
  destruct R as [_ L]; [reflexivity |].
  exact (L "MAIN").
Defined.

(** ** The size of the image *)










(** ** The catalogue of a library *)

Lemma byte_at_firstn :
  forall (l : list Z) n i, (i < n)%nat -> byte_at (firstn n l) i = byte_at l i.
Proof.
  intros l n i H. unfold byte_at. f_equal.
  revert l i H. induction n as [| n IH]; intros l i H; [lia |].
  destruct l as [| x l]; [destruct i; reflexivity |].
  destruct i as [| i]; [reflexivity |]. simpl. apply IH. lia.
Qed.

Lemma parse_header_firstn :
  forall l, parse_header (firstn 27 l) = parse_header l.
Proof.
  intros l. unfold parse_header, read24. rewrite !byte_at_firstn by lia. reflexivity.
Qed.

Lemma byte_at_skipn_app :
  forall (pre l : list Z) i, byte_at (skipn (List.length pre) (pre ++ l)) i = byte_at l i.
Proof.
  intros pre l i. rewrite skipn_app, skipn_all, Nat.sub_diag. reflexivity.
Qed.

Lemma read_header_at :
  forall (pre obj post : list Z),
    sizeof_ObjHeader <= Z.of_nat (List.length obj) ->
    exists hb,
      read_at (pre ++ obj ++ post) (Z.of_nat (List.length pre)) sizeof_ObjHeader = Some hb
      /\ parse_header hb = parse_header obj.
Proof.
  intros pre obj post H. unfold read_at, sizeof_ObjHeader in *.
  rewrite !length_app.
  destruct (Z.leb_spec 0 (Z.of_nat (List.length pre))) as [_ | ?]; [| lia].
  destruct (Z.leb_spec (Z.of_nat (List.length pre) + 27)
              (Z.of_nat (List.length pre + (List.length obj + List.length post))))
    as [_ | ?]; [| lia].
  cbn [andb Z.leb]. eexists. split; [reflexivity |].
  rewrite Nat2Z.id, skipn_app, skipn_all, Nat.sub_diag. cbn [skipn app].
  change (Z.to_nat 27) with 27%nat. rewrite parse_header_firstn.
  unfold parse_header, read24.
  rewrite !byte_at_app_l by lia. reflexivity.
Qed.

Lemma scan_library_catalogue :
  forall objs pre acc n,
    Forall well_sized objs ->
    (List.length acc + List.length objs <= Z.to_nat MAX_LIB_OBJECTS)%nat ->
    (List.length objs < n)%nat ->
    scan_library n (pre ++ List.concat objs) (Z.of_nat (List.length pre)) acc
    = Some (acc ++ catalogue objs (Z.of_nat (List.length pre))).
Proof.
  induction objs as [| obj objs IH]; intros pre acc n W C F.
  - destruct n as [| n]; [simpl in F; lia |]. cbn [scan_library List.concat catalogue].
    rewrite !app_nil_r. destruct (Z.ltb_spec (Z.of_nat (List.length pre))
                                    (Z.of_nat (List.length pre))); [lia | reflexivity].
  - destruct n as [| n]; [simpl in F; lia |].
    inversion W as [| o os [M [L S]] W']; subst.
    cbn [scan_library List.concat catalogue].
    destruct (read_header_at pre obj (List.concat objs) L) as (hb & R & P).
    rewrite R, P, M. cbn [negb].
    destruct (Z.ltb_spec (Z.of_nat (List.length pre))
                (Z.of_nat (List.length (pre ++ obj ++ List.concat objs)))) as [_ | G].
    2:{ rewrite !length_app in G. unfold sizeof_ObjHeader in L. lia. }
    destruct (Z.geb_spec (Z.of_nat (List.length acc)) MAX_LIB_OBJECTS) as [G | _].
    { simpl List.length in C. unfold MAX_LIB_OBJECTS in *. lia. }
    rewrite <- S.
    replace (pre ++ obj ++ List.concat objs) with ((pre ++ obj) ++ List.concat objs)
      by (rewrite <- app_assoc; reflexivity).
    replace (Z.of_nat (List.length pre) + Z.of_nat (List.length obj))
      with (Z.of_nat (List.length (pre ++ obj))) by (rewrite length_app; lia).
    rewrite IH; [| exact W' | | simpl in F; lia].
    + rewrite <- app_assoc. reflexivity.
    + rewrite length_app. simpl List.length in *. lia.
Qed.

(** X18. A library is catalogued object by object. When the file holds at
    most [MAX_LIB_OBJECTS] objects one after the other, each with the
    magic number and as long as its header says, [add_library] records
    each object at the offset where it starts, with its length, and not
    yet loaded. *)
Theorem X18_library_catalogue (fs : string -> option (list Z)) (name : string)
    (objs : list (list Z)) (ls : LinkerState)
    (Hroom : num_libraries ls < MAX_LIBRARIES)
    (Hfile : fs name = Some (List.concat objs))
    (Hobjs : Forall well_sized objs)
    (Hcount : Z.of_nat (List.length objs) <= MAX_LIB_OBJECTS) :
  add_library fs name ls
  = (0, set_libraries
          (libraries ls ++ [mkLibraryInfo (str_copy name MAX_FILENAME) (catalogue objs 0)])
          ls).
Proof.
  unfold add_library.
  destruct (Z.geb_spec (num_libraries ls) MAX_LIBRARIES) as [G | _]; [lia |].
  rewrite Hfile.
  pose proof (scan_library_catalogue objs [] [] (Z.to_nat MAX_LIB_OBJECTS + 2) Hobjs) as S.
  cbn [app List.length Z.of_nat] in S. rewrite S.
  - reflexivity.
  - unfold MAX_LIB_OBJECTS in *. lia.
  - unfold MAX_LIB_OBJECTS in *. lia.
Qed.

Lemma X18_library_catalogue_witness :
  let a := Toolchain.object_file [" xdef f"; "f:"; " ret"] in
  let b := Toolchain.object_file [" xdef g"; "g:"; " nop"; " ret"] in
  let fs := Toolchain.files [("lib.a", List.concat [a; b])] in
  add_library fs "lib.a" (linker_init 0)
  = (0, set_libraries
          (libraries (linker_init 0)
           ++ [mkLibraryInfo (str_copy "lib.a" MAX_FILENAME) (catalogue [a; b] 0)])
          (linker_init 0)).
Proof.
  intros a b fs.
  apply (X18_library_catalogue fs "lib.a" [a; b] (linker_init 0)).
  - vm_compute. reflexivity.
  - vm_compute. reflexivity.
  - apply Forall_cons; [| apply Forall_cons; [| apply Forall_nil]];
      (split; [vm_compute; reflexivity
              | split; [vm_compute; discriminate | vm_compute; reflexivity]]).
  - vm_compute. discriminate.
Defined.

(** ** Loading an object *)

Lemma add_global_objects :
  forall name value section obj_index ls,
    objects (snd (add_global name value section obj_index ls)) = objects ls.
Proof.
  intros name value section obj_index ls. unfold add_global.
  destruct (find_global ls name); [reflexivity |].
  destruct (num_globals ls >=? MAX_SYMBOLS); reflexivity.
Qed.

Lemma read_at_inside :
  forall file pos n,
    0 <= pos -> 0 <= n -> pos + n <= Z.of_nat (List.length file) ->
    read_at file pos n = Some (firstn (Z.to_nat n) (skipn (Z.to_nat pos) file)).
Proof.
  intros file pos n P N B. unfold read_at.
  destruct (Z.leb_spec 0 pos) as [_ | ?]; [| lia].
  destruct (Z.leb_spec 0 n) as [_ | ?]; [| lia].
  destruct (Z.leb_spec (pos + n) (Z.of_nat (List.length file))) as [_ | ?]; [| lia].
  reflexivity.
Qed.

(** The symbol loop of [load_object_at] on a file that holds all the
    records: it reads every one and leaves the objects alone. *)
Lemma register_symbols_complete :
  forall n file pos strtab strtab_size obj_index ls,
    0 <= pos ->
    pos + sizeof_ObjSymbol * Z.of_nat n <= Z.of_nat (List.length file) ->
    fst (register_symbols n file pos strtab strtab_size obj_index ls) = true
    /\ objects (snd (register_symbols n file pos strtab strtab_size obj_index ls))
       = objects ls.
Proof.
  induction n as [| n IH]; intros file pos strtab strtab_size obj_index ls P B;
    cbn [register_symbols]; [split; reflexivity |].
  rewrite read_at_inside by (unfold sizeof_ObjSymbol in *; lia).
  match goal with
  | |- context [register_symbols n file ?p strtab strtab_size obj_index ?l] =>
      destruct (IH file p strtab strtab_size obj_index l) as [I1 I2];
      [unfold sizeof_ObjSymbol in *; lia | unfold sizeof_ObjSymbol in *; lia |]
  end.
  split; [exact I1 |]. rewrite I2.
  destruct (_ && _); [apply add_global_objects | reflexivity].
Qed.

(** [load_object_at] on a whole file that holds what its header
    announces: the string table is read, the symbols are registered and the
    object is appended. *)
Lemma load_object_result :
  forall fs name file ls,
    fs name = Some file ->
    num_objects ls < MAX_OBJECTS ->
    let h := parse_header file in
    let obj := object_of_header name 0 h in
    let strtab :=
      if h_strtab_size h >? 0
      then firstn (Z.to_nat (h_strtab_size h)) (skipn (Z.to_nat (strtab_pos obj)) file)
      else [] in
    magic_ok h = true -> h_version h = 3 ->
    sizeof_ObjHeader <= Z.of_nat (List.length file) ->
    0 <= h_code_size h -> 0 <= h_data_size h ->
    0 <= h_num_symbols h < 8388608 ->
    0 <= h_num_relocs h -> 0 <= h_num_externs h -> 0 <= h_strtab_size h ->
    strtab_pos obj + h_strtab_size h <= Z.of_nat (List.length file) ->
    load_object fs name ls
    = (0, set_objects (objects ls ++ [obj])
            (snd (register_symbols (Z.to_nat (h_num_symbols h)) file (sym_pos obj) strtab
                    (h_strtab_size h) (num_objects ls) ls))).
Proof.
  intros fs name file ls F C h obj strtab M V L Hc Hd Hs Hr He Ht B.
  unfold load_object, load_object_at.
  destruct (Z.geb_spec (num_objects ls) MAX_OBJECTS) as [? | _]; [lia |].
  rewrite F.
  assert (R : read_at file 0 sizeof_ObjHeader = Some (firstn 27 file)).
  { rewrite read_at_inside by (unfold sizeof_ObjHeader in *; lia). reflexivity. }
  rewrite R. cbv zeta. rewrite parse_header_firstn. fold h.
  rewrite M, V. cbn [negb Z.eqb Pos.eqb]. fold obj.
  change (strtab_size obj) with (h_strtab_size h).
  assert (St : (if h_strtab_size h >? 0
                then read_at file (strtab_pos obj) (h_strtab_size h)
                else Some []) = Some strtab).
  { subst strtab. destruct (h_strtab_size h >? 0); [| reflexivity].
    assert (P0 : 0 <= strtab_pos obj).
    { unfold obj, object_of_header. cbn [strtab_pos].
      unfold sizeof_ObjHeader, sizeof_ObjSymbol, sizeof_ObjReloc, sizeof_ObjExtern. lia. }
    rewrite read_at_inside by lia. reflexivity. }
  rewrite St.
  assert (N : int24 (num_symbols obj) = h_num_symbols h).
  { change (num_symbols obj) with (h_num_symbols h). unfold int24.
    rewrite Z.mod_small by lia. lia. }
  rewrite N.
  match goal with
  | |- context [register_symbols ?n file ?pos strtab ?sz ?idx ls] =>
      destruct (register_symbols_complete n file pos strtab sz idx ls) as [R1 R2]
  end.
  - unfold obj, object_of_header. cbn [sym_pos]. unfold sizeof_ObjHeader. lia.
  - rewrite Z2Nat.id by lia.
    unfold obj, object_of_header in *. cbn [sym_pos strtab_pos] in *.
    unfold sizeof_ObjHeader, sizeof_ObjSymbol, sizeof_ObjReloc, sizeof_ObjExtern in *. lia.
  - destruct (register_symbols _ file _ strtab _ _ ls) as [[|] ls1]; [| discriminate].
    cbn [snd] in *. rewrite R2. reflexivity.
Qed.

Lemma load_object_complete :
  forall fs name file ls,
    fs name = Some file ->
    num_objects ls < MAX_OBJECTS ->
    let h := parse_header file in
    let obj := object_of_header name 0 h in
    magic_ok h = true -> h_version h = 3 ->
    sizeof_ObjHeader <= Z.of_nat (List.length file) ->
    0 <= h_code_size h -> 0 <= h_data_size h ->
    0 <= h_num_symbols h < 8388608 ->
    0 <= h_num_relocs h -> 0 <= h_num_externs h -> 0 <= h_strtab_size h ->
    strtab_pos obj + h_strtab_size h <= Z.of_nat (List.length file) ->
    exists ls',
      load_object fs name ls = (0, ls')
      /\ objects ls' = objects ls ++ [obj].
Proof.
  intros fs name file ls F C h obj M V L Hc Hd Hs Hr He Ht B.
  eexists. split.
  - apply (load_object_result fs name file ls F C M V L Hc Hd Hs Hr He Ht B).
  - reflexivity.
Qed.

(** ** Where the code and the data of an object go *)

Lemma list_update_middle :
  forall (A : Type) (f : A -> A) (a : list A) (y : A) (d : list A),
    list_update (List.length a) f (a ++ y :: d) = a ++ f y :: d.
Proof.
  intros A f a y d. induction a as [| x a IH]; simpl; [reflexivity |].
  rewrite IH. reflexivity.
Qed.

Lemma blit_over :
  forall bytes (a c d : list Z),
    List.length c = List.length bytes ->
    blit (a ++ c ++ d) (Z.of_nat (List.length a)) bytes = a ++ map uint8 bytes ++ d.
Proof.
  induction bytes as [| b bytes IH]; intros a c d L.
  - destruct c; [reflexivity | discriminate].
  - destruct c as [| y c]; [discriminate |]. cbn [blit map app].
    assert (P : poke (a ++ y :: c ++ d) (Z.of_nat (List.length a)) (uint8 b)
                = (a ++ [uint8 b]) ++ c ++ d).
    { unfold poke. destruct (Z.ltb_spec (Z.of_nat (List.length a)) 0); [lia |].
      rewrite Nat2Z.id, list_update_middle, <- app_assoc. reflexivity. }
    rewrite P.
    replace (Z.of_nat (List.length a) + 1) with (Z.of_nat (List.length (a ++ [uint8 b])))
      by (rewrite length_app; simpl; lia).
    rewrite IH by (simpl in L; lia).
    rewrite <- app_assoc. reflexivity.
Qed.

Lemma blit_inside :
  forall bytes buf pos,
    0 <= pos -> pos + Z.of_nat (List.length bytes) <= Z.of_nat (List.length buf) ->
    blit buf pos bytes
    = firstn (Z.to_nat pos) buf ++ map uint8 bytes
      ++ skipn (Z.to_nat pos + List.length bytes) buf.
Proof.
  intros bytes buf pos P B.
  set (a := firstn (Z.to_nat pos) buf).
  set (c := firstn (List.length bytes) (skipn (Z.to_nat pos) buf)).
  set (d := skipn (Z.to_nat pos + List.length bytes) buf).
  assert (La : List.length a = Z.to_nat pos)
    by (unfold a; rewrite length_firstn; lia).
  assert (Lc : List.length c = List.length bytes)
    by (unfold c; rewrite length_firstn, length_skipn; lia).
  assert (E : buf = a ++ c ++ d).
  { unfold a, c, d.
    rewrite <- (firstn_skipn (Z.to_nat pos) buf) at 1. f_equal.
    rewrite <- (firstn_skipn (List.length bytes) (skipn (Z.to_nat pos) buf)) at 1.
    f_equal. rewrite skipn_skipn. f_equal. lia. }
  assert (Ep : pos = Z.of_nat (List.length a)) by lia.
  rewrite E at 1. rewrite Ep. apply blit_over. exact Lc.
Qed.

(** X28. An object without relocations is copied to its place. In the
    image under construction [link_object] writes the code of the object,
    as read from its file, from the offset of its code base in the code
    buffer, and its data from the offset of its data base in the data
    buffer; every other byte of the two buffers stays, and the state of
    the linker is not changed. *)
Theorem X28_object_is_copied_to_its_place (file : list Z) (obj : ObjectInfo)
    (ls : LinkerState) (img : Image)
    (Hrel : num_relocs obj = 0)
    (Hcode : 0 < code_size obj) (Hdata : 0 < data_size obj) :
  let code := read_some file (code_pos obj) (code_size obj) in
  let data := read_some file (data_pos obj) (data_size obj) in
  let cpos := uint24 (code_base obj - base_addr ls) in
  let dpos := uint24 (data_base obj - base_addr ls - total_code ls) in
  cpos + Z.of_nat (List.length code) <= Z.of_nat (List.length (code_buf img)) ->
  dpos + Z.of_nat (List.length data) <= Z.of_nat (List.length (data_buf img)) ->
  link_object file obj (ls, img)
  = (ls,
     mkImage
       (firstn (Z.to_nat cpos) (code_buf img) ++ map uint8 code
        ++ skipn (Z.to_nat cpos + List.length code) (code_buf img))
       (firstn (Z.to_nat dpos) (data_buf img) ++ map uint8 data
        ++ skipn (Z.to_nat dpos + List.length data) (data_buf img))).
Proof.
  intros code data cpos dpos Bc Bd. unfold link_object. rewrite Hrel.
  cbn [Z.to_nat reloc_loop].
  destruct (Z.gtb_spec (code_size obj) 0) as [_ | ?]; [| lia].
  destruct (Z.gtb_spec (data_size obj) 0) as [_ | ?]; [| lia].
  fold code data cpos dpos.
  rewrite (blit_inside code (code_buf img) cpos), (blit_inside data (data_buf img) dpos);
    try assumption; try (apply uint24_nonneg).
  reflexivity.
Qed.

Lemma X28_object_is_copied_witness :
  let obj := mkObjectInfo "a.o" 2 3 0 0 0 0 0 1 2 0 0 2 0 0 0 0 in
  link_object [17; 18; 33; 34; 35] obj
    (linker_init 0, mkImage [0; 0; 0; 0] [0; 0; 0; 0; 0; 0])
  = (linker_init 0, mkImage [0; 17; 18; 0] [0; 0; 33; 34; 35; 0]).
Proof.
  intros obj.
  apply (X28_object_is_copied_to_its_place [17; 18; 33; 34; 35] obj (linker_init 0)
           (mkImage [0; 0; 0; 0] [0; 0; 0; 0; 0; 0])).
  - reflexivity.
  - reflexivity.
  - reflexivity.
  - vm_compute. discriminate.
  - vm_compute. discriminate.
Defined.

End LinkerMore.

(** * The assembler and the linker on the same object file *)

Module ToolchainMore.

Import ListFacts MoreFacts Notions.

(** ** 24-bit fields *)

(** X1. A 24-bit field is read back as it was written: [READ24] on the
    three bytes that [WRITE24] stores for a value, wherever they lie in a
    file, gives the value as a 24-bit number. *)
Theorem X1_read24_write24_round_trip (pre post : list Z) (v : Z) :
  Linker.read24 (pre ++ WRITE24 v ++ post) (List.length pre) = uint24 v.
Proof. exact (read24_WRITE24_at pre post v). Qed.

(** ** The header *)

Lemma read24_obj_header :
  forall st n s,
    let h := Asm.obj_header st n s in
    Linker.read24 h 6 = uint24 (Asm.code_size st)
    /\ Linker.read24 h 9 = uint24 (Asm.data_size st)
    /\ Linker.read24 h 12 = uint24 (Asm.bss_size st)
    /\ Linker.read24 h 15 = uint24 n
    /\ Linker.read24 h 18 = uint24 (Asm.num_relocs st)
    /\ Linker.read24 h 21 = uint24 (Asm.num_externs st)
    /\ Linker.read24 h 24 = uint24 s.
Proof.
  intros st n s h. subst h. unfold Asm.obj_header.
  repeat split.
  - apply (read24_WRITE24_at [_; _; _; _; _; _]).
  - apply (read24_WRITE24_at [_; _; _; _; _; _; _; _; _]).
  - apply (read24_WRITE24_at [_; _; _; _; _; _; _; _; _; _; _; _]).
  - apply (read24_WRITE24_at [_; _; _; _; _; _; _; _; _; _; _; _; _; _; _]).
  - apply (read24_WRITE24_at [_; _; _; _; _; _; _; _; _; _; _; _; _; _; _; _; _; _]).
  - apply (read24_WRITE24_at
             [_; _; _; _; _; _; _; _; _; _; _; _; _; _; _; _; _; _; _; _; _]).
  - apply (read24_WRITE24_at
             [_; _; _; _; _; _; _; _; _; _; _; _; _; _; _; _; _; _; _; _; _; _; _; _] []).
Qed.

Lemma parse_header_app :
  forall h rest,
    List.length h = 27%nat -> Linker.parse_header (h ++ rest) = Linker.parse_header h.
Proof.
  intros h rest L. unfold Linker.parse_header.
  rewrite !read24_app_l by lia. rewrite !byte_at_app_l by lia. reflexivity.
Qed.

Lemma uint24_idem : forall x, uint24 (uint24 x) = uint24 x.
Proof. intros x. unfold uint24. apply Z.mod_mod. lia. Qed.

(** The header the linker reads from the output of the assembler. *)
Lemma header_of_output :
  forall st,
    let h := Linker.parse_header (Asm.asm_output st) in
    Linker.magic_ok h = true
    /\ Linker.h_version h = OBJ_VERSION
    /\ Linker.h_code_size h = uint24 (Asm.code_size st)
    /\ Linker.h_data_size h = uint24 (Asm.data_size st)
    /\ Linker.h_bss_size h = uint24 (Asm.bss_size st)
    /\ Linker.h_num_symbols h = uint24 (Z.of_nat (List.length (Asm.exported st)))
    /\ Linker.h_num_relocs h = uint24 (Asm.num_relocs st)
    /\ Linker.h_num_externs h = uint24 (Asm.num_externs st)
    /\ Linker.h_strtab_size h
       = uint24 (names_length (map Asm.sym_name (Asm.exported st))
                 + names_length (Asm.externs st)).
Proof.
  intros st h. subst h.
  destruct (AsmMore.asm_output_parts st) as (sr & ss & er & es & E1 & E2 & ->).
  rewrite parse_header_app by reflexivity.
  match goal with
  | |- context [Asm.obj_header st ?n ?s] =>
      destruct (read24_obj_header st n s) as [H1 [H2 [H3 [H4 [H5 [H6 H7]]]]]]
  end.
  pose proof (AsmMore.length_symbol_records (Asm.exported st) 0) as [_ L2].
  rewrite E1 in L2. cbn [snd] in L2.
  pose proof (AsmMore.length_extern_records (Asm.externs st) 0 (Z.of_nat (List.length ss)))
    as [_ L4].
  rewrite E2 in L4. cbn [snd] in L4.
  assert (T : uint24 (uint24 (Z.of_nat (List.length (ss ++ es))))
              = uint24 (names_length (map Asm.sym_name (Asm.exported st))
                        + names_length (Asm.externs st))).
  { rewrite uint24_idem, length_app, Nat2Z.inj_add, L2, L4. reflexivity. }
  rewrite T in H7.
  unfold Linker.parse_header.
  cbn [Linker.h_version Linker.h_code_size Linker.h_data_size Linker.h_bss_size
       Linker.h_num_symbols Linker.h_num_relocs Linker.h_num_externs Linker.h_strtab_size].
  split; [reflexivity | split; [reflexivity |]].
  repeat split; assumption.
Qed.

(** X4. The linker reads from the header of an object file what the
    assembler wrote there: the magic number and version 3 are accepted,
    and the sizes of code, data and BSS, the numbers of exported symbols,
    relocations and externals and the size of the string table come back
    as 24-bit numbers. *)
Theorem X4_header_round_trip (st : Asm.AsmState) :
  let h := Linker.parse_header (Asm.asm_output st) in
  Linker.magic_ok h = true
  /\ Linker.h_version h = OBJ_VERSION
  /\ Linker.h_code_size h = uint24 (Asm.code_size st)
  /\ Linker.h_data_size h = uint24 (Asm.data_size st)
  /\ Linker.h_bss_size h = uint24 (Asm.bss_size st)
  /\ Linker.h_num_symbols h = uint24 (Z.of_nat (List.length (Asm.exported st)))
  /\ Linker.h_num_relocs h = uint24 (Asm.num_relocs st)
  /\ Linker.h_num_externs h = uint24 (Asm.num_externs st)
  /\ Linker.h_strtab_size h
     = uint24 (names_length (map Asm.sym_name (Asm.exported st))
               + names_length (Asm.externs st)).
Proof. exact (header_of_output st). Qed.

(** ** Assembled objects *)

Lemma uint24_fits : forall x, 0 <= x < 16777216 -> uint24 x = x.
Proof. intros x H. unfold uint24. apply Z.mod_small. exact H. Qed.

Lemma names_length_nonneg : forall names, 0 <= names_length names.
Proof.
  induction names as [| n names IH]; simpl; [lia |].
  unfold strlen. lia.
Qed.

Lemma exported_length :
  forall st, (List.length (Asm.exported st) <= List.length (Asm.symbols st))%nat.
Proof. intros st. unfold Asm.exported. apply filter_length_le. Qed.

(** The counts of the final state of an assembly from [asm_init]. *)
Lemma assembled_counts :
  forall fs depth filename st,
    Asm.asm_file fs depth filename Asm.asm_init = Some (0, st) ->
    scratch_in_step st
    /\ Z.of_nat (List.length (Asm.exported st)) <= Asm.MAX_SYMBOLS
    /\ Asm.num_externs st <= Asm.MAX_EXTERNS.
Proof.
  intros fs depth filename st H.
  split; [eapply AsmMore.asm_file_scratch, H |].
  destruct (AsmMore.asm_file_within_capacity fs depth filename Asm.asm_init 0 st H)
    as [S E].
  - split; vm_compute; discriminate.
  - split; [| exact E]. pose proof (exported_length st). unfold Asm.num_symbols in S. lia.
Qed.

Lemma assembled_object_sized :
  forall obj,
    assembled_object obj -> Z.of_nat (List.length obj) < 16777216 -> well_sized obj.
Proof.
  intros obj (fs & depth & filename & st & H & ->) Small.
  destruct (assembled_counts fs depth filename st H) as (Sc & Ns & Ne).
  pose proof (AsmMore.length_asm_output st Sc) as L.
  destruct (header_of_output st) as (M & _ & Hc & Hd & _ & Hs & Hr & He & Ht).
  destruct Sc as (c & d & r & _ & _ & _ & Ec & Ed & Er).
  pose proof (AsmMore.uint24_le _ (Nat2Z.is_nonneg (List.length c))) as Bc.
  pose proof (AsmMore.uint24_le _ (Nat2Z.is_nonneg (List.length d))) as Bd.
  pose proof (AsmMore.uint24_le _ (Nat2Z.is_nonneg (List.length r))) as Br.
  rewrite <- Ec in Bc. rewrite <- Ed in Bd. rewrite <- Er in Br.
  pose proof (names_length_nonneg (map Asm.sym_name (Asm.exported st))) as N1.
  pose proof (names_length_nonneg (Asm.externs st)) as N2.
  assert (Ne0 : 0 <= Asm.num_externs st) by (unfold Asm.num_externs; lia).
  unfold well_sized.
  unfold sizeof_ObjHeader, sizeof_ObjSymbol, sizeof_ObjReloc, sizeof_ObjExtern,
    Asm.MAX_SYMBOLS, Asm.MAX_EXTERNS in *.
  split; [exact M | split; [lia |]].
  unfold Linker.object_size.
  rewrite Hc, Hd, Hs, Hr, He, Ht.
  rewrite (uint24_fits (Asm.code_size st)) by lia.
  rewrite (uint24_fits (Asm.data_size st)) by lia.
  rewrite (uint24_fits (Z.of_nat (List.length (Asm.exported st)))) by lia.
  rewrite (uint24_fits (Asm.num_relocs st)) by lia.
  rewrite (uint24_fits (Asm.num_externs st)) by lia.
  rewrite (uint24_fits (names_length _ + names_length _)) by lia.
  unfold sizeof_ObjHeader, sizeof_ObjSymbol, sizeof_ObjReloc, sizeof_ObjExtern.
  rewrite uint24_fits by lia. lia.
Qed.

(** X19. The linker measures an assembled object as the assembler wrote
    it: for an object file of less than 16 MB that an assembly from
    [asm_init] has written, the magic number is accepted and the size the
    linker computes from the header is the length of the file, so that in
    a library the next object is looked for where this one ends. *)
Theorem X19_assembled_object_is_well_sized (fs : string -> option string) (depth : nat)
    (filename : string) (st : Asm.AsmState)
    (Hrun : Asm.asm_file fs depth filename Asm.asm_init = Some (0, st))
    (Hsmall : Z.of_nat (List.length (Asm.asm_output st)) < 16777216) :
  Linker.magic_ok (Linker.parse_header (Asm.asm_output st)) = true
  /\ sizeof_ObjHeader <= Z.of_nat (List.length (Asm.asm_output st))
  /\ Linker.object_size (Linker.parse_header (Asm.asm_output st))
     = Z.of_nat (List.length (Asm.asm_output st)).
Proof.
  destruct (assembled_object_sized (Asm.asm_output st)) as (M & L & S).
  - exists fs, depth, filename, st. split; [exact Hrun | reflexivity].
  - exact Hsmall.
  - split; [exact M | split; [exact L | symmetry; exact S]].
Qed.

Lemma X19_assembled_object_witness :
  let src := Asm.source [" xref puts"; " xdef start"; "start:"; " call puts"; " ret"] in
  let st := Asm.state_after (Asm.asm_file (Asm.one_file src) 0 "in.asm") Asm.asm_init in
  Linker.magic_ok (Linker.parse_header (Asm.asm_output st)) = true
  /\ sizeof_ObjHeader <= Z.of_nat (List.length (Asm.asm_output st))
  /\ Linker.object_size (Linker.parse_header (Asm.asm_output st))
     = Z.of_nat (List.length (Asm.asm_output st)).
Proof.
  intros src st.
  apply (X19_assembled_object_is_well_sized (Asm.one_file src) 0%nat "in.asm" st).
  - vm_compute. reflexivity.
  - vm_compute. reflexivity.
Defined.

(** X20. The linker loads what the assembler writes. An object file of
    less than 16 MB written by an assembly from [asm_init] is accepted by
    [load_object] while there is room for an object: the call returns 0
    and appends one object whose sizes and counts are those of the final
    state of the assembly. *)
Theorem X20_assembled_object_loads (afs : string -> option string) (depth : nat)
    (filename : string) (st : Asm.AsmState)
    (lfs : string -> option (list Z)) (name : string) (ls : Linker.LinkerState)
    (Hrun : Asm.asm_file afs depth filename Asm.asm_init = Some (0, st))
    (Hsmall : Z.of_nat (List.length (Asm.asm_output st)) < 16777216)
    (Hfile : lfs name = Some (Asm.asm_output st))
    (Hroom : Linker.num_objects ls < Linker.MAX_OBJECTS) :
  exists ls' obj,
    Linker.load_object lfs name ls = (0, ls')
    /\ Linker.objects ls' = Linker.objects ls ++ [obj]
    /\ Linker.code_size obj = Asm.code_size st
    /\ Linker.data_size obj = Asm.data_size st
    /\ Linker.bss_size obj = uint24 (Asm.bss_size st)
    /\ Linker.num_symbols obj = Z.of_nat (List.length (Asm.exported st))
    /\ Linker.num_relocs obj = Asm.num_relocs st
    /\ Linker.num_externs obj = Asm.num_externs st.
Proof.
  destruct (assembled_counts afs depth filename st Hrun) as (Sc & Ns & Ne).
  pose proof (AsmMore.length_asm_output st Sc) as L.
  destruct (header_of_output st) as (M & V & Hc & Hd & Hb & Hs & Hr & He & Ht).
  destruct Sc as (c & d & r & _ & _ & _ & Ec & Ed & Er).
  pose proof (AsmMore.uint24_le _ (Nat2Z.is_nonneg (List.length c))) as Bc.
  pose proof (AsmMore.uint24_le _ (Nat2Z.is_nonneg (List.length d))) as Bd.
  pose proof (AsmMore.uint24_le _ (Nat2Z.is_nonneg (List.length r))) as Br.
  rewrite <- Ec in Bc. rewrite <- Ed in Bd. rewrite <- Er in Br.
  pose proof (names_length_nonneg (map Asm.sym_name (Asm.exported st))) as N1.
  pose proof (names_length_nonneg (Asm.externs st)) as N2.
  assert (Ne0 : 0 <= Asm.num_externs st) by (unfold Asm.num_externs; lia).
  unfold sizeof_ObjHeader, sizeof_ObjSymbol, sizeof_ObjReloc, sizeof_ObjExtern,
    Asm.MAX_SYMBOLS, Asm.MAX_EXTERNS in *.
  rewrite (uint24_fits (Asm.code_size st)) in Hc by lia.
  rewrite (uint24_fits (Asm.data_size st)) in Hd by lia.
  rewrite (uint24_fits (Z.of_nat (List.length (Asm.exported st)))) in Hs by lia.
  rewrite (uint24_fits (Asm.num_relocs st)) in Hr by lia.
  rewrite (uint24_fits (Asm.num_externs st)) in He by lia.
  rewrite (uint24_fits (names_length _ + names_length _)) in Ht by lia.
  destruct (LinkerMore.load_object_complete lfs name (Asm.asm_output st) ls Hfile Hroom)
    as (ls' & Ld & Ob); try (rewrite ?Hc, ?Hd, ?Hs, ?Hr, ?He, ?Ht; lia).
  - exact M.
  - exact V.
  - unfold sizeof_ObjHeader. lia.
  - unfold Linker.object_of_header. cbn [Linker.strtab_pos].
    rewrite Hc, Hd, Hs, Hr, He, Ht.
    unfold sizeof_ObjHeader, sizeof_ObjSymbol, sizeof_ObjReloc, sizeof_ObjExtern. lia.
  - exists ls'. eexists. split; [exact Ld | split; [exact Ob |]].
    unfold Linker.object_of_header.
    cbn [Linker.code_size Linker.data_size Linker.bss_size Linker.num_symbols
         Linker.num_relocs Linker.num_externs].
    repeat split; assumption.
Qed.

Lemma X20_assembled_object_loads_witness :
  let src := Asm.source [" xref puts"; " xdef start"; "start:"; " call puts"; " ret"] in
  let st := Asm.state_after (Asm.asm_file (Asm.one_file src) 0 "in.asm") Asm.asm_init in
  let lfs := Toolchain.files [("in.o", Asm.asm_output st)] in
  exists ls' obj,
    Linker.load_object lfs "in.o" (Linker.linker_init 0x40000) = (0, ls')
    /\ Linker.objects ls' = Linker.objects (Linker.linker_init 0x40000) ++ [obj]
    /\ Linker.code_size obj = Asm.code_size st
    /\ Linker.data_size obj = Asm.data_size st
    /\ Linker.bss_size obj = uint24 (Asm.bss_size st)
    /\ Linker.num_symbols obj = Z.of_nat (List.length (Asm.exported st))
    /\ Linker.num_relocs obj = Asm.num_relocs st
    /\ Linker.num_externs obj = Asm.num_externs st.
Proof.
  intros src st lfs.
  apply (X20_assembled_object_loads (Asm.one_file src) 0%nat "in.asm" st lfs "in.o"
           (Linker.linker_init 0x40000)).
  - vm_compute. reflexivity.
  - vm_compute. reflexivity.
  - vm_compute. reflexivity.
  - vm_compute. reflexivity.
Defined.

(** ** Exported symbols *)

Lemma chr_range : forall c, 0 <= chr c < 256.
Proof.
  intros c. unfold chr. pose proof (N_ascii_bounded c) as B. lia.
Qed.

Lemma ascii_of_chr : forall c, ascii_of_N (Z.to_N (uint8 (chr c))) = c.
Proof.
  intros c. unfold uint8. rewrite Z.mod_small by apply chr_range.
  unfold chr. rewrite N2Z.id. apply ascii_N_embedding.
Qed.

(** A name is read back from the string table up to its terminator. *)
Lemma cstring_at_name :
  forall (spre : list Z) name rest,
    Linker.cstring_at (spre ++ Asm.name_bytes name ++ rest) (Z.of_nat (List.length spre))
    = c_str name.
Proof.
  intros spre name rest. unfold Linker.cstring_at, Asm.name_bytes.
  rewrite Nat2Z.id, skipn_app, skipn_all, Nat.sub_diag. cbn [skipn app].
  rewrite <- app_assoc. cbn [app].
  rewrite <- (c_str_idem name) at 2.
  induction (c_str name) as [| c s IH]; [reflexivity |].
  unfold Linker.string_of_bytes in *. cbn [list_ascii_of_string map app string_of_list_ascii].
  rewrite ascii_of_chr. cbn [c_str].
  destruct (Ascii.eqb c NUL); [reflexivity |]. rewrite IH. reflexivity.
Qed.

Lemma length_name_bytes_pos : forall name, (0 < List.length (Asm.name_bytes name))%nat.
Proof. intros name. unfold Asm.name_bytes. rewrite length_app. simpl. lia. Qed.

(** The symbol loop of [load_object_at] on the records [symbol_records]
    writes: every record is read back and registered. *)
Lemma register_symbols_records :
  forall syms pre post spre spost off idx ls,
    off = Z.of_nat (List.length spre) ->
    let recs := fst (Asm.symbol_records syms off) in
    let strs := snd (Asm.symbol_records syms off) in
    Z.of_nat (List.length (spre ++ strs ++ spost)) < 16777216 ->
    Linker.register_symbols (List.length syms) (pre ++ recs ++ post)
      (Z.of_nat (List.length pre)) (spre ++ strs ++ spost)
      (Z.of_nat (List.length (spre ++ strs ++ spost))) idx ls
    = (true, register_exports syms idx ls).
Proof.
  induction syms as [| s syms IH]; intros pre post spre spost off idx ls Off recs strs Small;
    [reflexivity |].
  subst recs strs. cbn [Asm.symbol_records] in *.
  specialize (IH (pre ++ WRITE24 off ++ [Asm.sym_section s; Asm.sym_flags s]
                      ++ WRITE24 (Asm.sym_value s) ++ [0; 0])
                 post (spre ++ Asm.name_bytes (Asm.sym_name s)) spost
                 (off + Z.of_nat (List.length (Asm.name_bytes (Asm.sym_name s)))) idx).
  destruct (Asm.symbol_records syms _) as [recs strs]. cbn [fst snd] in *.
  cbn [List.length Linker.register_symbols register_exports fold_left].
  set (rec := WRITE24 off ++ [Asm.sym_section s; Asm.sym_flags s]
              ++ WRITE24 (Asm.sym_value s) ++ [0; 0]) in *.
  assert (Lr : List.length rec = 10%nat) by reflexivity.
  assert (R : Linker.read_at (pre ++ (rec ++ recs) ++ post) (Z.of_nat (List.length pre))
                sizeof_ObjSymbol = Some rec).
  { rewrite LinkerMore.read_at_inside.
    - rewrite Nat2Z.id, skipn_app, skipn_all, Nat.sub_diag. cbn [skipn app].
      rewrite <- app_assoc. change (Z.to_nat sizeof_ObjSymbol) with (List.length rec).
      rewrite firstn_app, firstn_all, Nat.sub_diag. cbn [firstn]. rewrite app_nil_r.
      reflexivity.
    - lia.
    - unfold sizeof_ObjSymbol. lia.
    - rewrite !length_app, Lr. unfold sizeof_ObjSymbol. lia. }
  change (WRITE24 off ++ [Asm.sym_section s; Asm.sym_flags s]
             ++ WRITE24 (Asm.sym_value s) ++ [0; 0] ++ recs)
    with (rec ++ recs).
  rewrite R.
  assert (F0 : Linker.read24 rec 0 = off).
  { assert (U : uint24 off = off).
    { unfold uint24. apply Z.mod_small. rewrite !length_app in Small. lia. }
    rewrite <- U. unfold rec.
    exact (read24_WRITE24_at []
             ([Asm.sym_section s; Asm.sym_flags s] ++ WRITE24 (Asm.sym_value s) ++ [0; 0])
             off). }
  assert (F5 : Linker.read24 rec 5 = uint24 (Asm.sym_value s)).
  { unfold rec.
    exact (read24_WRITE24_at (WRITE24 off ++ [Asm.sym_section s; Asm.sym_flags s])
             [0; 0] (Asm.sym_value s)). }
  assert (F3 : Linker.byte_at rec 3 = uint8 (Asm.sym_section s)) by reflexivity.
  rewrite F0, F5, F3.
  pose proof (length_name_bytes_pos (Asm.sym_name s)) as Np.
  assert (C : (Z.of_nat (List.length (spre ++ (Asm.name_bytes (Asm.sym_name s) ++ strs) ++ spost)) >? 0)
              && (off <? Z.of_nat (List.length (spre ++ (Asm.name_bytes (Asm.sym_name s) ++ strs) ++ spost)))
              = true).
  { rewrite !length_app. apply andb_true_intro. split; [apply Z.gtb_lt | apply Z.ltb_lt]; lia. }
  rewrite C.
  replace (spre ++ (Asm.name_bytes (Asm.sym_name s) ++ strs) ++ spost)
    with (spre ++ Asm.name_bytes (Asm.sym_name s) ++ (strs ++ spost))
    by (rewrite <- !app_assoc; reflexivity).
  rewrite Off at 1. rewrite cstring_at_name.
  replace (pre ++ (rec ++ recs) ++ post) with ((pre ++ rec) ++ recs ++ post)
    by (rewrite <- !app_assoc; reflexivity).
  replace (Z.of_nat (List.length pre) + sizeof_ObjSymbol)
    with (Z.of_nat (List.length (pre ++ rec)))
    by (rewrite length_app, Lr; unfold sizeof_ObjSymbol; lia).
  replace (spre ++ Asm.name_bytes (Asm.sym_name s) ++ strs ++ spost)
    with ((spre ++ Asm.name_bytes (Asm.sym_name s)) ++ strs ++ spost)
    by (rewrite <- !app_assoc; reflexivity).
  apply IH.
  - rewrite length_app. lia.
  - rewrite <- !app_assoc. rewrite <- !app_assoc in Small. exact Small.
Qed.

(** X21. What the assembler exports is what the linker registers. Loading
    an object file of less than 16 MB written by an assembly from
    [asm_init] appends the object and calls [add_global] once for each
    exported symbol, in the order of the symbol table, with the name of
    the symbol, its value as a 24-bit number, its section and the index of
    the object. *)
Theorem X21_exports_are_registered (afs : string -> option string) (depth : nat)
    (filename : string) (st : Asm.AsmState)
    (lfs : string -> option (list Z)) (name : string) (ls : Linker.LinkerState)
    (Hrun : Asm.asm_file afs depth filename Asm.asm_init = Some (0, st))
    (Hsmall : Z.of_nat (List.length (Asm.asm_output st)) < 16777216)
    (Hfile : lfs name = Some (Asm.asm_output st))
    (Hroom : Linker.num_objects ls < Linker.MAX_OBJECTS) :
  Linker.load_object lfs name ls
  = (0, Linker.set_objects
          (Linker.objects ls
           ++ [Linker.object_of_header name 0 (Linker.parse_header (Asm.asm_output st))])
          (register_exports (Asm.exported st) (Linker.num_objects ls) ls)).
Proof.
  destruct (assembled_counts afs depth filename st Hrun) as (Sc & Ns & Ne).
  pose proof (AsmMore.length_asm_output st Sc) as L.
  destruct (header_of_output st) as (M & V & Hc & Hd & Hb & Hs & Hr & He & Ht).
  destruct Sc as (c & d & r & Tc & Td & Tr & Ec & Ed & Er).
  pose proof (AsmMore.uint24_le _ (Nat2Z.is_nonneg (List.length c))) as Bc.
  pose proof (AsmMore.uint24_le _ (Nat2Z.is_nonneg (List.length d))) as Bd.
  pose proof (AsmMore.uint24_le _ (Nat2Z.is_nonneg (List.length r))) as Br.
  rewrite <- Ec in Bc. rewrite <- Ed in Bd. rewrite <- Er in Br.
  pose proof (names_length_nonneg (map Asm.sym_name (Asm.exported st))) as N1.
  pose proof (names_length_nonneg (Asm.externs st)) as N2.
  assert (Ne0 : 0 <= Asm.num_externs st) by (unfold Asm.num_externs; lia).
  unfold sizeof_ObjHeader, sizeof_ObjSymbol, sizeof_ObjReloc, sizeof_ObjExtern,
    Asm.MAX_SYMBOLS, Asm.MAX_EXTERNS in *.
  rewrite (uint24_fits (Asm.code_size st)) in Hc by lia.
  rewrite (uint24_fits (Asm.data_size st)) in Hd by lia.
  rewrite (uint24_fits (Z.of_nat (List.length (Asm.exported st)))) in Hs by lia.
  rewrite (uint24_fits (Asm.num_relocs st)) in Hr by lia.
  rewrite (uint24_fits (Asm.num_externs st)) in He by lia.
  rewrite (uint24_fits (names_length _ + names_length _)) in Ht by lia.
  rewrite (LinkerMore.load_object_result lfs name (Asm.asm_output st) ls Hfile Hroom);
    try (rewrite ?Hc, ?Hd, ?Hs, ?Hr, ?He, ?Ht; lia); try assumption.
  2:{ unfold sizeof_ObjHeader. lia. }
  2:{ unfold Linker.object_of_header. cbn [Linker.strtab_pos].
      rewrite Hc, Hd, Hs, Hr, He, Ht.
      unfold sizeof_ObjHeader, sizeof_ObjSymbol, sizeof_ObjReloc, sizeof_ObjExtern. lia. }
  f_equal. f_equal.
  unfold Linker.object_of_header. cbn [Linker.sym_pos Linker.strtab_pos].
  rewrite Hc, Hd, Hs, Hr, He, Ht, Nat2Z.id.
  destruct (AsmMore.asm_output_parts st) as (sr & ss & er & es & E1 & E2 & E).
  pose proof (AsmMore.length_symbol_records (Asm.exported st) 0) as [L1 L2].
  rewrite E1 in L1, L2. cbn [fst snd] in L1, L2.
  pose proof (AsmMore.length_extern_records (Asm.externs st) 0 (Z.of_nat (List.length ss)))
    as [L3 L4].
  rewrite E2 in L3, L4. cbn [fst snd] in L3, L4.
  pose proof (AsmMore.length_scratch_bytes c _ Ec) as Lc.
  pose proof (AsmMore.length_scratch_bytes d _ Ed) as Ld.
  pose proof (AsmMore.length_reloc_records st r Tr Er) as Lr.
  rewrite <- Tc in Lc. rewrite <- Td in Ld.
  unfold sizeof_ObjHeader, sizeof_ObjSymbol, sizeof_ObjReloc, sizeof_ObjExtern in *.
  set (hdr := Asm.obj_header st (Z.of_nat (List.length (Asm.exported st)))
                (uint24 (Z.of_nat (List.length (ss ++ es))))) in *.
  assert (Lh : Z.of_nat (List.length hdr) = 27) by reflexivity.
  set (code := Asm.scratch_bytes (Asm.code_tmp st) (Asm.code_size st)) in *.
  set (data := Asm.scratch_bytes (Asm.data_tmp st) (Asm.data_size st)) in *.
  set (rel := Asm.reloc_records st) in *.
  assert (Strtab :
            (if names_length (map Asm.sym_name (Asm.exported st))
                + names_length (Asm.externs st) >? 0
             then firstn (Z.to_nat (names_length (map Asm.sym_name (Asm.exported st))
                                    + names_length (Asm.externs st)))
                    (skipn (Z.to_nat (0 + 27 + Asm.code_size st + Asm.data_size st
                                      + Z.of_nat (List.length (Asm.exported st)) * 10
                                      + Asm.num_relocs st * 8 + Asm.num_externs st * 6))
                       (Asm.asm_output st))
             else []) = [] ++ ss ++ es).
  { destruct (Z.gtb_spec (names_length (map Asm.sym_name (Asm.exported st))
                          + names_length (Asm.externs st)) 0) as [G | G].
    - rewrite E.
      replace (hdr ++ code ++ data ++ sr ++ rel ++ er ++ ss ++ es)
        with ((hdr ++ code ++ data ++ sr ++ rel ++ er) ++ ss ++ es)
        by (rewrite <- !app_assoc; reflexivity).
      replace (Z.to_nat (0 + 27 + Asm.code_size st + Asm.data_size st
                         + Z.of_nat (List.length (Asm.exported st)) * 10
                         + Asm.num_relocs st * 8 + Asm.num_externs st * 6))
        with (List.length (hdr ++ code ++ data ++ sr ++ rel ++ er))
        by (rewrite !length_app; unfold Asm.num_externs in *; lia).
      rewrite skipn_app, skipn_all, Nat.sub_diag. cbn [skipn app].
      apply firstn_all2. rewrite length_app. lia.
    - assert (Z0 : List.length (ss ++ es) = 0%nat) by (rewrite length_app; lia).
      apply length_zero_iff_nil in Z0. rewrite Z0. reflexivity. }
  rewrite Strtab.
  replace (names_length (map Asm.sym_name (Asm.exported st)) + names_length (Asm.externs st))
    with (Z.of_nat (List.length ([] ++ ss ++ es)))
    by (cbn [app]; rewrite length_app; lia).
  rewrite E.
  replace (hdr ++ code ++ data ++ sr ++ rel ++ er ++ ss ++ es)
    with ((hdr ++ code ++ data) ++ sr ++ (rel ++ er ++ ss ++ es))
    by (rewrite <- !app_assoc; reflexivity).
  replace (0 + 27 + Asm.code_size st + Asm.data_size st)
    with (Z.of_nat (List.length (hdr ++ code ++ data)))
    by (rewrite !length_app; lia).
  pose proof (register_symbols_records (Asm.exported st) (hdr ++ code ++ data)
                (rel ++ er ++ ss ++ es) [] es 0 (Linker.num_objects ls) ls eq_refl) as RS.
  rewrite E1 in RS. cbn [fst snd] in RS. rewrite RS; [reflexivity |].
  cbn [app]. rewrite length_app. lia.
Qed.

Lemma X21_exports_are_registered_witness :
  let src := Asm.source [" xref puts"; " xdef start"; "start:"; " call puts"; " ret"] in
  let st := Asm.state_after (Asm.asm_file (Asm.one_file src) 0 "in.asm") Asm.asm_init in
  let lfs := Toolchain.files [("in.o", Asm.asm_output st)] in
  let ls := Linker.linker_init 0x40000 in
  Linker.load_object lfs "in.o" ls
  = (0, Linker.set_objects
          (Linker.objects ls
           ++ [Linker.object_of_header "in.o" 0 (Linker.parse_header (Asm.asm_output st))])
          (register_exports (Asm.exported st) (Linker.num_objects ls) ls)).
Proof.
  intros src st lfs ls.
  apply (X21_exports_are_registered (Asm.one_file src) 0%nat "in.asm" st lfs "in.o" ls).
  - vm_compute. reflexivity.
  - vm_compute. reflexivity.
  - vm_compute. reflexivity.
  - vm_compute. reflexivity.
Defined.

(** ** Externals *)

(** The loop of [get_object_externals_fp] on the records [extern_records]
    writes: every name is read back. *)
Lemma read_externals_records :
  forall names pre post spre spost i off max_ext acc,
    off = Z.of_nat (List.length spre) ->
    let recs := fst (Asm.extern_records names i off) in
    let strs := snd (Asm.extern_records names i off) in
    Z.of_nat (List.length (spre ++ strs ++ spost)) < 16777216 ->
    Z.of_nat (List.length acc + List.length names) <= max_ext ->
    Linker.read_externals (List.length names) (pre ++ recs ++ post)
      (Z.of_nat (List.length pre)) (spre ++ strs ++ spost)
      (Z.of_nat (List.length (spre ++ strs ++ spost))) max_ext acc
    = acc ++ map (fun n => str_copy (c_str n) 64) names.
Proof.
  induction names as [| n names IH];
    intros pre post spre spost i off max_ext acc Off recs strs Small Room.
  - cbn [List.length Linker.read_externals map]. rewrite app_nil_r. reflexivity.
  - subst recs strs. cbn [Asm.extern_records] in *.
    specialize (IH (pre ++ WRITE24 off ++ WRITE24 i) post (spre ++ Asm.name_bytes n) spost
                  (i + 1) (off + Z.of_nat (List.length (Asm.name_bytes n))) max_ext).
    destruct (Asm.extern_records names _ _) as [recs strs]. cbn [fst snd] in *.
    cbn [List.length Linker.read_externals map].
    destruct (Z.ltb_spec (Z.of_nat (List.length acc)) max_ext) as [_ | G];
      [| simpl List.length in Room; lia].
    set (rec := WRITE24 off ++ WRITE24 i) in *.
    assert (Lr : List.length rec = 6%nat) by reflexivity.
    change (WRITE24 off ++ WRITE24 i ++ recs) with (rec ++ recs).
    assert (R : Linker.read_at (pre ++ (rec ++ recs) ++ post) (Z.of_nat (List.length pre))
                  sizeof_ObjExtern = Some rec).
    { rewrite LinkerMore.read_at_inside.
      - rewrite Nat2Z.id, skipn_app, skipn_all, Nat.sub_diag. cbn [skipn app].
        rewrite <- app_assoc. change (Z.to_nat sizeof_ObjExtern) with (List.length rec).
        rewrite firstn_app, firstn_all, Nat.sub_diag. cbn [firstn]. rewrite app_nil_r.
        reflexivity.
      - lia.
      - unfold sizeof_ObjExtern. lia.
      - rewrite !length_app, Lr. unfold sizeof_ObjExtern. lia. }
    rewrite R.
    assert (F0 : Linker.read24 rec 0 = off).
    { assert (U : uint24 off = off).
      { unfold uint24. apply Z.mod_small. rewrite !length_app in Small. lia. }
      rewrite <- U. unfold rec. exact (read24_WRITE24_at [] (WRITE24 i) off). }
    rewrite F0.
    pose proof (length_name_bytes_pos n) as Np.
    destruct (Z.ltb_spec off (Z.of_nat (List.length (spre ++ (Asm.name_bytes n ++ strs) ++ spost))))
      as [_ | G]; [| rewrite !length_app in G; lia].
    replace (spre ++ (Asm.name_bytes n ++ strs) ++ spost)
      with (spre ++ Asm.name_bytes n ++ (strs ++ spost))
      by (rewrite <- !app_assoc; reflexivity).
    rewrite Off at 1. rewrite cstring_at_name.
    replace (pre ++ (rec ++ recs) ++ post) with ((pre ++ rec) ++ recs ++ post)
      by (rewrite <- !app_assoc; reflexivity).
    replace (Z.of_nat (List.length pre) + sizeof_ObjExtern)
      with (Z.of_nat (List.length (pre ++ rec)))
      by (rewrite length_app, Lr; unfold sizeof_ObjExtern; lia).
    replace (spre ++ Asm.name_bytes n ++ strs ++ spost)
      with ((spre ++ Asm.name_bytes n) ++ strs ++ spost)
      by (rewrite <- !app_assoc; reflexivity).
    rewrite IH.
    + rewrite <- app_assoc. reflexivity.
    + rewrite length_app. lia.
    + rewrite <- !app_assoc. rewrite <- !app_assoc in Small. exact Small.
    + rewrite length_app. simpl List.length in *. lia.
Qed.

Lemma names_length_positive :
  forall names, names <> [] -> 0 < names_length names.
Proof.
  intros [| n names] H; [contradiction |]. simpl.
  pose proof (names_length_nonneg names). unfold strlen. lia.
Qed.

(** X25. The linker reads back the externals the assembler declared. From
    an object file of less than 16 MB written by an assembly from
    [asm_init], [get_object_externals_fp] returns the names of the list of
    externals of the assembler, all of them and in their order. *)
Theorem X25_externals_are_read_back (afs : string -> option string) (depth : nat)
    (filename : string) (st : Asm.AsmState) (name : string)
    (Hrun : Asm.asm_file afs depth filename Asm.asm_init = Some (0, st))
    (Hsmall : Z.of_nat (List.length (Asm.asm_output st)) < 16777216) :
  Linker.get_object_externals_fp (Asm.asm_output st)
    (Linker.object_of_header name 0 (Linker.parse_header (Asm.asm_output st))) 256
  = map c_str (Asm.externs st).
Proof.
  destruct (assembled_counts afs depth filename st Hrun) as (Sc & Ns & Ne).
  assert (Nf : names_fit st).
  { apply (AsmMore.asm_file_names_fit afs depth filename Asm.asm_init 0 st Hrun).
    split; constructor. }
  pose proof (AsmMore.length_asm_output st Sc) as L.
  destruct (header_of_output st) as (M & V & Hc & Hd & Hb & Hs & Hr & He & Ht).
  destruct Sc as (c & d & r & Tc & Td & Tr & Ec & Ed & Er).
  pose proof (AsmMore.uint24_le _ (Nat2Z.is_nonneg (List.length c))) as Bc.
  pose proof (AsmMore.uint24_le _ (Nat2Z.is_nonneg (List.length d))) as Bd.
  pose proof (AsmMore.uint24_le _ (Nat2Z.is_nonneg (List.length r))) as Br.
  rewrite <- Ec in Bc. rewrite <- Ed in Bd. rewrite <- Er in Br.
  pose proof (names_length_nonneg (map Asm.sym_name (Asm.exported st))) as N1.
  pose proof (names_length_nonneg (Asm.externs st)) as N2.
  assert (Ne0 : 0 <= Asm.num_externs st) by (unfold Asm.num_externs; lia).
  unfold sizeof_ObjHeader, sizeof_ObjSymbol, sizeof_ObjReloc, sizeof_ObjExtern,
    Asm.MAX_SYMBOLS, Asm.MAX_EXTERNS in *.
  rewrite (uint24_fits (Asm.code_size st)) in Hc by lia.
  rewrite (uint24_fits (Asm.data_size st)) in Hd by lia.
  rewrite (uint24_fits (Z.of_nat (List.length (Asm.exported st)))) in Hs by lia.
  rewrite (uint24_fits (Asm.num_relocs st)) in Hr by lia.
  rewrite (uint24_fits (Asm.num_externs st)) in He by lia.
  rewrite (uint24_fits (names_length _ + names_length _)) in Ht by lia.
  unfold Linker.get_object_externals_fp, Linker.object_of_header.
  cbn [Linker.strtab_size Linker.num_externs Linker.strtab_pos Linker.extern_pos].
  rewrite Hc, Hd, Hs, Hr, He, Ht.
  destruct (Asm.externs st) as [| e0 exts] eqn:Ex.
  { unfold Asm.num_externs. rewrite Ex. cbn [List.length Z.of_nat Z.eqb].
    rewrite orb_true_r. reflexivity. }
  rewrite <- Ex in *.
  assert (Xp : 0 < names_length (Asm.externs st)).
  { apply names_length_positive. rewrite Ex. discriminate. }
  assert (Np : 0 < Asm.num_externs st).
  { unfold Asm.num_externs. rewrite Ex. simpl List.length. lia. }
  destruct (Z.eqb_spec (names_length (map Asm.sym_name (Asm.exported st))
                        + names_length (Asm.externs st)) 0) as [? | _]; [lia |].
  destruct (Z.eqb_spec (Asm.num_externs st) 0) as [? | _]; [lia |].
  cbn [orb].
  destruct (AsmMore.asm_output_parts st) as (sr & ss & er & es & E1 & E2 & E).
  pose proof (AsmMore.length_symbol_records (Asm.exported st) 0) as [L1 L2].
  rewrite E1 in L1, L2. cbn [fst snd] in L1, L2.
  pose proof (AsmMore.length_extern_records (Asm.externs st) 0 (Z.of_nat (List.length ss)))
    as [L3 L4].
  rewrite E2 in L3, L4. cbn [fst snd] in L3, L4.
  pose proof (AsmMore.length_scratch_bytes c _ Ec) as Lc.
  pose proof (AsmMore.length_scratch_bytes d _ Ed) as Ld.
  pose proof (AsmMore.length_reloc_records st r Tr Er) as Lr.
  rewrite <- Tc in Lc. rewrite <- Td in Ld.
  unfold sizeof_ObjHeader, sizeof_ObjSymbol, sizeof_ObjReloc, sizeof_ObjExtern in *.
  set (hdr := Asm.obj_header st (Z.of_nat (List.length (Asm.exported st)))
                (uint24 (Z.of_nat (List.length (ss ++ es))))) in *.
  assert (Lh : Z.of_nat (List.length hdr) = 27) by reflexivity.
  set (code := Asm.scratch_bytes (Asm.code_tmp st) (Asm.code_size st)) in *.
  set (data := Asm.scratch_bytes (Asm.data_tmp st) (Asm.data_size st)) in *.
  set (rel := Asm.reloc_records st) in *.
  assert (Strtab :
            Linker.read_at (Asm.asm_output st)
              (0 + 27 + Asm.code_size st + Asm.data_size st
               + Z.of_nat (List.length (Asm.exported st)) * 10
               + Asm.num_relocs st * 8 + Asm.num_externs st * 6)
              (names_length (map Asm.sym_name (Asm.exported st))
               + names_length (Asm.externs st))
            = Some (ss ++ es ++ [])).
  { rewrite LinkerMore.read_at_inside by (unfold Asm.num_externs in *; lia).
    f_equal. rewrite E.
    replace (hdr ++ code ++ data ++ sr ++ rel ++ er ++ ss ++ es)
      with ((hdr ++ code ++ data ++ sr ++ rel ++ er) ++ ss ++ es)
      by (rewrite <- !app_assoc; reflexivity).
    replace (Z.to_nat (0 + 27 + Asm.code_size st + Asm.data_size st
                       + Z.of_nat (List.length (Asm.exported st)) * 10
                       + Asm.num_relocs st * 8 + Asm.num_externs st * 6))
      with (List.length (hdr ++ code ++ data ++ sr ++ rel ++ er))
      by (rewrite !length_app; unfold Asm.num_externs in *; lia).
    rewrite skipn_app, skipn_all, Nat.sub_diag. cbn [skipn app]. rewrite app_nil_r.
    apply firstn_all2. rewrite length_app. lia. }
  rewrite Strtab.
  replace (names_length (map Asm.sym_name (Asm.exported st)) + names_length (Asm.externs st))
    with (Z.of_nat (List.length (ss ++ es ++ [])))
    by (rewrite app_nil_r, length_app; lia).
  rewrite E.
  replace (hdr ++ code ++ data ++ sr ++ rel ++ er ++ ss ++ es)
    with ((hdr ++ code ++ data ++ sr ++ rel) ++ er ++ (ss ++ es))
    by (rewrite <- !app_assoc; reflexivity).
  replace (0 + 27 + Asm.code_size st + Asm.data_size st
           + Z.of_nat (List.length (Asm.exported st)) * 10 + Asm.num_relocs st * 8)
    with (Z.of_nat (List.length (hdr ++ code ++ data ++ sr ++ rel)))
    by (rewrite !length_app; lia).
  assert (I : int24 (Asm.num_externs st) = Asm.num_externs st).
  { unfold int24. rewrite Z.mod_small by lia. lia. }
  rewrite I. unfold Asm.num_externs at 1. rewrite Nat2Z.id.
  pose proof (read_externals_records (Asm.externs st) (hdr ++ code ++ data ++ sr ++ rel)
                (ss ++ es) ss [] 0 (Z.of_nat (List.length ss)) 256 [] eq_refl) as RE.
  rewrite E2 in RE. cbn [fst snd] in RE. rewrite RE.
  - cbn [app]. apply map_ext_in. intros e He'.
    destruct Nf as [_ Nx]. rewrite Forall_forall in Nx.
    rewrite str_copy_short; [apply c_str_idem |].
    unfold strlen. rewrite c_str_idem. apply (Nx e He').
  - rewrite app_nil_r, length_app. lia.
  - cbn [List.length]. unfold Asm.num_externs in Ne. lia.
Qed.

Lemma X25_externals_witness :
  let src := Asm.source [" xref puts, exit"; " call puts"; " jp exit"] in
  let st := Asm.state_after (Asm.asm_file (Asm.one_file src) 0 "in.asm") Asm.asm_init in
  Linker.get_object_externals_fp (Asm.asm_output st)
    (Linker.object_of_header "in.o" 0 (Linker.parse_header (Asm.asm_output st))) 256
  = map c_str (Asm.externs st).
Proof.
  intros src st.
  apply (X25_externals_are_read_back (Asm.one_file src) 0%nat "in.asm" st "in.o").
  - vm_compute. reflexivity.
  - vm_compute. reflexivity.
Defined.

(** ** Relocation records *)

Lemma READ16_bytes :
  forall v, Z.lor (Z.land v 255) (Z.shiftl (Z.land (Z.shiftr v 8) 255) 8) = v mod 65536.
Proof.
  intros v. change 65536 with (2 ^ 16). rewrite <- Z.land_ones by lia.
  change 255 with (Z.ones 8).
  apply Z.bits_inj'. intros n Hn.
  rewrite Z.lor_spec, !Z.land_spec.
  destruct (Z.ltb_spec n 8) as [L8 | G8].
  - rewrite (Z.shiftl_spec_low _ 8 n) by lia.
    rewrite !Z.ones_spec_low by lia. rewrite !andb_true_r, orb_false_r. reflexivity.
  - rewrite (Z.ones_spec_high 8 n) by lia. rewrite andb_false_r. cbn [orb].
    rewrite Z.shiftl_spec by lia. rewrite Z.land_spec, Z.shiftr_spec by lia.
    replace (n - 8 + 8) with n by lia.
    destruct (Z.ltb_spec n 16) as [L16 | G16].
    + rewrite (Z.ones_spec_low 8 (n - 8)) by lia.
      rewrite (Z.ones_spec_low 16 n) by lia. reflexivity.
    + rewrite (Z.ones_spec_high 8 (n - 8)) by lia.
      rewrite (Z.ones_spec_high 16 n) by lia. reflexivity.
Qed.

(** X26. The linker reads from a relocation record what the assembler put
    there: the offset as a 24-bit number, the section and the target
    section as bytes and the index of the external as a 16-bit number. The
    type of the relocation is written but never read: two records that
    differ in it alone are applied alike. *)
Theorem X26_relocation_record_round_trip (r : Asm.Relocation) :
  List.length (Asm.reloc_record r) = 8%nat
  /\ Linker.read24 (Asm.reloc_record r) 0 = uint24 (Asm.rel_offset r)
  /\ Linker.byte_at (Asm.reloc_record r) 3 = uint8 (Asm.rel_section r)
  /\ Linker.byte_at (Asm.reloc_record r) 5 = uint8 (Asm.rel_target_sect r)
  /\ Linker.read16 (Asm.reloc_record r) 6 = Asm.rel_ext_index r mod 65536
  /\ forall type obj strtab ext_tab acc,
       Linker.apply_reloc obj strtab ext_tab
         (Asm.reloc_record
            (Asm.mkRelocation (Asm.rel_offset r) (Asm.rel_section r) type
               (Asm.rel_target_sect r) (Asm.rel_ext_index r))) acc
       = Linker.apply_reloc obj strtab ext_tab (Asm.reloc_record r) acc.
Proof.
  split; [reflexivity |].
  split.
  { exact (read24_WRITE24_at []
             [Asm.rel_section r; Asm.rel_type r; Asm.rel_target_sect r;
              Z.land (Asm.rel_ext_index r) 255;
              Z.land (Z.shiftr (Asm.rel_ext_index r) 8) 255]
             (Asm.rel_offset r)). }
  split; [reflexivity |]. split; [reflexivity |].
  split.
  { unfold Linker.read16, Linker.byte_at, Asm.reloc_record, WRITE24.
    cbn [app nth Nat.add]. rewrite !uint8_byte. apply READ16_bytes. }
  intros type obj strtab ext_tab [ls img]. reflexivity.
Qed.

End ToolchainMore.

(** * Further properties of the two command lines *)

Module MainMore.

Import MoreFacts Notions.

(** ** The name of the object file *)

Lemma length_append :
  forall a b, String.length (String.append a b) = (String.length a + String.length b)%nat.
Proof. induction a as [| c a IH]; intros b; simpl; [reflexivity | rewrite IH; reflexivity]. Qed.

Lemma append_assoc :
  forall a b c, String.append (String.append a b) c = String.append a (String.append b c).
Proof. induction a as [| x a IH]; intros b c; simpl; [reflexivity | rewrite IH; reflexivity]. Qed.

Lemma str_take_append :
  forall a b, str_take (String.length a) (String.append a b) = a.
Proof. induction a as [| c a IH]; intros b; simpl; [destruct b | rewrite IH]; reflexivity. Qed.

Lemma c_str_no_nul : forall s, no_nul s = true -> c_str s = s.
Proof.
  induction s as [| c s IH]; simpl; intros H; [reflexivity |].
  apply andb_prop in H. destruct H as [H1 H2].
  apply negb_true_iff in H1. rewrite H1, IH by exact H2. reflexivity.
Qed.

Lemma no_nul_append :
  forall a b, no_nul (String.append a b) = no_nul a && no_nul b.
Proof.
  induction a as [| c a IH]; intros b; simpl; [reflexivity |].
  rewrite IH. apply andb_assoc.
Qed.

Lemma plain_no_nul : forall s, plain s = true -> no_nul s = true.
Proof.
  induction s as [| c s IH]; simpl; intros H; [reflexivity |].
  apply andb_prop in H. destruct H as [H1 H2].
  rewrite (IH H2), andb_true_r.
  apply negb_true_iff in H1. apply orb_false_elim in H1. destruct H1 as [_ H1].
  rewrite H1. reflexivity.
Qed.

(** The scan of [change_extension] goes on behind a prefix from the state
    it has reached, and passes a plain part without a change. *)
Lemma find_dot_append :
  forall a b i dot,
    AsMain.find_dot (String.append a b) i dot
    = AsMain.find_dot b (i + String.length a) (fst (AsMain.find_dot a i dot)).
Proof.
  induction a as [| c a IH]; intros b i dot; simpl.
  - rewrite Nat.add_0_r. reflexivity.
  - rewrite IH. f_equal. lia.
Qed.

Lemma find_dot_plain :
  forall s i dot, plain s = true -> AsMain.find_dot s i dot = (dot, (i + String.length s)%nat).
Proof.
  induction s as [| c s IH]; intros i dot H; simpl in *.
  - rewrite Nat.add_0_r. reflexivity.
  - apply andb_prop in H. destruct H as [H1 H2].
    apply negb_true_iff in H1.
    apply orb_false_elim in H1. destruct H1 as [H1 _].
    apply orb_false_elim in H1. destruct H1 as [H1 Hb].
    apply orb_false_elim in H1. destruct H1 as [Hd Hs].
    rewrite Hd, Hs, Hb. cbn [orb]. rewrite IH by exact H2. f_equal. lia.
Qed.

Lemma find_dot_length :
  forall s i dot, snd (AsMain.find_dot s i dot) = (i + String.length s)%nat.
Proof.
  induction s as [| c s IH]; intros i dot; simpl.
  - rewrite Nat.add_0_r. reflexivity.
  - rewrite IH. lia.
Qed.

Lemma find_dot_bound :
  forall s i dot d,
    fst (AsMain.find_dot s i dot) = Some d ->
    dot = Some d \/ (i <= d < i + String.length s)%nat.
Proof.
  induction s as [| c s IH]; intros i dot d H; simpl in *; [left; exact H |].
  apply IH in H. destruct H as [H | H]; [| right; lia].
  destruct (Ascii.eqb c "/" || Ascii.eqb c "\"); [discriminate |].
  destruct (Ascii.eqb c "."); [injection H as <-; right; lia | left; exact H].
Qed.

Lemma length_str_take_min :
  forall n s, String.length (str_take n s) = Nat.min n (String.length s).
Proof.
  induction n as [| n IH]; intros [| c s]; simpl; try reflexivity. rewrite IH. reflexivity.
Qed.

(** [change_extension] when the base fits: the base is the source up to
    the dot the scan has found, or the whole source. *)
Lemma change_extension_base :
  forall src newext maxlen,
    no_nul src = true ->
    let b := match fst (AsMain.find_dot src 0 None) with
             | Some d => d
             | None => String.length src
             end in
    Z.of_nat b <= maxlen - 4 ->
    AsMain.change_extension src newext maxlen
    = String.append (str_take b src)
        (str_take (Z.to_nat (maxlen - 1 - Z.of_nat b)) (c_str newext)).
Proof.
  intros src newext maxlen N b L. unfold AsMain.change_extension.
  rewrite (c_str_no_nul src N).
  pose proof (find_dot_length src 0 None) as Ln.
  destruct (AsMain.find_dot src 0 None) as [dot len]. cbn [fst snd] in *.
  assert (E : (match dot with Some d => Z.of_nat d | None => Z.of_nat len end) = Z.of_nat b).
  { subst b. destruct dot; [reflexivity |]. rewrite Ln. reflexivity. }
  rewrite E. destruct (Z.gtb_spec (Z.of_nat b) (maxlen - 4)); [lia |].
  rewrite Nat2Z.id. reflexivity.
Qed.

Lemma find_dot_extension :
  forall stem old,
    plain old = true ->
    fst (AsMain.find_dot (String.append stem (String "." old)) 0 None)
    = Some (String.length stem).
Proof.
  intros stem old P. rewrite find_dot_append. cbn [AsMain.find_dot].
  change (Ascii.eqb "." ".") with true. cbn [Ascii.eqb orb].
  replace (Ascii.eqb "." "/" || Ascii.eqb "." "\") with false by reflexivity.
  rewrite find_dot_plain by exact P. reflexivity.
Qed.

Lemma find_dot_separator :
  forall dir sep file,
    sep = "/"%char \/ sep = "\"%char ->
    plain file = true ->
    fst (AsMain.find_dot (String.append dir (String sep file)) 0 None) = None.
Proof.
  intros dir sep file S P. rewrite find_dot_append. cbn [AsMain.find_dot].
  assert (E : Ascii.eqb sep "/" || Ascii.eqb sep "\" = true)
    by (destruct S as [-> | ->]; reflexivity).
  rewrite E. rewrite find_dot_plain by exact P. reflexivity.
Qed.

Lemma change_extension_length :
  forall src newext maxlen,
    4 <= maxlen ->
    Z.of_nat (String.length (AsMain.change_extension src newext maxlen)) <= maxlen - 1.
Proof.
  intros src newext maxlen Hmax. unfold AsMain.change_extension.
  pose proof (find_dot_length (c_str src) 0 None) as Ln.
  destruct (AsMain.find_dot (c_str src) 0 None) as [dot len]. cbn [snd] in Ln.
  set (b0 := match dot with Some d => Z.of_nat d | None => Z.of_nat len end).
  assert (B0 : 0 <= b0) by (subst b0; destruct dot; lia).
  rewrite length_append, !length_str_take_min.
  destruct (Z.gtb_spec b0 (maxlen - 4)); lia.
Qed.

(** X22. The default name of the object file. For a buffer of at least 4
    characters [change_extension] never fills more than the buffer. When
    the base fits, a source name that ends in a dot and an extension
    without a dot or a separator gets the new extension in place of the
    old one; a name whose last part, behind a separator or from the start,
    has no dot gets the new extension appended, whatever dots the
    directories before it hold. *)
Theorem X22_change_extension (newext : string) (maxlen : Z) (Hmax : 4 <= maxlen) :
  (forall src,
      Z.of_nat (String.length (AsMain.change_extension src newext maxlen)) <= maxlen - 1)
  /\ (forall stem old,
        no_nul stem = true -> plain old = true ->
        Z.of_nat (String.length stem) <= maxlen - 4 ->
        AsMain.change_extension (String.append stem (String "." old)) newext maxlen
        = String.append stem
            (str_take (Z.to_nat (maxlen - 1 - Z.of_nat (String.length stem)))
               (c_str newext)))
  /\ (forall file,
        plain file = true ->
        Z.of_nat (String.length file) <= maxlen - 4 ->
        AsMain.change_extension file newext maxlen
        = String.append file
            (str_take (Z.to_nat (maxlen - 1 - Z.of_nat (String.length file)))
               (c_str newext)))
  /\ (forall dir sep file,
        no_nul dir = true -> sep = "/"%char \/ sep = "\"%char -> plain file = true ->
        Z.of_nat (String.length (String.append dir (String sep file))) <= maxlen - 4 ->
        AsMain.change_extension (String.append dir (String sep file)) newext maxlen
        = String.append (String.append dir (String sep file))
            (str_take
               (Z.to_nat (maxlen - 1
                          - Z.of_nat (String.length (String.append dir (String sep file)))))
               (c_str newext))).
Proof.
  split; [| split; [| split]].
  - intros src. apply change_extension_length, Hmax.
  - intros stem old Ns P L.
    assert (N : no_nul (String.append stem (String "." old)) = true).
    { rewrite no_nul_append, Ns. cbn [no_nul andb]. rewrite (plain_no_nul old P).
      reflexivity. }
    pose proof (change_extension_base _ newext maxlen N) as C. cbv zeta in C.
    rewrite (find_dot_extension stem old P) in C.
    rewrite C by exact L. rewrite str_take_append. reflexivity.
  - intros file P L.
    pose proof (change_extension_base file newext maxlen (plain_no_nul file P)) as C.
    cbv zeta in C. rewrite (find_dot_plain file 0 None P) in C. cbn [fst] in C.
    rewrite C by exact L.
    rewrite str_take_all by lia. reflexivity.
  - intros dir sep file Nd S P L.
    assert (N : no_nul (String.append dir (String sep file)) = true).
    { rewrite no_nul_append, Nd. cbn [no_nul andb]. rewrite (plain_no_nul file P).
      destruct S as [-> | ->]; reflexivity. }
    pose proof (change_extension_base _ newext maxlen N) as C. cbv zeta in C.
    rewrite (find_dot_separator dir sep file S P) in C.
    rewrite C by exact L.
    rewrite str_take_all by lia. reflexivity.
Qed.

Lemma X22_change_extension_witness :
  AsMain.change_extension "src/main.asm" ".o" 256 = "src/main.o"
  /\ AsMain.change_extension "v1.2/main" ".o" 256 = "v1.2/main.o".
Proof.
  destruct (X22_change_extension ".o" 256) as (_ & R & _ & A); [lia |].
  split.
  - apply (R "src/main" "asm"); [reflexivity | reflexivity | simpl; lia].
  - apply (A "v1.2" "/"%char "main"); [reflexivity | left; reflexivity | reflexivity |].
    simpl. lia.
Defined.

(** ** The search for a library *)

(** X23. The path of a library. [find_and_add_library] builds the path of
    [lib<name>.a] in a directory within the 255 characters of its buffer,
    whatever the lengths of the directory and of the name. When directory
    and name are short enough the path is the directory, a slash unless
    the directory is empty or ends in a separator, "lib", the name and
    ".a". The directories are tried in the order of the command line: the
    first one that holds the file gives the library, the name itself is
    opened only when none does, and when that fails too the call returns
    -1 and adds no library. *)
Theorem X23_library_search (fs : string -> option (list Z)) (name : string)
    (ls : Linker.LinkerState) :
  (forall dir, (String.length (LdMain.library_path dir name) <= 255)%nat)
  /\ (forall dir,
        no_nul dir = true -> no_nul name = true ->
        (String.length dir + String.length name + 6 <= 255)%nat ->
        LdMain.library_path dir name
        = String.append dir
            (String.append
               (if Nat.eqb (String.length dir) 0 then ""
                else if Ascii.eqb (LdMain.last_char dir) "/"
                        || Ascii.eqb (LdMain.last_char dir) "\"
                     then "" else "/")
               (String.append "lib" (String.append name ".a"))))
  /\ (forall before dir after,
        Forall (fun d => fs (LdMain.library_path d name) = None) before ->
        fs (LdMain.library_path dir name) <> None ->
        LdMain.find_and_add_library fs (before ++ dir :: after) name ls
        = Linker.add_library fs (LdMain.library_path dir name) ls)
  /\ (forall libdirs,
        Forall (fun d => fs (LdMain.library_path d name) = None) libdirs ->
        LdMain.find_and_add_library fs libdirs name ls
        = match fs name with
          | Some _ => Linker.add_library fs name ls
          | None => (-1, Linker.message "error: cannot find library '%s'" ls)
          end).
Proof.
  split; [| split; [| split]].
  - intros dir. unfold LdMain.library_path. cbv zeta.
    unfold Linker.MAX_FILENAME.
    set (p1 := str_take (Z.to_nat (256 - 1)) (c_str dir)).
    assert (L1 : (String.length p1 <= 255)%nat).
    { subst p1. rewrite length_str_take_min. lia. }
    set (p2 := if (Z.of_nat (String.length p1) >? 0)
                  && negb (Ascii.eqb (LdMain.last_char p1) "/")
                  && negb (Ascii.eqb (LdMain.last_char p1) "\")
               then if Z.of_nat (String.length p1) <? 256 - 1
                    then String.append p1 "/" else p1
               else p1).
    assert (L2 : (String.length p2 <= 255)%nat).
    { subst p2. destruct (_ && _); [| exact L1].
      destruct (Z.ltb_spec (Z.of_nat (String.length p1)) (256 - 1)); [| exact L1].
      rewrite length_append. simpl. lia. }
    set (p3 := if Z.of_nat (String.length p2) + 3 <? 256 then String.append p2 "lib" else p2).
    assert (L3 : (String.length p3 <= 255)%nat).
    { subst p3. destruct (Z.ltb_spec (Z.of_nat (String.length p2) + 3) 256); [| exact L2].
      rewrite length_append. simpl. lia. }
    set (p4 := String.append p3
                 (str_take (Z.to_nat (256 - 1 - Z.of_nat (String.length p3))) (c_str name))).
    assert (L4 : (String.length p4 <= 255)%nat).
    { subst p4. rewrite length_append, length_str_take_min. lia. }
    destruct (Z.ltb_spec (Z.of_nat (String.length p4) + 2) 256); [| exact L4].
    rewrite length_append. simpl. lia.
  - intros dir Nd Nn L. unfold LdMain.library_path. cbv zeta.
    unfold Linker.MAX_FILENAME.
    rewrite (c_str_no_nul dir Nd), (c_str_no_nul name Nn).
    rewrite (str_take_all (Z.to_nat (256 - 1)) dir) by lia.
    set (sepfix := if Nat.eqb (String.length dir) 0 then ""
                   else if Ascii.eqb (LdMain.last_char dir) "/"
                           || Ascii.eqb (LdMain.last_char dir) "\"
                        then "" else "/").
    assert (P2 : (if (Z.of_nat (String.length dir) >? 0)
                     && negb (Ascii.eqb (LdMain.last_char dir) "/")
                     && negb (Ascii.eqb (LdMain.last_char dir) "\")
                  then if Z.of_nat (String.length dir) <? 256 - 1
                       then String.append dir "/" else dir
                  else dir) = String.append dir sepfix).
    { subst sepfix. destruct (String.length dir) as [| n] eqn:E.
      - destruct dir; [reflexivity | discriminate].
      - cbn [Nat.eqb]. replace (Z.of_nat (S n) >? 0) with true by (symmetry; apply Z.gtb_lt; lia).
        cbn [andb]. rewrite <- negb_orb.
        destruct (Ascii.eqb (LdMain.last_char dir) "/" || Ascii.eqb (LdMain.last_char dir) "\");
          cbn [negb].
        + clear. induction dir as [| c d IH]; simpl; [reflexivity | rewrite <- IH at 1; reflexivity].
        + destruct (Z.ltb_spec (Z.of_nat (S n)) (256 - 1)); [reflexivity | lia]. }
    rewrite P2.
    assert (Ls : (String.length sepfix <= 1)%nat).
    { subst sepfix. repeat match goal with |- context [if ?c then _ else _] => destruct c end;
        simpl; lia. }
    assert (L2 : String.length (String.append dir sepfix)
                 = (String.length dir + String.length sepfix)%nat) by apply length_append.
    destruct (Z.ltb_spec (Z.of_nat (String.length (String.append dir sepfix)) + 3) 256);
      [| lia].
    set (p3 := String.append (String.append dir sepfix) "lib").
    assert (L3 : String.length p3 = (String.length dir + String.length sepfix + 3)%nat).
    { subst p3. rewrite length_append, L2. reflexivity. }
    rewrite (str_take_all _ name) by lia.
    destruct (Z.ltb_spec (Z.of_nat (String.length (String.append p3 name)) + 2) 256) as [_ | G].
    + subst p3. rewrite !append_assoc. reflexivity.
    + rewrite length_append in G. lia.
  - intros before dir after B F. unfold LdMain.find_and_add_library.
    assert (S : LdMain.search_libdirs fs (before ++ dir :: after) name
                = Some (LdMain.library_path dir name)).
    { induction B as [| d before Hd B IH]; cbn [app LdMain.search_libdirs].
      - destruct (fs (LdMain.library_path dir name)); [reflexivity | contradiction].
      - rewrite Hd. exact IH. }
    rewrite S. reflexivity.
  - intros libdirs B. unfold LdMain.find_and_add_library.
    assert (S : LdMain.search_libdirs fs libdirs name = None).
    { induction B as [| d libdirs Hd B IH]; cbn [LdMain.search_libdirs]; [reflexivity |].
      rewrite Hd. exact IH. }
    rewrite S. reflexivity.
Qed.

Lemma X23_library_search_witness :
  LdMain.library_path "/usr/lib" "c" = "/usr/lib/libc.a"
  /\ LdMain.library_path "lib/" "agon" = "lib/libagon.a".
Proof.
  destruct (X23_library_search (fun _ => None) "c" (Linker.linker_init 0)) as (_ & P & _).
  destruct (X23_library_search (fun _ => None) "agon" (Linker.linker_init 0)) as (_ & Q & _).
  split.
  - apply (P "/usr/lib"); [reflexivity | reflexivity | simpl; lia].
  - apply (Q "lib/"); [reflexivity | reflexivity | simpl; lia].
Defined.

(** ** The command line of the assembler *)

Lemma parse_args_spec :
  forall n args o,
    (List.length args <= n)%nat ->
    (String.length (AsMain.output_file o) <= 255)%nat ->
    match AsMain.parse_args args o with
    | inl code => code = 1 \/ (code = 0 /\ existsb (fun a => streq a "-h") args = true)
    | inr o' => (String.length (AsMain.output_file o') <= 255)%nat
    end.
Proof.
  induction n as [| n IH]; intros args o Ln L.
  - destruct args; [exact L | simpl in Ln; lia].
  - destruct args as [| a args]; [exact L |].
    cbn [AsMain.parse_args existsb]. simpl in Ln.
    destruct (Ascii.eqb (deref a) "-").
    + destruct (streq a "-o") eqn:Eo.
      * destruct args as [| f rest]; [left; reflexivity |].
        specialize (IH rest (AsMain.mkOptions (AsMain.input_file o) (AsMain.strncpy255 f)
                               (AsMain.verbose o))).
        destruct (AsMain.parse_args rest _) as [code | o'].
        -- destruct IH as [I | [I1 I2]].
           ++ simpl in Ln. lia.
           ++ cbn [AsMain.output_file]. unfold AsMain.strncpy255.
              rewrite length_str_take_min. lia.
           ++ left. exact I.
           ++ right. split; [exact I1 |]. cbn [existsb]. rewrite I2, !orb_true_r. reflexivity.
        -- apply IH; [simpl in Ln; lia |].
           cbn [AsMain.output_file]. unfold AsMain.strncpy255.
           rewrite length_str_take_min. lia.
      * destruct (streq a "-v") eqn:Ev.
        -- specialize (IH args (AsMain.mkOptions (AsMain.input_file o) (AsMain.output_file o)
                                  true)).
           destruct (AsMain.parse_args args _) as [code | o'].
           ++ destruct IH as [I | [I1 I2]]; [lia | exact L | left; exact I |].
              right. split; [exact I1 |]. rewrite I2. apply orb_true_r.
           ++ apply IH; [lia | exact L].
        -- destruct (streq a "-h") eqn:Eh; [right; split; reflexivity | left; reflexivity].
    + destruct (AsMain.input_file o); [left; reflexivity |].
      specialize (IH args (AsMain.mkOptions (Some a) (AsMain.output_file o)
                             (AsMain.verbose o))).
      destruct (AsMain.parse_args args _) as [code | o'].
      * destruct IH as [I | [I1 I2]]; [lia | exact L | left; exact I |].
        right. split; [exact I1 |]. rewrite I2. apply orb_true_r.
      * apply IH; [lia | exact L].
Qed.

(** X24. The exit code of the assembler. [main] returns 0 or 1. It writes
    an object file only when it returns 0, under a name of at most 255
    characters, and what it writes is the output of an assembly from
    [asm_init] that returned 0. It returns 0 without writing a file only
    when [-h] is among the arguments. *)
Theorem X24_assembler_exit_code (fs : string -> option string) (depth : nat)
    (args : list string) (code : Z) (written : option (string * list Z))
    (Hrun : AsMain.main fs depth args = Some (code, written)) :
  (code = 0 \/ code = 1)
  /\ match written with
     | Some (name, obj) =>
         code = 0 /\ (String.length name <= 255)%nat /\ assembled_object obj
     | None => code = 0 -> existsb (fun a => streq a "-h") args = true
     end.
Proof.
  unfold AsMain.main in Hrun.
  pose proof (parse_args_spec (List.length args) args (AsMain.mkOptions None "" false)
                (le_n _)) as P.
  destruct (AsMain.parse_args args _) as [c | o].
  - injection Hrun as <- <-. destruct P as [-> | [-> H]]; [simpl; lia | |].
    + split; [right; reflexivity | discriminate].
    + split; [left; reflexivity | intros _; exact H].
  - specialize (P ltac:(simpl; lia)).
    destruct (AsMain.input_file o) as [input |].
    2:{ injection Hrun as <- <-. split; [right; reflexivity | discriminate]. }
    destruct (Asm.asm_file fs depth input Asm.asm_init) as [[result st] |] eqn:E;
      [| discriminate].
    destruct (Z.eqb_spec result 0) as [-> | N].
    + injection Hrun as <- <-. split; [left; reflexivity |].
      split; [reflexivity | split].
      * destruct (Ascii.eqb (deref (AsMain.output_file o)) NUL); [| exact P].
        pose proof (change_extension_length input ".o" 256 ltac:(lia)). lia.
      * exists fs, depth, input, st. split; [exact E | reflexivity].
    + injection Hrun as <- <-. split; [right; reflexivity | discriminate].
Qed.

Lemma X24_assembler_exit_code_witness :
  let fs := Asm.one_file (Asm.source ["start:"; " ret"]) in
  exists obj,
    AsMain.main fs 0 ["-v"; "in.asm"] = Some (0, Some ("in.o", obj))
    /\ assembled_object obj.
Proof.
  intros fs.
  exists (Asm.asm_output (Asm.state_after (Asm.asm_file fs 0 "in.asm") Asm.asm_init)).
  assert (R : AsMain.main fs 0 ["-v"; "in.asm"]
              = Some (0, Some ("in.o",
                        Asm.asm_output
                          (Asm.state_after (Asm.asm_file fs 0 "in.asm") Asm.asm_init))))
    by (vm_compute; reflexivity).
  split; [exact R |].
  destruct (X24_assembler_exit_code fs 0%nat ["-v"; "in.asm"] 0 _ R) as (_ & _ & _ & A).
  exact A.
Defined.

End MainMore.

